(** * dns-sd: a shallow embedding of the mDNS / DNS-SD library

    The development follows the TypeScript sources:
    - [src/utils/dns-utils.ts]   : [nameEquals], [encodeTXT], [decodeTXT]
    - [src/utils/ServiceType.ts] : [ServiceType.fromString], [ServiceType.toString]
    - [src/utils/MDNSServer.ts]  : the record table, [register], [unregister]
    - [src/registry/Registry.ts] and the class [Service] : the publisher
    - the class [Browser]        : the browser session
    - [src/utils/MDNSServer.ts]  : [respond], on the Map with its key order
    - [src/browser/DiscoveredService.ts] : [fromResponse], [fromPTR],
      the constructor and [expired]
    - the class [Browser], again : the listener of the responses, the
      TTL timers and the list of the services

    Conventions of the embedding.
    - A JavaScript string is the list of its UTF-16 code units ([list N]).
    - A [Buffer] is the list of its bytes ([list N], every element below 256).
    - A [Map] and the own entries of a plain object used as a dictionary
      ([Record<string, V>]) are finite maps ([gmap]).  The object that
      [decodeTXT] fills by assignment has a prototype besides
      ([DnsUtils.TxtObject]): the key [__proto__] is not stored, it
      changes the prototype, and a key that the object does not own is
      read and assigned through the prototype.  What the engine decides
      there is the parameter [Runtime].
    - A number that the code compares ([options.port]) is a [Number]:
      [NaN], an infinity or a fraction.  Times and times to live are
      integers.
    - Asynchronous code is defunctionalised: a callback handed to the
      transport or to [setTimeout] is a [Task] stored in the world, and the
      environment decides when it runs. *)

From Stdlib Require Import ZArith NArith Lia Ascii.
From Stdlib Require QArith Qcanon.
From stdpp Require Import gmap strings list fin_maps pretty.

Local Open Scope N_scope.

(** * The JavaScript runtime: strings and Buffers *)

Module JS.

(** A string is a sequence of UTF-16 code units. *)
Abbreviation jstring := (list N).
(** A Buffer is a sequence of bytes. *)
Abbreviation Buffer := (list N).

(** String literals of the sources, written as Rocq strings. *)
Definition chr (a : Ascii.ascii) : N := Ascii.N_of_ascii a.
Arguments chr a%_char.

Fixpoint js (s : string) : jstring :=
  match s with
  | EmptyString => []
  | String a r => chr a :: js r
  end.

(** [s.toLowerCase()] on a single character matched by [/[A-Z]/]. *)
Definition isCapitalLetter (c : N) : bool := (65 <=? c) && (c <=? 90).

Definition toLowerCase_AZ (c : N) : N :=
  if isCapitalLetter c then c + 32 else c.

(** [s.replace(/[A-Z]/g, s => s.toLowerCase())] *)
Definition replaceCapitalLetters (s : jstring) : jstring :=
  map toLowerCase_AZ s.

(** ECMAScript WhiteSpace and LineTerminator code points: the characters
    removed by [String.prototype.trim]. *)
Definition isWhiteSpace (c : N) : bool :=
  ((9 <=? c) && (c <=? 13)) || (c =? 32) || (c =? 160) || (c =? 5760)
  || ((8192 <=? c) && (c <=? 8202)) || (c =? 8232) || (c =? 8233)
  || (c =? 8239) || (c =? 8287) || (c =? 12288) || (c =? 65279).

Fixpoint trimStart (s : jstring) : jstring :=
  match s with
  | [] => []
  | c :: r => if isWhiteSpace c then trimStart r else s
  end.

Fixpoint trimEnd (s : jstring) : jstring :=
  match s with
  | [] => []
  | c :: r =>
      match trimEnd r with
      | [] => if isWhiteSpace c then [] else [c]
      | r' => c :: r'
      end
  end.

Definition trim (s : jstring) : jstring := trimEnd (trimStart s).

(** [s.split(sep)] for a one-character separator. *)
Fixpoint split (sep : N) (s : jstring) : list jstring :=
  match s with
  | [] => [[]]
  | c :: r =>
      if c =? sep then [] :: split sep r
      else match split sep r with
           | p :: ps => (c :: p) :: ps
           | [] => [[c]]
           end
  end.

(** [parts.join(sep)] *)
Fixpoint join (sep : jstring) (parts : list jstring) : jstring :=
  match parts with
  | [] => []
  | [p] => p
  | p :: ps => p ++ sep ++ join sep ps
  end.

Definition startsWith (c : N) (s : jstring) : bool :=
  match s with
  | d :: _ => d =? c
  | [] => false
  end.

(** [l.indexOf(x)], with the sentinel [-1]. *)
Fixpoint indexOf {A} `{EqDecision A} (x : A) (l : list A) : Z :=
  match l with
  | [] => (-1)%Z
  | y :: r =>
      if decide (y = x) then 0%Z
      else let i := indexOf x r in
           if (i =? -1)%Z then (-1)%Z else (i + 1)%Z
  end.

(** [l[i]]: [undefined] outside the array. *)
Definition at_index {A} (l : list A) (i : Z) : option A :=
  if (i <? 0)%Z then None else l !! Z.to_nat i.

(** [emitter.off(event, f)], [emitter.removeListener(event, f)] on the list
    of the listeners of the event: the last registration of [f] goes. *)
Fixpoint removeListener (f : nat) (l : list nat) : list nat :=
  match l with
  | [] => []
  | g :: r =>
      if decide (g = f) then
        if bool_decide (f ∈ r) then g :: removeListener f r else r
      else g :: removeListener f r
  end.

(** The outcome of a function that may throw an error of type [E]. *)
Inductive Result (E A : Type) :=
| Ok (a : A)
| Throw (e : E).
Arguments Ok {E A} a.
Arguments Throw {E A} e.

(** ** UTF-16 and UTF-8 *)

Definition isHighSurrogate (c : N) : bool := (0xD800 <=? c) && (c <=? 0xDBFF).
Definition isLowSurrogate (c : N) : bool := (0xDC00 <=? c) && (c <=? 0xDFFF).

(** U+FFFD REPLACEMENT CHARACTER and its UTF-8 form. *)
Definition replacementChar : N := 0xFFFD.
Definition replacementBytes : Buffer := [0xEF; 0xBF; 0xBD].

(** The code point of a surrogate pair. *)
Definition surrogatePair (hi lo : N) : N :=
  0x10000 + (hi - 0xD800) * 0x400 + (lo - 0xDC00).

(** UTF-8 bytes of one code point. *)
Definition utf8_of_codepoint (c : N) : Buffer :=
  if c <? 0x80 then [c]
  else if c <? 0x800 then [0xC0 + c / 64; 0x80 + c mod 64]
  else if c <? 0x10000 then
    [0xE0 + c / 4096; 0x80 + (c / 64) mod 64; 0x80 + c mod 64]
  else
    [0xF0 + c / 262144; 0x80 + (c / 4096) mod 64;
     0x80 + (c / 64) mod 64; 0x80 + c mod 64].

(** [Buffer.from(s)] (the default encoding is UTF-8): surrogate pairs are
    combined, an unpaired surrogate becomes U+FFFD. *)
Fixpoint Buffer_from (s : jstring) : Buffer :=
  match s with
  | [] => []
  | c :: r =>
      if isHighSurrogate c then
        match r with
        | d :: r' =>
            if isLowSurrogate d
            then utf8_of_codepoint (surrogatePair c d) ++ Buffer_from r'
            else replacementBytes ++ Buffer_from r
        | [] => replacementBytes
        end
      else if isLowSurrogate c then replacementBytes ++ Buffer_from r
      else utf8_of_codepoint c ++ Buffer_from r
  end.

(** UTF-16 code units of one code point. *)
Definition utf16_of_codepoint (c : N) : jstring :=
  if c <? 0x10000 then [c]
  else [0xD800 + (c - 0x10000) / 0x400; 0xDC00 + (c - 0x10000) mod 0x400].

Definition inRange (lo hi b : N) : bool := (lo <=? b) && (b <=? hi).

(** Range of the second byte of a three-byte sequence led by [b1]. *)
Definition second3 (b1 b2 : N) : bool :=
  inRange (if b1 =? 0xE0 then 0xA0 else 0x80)
          (if b1 =? 0xED then 0x9F else 0xBF) b2.

(** Range of the second byte of a four-byte sequence led by [b1]. *)
Definition second4 (b1 b2 : N) : bool :=
  inRange (if b1 =? 0xF0 then 0x90 else 0x80)
          (if b1 =? 0xF4 then 0x8F else 0xBF) b2.

(** [buf.toString('utf8')]: the UTF-8 decoder of the Encoding Standard.
    An ill-formed sequence yields U+FFFD and decoding resumes at the
    byte that broke it. *)
Fixpoint toString_utf8 (buf : Buffer) : jstring :=
  match buf with
  | [] => []
  | b1 :: r1 =>
      if b1 <? 0x80 then b1 :: toString_utf8 r1
      else if inRange 0xC2 0xDF b1 then
        match r1 with
        | b2 :: r2 =>
            if inRange 0x80 0xBF b2
            then ((b1 mod 32) * 64 + b2 mod 64) :: toString_utf8 r2
            else replacementChar :: toString_utf8 r1
        | [] => [replacementChar]
        end
      else if inRange 0xE0 0xEF b1 then
        match r1 with
        | b2 :: r2 =>
            if second3 b1 b2 then
              match r2 with
              | b3 :: r3 =>
                  if inRange 0x80 0xBF b3
                  then ((b1 mod 16) * 4096 + (b2 mod 64) * 64 + b3 mod 64)
                         :: toString_utf8 r3
                  else replacementChar :: toString_utf8 r2
              | [] => [replacementChar]
              end
            else replacementChar :: toString_utf8 r1
        | [] => [replacementChar]
        end
      else if inRange 0xF0 0xF4 b1 then
        match r1 with
        | b2 :: r2 =>
            if second4 b1 b2 then
              match r2 with
              | b3 :: r3 =>
                  if inRange 0x80 0xBF b3 then
                    match r3 with
                    | b4 :: r4 =>
                        if inRange 0x80 0xBF b4
                        then utf16_of_codepoint
                               ((b1 mod 8) * 262144 + (b2 mod 64) * 4096
                                + (b3 mod 64) * 64 + b4 mod 64)
                               ++ toString_utf8 r4
                        else replacementChar :: toString_utf8 r3
                    | [] => [replacementChar]
                    end
                  else replacementChar :: toString_utf8 r2
              | [] => [replacementChar]
              end
            else replacementChar :: toString_utf8 r1
        | [] => [replacementChar]
        end
      else replacementChar :: toString_utf8 r1
  end.

(** [buf.toString('ascii')]: one character per byte, the high bit of each
    byte cleared. *)
Definition toString_ascii (buf : Buffer) : jstring :=
  map (fun b => N.land b 0x7F) buf.

(** ** Numbers

    A number, as far as the source compares it: not a number, an
    infinity, or a finite value, kept as a fraction in lowest terms; the
    two zeros are the one [0]. *)
Inductive Number :=
| NaN
| Infinity (negative : bool)
| Finite (q : Qcanon.Qc).

#[export] Instance Number_eq_dec : EqDecision Number.
Proof.
  intros [| a | p] [| b | q]; try (right; discriminate); try (by left).
  - destruct (decide (a = b)) as [->|H]; [by left|right; congruence].
  - destruct (Qcanon.Qc_eq_dec p q) as [->|H]; [by left|right; congruence].
Defined.

(** The integer [z]. *)
Definition int (z : Z) : Number :=
  Finite (Qcanon.Q2Qc (QArith_base.inject_Z z)).

(** [a < b]: false as soon as one side is [NaN]. *)
Definition Number_lt (a b : Number) : bool :=
  match a, b with
  | NaN, _ | _, NaN => false
  | Infinity true, Infinity true => false
  | Infinity true, _ => true
  | _, Infinity true => false
  | Infinity false, _ => false
  | Finite _, Infinity false => true
  | Finite p, Finite q =>
      negb (QArith_base.Qle_bool (Qcanon.this q) (Qcanon.this p))
  end.

(** [a <= b]: [a < b] or [a == b], false as soon as one side is [NaN]. *)
Definition Number_le (a b : Number) : bool :=
  match a, b with
  | NaN, _ | _, NaN => false
  | _, _ => negb (Number_lt b a)
  end.

(** ** What the engine decides

    An object made by [{}] has [Object.prototype] for its prototype until
    an assignment to its key [__proto__] gives it a Buffer for one.  What
    an assignment [o[key] = value] does when [o] does not own [key] and
    its prototype is a Buffer is settled by the accessors and the
    integer-indexed keys of the typed arrays and of Node's Buffer; what an
    object inherits under a key is settled by the properties of its
    prototype chain.  Both are left to the runtime. *)

(** The outcome of an assignment: the object gets the key, the
    assignment is passed over, or a [TypeError] is thrown. *)
Inductive Assigned := Stored | Dropped | Thrown.

(** A value read from an object: a string, or another value, given by
    the text that [String(value)] makes of it. *)
Inductive Found :=
| FoundString (s : jstring)
| FoundOther (text : jstring).

#[export] Instance Found_eq_dec : EqDecision Found.
Proof. solve_decision. Defined.

Record Runtime := mkRuntime {
  (** [o[key] = value], [o] without the own key [key], its prototype
      the Buffer *)
  assignThrough : Buffer → jstring → Assigned;
  (** [o[key]], [o] without the own key [key], its prototype
      [Object.prototype] ([None]) or a Buffer; [None] is [undefined] *)
  inherited : option Buffer → jstring → option Found
}.

End JS.

(** * src/utils/dns-utils.ts *)

Module DnsUtils.
Import JS.

(** [nameEquals(a, b)]: equality after lowercasing ASCII [A-Z] only. *)
Definition nameEquals (a b : jstring) : bool :=
  let aFormatted := replaceCapitalLetters a in
  let bFormatted := replaceCapitalLetters b in
  bool_decide (aFormatted = bFormatted).

(** A value of the map given to [encodeTXT]:
    [string | number | boolean | Buffer].  A number carries the text that
    [Number.prototype.toString] gives for it. *)
Inductive TxtInput :=
| TxtString (s : jstring)
| TxtNumber (repr : jstring)
| TxtBoolean (b : bool)
| TxtBuffer (b : Buffer).

(** The conversion done by the template literal [`${value}`]. *)
Definition templateString (value : TxtInput) : jstring :=
  match value with
  | TxtString s => s
  | TxtNumber repr => repr
  | TxtBoolean b => if b then js "true" else js "false"
  | TxtBuffer b => toString_utf8 b
  end.

(** [encodeTXT(data)].  The object [data] is given by [Object.entries(data)]:
    its own entries, in enumeration order. *)
Definition encodeTXT (data : list (jstring * TxtInput)) : list Buffer :=
  map (fun '(key, value) => Buffer_from (key ++ js "=" ++ templateString value))
      data.

(** An element handed to [decodeTXT]: [string | Buffer]. *)
Inductive TxtItem :=
| ItemString (s : jstring)
| ItemBuffer (b : Buffer).

(** The argument of [decodeTXT]: [string | Buffer | (string | Buffer)[]]. *)
Inductive TxtData :=
| TxtOne (x : TxtItem)
| TxtMany (xs : list TxtItem).

(** A decoded value: a string ([binary = false]) or a Buffer. *)
Inductive TxtValue :=
| ValString (s : jstring)
| ValBuffer (b : Buffer).

#[export] Instance TxtInput_eq_dec : EqDecision TxtInput.
Proof. solve_decision. Defined.
#[export] Instance TxtItem_eq_dec : EqDecision TxtItem.
Proof. solve_decision. Defined.
#[export] Instance TxtData_eq_dec : EqDecision TxtData.
Proof. solve_decision. Defined.
#[export] Instance TxtValue_eq_dec : EqDecision TxtValue.
Proof. solve_decision. Defined.

(** [Buffer.isBuffer(buffer) ? buffer : Buffer.from(buffer)] *)
Definition toBuffer (buffer : TxtItem) : Buffer :=
  match buffer with
  | ItemBuffer b => b
  | ItemString s => Buffer_from s
  end.

(** The inner function [decode] of [decodeTXT]: a one-entry object. *)
Definition decode (buffer : TxtItem) (binary : bool) : gmap jstring TxtValue :=
  let buf := toBuffer buffer in
  let asciiStr := toString_ascii buf in
  let eqIndex := indexOf (chr "=") asciiStr in
  if (eqIndex =? -1)%Z then
    if binary then {[ asciiStr := ValBuffer [] ]}
    else {[ asciiStr := ValString [] ]}
  else
    let key := take (Z.to_nat eqIndex) asciiStr in
    let valueBuf := drop (Z.to_nat (eqIndex + 1)) buf in
    let value :=
      if binary then ValBuffer valueBuf
      else ValString (toString_utf8 valueBuf) in
    {[ key := value ]}.

(** [[buffer].flat()] *)
Definition flat (buffer : TxtData) : list TxtItem :=
  match buffer with
  | TxtOne x => [x]
  | TxtMany xs => xs
  end.

(** The object [result] of [decodeTXT]: its own entries, and its
    prototype when that is a Buffer ([None] is [Object.prototype]). *)
Record TxtObject := mkObject {
  own : gmap jstring TxtValue;
  prototype : option Buffer
}.

(** What [decodeTXT] throws. *)
Inductive Error := TypeError.

Section runtime.
Variable runtime : Runtime.

(** [result[key] = value].  The key [__proto__] is the accessor of
    [Object.prototype]: its setter gives the object the value for its
    prototype when the value is an object, a Buffer here, and does nothing
    with a string.  A key that the object owns is written.  Another key
    is added to an object whose prototype is [Object.prototype], which
    has no other accessor and nothing read-only; under a Buffer the
    runtime decides. *)
Definition assign (result : TxtObject) (key : jstring) (value : TxtValue)
    : Result Error TxtObject :=
  let stored := mkObject (<[key := value]> (own result)) (prototype result) in
  if bool_decide (key = js "__proto__") then
    match value with
    | ValBuffer buffer => Ok (mkObject (own result) (Some buffer))
    | ValString _ => Ok result
    end
  else if bool_decide (is_Some (own result !! key)) then Ok stored
  else
    match prototype result with
    | None => Ok stored
    | Some buffer =>
        match assignThrough runtime buffer key with
        | Stored => Ok stored
        | Dropped => Ok result
        | Thrown => Throw TypeError
        end
    end.

(** The body of the loop of [decodeTXT]. *)
Definition decodeTXT_step (binary : bool)
    (result : TxtObject) (buffer : TxtItem) : Result Error TxtObject :=
  let entry := decode buffer binary in
  let entries := map_to_list entry in
  match entries with
  | [(key, value)] => assign result key value
  | _ => Ok result
  end.

(** The loop of [decodeTXT]. *)
Fixpoint decodeTXT_loop (binary : bool) (buffers : list TxtItem)
    (result : TxtObject) : Result Error TxtObject :=
  match buffers with
  | [] => Ok result
  | buffer :: buffers =>
      match decodeTXT_step binary result buffer with
      | Ok result => decodeTXT_loop binary buffers result
      | Throw e => Throw e
      end
  end.

Definition decodeTXT (buffer : TxtData) (binary : bool)
    : Result Error TxtObject :=
  let buffers := flat buffer in
  decodeTXT_loop binary buffers (mkObject ∅ None).

End runtime.

End DnsUtils.

(** * src/utils/ServiceType.ts *)

Module ServiceType.
Import JS.

Record t := mk {
  name : option jstring;
  protocol : option jstring;
  subtype : option jstring
}.

#[export] Instance t_eq_dec : EqDecision t.
Proof. solve_decision. Defined.

(** The errors thrown by [fromString]:
    - [EmptyInput]: 'Service type string is empty'
    - [SubFirst]: 'Invalid service type: "sub" cannot be first element'
    - [MissingNameOrProtocol]:
      'Invalid service type format: missing name or protocol' *)
Inductive Error := EmptyInput | SubFirst | MissingNameOrProtocol.

(** [part.startsWith('_') ? part.slice(1) : part] *)
Definition stripUnderscore (part : jstring) : jstring :=
  if startsWith (chr "_") part then drop 1 part else part.

Definition fromString (input : jstring) : Result Error t :=
  if bool_decide (input = []) then Throw EmptyInput
  else
    let parts := map trim (split (chr ".") input) in
    let parts := map stripUnderscore parts in
    let subIndex := indexOf (js "sub") parts in
    if negb (subIndex =? -1)%Z then
      if (subIndex =? 0)%Z then
        Throw SubFirst
      else
        let subtype := at_index parts (subIndex - 1) in
        let name := at_index parts (subIndex + 1) in
        let protocol := at_index parts (subIndex + 2) in
        match name, protocol with
        | Some _, Some _ => Ok (mk name protocol subtype)
        | _, _ => Throw MissingNameOrProtocol
        end
    else
      let name := at_index parts 0 in
      let protocol := at_index parts 1 in
      match name, protocol with
      | Some _, Some _ => Ok (mk name protocol None)
      | _, _ => Throw MissingNameOrProtocol
      end.

Definition toString (st : t) : jstring :=
  let parts := [] in
  let parts :=
    match subtype st with
    | Some s => parts ++ [chr "_" :: s; js "_sub"]
    | None => parts
    end in
  let parts :=
    match name st with
    | Some n => parts ++ [chr "_" :: n]
    | None => parts
    end in
  let parts :=
    match protocol st with
    | Some p => parts ++ [chr "_" :: p]
    | None => parts
    end in
  join (js ".") parts.

End ServiceType.

(** * src/utils/MDNSServer.ts *)

(** The record types of [MDNSRecord = StringAnswer | TxtAnswer | SrvAnswer]. *)
Module RecordType.
Inductive t := A | AAAA | CNAME | DNAME | NS | PTR | SRV | TXT.

Definition code (x : t) : nat :=
  match x with
  | A => 0 | AAAA => 1 | CNAME => 2 | DNAME => 3
  | NS => 4 | PTR => 5 | SRV => 6 | TXT => 7
  end%nat.

Definition of_code (n : nat) : option t :=
  match n with
  | 0 => Some A | 1 => Some AAAA | 2 => Some CNAME | 3 => Some DNAME
  | 4 => Some NS | 5 => Some PTR | 6 => Some SRV | 7 => Some TXT
  | _ => None
  end%nat.

#[export] Instance eq_dec : EqDecision t.
Proof. solve_decision. Defined.
#[export] Instance countable : Countable t :=
  inj_countable code of_code ltac:(by intros []).
End RecordType.
Export (hints) RecordType.

Module MDNSServer.
Import JS DnsUtils.

(** The [data] of an SRV record. *)
Record SrvData := mkSrv {
  port : Number;
  target : jstring;
  priority : option Z;
  weight : option Z
}.

(** The [data] field: a string (A, AAAA, PTR, ...), TXT data or SRV data. *)
Inductive RData :=
| DataString (s : jstring)
| DataTxt (d : TxtData)
| DataSrv (d : SrvData).

Record MDNSRecord := mkRecord {
  type : RecordType.t;
  name : jstring;
  ttl : Z;
  data : RData
}.

#[export] Instance SrvData_eq_dec : EqDecision SrvData.
Proof. solve_decision. Defined.
#[export] Instance RData_eq_dec : EqDecision RData.
Proof. solve_decision. Defined.
#[export] Instance MDNSRecord_eq_dec : EqDecision MDNSRecord.
Proof. solve_decision. Defined.

(** [typeToRecords : Map<RecordType, MDNSRecord[]>] *)
Abbreviation Table := (gmap RecordType.t (list MDNSRecord)).

(** [equal(a, b)] of fast-deep-equal on two elements of TXT data.  Two
    strings are compared by [===].  Two Buffers have the same constructor,
    are no arrays and have the [valueOf] of [Object.prototype] but a
    [toString] of their own: they are compared by
    [a.toString() === b.toString()].  A string and a Buffer are not
    equal. *)
Definition equalItem (a b : TxtItem) : bool :=
  match a, b with
  | ItemString s, ItemString t => bool_decide (s = t)
  | ItemBuffer x, ItemBuffer y =>
      bool_decide (toString_utf8 x = toString_utf8 y)
  | _, _ => false
  end.

(** On two arrays: the same length and equal elements. *)
Fixpoint equalItems (a b : list TxtItem) : bool :=
  match a, b with
  | [], [] => true
  | x :: a, y :: b => equalItem x y && equalItems a b
  | _, _ => false
  end.

(** [deepEqual] of fast-deep-equal on the data of two records.  The data
    of a PTR, A or AAAA record and TXT data that are one string are both
    a string.  Two SRV data are compared key by key, a number with a
    number by [===] save that [NaN] equals [NaN]. *)
Definition deepEqual (a b : RData) : bool :=
  match a, b with
  | DataString s, DataString t => bool_decide (s = t)
  | DataString s, DataTxt (TxtOne (ItemString t))
  | DataTxt (TxtOne (ItemString s)), DataString t => bool_decide (s = t)
  | DataTxt (TxtOne x), DataTxt (TxtOne y) => equalItem x y
  | DataTxt (TxtMany xs), DataTxt (TxtMany ys) => equalItems xs ys
  | DataSrv x, DataSrv y => bool_decide (x = y)
  | _, _ => false
  end.

Definition isDuplicate (a b : MDNSRecord) : bool :=
  bool_decide (type a = type b) && bool_decide (name a = name b)
  && deepEqual (data a) (data b).

(** The body of the loop of [register]. *)
Definition register_step (typeToRecords : Table) (record : MDNSRecord) : Table :=
  let type := type record in
  let records := default [] (typeToRecords !! type) in
  let records :=
    if forallb (fun r => negb (isDuplicate r record)) records
    then records ++ [record]
    else records in
  <[type := records]> typeToRecords.

Definition register (records : list MDNSRecord) (typeToRecords : Table) : Table :=
  fold_left register_step records typeToRecords.

(** The body of the loop of [unregister]. *)
Definition unregister_step (typeToRecords : Table) (record : MDNSRecord) : Table :=
  let type := type record in
  let records := default [] (typeToRecords !! type) in
  let filtered := filter (fun r => name r ≠ name record) records in
  if (0 <? length filtered)%nat
  then <[type := filtered]> typeToRecords
  else delete type typeToRecords.

Definition unregister (records : list MDNSRecord) (typeToRecords : Table) : Table :=
  fold_left unregister_step records typeToRecords.

(** [name.includes('.')] *)
Definition includesDot (name : jstring) : bool :=
  existsb (fun c => c =? chr ".") name.

Definition getRecordsOf (typeToRecords : Table) (type : RecordType.t)
    (name : jstring) : list MDNSRecord :=
  List.filter
    (fun record =>
       let targetName :=
         if includesDot name then Some (MDNSServer.name record)
         else head (split (chr ".") (MDNSServer.name record)) in
       match targetName with
       | Some targetName => nameEquals targetName name
       | None => false
       end)
    (default [] (typeToRecords !! type)).


End MDNSServer.

(** * src/registry/Service.ts: the record and its record set *)

Module Service.
Import JS DnsUtils.

(** An address of [os.networkInterfaces()]. *)
Inductive Family := IPv4 | IPv6.

Record NetworkInterfaceInfo := mkInfo {
  address : jstring;
  family : Family;
  mac : jstring;
  internal : bool
}.

Record ServiceOptions := mkOptions {
  opt_protocol : option jstring;
  opt_type : jstring;
  opt_subtypes : option (list jstring);
  opt_name : jstring;
  opt_host : option jstring;
  opt_port : Number;
  opt_txt : option (list (jstring * TxtInput));
  opt_ttl : option Z;
  opt_probe : option bool;
  opt_probeAutoResolve : option bool;
  opt_disableIPv6 : option bool
}.

Record t := mk {
  protocol : jstring;
  type : jstring;
  name : jstring;
  subtypes : list jstring;
  host : jstring;
  port : Number;
  txt : list (jstring * TxtInput);
  ttl : Z;
  probe : bool;
  probeAutoResolve : bool;
  disableIPv6 : bool;
  fqdn : jstring;
  started : bool;
  published : bool;
  destroyed : bool
}.

Definition TLD : jstring := js ".local".

(** The error of the constructor: 'Invalid port number'. *)
Inductive Error := InvalidPort.

(** [new Service(options)]; [hostname] is the value of [os.hostname()]. *)
Definition new (options : ServiceOptions) (hostname : jstring) : Result Error t :=
  if Number_le (opt_port options) (int 0)
     || Number_lt (int 65535) (opt_port options)
  then Throw InvalidPort
  else
    let protocol := default (js "tcp") (opt_protocol options) in
    let type :=
      ServiceType.toString
        (ServiceType.mk (Some (opt_type options)) (Some protocol) None) in
    let name := join (js "-") (split (chr ".") (opt_name options)) in
    Ok {| protocol := protocol;
          type := type;
          name := name;
          subtypes := default [] (opt_subtypes options);
          host := default hostname (opt_host options);
          port := opt_port options;
          txt := default [] (opt_txt options);
          ttl := default 28800%Z (opt_ttl options);
          probe := default true (opt_probe options);
          probeAutoResolve := default true (opt_probeAutoResolve options);
          disableIPv6 := default false (opt_disableIPv6 options);
          fqdn := name ++ js "." ++ type ++ TLD;
          started := false;
          published := false;
          destroyed := false |}.

Definition set_started (b : bool) (s : t) : t :=
  mk (protocol s) (type s) (name s) (subtypes s) (host s) (port s) (txt s)
     (ttl s) (probe s) (probeAutoResolve s) (disableIPv6 s) (fqdn s)
     b (published s) (destroyed s).

Definition set_published (b : bool) (s : t) : t :=
  mk (protocol s) (type s) (name s) (subtypes s) (host s) (port s) (txt s)
     (ttl s) (probe s) (probeAutoResolve s) (disableIPv6 s) (fqdn s)
     (started s) b (destroyed s).

Definition set_destroyed (b : bool) (s : t) : t :=
  mk (protocol s) (type s) (name s) (subtypes s) (host s) (port s) (txt s)
     (ttl s) (probe s) (probeAutoResolve s) (disableIPv6 s) (fqdn s)
     (started s) (published s) b.

(** [service.name = n; service.fqdn = f] *)
Definition set_name_fqdn (n f : jstring) (s : t) : t :=
  mk (protocol s) (type s) n (subtypes s) (host s) (port s) (txt s)
     (ttl s) (probe s) (probeAutoResolve s) (disableIPv6 s) f
     (started s) (published s) (destroyed s).

Definition getRecordPTR (this : t) : MDNSServer.MDNSRecord :=
  MDNSServer.mkRecord RecordType.PTR (type this ++ TLD) (ttl this)
    (MDNSServer.DataString (fqdn this)).

Definition getRecordPTRSubtype (this : t) (subtype : jstring)
    : MDNSServer.MDNSRecord :=
  MDNSServer.mkRecord RecordType.PTR
    (js "_" ++ subtype ++ js "._sub." ++ type this ++ TLD) (ttl this)
    (MDNSServer.DataString (name this ++ js "." ++ type this ++ TLD)).

Definition getRecordPTRServiceTypeEnumeration (this : t)
    : MDNSServer.MDNSRecord :=
  MDNSServer.mkRecord RecordType.PTR (js "_services._dns-sd._udp" ++ TLD)
    (ttl this) (MDNSServer.DataString (type this ++ TLD)).

Definition getRecordSRV (this : t) : MDNSServer.MDNSRecord :=
  MDNSServer.mkRecord RecordType.SRV (fqdn this) (ttl this)
    (MDNSServer.DataSrv (MDNSServer.mkSrv (port this) (host this) None None)).

Definition getRecordTXT (this : t) : MDNSServer.MDNSRecord :=
  MDNSServer.mkRecord RecordType.TXT (fqdn this) (ttl this)
    (MDNSServer.DataTxt (TxtMany (map ItemBuffer (encodeTXT (txt this))))).

Definition getRecordA (this : t) (ip : jstring) : MDNSServer.MDNSRecord :=
  MDNSServer.mkRecord RecordType.A (host this) (ttl this)
    (MDNSServer.DataString ip).

Definition getRecordAAAA (this : t) (ip : jstring) : MDNSServer.MDNSRecord :=
  MDNSServer.mkRecord RecordType.AAAA (host this) (ttl this)
    (MDNSServer.DataString ip).

(** The records of one interface address. *)
Definition addressRecords (this : t) (addr : NetworkInterfaceInfo)
    : list MDNSServer.MDNSRecord :=
  if internal addr || bool_decide (mac addr = js "00:00:00:00:00:00") then []
  else
    match family addr with
    | IPv4 => [getRecordA this (address addr)]
    | IPv6 =>
        if disableIPv6 this then [] else [getRecordAAAA this (address addr)]
    end.

(** [getRecords()]; [ifaces] is [Object.values(os.networkInterfaces())]. *)
Definition getRecords (this : t) (ifaces : list (list NetworkInterfaceInfo))
    : list MDNSServer.MDNSRecord :=
  let records :=
    [getRecordPTR this; getRecordSRV this; getRecordTXT this;
     getRecordPTRServiceTypeEnumeration this] in
  let records := records ++ map (getRecordPTRSubtype this) (subtypes this) in
  let records :=
    records ++ flat_map (fun iface => flat_map (addressRecords this) iface) ifaces in
  records.

End Service.

(** * src/registry/Registry.ts and the methods of Service that call it

    The registry, its services, the responder table and the transport form
    one world.  Objects are referred to by number.  A function of the
    sources that registers a callback stores a [Task]; running the task is
    an event of the environment. *)

Module Registry.
Import JS DnsUtils MDNSServer.

Definition MAX_PROBE_AUTO_RESOLVE_ATTEMPTS : nat := 10.
Definition REANNOUNCE_MAX_MS : Z := 60 * 60 * 1000.
Definition REANNOUNCE_FACTOR : Z := 3.

(** The events of a Service. *)
Inductive ServiceEvent := up | down.

(** The delay of a timer: a number of milliseconds, or
    [Math.random() * ms]. *)
Inductive Delay :=
| Ms (ms : Z)
| RandomBelow (ms : Z).

(** The callback given to [.finally] after [goodbye]. *)
Inductive Finally :=
| FinallyStop (service : nat)        (* onServiceStop *)
| FinallyUnpublishAll.               (* unpublishAll *)

(** What follows [await this.probe(service)] in [onServiceStart]. *)
Inductive Resume :=
| ResumeAutoResolve (service : nat) (originalName fqdnSuffix : jstring)
                    (attempt : nat)
| ResumeProbeOnce (service : nat).

(** The callbacks held by the transport and by the timers. *)
Inductive Task :=
| AnnounceResponded (service : nat) (records : list MDNSRecord) (delay : Z)
| BroadcastTimeout (service : nat) (records : list MDNSRecord) (delay : Z)
| GoodbyeResponded (publishedServices : list nat) (k : Finally)
| ProbeSend (p : nat)
| ProbeQueried (p : nat)
| ProbeDone (p : nat).

(** The variables closed over by one call of [probe]. *)
Record ProbeSession := mkProbe {
  probe_service : nat;
  sent : bool;
  retries : nat;
  timer : option nat;
  resolved : option bool;     (* the value the promise was resolved with *)
  resume : Resume
}.

Inductive Message :=
| ProbingError              (* 'Error during probing:' *)
| AnnouncementError         (* 'Error during announcement:' *)
| ConflictsUnresolved       (* 'Failed to resolve name conflicts after ...' *)
| NameInUse.                (* 'Service name is already in use on the network' *)

(** What the world does that can be observed from outside. *)
Inductive Action :=
| Respond (records : list MDNSRecord)      (* mdns.respond(records, cb) *)
| Query (name : jstring)                   (* mdns.query(name, 'ANY', cb) *)
| SetTimeout (id : nat) (delay : Delay)    (* setTimeout(f, delay) *)
| Emit (service : nat) (e : ServiceEvent)  (* service.emit(e) *)
| ConsoleWarn (m : Message)
| ConsoleError (m : Message)
| Rejected.                                (* the promise of goodbye rejects *)

Record ResponsePacket := mkPacket {
  answers : list MDNSRecord;
  additionals : list MDNSRecord
}.

Record World := mkWorld {
  services : gmap nat Service.t;           (* the Service objects *)
  startedServices : list nat;              (* Registry.startedServices *)
  typeToRecords : Table;                   (* MDNSServer.typeToRecords *)
  probes : gmap nat ProbeSession;          (* the running calls of probe *)
  responseListeners : list nat;            (* mdns listeners of 'response' *)
  tasks : gmap nat Task;                   (* pending callbacks and timers *)
  microtasks : list (Resume * bool);       (* resolved awaits, to be resumed *)
  nextId : nat;                            (* the next fresh reference *)
  networkInterfaces : list (list Service.NetworkInterfaceInfo);
  hostname : jstring;                      (* os.hostname() *)
  trace : list Action                      (* oldest first *)
}.

Definition upd_services (f : gmap nat Service.t -> gmap nat Service.t)
    (w : World) : World :=
  mkWorld (f (services w)) (startedServices w) (typeToRecords w) (probes w)
    (responseListeners w) (tasks w) (microtasks w) (nextId w)
    (networkInterfaces w) (hostname w) (trace w).

Definition upd_startedServices (f : list nat -> list nat) (w : World) : World :=
  mkWorld (services w) (f (startedServices w)) (typeToRecords w) (probes w)
    (responseListeners w) (tasks w) (microtasks w) (nextId w)
    (networkInterfaces w) (hostname w) (trace w).

Definition upd_typeToRecords (f : Table -> Table) (w : World) : World :=
  mkWorld (services w) (startedServices w) (f (typeToRecords w)) (probes w)
    (responseListeners w) (tasks w) (microtasks w) (nextId w)
    (networkInterfaces w) (hostname w) (trace w).

Definition upd_probes (f : gmap nat ProbeSession -> gmap nat ProbeSession)
    (w : World) : World :=
  mkWorld (services w) (startedServices w) (typeToRecords w) (f (probes w))
    (responseListeners w) (tasks w) (microtasks w) (nextId w)
    (networkInterfaces w) (hostname w) (trace w).

Definition upd_responseListeners (f : list nat -> list nat) (w : World) : World :=
  mkWorld (services w) (startedServices w) (typeToRecords w) (probes w)
    (f (responseListeners w)) (tasks w) (microtasks w) (nextId w)
    (networkInterfaces w) (hostname w) (trace w).

Definition upd_tasks (f : gmap nat Task -> gmap nat Task) (w : World) : World :=
  mkWorld (services w) (startedServices w) (typeToRecords w) (probes w)
    (responseListeners w) (f (tasks w)) (microtasks w) (nextId w)
    (networkInterfaces w) (hostname w) (trace w).

Definition upd_microtasks (f : list (Resume * bool) -> list (Resume * bool))
    (w : World) : World :=
  mkWorld (services w) (startedServices w) (typeToRecords w) (probes w)
    (responseListeners w) (tasks w) (f (microtasks w)) (nextId w)
    (networkInterfaces w) (hostname w) (trace w).

Definition upd_nextId (f : nat -> nat) (w : World) : World :=
  mkWorld (services w) (startedServices w) (typeToRecords w) (probes w)
    (responseListeners w) (tasks w) (microtasks w) (f (nextId w))
    (networkInterfaces w) (hostname w) (trace w).

Definition log (a : Action) (w : World) : World :=
  mkWorld (services w) (startedServices w) (typeToRecords w) (probes w)
    (responseListeners w) (tasks w) (microtasks w) (nextId w)
    (networkInterfaces w) (hostname w) (trace w ++ [a]).

(** ** The transport and the timers *)

(** [setTimeout(task, delay)]: the handle and the new world. *)
Definition setTimeout (task : Task) (delay : Delay) (w : World) : nat * World :=
  let id := nextId w in
  (id, log (SetTimeout id delay) (upd_tasks (insert id task) (upd_nextId S w))).

(** [clearTimeout(timer)] *)
Definition clearTimeout (timer : option nat) (w : World) : World :=
  match timer with
  | Some id => upd_tasks (delete id) w
  | None => w
  end.

(** [mdns.respond(records, callback)] *)
Definition mdns_respond (records : list MDNSRecord) (callback : Task)
    (w : World) : World :=
  let id := nextId w in
  log (Respond records) (upd_tasks (insert id callback) (upd_nextId S w)).

(** [mdns.query(name, 'ANY', callback)] *)
Definition mdns_query (name : jstring) (callback : Task) (w : World) : World :=
  let id := nextId w in
  log (Query name) (upd_tasks (insert id callback) (upd_nextId S w)).

(** ** goodbye, onServiceStop, Service.stop *)

Definition isPublished (w : World) (service : nat) : bool :=
  match services w !! service with
  | Some s => Service.published s
  | None => false
  end.

(** [service.getRecords()] *)
Definition getRecords (w : World) (service : nat) : list MDNSRecord :=
  match services w !! service with
  | Some s => Service.getRecords s (networkInterfaces w)
  | None => []
  end.

(** [{ ...record, ttl: 0 }] *)
Definition withTtl0 (record : MDNSRecord) : MDNSRecord :=
  mkRecord (type record) (name record) 0 (data record).

(** [index = l.indexOf(x); if (index !== -1) l.splice(index, 1)] *)
Fixpoint spliceFirst (x : nat) (l : list nat) : list nat :=
  match l with
  | [] => []
  | y :: r => if decide (y = x) then r else y :: spliceFirst x r
  end.

Definition runFinally (k : Finally) (w : World) : World :=
  match k with
  | FinallyStop service => upd_startedServices (spliceFirst service) w
  | FinallyUnpublishAll => upd_startedServices (fun _ => []) w
  end.

Definition goodbye (services : list nat) (k : Finally) (w : World) : World :=
  let publishedServices := List.filter (isPublished w) services in
  if (length publishedServices =? 0)%nat then runFinally k w
  else
    let records :=
      flat_map (fun service => map withTtl0 (getRecords w service))
               publishedServices in
    if (length records =? 0)%nat then runFinally k w
    else
      let w := upd_typeToRecords (unregister records) w in
      mdns_respond records (GoodbyeResponded publishedServices k) w.

(** The callback of [mdns.respond] in [goodbye]. *)
Definition goodbyeResponded (publishedServices : list nat) (k : Finally)
    (error : bool) (w : World) : World :=
  let w :=
    fold_left
      (fun w service =>
         log (Emit service down)
             (upd_services (alter (Service.set_published false) service) w))
      publishedServices w in
  let w := if error then log Rejected w else w in
  runFinally k w.

Definition onServiceStop (service : nat) (w : World) : World :=
  goodbye [service] (FinallyStop service) w.

(** [Service.stop()] *)
Definition Service_stop (service : nat) (w : World) : World :=
  match services w !! service with
  | Some s =>
      if Service.started s then
        let w := upd_services (alter (Service.set_started false) service) w in
        onServiceStop service w
      else w
  | None => w
  end.

Definition unpublishAll (w : World) : World :=
  goodbye (startedServices w) FinallyUnpublishAll w.

Definition destroy (w : World) : World :=
  fold_left
    (fun w service =>
       upd_services (alter (Service.set_destroyed true) service) w)
    (startedServices w) w.

(** ** announce *)

(** The closure [broadcast] of [announce], with its variables. *)
Definition broadcast (service : nat) (records : list MDNSRecord) (delay : Z)
    (w : World) : World :=
  match services w !! service with
  | Some s =>
      if negb (Service.started s) || Service.destroyed s then w
      else mdns_respond records (AnnounceResponded service records delay) w
  | None => w
  end.

(** The callback of [mdns.respond] in [broadcast]. *)
Definition announceResponded (service : nat) (records : list MDNSRecord)
    (delay : Z) (error : bool) (w : World) : World :=
  let w := if error then log (ConsoleWarn AnnouncementError) w else w in
  match services w !! service with
  | Some s =>
      let w :=
        if negb (Service.published s) then
          log (Emit service up)
              (upd_services (alter (Service.set_published true) service) w)
        else w in
      let delay := (delay * REANNOUNCE_FACTOR)%Z in
      if (delay <? REANNOUNCE_MAX_MS)%Z && negb (Service.destroyed s)
      then (setTimeout (BroadcastTimeout service records delay) (Ms delay) w).2
      else w
  | None => w
  end.

Definition announce (service : nat) (w : World) : World :=
  let records := getRecords w service in
  let w := upd_typeToRecords (register records) w in
  let delay := 1000%Z in
  broadcast service records delay w.

(** ** probe *)

Definition set_session (p : nat) (ps : ProbeSession) (w : World) : World :=
  upd_probes (insert p ps) w.

Definition probe (service : nat) (resume : Resume) (w : World) : World :=
  let p := nextId w in
  let w := upd_nextId S w in
  let w := set_session p (mkProbe service false 0 None None resume) w in
  let w := upd_responseListeners (fun l => l ++ [p]) w in
  (setTimeout (ProbeSend p) (RandomBelow 250) w).2.

(** The closure [send] of [probe]. *)
Definition send (p : nat) (w : World) : World :=
  match probes w !! p with
  | Some ps =>
      match services w !! probe_service ps with
      | Some s =>
          if negb (Service.started s) || Service.destroyed s then w
          else mdns_query (Service.fqdn s) (ProbeQueried p) w
      | None => w
      end
  | None => w
  end.

(** The callback of [mdns.query] in [send]. *)
Definition probeQueried (p : nat) (error : bool) (w : World) : World :=
  let w := if error then log (ConsoleWarn ProbingError) w else w in
  match probes w !! p with
  | Some ps =>
      let retries := S (retries ps) in
      let '(id, w) :=
        setTimeout (if (retries <? 3)%nat then ProbeSend p else ProbeDone p)
                   (Ms 250) w in
      set_session p
        (mkProbe (probe_service ps) true retries (Some id) (resolved ps)
                 (resume ps)) w
  | None => w
  end.

(** The closure [done] of [probe]. *)
Definition done (p : nat) (exists_ : bool) (w : World) : World :=
  match probes w !! p with
  | Some ps =>
      let w := upd_responseListeners (removeListener p) w in
      let w := clearTimeout (timer ps) w in
      match resolved ps with
      | None =>
          let w :=
            set_session p
              (mkProbe (probe_service ps) (sent ps) (retries ps) (timer ps)
                       (Some exists_) (resume ps)) w in
          upd_microtasks (fun m => m ++ [(resume ps, exists_)]) w
      | Some _ => w
      end
  | None => w
  end.

(** [packet.answers.some(...) || packet.additionals.some(...)] *)
Definition namesFqdn (fqdn : jstring) (packet : ResponsePacket) : bool :=
  existsb (fun a => nameEquals (name a) fqdn) (answers packet)
  || existsb (fun a => nameEquals (name a) fqdn) (additionals packet).

(** The closure [onresponse] of [probe]. *)
Definition onresponse (p : nat) (packet : ResponsePacket) (w : World) : World :=
  match probes w !! p with
  | Some ps =>
      if negb (sent ps) then w
      else
        match services w !! probe_service ps with
        | Some s =>
            if namesFqdn (Service.fqdn s) packet then done p true w else w
        | None => w
        end
  | None => w
  end.

(** ** onServiceStart, Service.start *)

(** After the loop of the auto-resolve branch. *)
Definition autoResolveEnd (service attempt : nat) (w : World) : World :=
  if (MAX_PROBE_AUTO_RESOLVE_ATTEMPTS <? attempt)%nat
  then Service_stop service (log (ConsoleError ConflictsUnresolved) w)
  else announce service w.

(** The test of the loop [while (attempt <= MAX_PROBE_AUTO_RESOLVE_ATTEMPTS)]
    up to the [await]. *)
Definition autoResolveLoop (service : nat) (originalName fqdnSuffix : jstring)
    (attempt : nat) (w : World) : World :=
  if (attempt <=? MAX_PROBE_AUTO_RESOLVE_ATTEMPTS)%nat
  then probe service (ResumeAutoResolve service originalName fqdnSuffix attempt) w
  else autoResolveEnd service attempt w.

(** The code after [await this.probe(service)], given the value of [exists]. *)
Definition runResume (k : Resume) (exists_ : bool) (w : World) : World :=
  match k with
  | ResumeAutoResolve service originalName fqdnSuffix attempt =>
      if negb exists_ then autoResolveEnd service attempt w
      else
        let attempt := S attempt in
        let name := originalName ++ js " (" ++ js (pretty attempt) ++ js ")" in
        let w :=
          upd_services
            (alter (Service.set_name_fqdn name (name ++ fqdnSuffix)) service) w in
        autoResolveLoop service originalName fqdnSuffix attempt w
  | ResumeProbeOnce service =>
      if exists_ then log (ConsoleError NameInUse) (Service_stop service w)
      else announce service w
  end.

Definition onServiceStart (service : nat) (w : World) : World :=
  let w := upd_startedServices (fun l => l ++ [service]) w in
  match services w !! service with
  | Some s =>
      if Service.probe s then
        if Service.probeAutoResolve s then
          let originalName := Service.name s in
          let fqdnSuffix := drop (length originalName) (Service.fqdn s) in
          autoResolveLoop service originalName fqdnSuffix 1 w
        else probe service (ResumeProbeOnce service) w
      else announce service w
  | None => w
  end.

(** [Service.start()] *)
Definition Service_start (service : nat) (w : World) : World :=
  match services w !! service with
  | Some s =>
      if negb (Service.started s) then
        let w := upd_services (alter (Service.set_started true) service) w in
        onServiceStart service w
      else w
  | None => w
  end.

(** [makeService(options)]: the new Service object is [nextId w]. *)
Definition makeService (options : Service.ServiceOptions) (w : World) : World :=
  match Service.new options (hostname w) with
  | Ok s => upd_nextId S (upd_services (insert (nextId w) s) w)
  | Throw _ => w
  end.

(** ** The reactor *)

Definition runTask (t : Task) (error : bool) (w : World) : World :=
  match t with
  | AnnounceResponded service records delay =>
      announceResponded service records delay error w
  | BroadcastTimeout service records delay => broadcast service records delay w
  | GoodbyeResponded publishedServices k =>
      goodbyeResponded publishedServices k error w
  | ProbeSend p => send p w
  | ProbeQueried p => probeQueried p error w
  | ProbeDone p => done p false w
  end.

(** The calls of the user. *)
Inductive Call :=
| MakeService (options : Service.ServiceOptions)
| Start (service : nat)
| Stop (service : nat)
| UnpublishAll
| Destroy.

(** One turn of the event loop: a pending callback or timer [id] runs (a
    transport callback receives [error]), a response packet arrives, or the
    user calls the library. *)
Inductive Event :=
| Complete (id : nat) (error : bool)
| Response (packet : ResponsePacket)
| Invoke (c : Call).

Definition handle (w : World) (e : Event) : World :=
  match e with
  | Complete id error =>
      match tasks w !! id with
      | Some t => runTask t error (upd_tasks (delete id) w)
      | None => w
      end
  | Response packet =>
      fold_left (fun w p => onresponse p packet w) (responseListeners w) w
  | Invoke (MakeService options) => makeService options w
  | Invoke (Start service) => Service_start service w
  | Invoke (Stop service) => Service_stop service w
  | Invoke UnpublishAll => unpublishAll w
  | Invoke Destroy => destroy w
  end.

(** The awaits resolved during the turn resume once its handlers return. *)
Definition runMicrotasks (w : World) : World :=
  fold_left (fun w '(k, exists_) => runResume k exists_ w) (microtasks w)
            (upd_microtasks (fun _ => []) w).

Definition step (w : World) (e : Event) : World := runMicrotasks (handle w e).

Definition exec (w : World) (es : list Event) : World := fold_left step es w.

(** A new registry on a host. *)
Definition init (hostname : jstring)
    (ifaces : list (list Service.NetworkInterfaceInfo)) : World :=
  mkWorld ∅ [] ∅ ∅ [] ∅ [] 0 ifaces hostname [].

(** The delays of the timers set in a trace, in order. *)
Definition timeouts (tr : list Action) : list Delay :=
  flat_map (fun a => match a with SetTimeout _ d => [d] | _ => [] end) tr.

(** The number of times [service] emitted [e] in a trace. *)
Definition emitted (service : nat) (e : ServiceEvent) (tr : list Action) : nat :=
  length (List.filter
            (fun a => match a with
                      | Emit s' e' =>
                          bool_decide (s' = service)
                          && match e, e' with
                             | up, up | down, down => true
                             | _, _ => false
                             end
                      | _ => false
                      end) tr).

(** The number of transmissions of record sets in a trace. *)
Definition responses (tr : list Action) : nat :=
  length (List.filter (fun a => match a with Respond _ => true | _ => false end) tr).

End Registry.

(** * src/browser/Browser.ts: the session of a browser

    The browser and the transport it was given form one world.  The
    function stored in [onresponse] is referred to by number; each call of
    [start] that goes through creates a new one. *)

Module Browser.
Import JS.

(** [string | RegExp]; a regular expression is kept by its source text. *)
Inductive Pattern :=
| PString (s : jstring)
| PRegExp (source : jstring).

Record BrowserFilter := mkFilter {
  protocol : jstring;
  type : jstring;
  subtypes : option (list jstring);
  name : option Pattern;
  txt : option (list (jstring * Pattern))
}.

(** The fields of a discovered service that identify it in the list. *)
Record DiscoveredService := mkDiscovered {
  ds_name : jstring;
  ds_fqdn : jstring;
  ds_host : jstring;
  ds_port : Z;
  ds_ttl : option Z;
  ds_ttlTimer : option nat
}.

Record World := mkWorld {
  services : list DiscoveredService;       (* Browser.services *)
  filter : option BrowserFilter;           (* Browser.filter *)
  onresponse : option nat;                 (* Browser.onresponse *)
  responseListeners : list nat;            (* mdns listeners of 'response' *)
  queries : list (jstring * RecordType.t); (* mdns.query(name, type), oldest first *)
  timers : list nat;                       (* pending TTL timers *)
  nextFunction : nat                       (* the next fresh function *)
}.

Definition TLD : jstring := js ".local".
Definition WILDCARD : jstring := js "_services._dns-sd._udp" ++ TLD.

(** The getter [queryNames]. *)
Definition queryNames (w : World) : list jstring :=
  match filter w with
  | None => [WILDCARD]
  | Some f =>
      let types :=
        match subtypes f with
        | Some ((_ :: _) as subtypes) =>
            map (fun subtype =>
                   ServiceType.toString
                     (ServiceType.mk (Some (type f)) (Some (protocol f))
                                     (Some subtype)))
                subtypes
        | _ =>
            [ServiceType.toString
               (ServiceType.mk (Some (type f)) (Some (protocol f)) None)]
        end in
      map (fun typeStr =>
             match name f with
             | Some (PString name) => name ++ js "." ++ typeStr ++ TLD
             | _ => typeStr ++ TLD
             end)
          types
  end.

(** [update()] *)
Definition update (w : World) : World :=
  mkWorld (services w) (filter w) (onresponse w) (responseListeners w)
    (queries w ++ map (fun queryName => (queryName, RecordType.PTR)) (queryNames w))
    (timers w) (nextFunction w).

(** [start()] *)
Definition start (w : World) : World :=
  match onresponse w with
  | Some _ => w
  | None =>
      let f := nextFunction w in
      let w :=
        mkWorld (services w) (filter w) (Some f) (responseListeners w ++ [f])
          (queries w) (timers w) (S (nextFunction w)) in
      update w
  end.

(** [clearTimeout(service.ttlTimer)] *)
Definition clearTimeout (timer : option nat) (timers : list nat) : list nat :=
  match timer with
  | Some t => List.filter (fun u => negb (bool_decide (u = t))) timers
  | None => timers
  end.

(** [stop()] *)
Definition stop (w : World) : World :=
  match onresponse w with
  | None => w
  | Some f =>
      mkWorld [] (filter w) None (removeListener f (responseListeners w))
        (queries w)
        (fold_left (fun timers service => clearTimeout (ds_ttlTimer service) timers)
                   (services w) (timers w))
        (nextFunction w)
  end.

(** [new Browser(mdns, options)] on a transport that already has the
    listeners [listeners]. *)
Definition new (filter : option BrowserFilter) (listeners : list nat)
    (nextFunction : nat) : World :=
  mkWorld [] filter None listeners [] [] nextFunction.

End Browser.

(** * src/utils/MDNSServer.ts: the Map in the order of its keys, and respond

    [Array.from(this.typeToRecords.keys())] gives the keys of the Map in the
    order in which they were inserted.  Here the Map is the list of its
    entries in that order; [toTable] forgets the order. *)

Module Responder.
Import JS DnsUtils MDNSServer Registry.

(** [Map<RecordType, MDNSRecord[]>]: the entries, oldest key first. *)
Abbreviation OrderedTable := (list (RecordType.t * list MDNSRecord)).

(** [map.get(key)] *)
Fixpoint Map_get (map : OrderedTable) (key : RecordType.t)
    : option (list MDNSRecord) :=
  match map with
  | [] => None
  | (k, v) :: rest => if decide (k = key) then Some v else Map_get rest key
  end.

(** [map.set(key, value)]: the value of a key already there is replaced
    where it is, a new key goes to the end. *)
Fixpoint Map_set (key : RecordType.t) (value : list MDNSRecord)
    (map : OrderedTable) : OrderedTable :=
  match map with
  | [] => [(key, value)]
  | (k, v) :: rest =>
      if decide (k = key) then (k, value) :: rest
      else (k, v) :: Map_set key value rest
  end.

(** [map.delete(key)] *)
Definition Map_delete (key : RecordType.t) (map : OrderedTable) : OrderedTable :=
  filter (fun entry => entry.1 ≠ key) map.

(** [Array.from(map.keys())] *)
Definition Map_keys (map : OrderedTable) : list RecordType.t := map.*1.

(** The finite map of the entries. *)
Definition toTable (map : OrderedTable) : Table := list_to_map map.

(** The body of the loop of [register]. *)
Definition register_step (typeToRecords : OrderedTable) (record : MDNSRecord)
    : OrderedTable :=
  let type := type record in
  let records := default [] (Map_get typeToRecords type) in
  let records :=
    if forallb (fun r => negb (isDuplicate r record)) records
    then records ++ [record]
    else records in
  Map_set type records typeToRecords.

Definition register (records : list MDNSRecord) (typeToRecords : OrderedTable)
    : OrderedTable :=
  fold_left register_step records typeToRecords.

(** The body of the loop of [unregister]. *)
Definition unregister_step (typeToRecords : OrderedTable) (record : MDNSRecord)
    : OrderedTable :=
  let type := type record in
  let records := default [] (Map_get typeToRecords type) in
  let filtered := filter (fun r => name r ≠ name record) records in
  if (0 <? length filtered)%nat
  then Map_set type filtered typeToRecords
  else Map_delete type typeToRecords.

Definition unregister (records : list MDNSRecord) (typeToRecords : OrderedTable)
    : OrderedTable :=
  fold_left unregister_step records typeToRecords.

Definition getRecordsOf (typeToRecords : OrderedTable) (type : RecordType.t)
    (name : jstring) : list MDNSRecord :=
  List.filter
    (fun record =>
       let targetName :=
         if includesDot name then Some (MDNSServer.name record)
         else head (split (chr ".") (MDNSServer.name record)) in
       match targetName with
       | Some targetName => nameEquals targetName name
       | None => false
       end)
    (default [] (Map_get typeToRecords type)).

(** The type of a question: ['ANY'], a type that records are kept for, or
    any other type of the protocol. *)
Inductive QueryType :=
| ANY
| OfType (type : RecordType.t)
| OtherType.

Record Question := mkQuestion {
  q_type : QueryType;
  q_name : jstring
}.

(** [new Set(xs)], as the list of its elements in insertion order. *)
Definition Set_from (xs : list jstring) : list jstring :=
  fold_left (fun set x => if bool_decide (x ∈ set) then set else set ++ [x])
            xs [].

(** The answers to one question. *)
Definition answersTo (typeToRecords : OrderedTable) (question : Question)
    : list MDNSRecord :=
  let queryName := q_name question in
  match q_type question with
  | ANY =>
      flat_map (fun type => getRecordsOf typeToRecords type queryName)
               (Map_keys typeToRecords)
  | OfType queryType => getRecordsOf typeToRecords queryType queryName
  | OtherType => []
  end.

(** The SRV and TXT records for the PTR records among the answers.  The
    data of a PTR record is a string. *)
Definition ptrAdditionals (typeToRecords : OrderedTable)
    (answers : list MDNSRecord) : list MDNSRecord :=
  flat_map
    (fun answer =>
       match type answer, data answer with
       | RecordType.PTR, DataString data =>
           getRecordsOf typeToRecords RecordType.SRV data
           ++ getRecordsOf typeToRecords RecordType.TXT data
       | _, _ => []
       end)
    answers.

(** The targets of the SRV records among the additionals, each once. *)
Definition srvTargets (additionals : list MDNSRecord) : list jstring :=
  Set_from
    (flat_map
       (fun record =>
          match type record, data record with
          | RecordType.SRV, DataSrv data => [target data]
          | _, _ => []
          end)
       additionals).

Definition addressAdditionals (typeToRecords : OrderedTable)
    (targets : list jstring) : list MDNSRecord :=
  flat_map
    (fun target =>
       getRecordsOf typeToRecords RecordType.A target
       ++ getRecordsOf typeToRecords RecordType.AAAA target)
    targets.

(** The body of the loop of [respond]: the packet sent for one question,
    if any. *)
Definition respondTo (typeToRecords : OrderedTable) (question : Question)
    : option ResponsePacket :=
  let answers := answersTo typeToRecords question in
  if (length answers =? 0)%nat then None
  else
    let additionals :=
      match q_type question with
      | ANY => []
      | _ =>
          let additionals := ptrAdditionals typeToRecords answers in
          additionals
          ++ addressAdditionals typeToRecords (srvTargets additionals)
      end in
    Some (mkPacket answers additionals).

(** [respond(query)]: the packets handed to [mdns.respond], in order. *)
Definition respond (typeToRecords : OrderedTable) (questions : list Question)
    : list ResponsePacket :=
  omap (respondTo typeToRecords) questions.

End Responder.

(** * src/browser/DiscoveredService.ts

    A response packet is read as it is typed: the data of a PTR, A or AAAA
    record is a string, that of an SRV record has a target and a port, that
    of a TXT record is TXT data; a record whose data are of another kind is
    passed over.  An answer without a TTL is a record whose TTL is
    negative: both are left out by [fromResponse], and neither is a
    goodbye.  [now] is the value of [Date.now()] during the call. *)

Module DiscoveredService.
Import JS DnsUtils MDNSServer Registry.

(** [RemoteInfo] of dgram. *)
Record RemoteInfo := mkRemoteInfo {
  ri_address : jstring;
  ri_family : Service.Family;
  ri_port : Z;
  ri_size : Z
}.

Record t := mk {
  name : jstring;
  fqdn : jstring;
  host : jstring;
  port : Number;
  referer : RemoteInfo;
  ttl : option Z;
  lastSeen : Z;
  type : option jstring;
  protocol : option jstring;
  subtypes : list jstring;
  addresses : list jstring;
  txt : option TxtObject;
  binaryTxt : option TxtObject;
  rawTxt : option TxtData;
  ttlTimer : option nat
}.

(** What [fromResponse] throws: the error of [ServiceType.fromString], in
    the constructor or in the loop of the subtypes, or that of
    [decodeTXT]. *)
Inductive Error :=
| InvalidType (e : ServiceType.Error)
| InvalidTxt (e : DnsUtils.Error).

(** [s.startsWith(prefix)] *)
Fixpoint startsWith (prefix s : jstring) : bool :=
  match prefix, s with
  | [], _ => true
  | a :: prefix, b :: s => (a =? b) && startsWith prefix s
  | _ :: _, [] => false
  end.

(** [s.includes(needle)] *)
Fixpoint includes (needle s : jstring) : bool :=
  startsWith needle s
  || match s with
     | [] => false
     | _ :: rest => includes needle rest
     end.

(** [parts.slice(1, -1)] *)
Definition slice_1_m1 {A} (parts : list A) : list A :=
  take (length parts - 2) (drop 1 parts).

(** The constructor. *)
Definition new (name fqdn host : jstring) (port : Number)
    (referer : RemoteInfo) (ttl : option Z) (lastSeen : Z) : Result Error t :=
  match
    ServiceType.fromString (join (js ".") (slice_1_m1 (split (chr ".") fqdn)))
  with
  | Throw e => Throw (InvalidType e)
  | Ok serviceType =>
      Ok {| name := name; fqdn := fqdn; host := host; port := port;
            referer := referer; ttl := ttl; lastSeen := lastSeen;
            type := ServiceType.name serviceType;
            protocol := ServiceType.protocol serviceType;
            subtypes := []; addresses := [];
            txt := None; binaryTxt := None; rawTxt := None;
            ttlTimer := None |}
  end.

(** The getter [expired]. *)
Definition expired (this : t) (now : Z) : bool :=
  match ttl this with
  | Some ttl => (lastSeen this + ttl * 1000 <? now)%Z
  | None => false
  end.

Definition push_subtype (subtype : jstring) (service : t) : t :=
  mk (name service) (fqdn service) (host service) (port service)
     (referer service) (ttl service) (lastSeen service) (type service)
     (protocol service) (subtypes service ++ [subtype]) (addresses service)
     (txt service) (binaryTxt service) (rawTxt service) (ttlTimer service).

Definition push_address (address : jstring) (service : t) : t :=
  mk (name service) (fqdn service) (host service) (port service)
     (referer service) (ttl service) (lastSeen service) (type service)
     (protocol service) (subtypes service) (addresses service ++ [address])
     (txt service) (binaryTxt service) (rawTxt service) (ttlTimer service).

Definition set_ttlTimer (timer : option nat) (service : t) : t :=
  mk (name service) (fqdn service) (host service) (port service)
     (referer service) (ttl service) (lastSeen service) (type service)
     (protocol service) (subtypes service) (addresses service)
     (txt service) (binaryTxt service) (rawTxt service) timer.

Section runtime.
Variable runtime : Runtime.

(** The three assignments of the second loop of [fromPTR]; the second
    call of [decodeTXT] may throw. *)
Definition set_txt (answerData : TxtData) (service : t) : Result Error t :=
  match decodeTXT runtime answerData false with
  | Throw e => Throw (InvalidTxt e)
  | Ok txt =>
      match decodeTXT runtime answerData true with
      | Throw e => Throw (InvalidTxt e)
      | Ok binaryTxt =>
          Ok (mk (name service) (fqdn service) (host service) (port service)
                (referer service) (ttl service) (lastSeen service)
                (type service) (protocol service) (subtypes service)
                (addresses service) (Some txt) (Some binaryTxt)
                (Some answerData) (ttlTimer service))
      end
  end.

(** The first loop of [fromPTR]: the SRV records named like the data of
    the PTR record; [service] is the variable of the same name.  The result
    [None] is [return null]. *)
Fixpoint srvLoop (ptrData : jstring) (ptrTtl : Z) (referer : RemoteInfo)
    (now : Z) (answers : list MDNSRecord) (service : option t)
    : Result Error (option t) :=
  match answers with
  | [] => Ok service
  | answer :: rest =>
      match MDNSServer.type answer, data answer with
      | RecordType.SRV, DataSrv srv =>
          if nameEquals (MDNSServer.name answer) ptrData then
            let fqdn := MDNSServer.name answer in
            match head (split (chr ".") fqdn) with
            | None => Ok None
            | Some name =>
                match
                  new name fqdn (target srv) (MDNSServer.port srv) referer
                      (Some ptrTtl) now
                with
                | Throw e => Throw e
                | Ok service => srvLoop ptrData ptrTtl referer now rest (Some service)
                end
            end
          else srvLoop ptrData ptrTtl referer now rest service
      | _, _ => srvLoop ptrData ptrTtl referer now rest service
      end
  end.

(** The second loop: the TXT records. *)
Fixpoint txtLoop (ptrData : jstring) (answers : list MDNSRecord)
    (service : t) : Result Error t :=
  match answers with
  | [] => Ok service
  | answer :: rest =>
      match MDNSServer.type answer, data answer with
      | RecordType.TXT, DataTxt answerData =>
          if nameEquals (MDNSServer.name answer) ptrData then
            match set_txt answerData service with
            | Throw e => Throw e
            | Ok service => txtLoop ptrData rest service
            end
          else txtLoop ptrData rest service
      | _, _ => txtLoop ptrData rest service
      end
  end.

(** The third loop: the PTR records of the subtypes. *)
Fixpoint subtypesLoop (ptrData : jstring) (answers : list MDNSRecord)
    (service : t) : Result Error t :=
  match answers with
  | [] => Ok service
  | answer :: rest =>
      match MDNSServer.type answer, data answer with
      | RecordType.PTR, DataString answerData =>
          if nameEquals answerData ptrData
             && includes (js "._sub") (MDNSServer.name answer)
          then
            match ServiceType.fromString (MDNSServer.name answer) with
            | Throw e => Throw (InvalidType e)
            | Ok types =>
                match ServiceType.subtype types with
                | Some subtype =>
                    subtypesLoop ptrData rest (push_subtype subtype service)
                | None => subtypesLoop ptrData rest service
                end
            end
          else subtypesLoop ptrData rest service
      | _, _ => subtypesLoop ptrData rest service
      end
  end.

(** The fourth loop: the addresses of the host. *)
Definition addressLoop (answers : list MDNSRecord) (service : t) : t :=
  fold_left
    (fun service answer =>
       match MDNSServer.type answer, data answer with
       | (RecordType.A | RecordType.AAAA), DataString address =>
           if negb (bool_decide (host service = []))
              && nameEquals (MDNSServer.name answer) (host service)
           then push_address address service
           else service
       | _, _ => service
       end)
    answers service.

Definition fromPTR (ptr : MDNSRecord) (answers : list MDNSRecord)
    (referer : RemoteInfo) (now : Z) : Result Error (option t) :=
  match data ptr with
  | DataString ptrData =>
      match srvLoop ptrData (MDNSServer.ttl ptr) referer now answers None with
      | Throw e => Throw e
      | Ok None => Ok None
      | Ok (Some service) =>
          match txtLoop ptrData answers service with
          | Throw e => Throw e
          | Ok service =>
              match subtypesLoop ptrData answers service with
              | Throw e => Throw e
              | Ok service => Ok (Some (addressLoop answers service))
              end
          end
      end
  | _ => Ok None
  end.

(** The loop of [fromResponse] over the PTR records. *)
Fixpoint ptrLoop (answers : list MDNSRecord) (referer : RemoteInfo) (now : Z)
    (rest : list MDNSRecord) (services : list t)
    : Result Error (list t) :=
  match rest with
  | [] => Ok services
  | ptr :: rest =>
      match MDNSServer.type ptr with
      | RecordType.PTR =>
          match fromPTR ptr answers referer now with
          | Throw e => Throw e
          | Ok (Some service) =>
              ptrLoop answers referer now rest (services ++ [service])
          | Ok None => ptrLoop answers referer now rest services
          end
      | _ => ptrLoop answers referer now rest services
      end
  end.

(** The records of a packet whose TTL is positive. *)
Definition validAnswers (packet : ResponsePacket) : list MDNSRecord :=
  List.filter (fun answer => (0 <? MDNSServer.ttl answer)%Z)
              (answers packet ++ additionals packet).

Definition fromResponse (packet : ResponsePacket) (referer : RemoteInfo)
    (now : Z) : Result Error (list t) :=
  let answers := validAnswers packet in
  ptrLoop answers referer now answers [].

End runtime.

End DiscoveredService.

(** * src/browser/Browser.ts: the services of a started browser

    The part of the class between [start] and [stop]: the listener
    [onresponse], the TTL timers and the private methods they call.

    A [DiscoveredService] object is kept by its value.  The fields set by
    the constructor are read-only, and [fromPTR] fills [txt], [subtypes]
    and [addresses] before it returns the object; the browser writes one
    field, [ttlTimer], once, in [setupTTLTimer], right after it has stored
    the object and before it emits it.  The value stored, emitted and held
    by the callback of the timer is the object after this write.

    A timer is a number; [timers] holds the pending ones, each with the
    service of its callback.  [now] is the value of [Date.now()] while an
    input is handled.  A regular expression is kept by its source (see
    [Browser.Pattern]); [test source] is its method [test], a function of
    the string for an expression without the flags [g] and [y].  A key of
    [filter.txt] is looked up in [service.txt] as [service.txt[key]] does:
    among its own keys, then in what it inherits, which the runtime
    gives.  The listeners of the three events are recorded by what they are given;
    they do not call the browser. *)

Module Discovery.
Import JS DnsUtils MDNSServer.

(** The events of [BrowserEventMap], each with its argument. *)
Inductive Emitted :=
| Up (service : DiscoveredService.t)
| Down (service : DiscoveredService.t)
| Update (service : DiscoveredService.t).

Record World := mkWorld {
  services : list DiscoveredService.t;     (* Browser.services *)
  timers : gmap nat DiscoveredService.t;   (* pending TTL timers *)
  emitted : list Emitted;                  (* emit(...), oldest first *)
  nextTimer : nat                          (* the next fresh timer *)
}.

(** What the listener [onresponse] throws: the error of [fromResponse],
    with the world at that point. *)
Definition Thrown : Type := World * DiscoveredService.Error.

(** [clearTimeout(timer)] *)
Definition clearTimeout (timer : option nat)
    (timers : gmap nat DiscoveredService.t) : gmap nat DiscoveredService.t :=
  match timer with
  | Some t => delete t timers
  | None => timers
  end.

(** An own value of [service.txt], as it is read. *)
Definition found (value : TxtValue) : Found :=
  match value with
  | ValString s => FoundString s
  | ValBuffer b => FoundOther (toString_utf8 b)
  end.

(** [String(value)] *)
Definition String_of (value : Found) : jstring :=
  match value with
  | FoundString s => s
  | FoundOther text => text
  end.

Section browser.
Variable test : jstring → jstring → bool.
Variable runtime : Runtime.
Variable filter : option Browser.BrowserFilter.

(** [service.txt?.[key]] *)
Definition txtProperty (service : DiscoveredService.t) (key : jstring)
    : option Found :=
  match DiscoveredService.txt service with
  | None => None
  | Some txt =>
      match own txt !! key with
      | Some value => Some (found value)
      | None => inherited runtime (prototype txt) key
      end
  end.

(** [match(service)] *)
Definition match_ (service : DiscoveredService.t) : bool :=
  match filter with
  | None => true
  | Some filter =>
      if negb (bool_decide (Some (Browser.protocol filter)
                            = DiscoveredService.protocol service))
      then false
      else if negb (bool_decide (Some (Browser.type filter)
                                 = DiscoveredService.type service))
      then false
      else if match Browser.subtypes filter with
              | Some subtypes =>
                  existsb
                    (fun s =>
                       negb (bool_decide
                               (s ∈ DiscoveredService.subtypes service)))
                    subtypes
              | None => false
              end
      then false
      else if match Browser.name filter with
              | Some (Browser.PString name) =>
                  negb (nameEquals name (DiscoveredService.name service))
              | Some (Browser.PRegExp source) =>
                  negb (test source (DiscoveredService.name service))
              | None => false
              end
      then false
      else
        match Browser.txt filter with
        | Some txt =>
            forallb
              (fun '(key, value) =>
                 match txtProperty service key with
                 | None => false
                 | Some found =>
                     match value with
                     | Browser.PString value =>
                         bool_decide (FoundString value = found)
                     | Browser.PRegExp source => test source (String_of found)
                     end
                 end)
              txt
        | None => true
        end
  end.

(** [setupTTLTimer(service)]: the service with its timer, and the world
    in which the timer is pending. *)
Definition setupTTLTimer (service : DiscoveredService.t) (w : World)
    : DiscoveredService.t * World :=
  match DiscoveredService.ttl service with
  | Some _ =>
      let timer := nextTimer w in
      let service := DiscoveredService.set_ttlTimer (Some timer) service in
      (service,
       mkWorld (services w) (<[timer := service]> (timers w)) (emitted w)
         (S timer))
  | None => (service, w)
  end.

(** The first service named [fqdn], with those before and after it. *)
Fixpoint findService (fqdn : jstring) (services : list DiscoveredService.t)
    : option (list DiscoveredService.t * DiscoveredService.t
              * list DiscoveredService.t) :=
  match services with
  | [] => None
  | s :: rest =>
      if nameEquals (DiscoveredService.fqdn s) fqdn then Some ([], s, rest)
      else
        match findService fqdn rest with
        | Some (before, found, after) => Some (s :: before, found, after)
        | None => None
        end
  end.

(** [removeService(fqdn)] *)
Definition removeService (fqdn : jstring) (w : World) : World :=
  match findService fqdn (services w) with
  | Some (before, s, after) =>
      mkWorld (before ++ after)
        (clearTimeout (DiscoveredService.ttlTimer s) (timers w))
        (emitted w ++ [Down s]) (nextTimer w)
  | None => w
  end.

(** [addService(service)] *)
Definition addService (service : DiscoveredService.t) (w : World) : World :=
  if negb (match_ service) then w
  else
    let '(service, w) := setupTTLTimer service w in
    mkWorld (services w ++ [service]) (timers w) (emitted w ++ [Up service])
      (nextTimer w).

(** [updateService(service)] *)
Definition updateService (service : DiscoveredService.t) (w : World) : World :=
  if negb (match_ service)
  then removeService (DiscoveredService.fqdn service) w
  else
    let named (s : DiscoveredService.t) :=
      nameEquals (DiscoveredService.fqdn s) (DiscoveredService.fqdn service) in
    let cleared :=
      fold_left
        (fun timers s =>
           if named s then clearTimeout (DiscoveredService.ttlTimer s) timers
           else timers)
        (services w) (timers w) in
    let '(service, w') :=
      setupTTLTimer service
        (mkWorld (services w) cleared (emitted w) (nextTimer w)) in
    mkWorld (map (fun s => if named s then service else s) (services w'))
      (timers w') (emitted w' ++ [Update service]) (nextTimer w').

(** The body of the first loop of [onresponse]. *)
Definition goodbye (w : World) (answer : MDNSRecord) : World :=
  match type answer, data answer with
  | RecordType.PTR, DataString fqdn =>
      if (ttl answer =? 0)%Z then removeService fqdn w else w
  | _, _ => w
  end.

(** The body of its second loop. *)
Definition discover (w : World) (service : DiscoveredService.t) : World :=
  if existsb
       (fun s =>
          nameEquals (DiscoveredService.fqdn s) (DiscoveredService.fqdn service))
       (services w)
  then updateService service w
  else addService service w.

(** The listener [onresponse]. *)
Definition onresponse (packet : Registry.ResponsePacket)
    (rinfo : DiscoveredService.RemoteInfo) (now : Z) (w : World)
    : Result Thrown World :=
  let w :=
    fold_left goodbye (Registry.answers packet ++ Registry.additionals packet)
      w in
  match DiscoveredService.fromResponse runtime packet rinfo now with
  | Throw e => Throw (w, e)
  | Ok services => Ok (fold_left discover services w)
  end.

(** The callback of the timer [timer], when it runs. *)
Definition ontimeout (timer : nat) (now : Z) (w : World) : World :=
  match timers w !! timer with
  | Some service =>
      let w :=
        mkWorld (services w) (delete timer (timers w)) (emitted w)
          (nextTimer w) in
      if DiscoveredService.expired service now
      then removeService (DiscoveredService.fqdn service) w
      else w
  | None => w
  end.

(** What happens to a started browser: a response comes in, or a timer
    comes due. *)
Inductive Input :=
| Response (packet : Registry.ResponsePacket)
    (rinfo : DiscoveredService.RemoteInfo) (now : Z)
| Timeout (timer : nat) (now : Z).

Definition step (w : World) (input : Input) : Result Thrown World :=
  match input with
  | Response packet rinfo now => onresponse packet rinfo now w
  | Timeout timer now => Ok (ontimeout timer now w)
  end.

(** A run stops at the first error thrown. *)
Fixpoint exec (w : World) (inputs : list Input) : Result Thrown World :=
  match inputs with
  | [] => Ok w
  | input :: inputs =>
      match step w input with
      | Ok w => exec w inputs
      | Throw e => Throw e
      end
  end.

End browser.

(** The browser after [start()]: no service yet. *)
Definition started : World := mkWorld [] ∅ [] 0.

(** What [stop()] does to the services and their timers. *)
Definition stop (w : World) : World :=
  mkWorld []
    (fold_left
       (fun timers service =>
          clearTimeout (DiscoveredService.ttlTimer service) timers)
       (services w) (timers w))
    (emitted w) (nextTimer w).

End Discovery.

(** * The vocabulary of the statements *)

Import JS DnsUtils MDNSServer Registry.

(** ** The responder table *)

(** The names given for the bucket [ty] in a list of records. *)
Definition namesFor (ty : RecordType.t) (records : list MDNSRecord)
    : list jstring :=
  name <$> filter (fun r' => type r' = ty) records.

(** What [unregister records] leaves of the bucket [ty]. *)
Definition survivors (ty : RecordType.t) (records bucket : list MDNSRecord)
    : list MDNSRecord :=
  filter (fun r => name r ∉ namesFor ty records) bucket.

(** The wording of the specification: [unregister] compares names without
    regard to ASCII case. *)
Definition unregister_case_insensitive : Prop :=
  ∀ records (table : Table) r' r,
    r' ∈ records →
    r ∈ default [] (table !! type r') →
    nameEquals (name r) (name r') = true →
    r ∉ default [] (unregister records table !! type r').

(** A PTR record, for the examples. *)
Definition ptr (n target : string) : MDNSRecord :=
  mkRecord RecordType.PTR (js n) 120 (DataString (js target)).

(** What [deepEqual] sees of the data of a record: a string, the text of
    a Buffer, an array of these, or SRV data. *)
Inductive Seen :=
| SeenString (s : jstring)
| SeenBuffer (text : jstring)
| SeenArray (items : list (bool * jstring))
| SeenSrv (d : SrvData).

#[global] Instance Seen_eq_dec : EqDecision Seen.
Proof. solve_decision. Defined.

Definition seenItem (item : TxtItem) : bool * jstring :=
  match item with
  | ItemString s => (false, s)
  | ItemBuffer b => (true, toString_utf8 b)
  end.

Definition seen (data : RData) : Seen :=
  match data with
  | DataString s | DataTxt (TxtOne (ItemString s)) => SeenString s
  | DataTxt (TxtOne (ItemBuffer b)) => SeenBuffer (toString_utf8 b)
  | DataTxt (TxtMany items) => SeenArray (seenItem <$> items)
  | DataSrv d => SeenSrv d
  end.

(** The key of the duplicate test of [register]: the type, the name and
    the data as [deepEqual] compares them. *)
Definition triple (r : MDNSRecord) : RecordType.t * jstring * Seen :=
  (type r, name r, seen (data r)).



(** The tables that calls of [register] and [unregister] produce. *)
Inductive reachable : Table → Prop :=
| reachable_new : reachable ∅
| reachable_register records t :
    reachable t → reachable (register records t)
| reachable_unregister records t :
    reachable t → reachable (unregister records t).

(** The invariant of the table: a bucket holds records of its type, with
    pairwise different triples. *)
Definition tableInv (t : Table) : Prop :=
  ∀ ty l, t !! ty = Some l →
    Forall (fun r => type r = ty) l ∧ NoDup (triple <$> l).

Definition hasDuplicate (t : Table) (r : MDNSRecord) : Prop :=
  ∃ x, x ∈ default [] (t !! type r) ∧ isDuplicate x r = true.

(** ** Service types *)

(** The label ends in a character that [trim] removes. *)
Definition endsWithWhiteSpace (label : jstring) : bool :=
  match last label with
  | Some c => isWhiteSpace c
  | None => false
  end.

(** A label that survives [split('.')] and [trim()]: it has no dot and
    does not end in white space. *)
Definition plainLabel (label : jstring) : bool :=
  negb (existsb (fun c => c =? chr ".") label)
  && negb (endsWithWhiteSpace label).

(** The triples that [fromString] gives back after [toString]: plain
    labels, and no label that the parser takes for the marker [sub] in a
    place where it looks for it. *)
Definition roundTrips (name protocol : jstring) (subtype : option jstring)
    : Prop :=
  plainLabel name = true ∧ plainLabel protocol = true
  ∧ match subtype with
    | Some s => plainLabel s = true ∧ s ≠ js "sub"
    | None => name ≠ js "sub" ∧ protocol ≠ js "sub"
    end.

(** The wording of the specification: every triple with a non-empty name
    and protocol. *)
Definition roundTrip_all_nonempty : Prop :=
  ∀ name protocol subtype,
    name ≠ [] → protocol ≠ [] →
    ServiceType.fromString
      (ServiceType.toString (ServiceType.mk (Some name) (Some protocol) subtype))
    = Ok (ServiceType.mk (Some name) (Some protocol) subtype).

(** ** The TXT codec *)

(** The key that [decode] gives to an item. *)
Definition keyOf (item : TxtItem) : jstring :=
  let asciiStr := toString_ascii (toBuffer item) in
  let eqIndex := indexOf (chr "=") asciiStr in
  if (eqIndex =? -1)%Z then asciiStr else take (Z.to_nat eqIndex) asciiStr.

(** The value that [decode] gives to an item. *)
Definition valueOf (item : TxtItem) (binary : bool) : TxtValue :=
  let buf := toBuffer item in
  let eqIndex := indexOf (chr "=") (toString_ascii buf) in
  let valueBuf :=
    if (eqIndex =? -1)%Z then [] else drop (Z.to_nat (eqIndex + 1)) buf in
  if binary then ValBuffer valueBuf
  else if (eqIndex =? -1)%Z then ValString []
       else ValString (toString_utf8 valueBuf).

(** [s.isWellFormed()]: every code unit is below 2^16 and every surrogate
    is half of a pair. *)
Fixpoint isWellFormed (s : jstring) : bool :=
  match s with
  | [] => true
  | c :: r =>
      if isHighSurrogate c then
        match r with
        | d :: r' => isLowSurrogate d && isWellFormed r'
        | [] => false
        end
      else negb (isLowSurrogate c) && (c <? 0x10000) && isWellFormed r
  end.

(** The entries that the items give, each written over those before it:
    the own entries of the object that [decodeTXT] returns when no item
    has the key [__proto__]. *)
Definition entriesOf (data : TxtData) (binary : bool) : gmap jstring TxtValue :=
  fold_left (fun result item => <[keyOf item := valueOf item binary]> result)
            (flat data) ∅.

(** The item has the key [__proto__]; the data have such an item. *)
Definition protoKey (item : TxtItem) : bool :=
  bool_decide (keyOf item = js "__proto__").

Definition hasProtoKey (data : TxtData) : bool := existsb protoKey (flat data).

(** The items of the data whose key is not [__proto__]. *)
Definition withoutProto (data : TxtData) : TxtData :=
  TxtMany (List.filter (fun item => negb (protoKey item)) (flat data)).

(** An object with the entries [m] whose prototype is [Object.prototype]. *)
Definition object (m : gmap jstring TxtValue) : TxtObject := mkObject m None.

(** The characters of a key: ASCII, and not the separator. *)
Definition isKeyChar (c : N) : bool := (c <? 0x80) && negb (c =? chr "=").

(** The entries of a map whose values are strings, as [encodeTXT] takes
    them. *)
Definition stringEntries (entries : list (jstring * jstring))
    : list (jstring * TxtInput) :=
  prod_map id TxtString <$> entries.

(** The keys and values that the TXT codec gives back: a non-empty key of
    ASCII characters other than ['='], which is not [__proto__], and a
    well-formed value. *)
Definition plainEntry (key value : jstring) : Prop :=
  key ≠ [] ∧ key ≠ js "__proto__"
  ∧ forallb isKeyChar key = true ∧ isWellFormed value = true.

(** The wording of the specification: any keys without ['=']. *)
Definition roundTrip_all_keys : Prop :=
  ∀ runtime (m : gmap jstring jstring) entries,
    entries ≡ₚ map_to_list m →
    (∀ key value, m !! key = Some value → chr "=" ∉ key) →
    decodeTXT runtime
      (TxtMany (ItemBuffer <$> encodeTXT (stringEntries entries))) false
    = Ok (object (ValString <$> m)).

(** The wording of the claim on duplicates: of the items that decode to
    one key, whatever the key, the last one gives the value. *)
Definition last_wins_all_keys : Prop :=
  ∀ runtime before item after binary,
    (∀ later, later ∈ after → keyOf later ≠ keyOf item) →
    ∃ result,
      decodeTXT runtime (TxtMany (before ++ item :: after)) binary = Ok result
      ∧ own result !! keyOf item = Some (valueOf item binary).

(** A runtime for the examples, which agrees with Node on the keys they
    use: under a Buffer the keys [length], [byteLength], [byteOffset],
    [buffer], [parent] and [offset] are accessors without a setter and any
    other key is stored; an object inherits [constructor] and [toString]
    from [Object.prototype]. *)
Definition exampleRuntime : Runtime :=
  mkRuntime
    (fun _ key =>
       if bool_decide
            (key ∈ [js "length"; js "byteLength"; js "byteOffset";
                    js "buffer"; js "parent"; js "offset"])
       then Thrown else Stored)
    (fun prototype key =>
       if bool_decide (key = js "constructor")
       then Some (FoundOther (js "function Object() { [native code] }"))
       else if bool_decide (key = js "toString")
       then Some (FoundOther (js "function toString() { [native code] }"))
       else None).

(** ** The publisher *)

(** The listeners of the transport are distinct and were all created. *)
Definition listenersOk (w : World) : Prop :=
  NoDup (responseListeners w)
  ∧ ∀ q, q ∈ responseListeners w → (q < nextId w)%nat.

(** The references still to be given out are unused. *)
Definition sound (w : World) : Prop :=
  (∀ id, (nextId w ≤ id)%nat → tasks w !! id = None) ∧ listenersOk w.

(** A world between two turns of the event loop. *)
Definition quiescent (w : World) : Prop := microtasks w = [] ∧ sound w.

(** The events that run the [n] tasks created from [id] on, in order of
    creation, each transport callback without error. *)
Definition completions (id n : nat) : list Event :=
  (fun i => Complete i false) <$> seq id n.

(** The state of the chain of re-announcements of [service] started in
    [w0]: the only task added is [task] under [id], and [tr] was logged. *)
Record announcing (w0 : World) (service : nat) (pub : bool) (w : World)
    (id : nat) (task : Task) (tr : list Action) : Prop := mkAnnouncing {
  an_tasks : tasks w = <[id := task]> (tasks w0);
  an_next : nextId w = S id;
  an_id : (nextId w0 ≤ id)%nat;
  an_trace : trace w = trace w0 ++ tr;
  an_micro : microtasks w = [];
  an_service : ∃ s, services w !! service = Some s
                    ∧ Service.started s = true
                    ∧ Service.destroyed s = false
                    ∧ Service.published s = pub
}.

(** The trace of a complete announcement whose first task is [id]: eight
    transmissions, the waits between them, and ['up'] after the first one
    when the service was not yet published. *)
Definition announceTrace (service id : nat) (records : list MDNSRecord)
    (pub : bool) : list Action :=
  [Respond records] ++ (if pub then [] else [Emit service up])
  ++ [SetTimeout (id + 1) (Ms 3000); Respond records;
      SetTimeout (id + 3) (Ms 9000); Respond records;
      SetTimeout (id + 5) (Ms 27000); Respond records;
      SetTimeout (id + 7) (Ms 81000); Respond records;
      SetTimeout (id + 9) (Ms 243000); Respond records;
      SetTimeout (id + 11) (Ms 729000); Respond records;
      SetTimeout (id + 13) (Ms 2187000); Respond records].

(** The wording of the specification: the waits start at 1000 ms.  Nine
    transmissions and eight waits take seventeen tasks. *)
Definition announce_waits_from_1000 : Prop :=
  ∀ w service s,
    quiescent w →
    services w !! service = Some s →
    Service.started s = true → Service.destroyed s = false →
    timeouts (trace (exec (announce service w) (completions (nextId w) 17)))
    = timeouts (trace w)
      ++ [Ms 1000; Ms 3000; Ms 9000; Ms 27000; Ms 81000; Ms 243000;
          Ms 729000; Ms 2187000].

(** The records of the goodbye packet of [service]. *)
Definition goodbyeRecords (w : World) (service : nat) : list MDNSRecord :=
  flat_map (fun service => map withTtl0 (getRecords w service)) [service].

(** The wording of the specification: [stop] on any service whose
    [published] is true. *)
Definition stop_published_emits_down : Prop :=
  ∀ w service s,
    quiescent w →
    services w !! service = Some s →
    Service.published s = true →
    let w1 := step w (Invoke (Stop service)) in
    ∀ error,
      let w2 := step w1 (Complete (nextId w) error) in
      emitted service down (trace w2) = S (emitted service down (trace w))
      ∧ Service.published <$> services w2 !! service = Some false.

(** The options of the service of the examples. *)
Definition demoOptions (probe : bool) : Service.ServiceOptions :=
  Service.mkOptions None (js "http") None (js "Foo Bar") None (int 3000) None None
    (Some probe) None None.

(** A registry on a host without interfaces. *)
Definition demoInit : World := init (js "host") [].

(** The service 0, started, at the point where [onServiceStart] either
    probes or announces. *)
Definition startedWorld : World :=
  upd_startedServices (fun l => l ++ [0%nat])
    (upd_services (alter (Service.set_started true) 0%nat)
       (makeService (demoOptions false) demoInit)).

(** The service 0 is made, started without probing, and announced. *)
Definition publishedWorld : World :=
  exec demoInit
    [Invoke (MakeService (demoOptions false)); Invoke (Start 0%nat);
     Complete 1%nat false].

(** The service 0 is made and started without probing, stopped before the
    transport has sent the first announcement, and then the transport
    reports the announcement sent. *)
Definition racedWorld : World :=
  exec demoInit
    [Invoke (MakeService (demoOptions false)); Invoke (Start 0%nat);
     Invoke (Stop 0%nat); Complete 1%nat false].

(** ** Probing *)

(** The event runs the callback of a query of the probe [p]. *)
Definition completesQuery (p : nat) (w : World) (e : Event) : bool :=
  match e with
  | Complete id _ =>
      match tasks w !! id with
      | Some (ProbeQueried q) => bool_decide (q = p)
      | _ => false
      end
  | _ => false
  end.

(** Some event of the run from [w] ran the callback of a query of the
    probe [p]: the first probe packet of [p] has been sent. *)
Fixpoint probeSent (p : nat) (w : World) (events : list Event) : bool :=
  match events with
  | [] => false
  | e :: events => completesQuery p w e || probeSent p (step w e) events
  end.

(** The probe [p] has resolved to "the name exists". *)
Definition conflict (p : nat) (w : World) : bool :=
  match probes w !! p with
  | Some ps => bool_decide (resolved ps = Some true)
  | None => false
  end.

(** Some record of the answers or additionals of the packet is named like
    the service, up to ASCII case. *)
Definition namesService (w : World) (service : nat) (packet : ResponsePacket)
    : bool :=
  match services w !! service with
  | Some s =>
      existsb (fun a => nameEquals (name a) (Service.fqdn s))
              (answers packet ++ additionals packet)
  | None => false
  end.

(** The invariant of the probe [p] of [service]: [b] tells whether a query
    of [p] has completed. *)
Definition probing (p service : nat) (b : bool) (w : World) : Prop :=
  (p < nextId w)%nat
  ∧ listenersOk w
  ∧ ∃ ps, probes w !! p = Some ps
          ∧ probe_service ps = service
          ∧ sent ps = b
          ∧ (p ∈ responseListeners w → resolved ps = None).

(** The session [ps] of the probe [p] is left as it is. *)
Definition keeps (p : nat) (ps : ProbeSession) (w : World) : Prop :=
  (p < nextId w)%nat ∧ probes w !! p = Some ps.

(** A response that names the service of the examples in another case. *)
Definition demoPacket : ResponsePacket :=
  mkPacket []
    [mkRecord RecordType.SRV (js "foo bar._HTTP._tcp.LOCAL") 120
       (DataSrv (mkSrv (int 80) (js "other.local") None None))].

(** ** Names and TXT data, once more *)

(** Two code units that are equal, or the same letter of [A-Z] in the two
    cases. *)
Definition sameLetter (c d : N) : bool :=
  (c =? d)
  || (isCapitalLetter c && (d =? c + 32))
  || (isCapitalLetter d && (c =? d + 32)).

(** The string that [decodeTXT] gives for a value when [binary] is false. *)
Definition asString (v : TxtValue) : TxtValue :=
  match v with
  | ValBuffer b => ValString (toString_utf8 b)
  | ValString s => ValString s
  end.

(** The binary value that the TXT codec gives back for an entry. *)
Definition binaryEntry (entry : jstring * TxtInput) : jstring * TxtValue :=
  (entry.1, ValBuffer (Buffer_from (templateString entry.2))).

(** The error of [fromString] on a string without a dot. *)
Definition singleLabelError (input : jstring) : ServiceType.Error :=
  if bool_decide (input = []) then ServiceType.EmptyInput
  else if bool_decide (ServiceType.stripUnderscore (trim input) = js "sub")
       then ServiceType.SubFirst
       else ServiceType.MissingNameOrProtocol.

(** ** The publisher, once more *)

(** What follows the first probe of [service] in [onServiceStart]. *)
Definition startResume (service : nat) (s : Service.t) : Resume :=
  if Service.probeAutoResolve s then
    ResumeAutoResolve service (Service.name s)
      (drop (length (Service.name s)) (Service.fqdn s)) 1
  else ResumeProbeOnce service.

(** The state of the probe [p] of [service] begun after [w0]: [s] is the
    service, [ps] the session, the only task added is [task] under [id],
    and [tr] was logged. *)
Record probingRun (w0 : World) (service : nat) (s : Service.t) (p : nat)
    (w : World) (id : nat) (task : Task) (ps : ProbeSession)
    (tr : list Action) : Prop := mkProbingRun {
  pr_tasks : tasks w = <[id := task]> (tasks w0);
  pr_next : nextId w = S id;
  pr_fresh : (nextId w0 ≤ p < id)%nat;
  pr_trace : trace w = trace w0 ++ tr;
  pr_micro : microtasks w = [];
  pr_service : services w = <[service := s]> (services w0);
  pr_session : probes w !! p = Some ps;
  pr_listeners : responseListeners w = responseListeners w0 ++ [p];
  pr_started : startedServices w = startedServices w0 ++ [service];
  pr_table : typeToRecords w = typeToRecords w0;
  pr_ifaces : networkInterfaces w = networkInterfaces w0
}.

(** The trace of a probe for [fqdn] that no response answers, its first
    timer being [id]: three queries, 250 ms after one another. *)
Definition probeTrace (id : nat) (fqdn : jstring) : list Action :=
  [SetTimeout id (RandomBelow 250); Query fqdn;
   SetTimeout (id + 2) (Ms 250); Query fqdn;
   SetTimeout (id + 4) (Ms 250); Query fqdn;
   SetTimeout (id + 6) (Ms 250)].

(** The name and the fully qualified name that the auto-resolve loop gives
    to a service for its attempt [attempt]. *)
Definition attemptName (originalName : jstring) (attempt : nat) : jstring :=
  originalName ++ js " (" ++ js (pretty attempt) ++ js ")".

Definition renamed (s : Service.t) (originalName fqdnSuffix : jstring)
    (attempt : nat) : Service.t :=
  Service.set_name_fqdn (attemptName originalName attempt)
    (attemptName originalName attempt ++ fqdnSuffix) s.

(** The names queried in a trace, in order. *)
Definition queried (tr : list Action) : list jstring :=
  flat_map (fun a => match a with Query name => [name] | _ => [] end) tr.

(** The fully qualified name under which the auto-resolve loop probes a
    service at its attempt [attempt]: its own at the first attempt. *)
Definition attemptFqdn (s : Service.t) (attempt : nat) : jstring :=
  if (attempt <=? 1)%nat then Service.fqdn s
  else attemptName (Service.name s) attempt
       ++ drop (length (Service.name s)) (Service.fqdn s).

(** The service as the auto-resolve loop has it at its attempt [attempt]. *)
Definition attemptService (s : Service.t) (attempt : nat) : Service.t :=
  if (attempt <=? 1)%nat then s
  else renamed s (Service.name s)
         (drop (length (Service.name s)) (Service.fqdn s)) attempt.

(** The events of the round [i] (from 0) of a probe begun at [p] that a
    response answers after its first query: the first timer, the callback
    of the query, the response. *)
Definition conflictRound (p : nat) (packets : nat → ResponsePacket) (i : nat)
    : list Event :=
  [Complete (p + 4 * i + 1) false; Complete (p + 4 * i + 2) false;
   Response (packets (S i))].

(** The service that a timer works for, for the timers whose callback
    transmits: [broadcast] and [send]. *)
Definition timerOf (w : World) (task : Task) : option nat :=
  match task with
  | BroadcastTimeout service _ _ => Some service
  | ProbeSend p => probe_service <$> probes w !! p
  | _ => None
  end.

(** The world in which [onServiceStart] resumes once a probe of
    [service] begun after [w0] has resolved: no task is left of it, [tr]
    was logged and [next] is the next reference. *)
Record afterProbe (w0 : World) (service : nat) (s : Service.t) (w : World)
    (next : nat) (tr : list Action) : Prop := mkAfterProbe {
  ap_tasks : tasks w = tasks w0;
  ap_next : nextId w = next;
  ap_fresh : (nextId w0 < next)%nat;
  ap_trace : trace w = trace w0 ++ tr;
  ap_micro : microtasks w = [];
  ap_service : services w = <[service := s]> (services w0);
  ap_listeners : responseListeners w = responseListeners w0;
  ap_started : startedServices w = startedServices w0 ++ [service];
  ap_table : typeToRecords w = typeToRecords w0;
  ap_ifaces : networkInterfaces w = networkInterfaces w0
}.

(** The service of the examples as [new Service] makes it, with the two
    probing options given. *)
Definition demoService (probe autoResolve : bool) : Service.t :=
  Service.mk (js "tcp") (js "_http._tcp") (js "Foo Bar") [] (js "host") (int 3000) []
    28800 probe autoResolve false (js "Foo Bar._http._tcp.local")
    false false false.

(** A registry whose only service, not yet started, is [s]. *)
Definition demoWorld (s : Service.t) : World :=
  mkWorld {[ 0%nat := s ]} [] ∅ ∅ [] ∅ [] 1 [] (js "host") [].

(** A response with one SRV record named [fqdn]. *)
Definition srvPacket (fqdn : jstring) : ResponsePacket :=
  mkPacket [mkRecord RecordType.SRV fqdn 120
              (DataSrv (mkSrv (int 80) (js "other.local") None None))] [].

(** ** The responder *)

(** The Maps that calls of [register] and [unregister] produce. *)
Inductive built : Responder.OrderedTable → Prop :=
| built_new : built []
| built_register records m :
    built m → built (Responder.register records m)
| built_unregister records m :
    built m → built (Responder.unregister records m).

(** The test of [getRecordsOf]: the record is named [name], up to ASCII
    case; a [name] without a dot is compared with the first label. *)
Definition matchesName (name : jstring) (record : MDNSRecord) : bool :=
  let targetName :=
    if includesDot name then Some (MDNSServer.name record)
    else head (split (chr ".") (MDNSServer.name record)) in
  match targetName with
  | Some targetName => nameEquals targetName name
  | None => false
  end.

(** The record has the type that the question asks for. *)
Definition ofQueryType (queryType : Responder.QueryType) (record : MDNSRecord)
    : Prop :=
  match queryType with
  | Responder.ANY => True
  | Responder.OfType t => type record = t
  | Responder.OtherType => False
  end.

(** The types of the records that [respond] adds to the answers. *)
Definition additionalType (record : MDNSRecord) : Prop :=
  type record = RecordType.SRV ∨ type record = RecordType.TXT
  ∨ type record = RecordType.A ∨ type record = RecordType.AAAA.

(** The responder of a host that publishes the service [s] only. *)
Definition responderOf (s : Service.t)
    (ifaces : list (list Service.NetworkInterfaceInfo))
    : Responder.OrderedTable :=
  Responder.register (Service.getRecords s ifaces) [].

(** The question of a probe for [fqdn]. *)
Definition probeQuestion (fqdn : jstring) : Responder.Question :=
  Responder.mkQuestion Responder.ANY fqdn.

(** ** Discovered services *)

(** The service was built from a PTR record and an SRV record of
    [answers], at the time [now]. *)
Definition discoveredFrom (answers : list MDNSRecord) (now : Z)
    (service : DiscoveredService.t) : Prop :=
  ∃ ptr srv ptrData,
    ptr ∈ answers ∧ srv ∈ answers
    ∧ type ptr = RecordType.PTR ∧ data ptr = DataString ptrData
    ∧ type srv = RecordType.SRV
    ∧ nameEquals (name srv) ptrData = true
    ∧ DiscoveredService.fqdn service = name srv
    ∧ head (split (chr ".") (DiscoveredService.fqdn service))
      = Some (DiscoveredService.name service)
    ∧ DiscoveredService.ttl service = Some (ttl ptr)
    ∧ DiscoveredService.lastSeen service = now.

(** The fields that the constructor sets from its arguments are the same
    in the two services. *)
Definition sameCore (a b : DiscoveredService.t) : Prop :=
  DiscoveredService.name a = DiscoveredService.name b
  ∧ DiscoveredService.fqdn a = DiscoveredService.fqdn b
  ∧ DiscoveredService.host a = DiscoveredService.host b
  ∧ DiscoveredService.port a = DiscoveredService.port b
  ∧ DiscoveredService.referer a = DiscoveredService.referer b
  ∧ DiscoveredService.ttl a = DiscoveredService.ttl b
  ∧ DiscoveredService.lastSeen a = DiscoveredService.lastSeen b
  ∧ DiscoveredService.type a = DiscoveredService.type b
  ∧ DiscoveredService.protocol a = DiscoveredService.protocol b.

(** What the first loop of [fromPTR] leaves in [service]. *)
Definition fromSrv (all : list MDNSRecord) (ptrData : jstring) (ptrTtl now : Z)
    (service : DiscoveredService.t) : Prop :=
  ∃ srv,
    srv ∈ all ∧ type srv = RecordType.SRV
    ∧ nameEquals (name srv) ptrData = true
    ∧ DiscoveredService.fqdn service = name srv
    ∧ head (split (chr ".") (DiscoveredService.fqdn service))
      = Some (DiscoveredService.name service)
    ∧ DiscoveredService.ttl service = Some ptrTtl
    ∧ DiscoveredService.lastSeen service = now.

(** The packet that announces the service of the examples, and where it
    comes from. *)
Definition demoAnnouncement : ResponsePacket :=
  mkPacket (Service.getRecords (demoService true true) []) [].

Definition demoReferer : DiscoveredService.RemoteInfo :=
  DiscoveredService.mkRemoteInfo (js "10.0.0.7") Service.IPv4 5353 120.

(** A packet whose SRV record is named [host.local]. *)
Definition shortNamePacket : ResponsePacket :=
  mkPacket [ptr "_http._tcp.local" "host.local";
            mkRecord RecordType.SRV (js "host.local") 120
              (DataSrv (mkSrv (int 80) (js "host.local") None None))] [].

(** ** From the records of a service to the discovered service *)

(** The address that an A or AAAA record carries. *)
Definition addressOf (record : MDNSRecord) : list jstring :=
  match data record with
  | DataString address => [address]
  | _ => []
  end.

(** The TXT data of the records of [s]. *)
Definition announcedTxt (s : Service.t) : TxtData :=
  TxtMany (ItemBuffer <$> encodeTXT (Service.txt s)).

(** What a browser makes of the records of [s], a service of type [type],
    when they come in one packet from [referer] at the time [now]. *)
Definition discovered (s : Service.t) (type : jstring)
    (ifaces : list (list Service.NetworkInterfaceInfo))
    (referer : DiscoveredService.RemoteInfo) (now : Z) : DiscoveredService.t :=
  DiscoveredService.mk (Service.name s) (Service.fqdn s) (Service.host s)
    (Service.port s) referer (Some (Service.ttl s)) now
    (Some type) (Some (Service.protocol s)) (Service.subtypes s)
    (if bool_decide (Service.host s = []) then []
     else flat_map addressOf
            (flat_map (fun iface => flat_map (Service.addressRecords s) iface)
                      ifaces))
    (Some (object (entriesOf (announcedTxt s) false)))
    (Some (object (entriesOf (announcedTxt s) true)))
    (Some (announcedTxt s)) None.

(** The name made of the labels [labels] and [last]. *)
Definition dotted (labels : list jstring) (last : jstring) : jstring :=
  foldr (fun label acc => label ++ chr "." :: acc) last labels.

(** The names of a service of type [T]: its type is [_T._protocol], and
    its fully qualified name has its instance name, without a dot, in
    front of the type and the domain. *)
Definition namedAs (s : Service.t) (T : jstring) : Prop :=
  includesDot (Service.name s) = false
  ∧ Service.type s = dotted [chr "_" :: T] (chr "_" :: Service.protocol s)
  ∧ Service.fqdn s
    = dotted [Service.name s; chr "_" :: T; chr "_" :: Service.protocol s]
             (js "local").

(** A subtype that the parser gives back. *)
Definition plainSubtype (subtype : jstring) : Prop :=
  plainLabel subtype = true ∧ subtype ≠ js "sub".

(** A printer with two subtypes, on a host with one interface. *)
Definition printerOptions : Service.ServiceOptions :=
  Service.mkOptions None (js "ipp") (Some [js "color"; js "duplex"])
    (js "Office") None (int 631) (Some [(js "paper", TxtString (js "A4"))])
    (Some 120%Z) (Some false) None None.

Definition printerIfaces : list (list Service.NetworkInterfaceInfo) :=
  [[Service.mkInfo (js "10.0.0.5") Service.IPv4 (js "02:00:00:00:00:01") false;
    Service.mkInfo (js "fe80::1") Service.IPv6 (js "02:00:00:00:00:01") false]].

(** ** The services of a browser *)

(** The name under which the browser knows a service: its fully
    qualified name, up to the case of the ASCII letters. *)
Definition nameKey (service : DiscoveredService.t) : jstring :=
  replaceCapitalLetters (DiscoveredService.fqdn service).

(** The names that a listener of the events holds to be up: ['up'] adds
    the name of its service, ['down'] takes it away. *)
Definition tracked_step (names : list jstring) (event : Discovery.Emitted)
    : list jstring :=
  match event with
  | Discovery.Up service => names ++ [nameKey service]
  | Discovery.Down service => filter (fun n => n ≠ nameKey service) names
  | Discovery.Update _ => names
  end.

Definition tracked (events : list Discovery.Emitted) : list jstring :=
  fold_left tracked_step events [].

(** What the browser keeps true of its services and timers. *)
Record wellKept (test : jstring → jstring → bool) (runtime : Runtime)
    (filter : option Browser.BrowserFilter) (w : Discovery.World) : Prop := {
  kept_distinct : NoDup (nameKey <$> Discovery.services w);
  kept_match :
    Forall (fun s => Discovery.match_ test runtime filter s = true)
           (Discovery.services w);
  kept_timers :
    ∀ timer s, Discovery.timers w !! timer = Some s →
      s ∈ Discovery.services w ∧ DiscoveredService.ttlTimer s = Some timer;
  kept_next :
    ∀ timer s, Discovery.timers w !! timer = Some s →
      (timer < Discovery.nextTimer w)%nat;
  kept_tracked : tracked (Discovery.emitted w) = nameKey <$> Discovery.services w
}.

(** The record is a goodbye for the service: a PTR record whose time to
    live is 0 and whose data are the name of the service. *)
Definition goodbyeFor (service : DiscoveredService.t) (record : MDNSRecord)
    : bool :=
  match type record, data record with
  | RecordType.PTR, DataString fqdn =>
      (ttl record =? 0)%Z && nameEquals (DiscoveredService.fqdn service) fqdn
  | _, _ => false
  end.

(** The input is a timer that comes due. *)
Definition isTimeout (input : Discovery.Input) : Prop :=
  match input with
  | Discovery.Timeout _ _ => True
  | Discovery.Response _ _ _ => False
  end.

(** A record of the packet says goodbye to the service. *)
Definition saidGoodbye (packet : ResponsePacket) (service : DiscoveredService.t)
    : bool :=
  existsb (goodbyeFor service) (answers packet ++ additionals packet).

(** The packet that announces the service [s], and the one that takes it
    back. *)
Definition announcement (s : Service.t)
    (ifaces : list (list Service.NetworkInterfaceInfo)) : ResponsePacket :=
  mkPacket (Service.getRecords s ifaces) [].

Definition farewell (s : Service.t)
    (ifaces : list (list Service.NetworkInterfaceInfo)) : ResponsePacket :=
  mkPacket (withTtl0 <$> Service.getRecords s ifaces) [].

(** The service that a browser makes of the announcement of [s], once
    its [timer]-th TTL timer is set. *)
Definition discoveredAt (s : Service.t) (type : jstring)
    (ifaces : list (list Service.NetworkInterfaceInfo))
    (referer : DiscoveredService.RemoteInfo) (now : Z) (timer : nat)
    : DiscoveredService.t :=
  DiscoveredService.set_ttlTimer (Some timer)
    (discovered s type ifaces referer now).

(** The printer of the examples. *)
Definition printer : Service.t :=
  Service.mk (js "tcp") (js "_ipp._tcp") (js "Office") [js "color"; js "duplex"]
    (js "host") (int 631) [(js "paper", TxtString (js "A4"))] 120 false true false
    (js "Office._ipp._tcp.local") false false false.

(** A regular expression engine for the examples: none is used. *)
Definition noRegExp (source s : jstring) : bool := false.

(** A browser for colour printers named [office]. *)
Definition printerFilter : Browser.BrowserFilter :=
  Browser.mkFilter (js "tcp") (js "ipp") (Some [js "color"])
    (Some (Browser.PString (js "office")))
    (Some [(js "paper", Browser.PString (js "A4"))]).

(** The printer as the browser holds it after its announcement, received
    at the time 1000. *)
Definition printerAt (timer : nat) : DiscoveredService.t :=
  discoveredAt printer (js "ipp") printerIfaces demoReferer 1000 timer.

Definition printerHeard : list Discovery.Input :=
  [Discovery.Response (announcement printer printerIfaces) demoReferer 1000].

Definition printerSeen : Discovery.World :=
  Discovery.mkWorld [printerAt 2] {[ 2%nat := printerAt 2 ]}
    [Discovery.Up (printerAt 0); Discovery.Update (printerAt 1);
     Discovery.Update (printerAt 2)] 3.

(** ** Tactics *)

(** [lia] also decides goals with [/] and [mod] by constants. *)
Ltac Zify.zify_post_hook ::= Z.to_euclidean_division_equations.

(** Boolean comparisons of [N] in the hypotheses, as propositions. *)
Ltac bools :=
  repeat match goal with
  | H : _ && _ = true |- _ => apply andb_true_iff in H as [? ?]
  | H : _ && _ = false |- _ => apply andb_false_iff in H
  | H : negb _ = true |- _ => apply negb_true_iff in H
  | H : negb _ = false |- _ => apply negb_false_iff in H
  | H : (_ <=? _) = true |- _ => apply N.leb_le in H
  | H : (_ <=? _) = false |- _ => apply N.leb_gt in H
  | H : (_ <? _) = true |- _ => apply N.ltb_lt in H
  | H : (_ <? _) = false |- _ => apply N.ltb_ge in H
  | H : (_ =? _) = true |- _ => apply N.eqb_eq in H
  | H : (_ =? _) = false |- _ => apply N.eqb_neq in H
  end.

(** * Proofs *)

(** ** Responder table: unregister *)

Lemma unregister_step_lookup_ne (t : Table) r ty :
  type r ≠ ty → unregister_step t r !! ty = t !! ty.
Proof.
  intros Hne. unfold unregister_step.
  destruct (0 <? _)%nat.
  - by rewrite lookup_insert_ne.
  - by rewrite lookup_delete_ne.
Qed.

Lemma unregister_step_bucket (t : Table) r :
  default [] (unregister_step t r !! type r)
  = filter (fun x => name x ≠ name r) (default [] (t !! type r)).
Proof.
  unfold unregister_step.
  destruct (filter _ _) as [|x l] eqn:E; simpl.
  - by rewrite lookup_delete_eq.
  - by rewrite lookup_insert_eq.
Qed.

Lemma unregister_step_not_empty (t : Table) r :
  unregister_step t r !! type r ≠ Some [].
Proof.
  unfold unregister_step.
  destruct (filter _ _) as [|x l] eqn:E; simpl.
  - by rewrite lookup_delete_eq.
  - by rewrite lookup_insert_eq.
Qed.

Lemma unregister_snoc records r (t : Table) :
  unregister (records ++ [r]) t = unregister_step (unregister records t) r.
Proof. unfold unregister. by rewrite fold_left_app. Qed.

Lemma namesFor_snoc ty records r :
  namesFor ty (records ++ [r])
  = namesFor ty records ++ (if decide (type r = ty) then [name r] else []).
Proof.
  unfold namesFor. rewrite filter_app, fmap_app. f_equal.
  rewrite filter_cons. destruct (decide _); done.
Qed.

Lemma unregister_bucket records (t : Table) ty :
  default [] (unregister records t !! ty)
  = survivors ty records (default [] (t !! ty)).
Proof.
  induction records as [|r records IH] using rev_ind.
  - unfold survivors, namesFor. simpl.
    induction (default [] (t !! ty)) as [|x l IHl]; [done|].
    rewrite filter_cons_True; [by f_equal | apply not_elem_of_nil].
  - rewrite unregister_snoc. destruct (decide (type r = ty)) as [<-|Hne].
    + rewrite unregister_step_bucket, IH. unfold survivors.
      rewrite namesFor_snoc, decide_True by done.
      rewrite list_filter_filter. apply list_filter_iff.
      intros x. rewrite not_elem_of_app, list_elem_of_singleton. tauto.
    + rewrite unregister_step_lookup_ne, IH by done. unfold survivors.
      rewrite namesFor_snoc, decide_False, app_nil_r by done. done.
Qed.

Lemma unregister_not_empty records (t : Table) r' :
  r' ∈ records → unregister records t !! type r' ≠ Some [].
Proof.
  induction records as [|r records IH] using rev_ind; [by intros ?%elem_of_nil|].
  intros Hin. rewrite unregister_snoc.
  destruct (decide (type r = type r')) as [E|Hne].
  - rewrite <- E. apply unregister_step_not_empty.
  - rewrite unregister_step_lookup_ne by done. apply IH.
    apply elem_of_app in Hin as [?|Hin]; [done|].
    apply list_elem_of_singleton in Hin. congruence.
Qed.

Lemma elem_of_namesFor ty records n :
  n ∈ namesFor ty records ↔ ∃ r', r' ∈ records ∧ type r' = ty ∧ name r' = n.
Proof.
  unfold namesFor. rewrite list_elem_of_fmap. split.
  - intros (r' & -> & [? ?]%list_elem_of_filter). eauto.
  - intros (r' & ? & ? & <-). exists r'. split; [done|].
    by apply list_elem_of_filter.
Qed.

(** C1 (amended).  After [unregister records], for every record [r'] of
    [records]: no record of the bucket of [r'.type] has exactly the name of
    [r'] (the comparison is the case-sensitive [!==] of strings); the
    records of that bucket whose name is none of the names given for it
    stay; and the bucket is deleted rather than left empty. *)
Theorem unregister_removes_exact_names records (table : Table) r' :
  r' ∈ records →
  let bucket := default [] (unregister records table !! type r') in
  (∀ r, r ∈ bucket → name r ≠ name r')
  ∧ (∀ r, r ∈ default [] (table !! type r') →
          (∀ r'', r'' ∈ records → type r'' = type r' → name r ≠ name r'') →
          r ∈ bucket)
  ∧ unregister records table !! type r' ≠ Some [].
Proof.
  intros Hin bucket. subst bucket. rewrite unregister_bucket.
  split; [|split].
  - intros r [Hr _]%list_elem_of_filter Heq. apply Hr.
    apply elem_of_namesFor. exists r'. eauto.
  - intros r Hr Hkeep. apply list_elem_of_filter. split; [|done].
    intros (r'' & ? & ? & ?)%elem_of_namesFor. by eapply Hkeep.
  - by apply unregister_not_empty.
Qed.

(** C1, as worded, fails: the record named [_HTTP._tcp.local] stays when
    [_http._tcp.local] is unregistered, though [nameEquals] holds of the
    two names. *)
Lemma unregister_case_insensitive_counterexample : ¬ unregister_case_insensitive.
Proof.
  intros H.
  apply (H [ptr "_http._tcp.local" "foo._http._tcp.local"]
           (register [ptr "_HTTP._tcp.local" "foo._http._tcp.local"] ∅)
           (ptr "_http._tcp.local" "foo._http._tcp.local")
           (ptr "_HTTP._tcp.local" "foo._http._tcp.local")).
  - apply list_elem_of_singleton. reflexivity.
  - vm_compute. apply list_elem_of_singleton. reflexivity.
  - reflexivity.
  - vm_compute. apply list_elem_of_singleton. reflexivity.
Qed.

Lemma unregister_removes_exact_names_witness :
  let r' := ptr "_http._tcp.local" "foo._http._tcp.local" in
  let table : Table :=
    register [r'; ptr "_ipp._tcp.local" "bar._ipp._tcp.local"] ∅ in
  unregister [r'] table !! RecordType.PTR
  = Some [ptr "_ipp._tcp.local" "bar._ipp._tcp.local"]
  ∧ unregister [r'] table !! type r' ≠ Some [].
Proof.
  intros r' table. split; [reflexivity|].
  apply (unregister_removes_exact_names [r'] table r').
  apply list_elem_of_singleton. reflexivity.
Defined.

(** The query path does compare names without regard to case. *)
Example getRecordsOf_ignores_case :
  getRecordsOf (register [ptr "_HTTP._tcp.local" "foo._http._tcp.local"] ∅)
    RecordType.PTR (js "_http._tcp.local")
  = [ptr "_HTTP._tcp.local" "foo._http._tcp.local"].
Proof. reflexivity. Qed.

(** ** Responder table: register *)

Lemma equalItem_seen x y : equalItem x y = true ↔ seenItem x = seenItem y.
Proof.
  destruct x, y; cbn [equalItem seenItem]; rewrite ?bool_decide_eq_true;
    split; try done; by intros [= ->] || by intros ->.
Qed.

Lemma equalItems_seen xs ys :
  equalItems xs ys = true ↔ seenItem <$> xs = seenItem <$> ys.
Proof.
  revert ys. induction xs as [|x xs IH]; intros [|y ys];
    cbn [equalItems fmap list_fmap]; try done.
  rewrite andb_true_iff, equalItem_seen, IH. split.
  - by intros [-> ->].
  - by intros [= -> ->].
Qed.

(** [deepEqual] is the equality of what it sees of the two data. *)
Lemma deepEqual_seen a b : deepEqual a b = true ↔ seen a = seen b.
Proof.
  destruct a as [s|[[s|x]|xs]|c], b as [t|[[t|y]|ys]|d];
    cbn [deepEqual seen equalItem];
    rewrite ?bool_decide_eq_true, ?equalItems_seen;
    split; try done; try (by intros [= ->]); try (by intros ->);
    by intros [= ?].
Qed.

Lemma isDuplicate_triple a b : isDuplicate a b = true ↔ triple a = triple b.
Proof.
  unfold isDuplicate, triple.
  rewrite !andb_true_iff, !bool_decide_eq_true, deepEqual_seen. split.
  - intros [[-> ->] ->]. done.
  - intros [= -> -> ->]. done.
Qed.

Lemma isDuplicate_refl a : isDuplicate a a = true.
Proof. by apply isDuplicate_triple. Qed.

Lemma forallb_not_duplicate l r :
  forallb (fun x => negb (isDuplicate x r)) l = true ↔ triple r ∉ triple <$> l.
Proof.
  rewrite forallb_forall, list_elem_of_fmap. split.
  - intros H (x & Hx & Hin). apply list_elem_of_In, H in Hin.
    symmetry in Hx. apply isDuplicate_triple in Hx. rewrite Hx in Hin. done.
  - intros H x Hin%list_elem_of_In. apply negb_true_iff.
    destruct (isDuplicate x r) eqn:E; [|done].
    exfalso. apply H. exists x. split; [|done].
    symmetry. by apply isDuplicate_triple.
Qed.

Lemma register_step_lookup_ne (t : Table) r ty :
  type r ≠ ty → register_step t r !! ty = t !! ty.
Proof. intros. unfold register_step. by rewrite lookup_insert_ne. Qed.

Lemma register_step_lookup (t : Table) r :
  register_step t r !! type r
  = Some (let l := default [] (t !! type r) in
          if forallb (fun x => negb (isDuplicate x r)) l then l ++ [r] else l).
Proof. unfold register_step. by rewrite lookup_insert_eq. Qed.

Lemma register_snoc records r (t : Table) :
  register (records ++ [r]) t = register_step (register records t) r.
Proof. unfold register. by rewrite fold_left_app. Qed.

Lemma register_cons records r (t : Table) :
  register (r :: records) t = register records (register_step t r).
Proof. done. Qed.

Lemma tableInv_default (t : Table) ty :
  tableInv t →
  Forall (fun r => type r = ty) (default [] (t !! ty))
  ∧ NoDup (triple <$> default [] (t !! ty)).
Proof.
  intros H. destruct (t !! ty) as [l|] eqn:E; simpl.
  - by apply H.
  - split; [constructor | apply NoDup_nil_2].
Qed.

Lemma tableInv_register_step t r : tableInv t → tableInv (register_step t r).
Proof.
  intros H ty l. destruct (decide (type r = ty)) as [<-|Hne].
  - rewrite register_step_lookup. intros [= <-].
    destruct (tableInv_default t (type r) H) as [Hty Hnd].
    destruct (forallb _ _) eqn:E; [|done]. split.
    + apply Forall_app. split; [done|]. by repeat constructor.
    + rewrite fmap_app. apply NoDup_app. split; [done|]. split.
      * intros x Hx ->%list_elem_of_singleton.
        by apply forallb_not_duplicate in E.
      * apply NoDup_singleton.
  - rewrite register_step_lookup_ne by done. apply H.
Qed.

Lemma tableInv_unregister_step t r : tableInv t → tableInv (unregister_step t r).
Proof.
  intros H ty l. unfold unregister_step.
  destruct (tableInv_default t (type r) H) as [Hty Hnd].
  destruct (0 <? _)%nat.
  - destruct (decide (type r = ty)) as [<-|Hne].
    + rewrite lookup_insert_eq. intros [= <-]. split.
      * rewrite Forall_forall in Hty |- *.
        intros x [_ Hx]%list_elem_of_filter. by apply Hty.
      * eapply sublist_NoDup; [exact Hnd|].
        apply fmap_sublist, sublist_filter.
    + rewrite lookup_insert_ne by done. apply H.
  - intros Hl. apply (H ty l).
    destruct (decide (type r = ty)) as [<-|Hne].
    + by rewrite lookup_delete_eq in Hl.
    + by rewrite lookup_delete_ne in Hl.
Qed.

Lemma tableInv_register records t : tableInv t → tableInv (register records t).
Proof.
  revert t. induction records as [|r records IH]; intros t H; [done|].
  rewrite register_cons. by apply IH, tableInv_register_step.
Qed.

Lemma tableInv_unregister records t : tableInv t → tableInv (unregister records t).
Proof.
  revert t. induction records as [|r records IH]; intros t H; [done|].
  apply IH, tableInv_unregister_step, H.
Qed.

Lemma reachable_tableInv t : reachable t → tableInv t.
Proof.
  induction 1.
  - intros ty l. by rewrite lookup_empty.
  - by apply tableInv_register.
  - by apply tableInv_unregister.
Qed.


Lemma hasDuplicate_register_step_same t r : hasDuplicate (register_step t r) r.
Proof.
  unfold hasDuplicate. rewrite register_step_lookup. simpl.
  destruct (forallb _ _) eqn:E.
  - exists r. split; [|apply isDuplicate_refl].
    apply elem_of_app. right. by apply list_elem_of_singleton.
  - apply not_true_iff_false in E. rewrite forallb_not_duplicate in E.
    apply dec_stable in E. apply list_elem_of_fmap in E as (x & Hx & Hin).
    exists x. split; [done|]. by apply isDuplicate_triple.
Qed.

Lemma hasDuplicate_register_step t r r2 :
  hasDuplicate t r → hasDuplicate (register_step t r2) r.
Proof.
  intros (x & Hin & Hdup). exists x. split; [|done].
  destruct (decide (type r2 = type r)) as [E|Hne].
  - rewrite <- E, register_step_lookup. simpl. rewrite E.
    destruct (forallb _ _); [|done]. apply elem_of_app. by left.
  - by rewrite register_step_lookup_ne.
Qed.

Lemma hasDuplicate_register records t r :
  hasDuplicate t r → hasDuplicate (register records t) r.
Proof.
  revert t. induction records as [|r2 records IH]; intros t H; [done|].
  rewrite register_cons. by apply IH, hasDuplicate_register_step.
Qed.

Lemma register_hasDuplicate records t r :
  r ∈ records → hasDuplicate (register records t) r.
Proof.
  revert t. induction records as [|r2 records IH]; intros t Hin.
  - by apply elem_of_nil in Hin.
  - rewrite register_cons. apply elem_of_cons in Hin as [->|Hin].
    + apply hasDuplicate_register, hasDuplicate_register_step_same.
    + by apply IH.
Qed.











Example register_keeps_first_ttl :
  register [mkRecord RecordType.A (js "host") 120 (DataString (js "10.0.0.1"));
            mkRecord RecordType.A (js "host") 10 (DataString (js "10.0.0.1"))] ∅
  = {[ RecordType.A :=
         [mkRecord RecordType.A (js "host") 120 (DataString (js "10.0.0.1"))] ]}.
Proof. reflexivity. Qed.

(** ** Service types *)

Lemma trimEnd_id label : endsWithWhiteSpace label = false → trimEnd label = label.
Proof.
  unfold endsWithWhiteSpace. induction label as [|c r IH]; [done|].
  intros H. simpl. destruct r as [|d r'].
  - simpl in *. by rewrite H.
  - rewrite IH by (by rewrite last_cons_cons in H). done.
Qed.

Lemma trim_underscore label :
  endsWithWhiteSpace label = false → trim (chr "_" :: label) = chr "_" :: label.
Proof.
  intros H. unfold trim. simpl. destruct label as [|d r]; [done|].
  rewrite trimEnd_id by done. done.
Qed.

Lemma split_no_dot label :
  existsb (fun c => c =? chr ".") label = false → split (chr ".") label = [label].
Proof.
  induction label as [|c r IH]; [done|]. cbn [existsb split].
  intros [Hc Hr]%orb_false_iff. rewrite Hc, IH by done. done.
Qed.

Lemma split_app_dot label rest :
  existsb (fun c => c =? chr ".") label = false →
  split (chr ".") (label ++ chr "." :: rest) = label :: split (chr ".") rest.
Proof.
  induction label as [|c r IH]; intros H.
  - cbn [app split]. by rewrite N.eqb_refl.
  - cbn [existsb] in H. apply orb_false_iff in H as [Hc Hr].
    cbn [app split]. rewrite Hc, IH by done. done.
Qed.

Lemma split_join parts :
  parts ≠ [] →
  Forall (fun p => existsb (fun c => c =? chr ".") p = false) parts →
  split (chr ".") (join (js ".") parts) = parts.
Proof.
  induction parts as [|p ps IH]; [done|]. intros _ Hall.
  apply Forall_cons in Hall as [Hp Hps]. destruct ps as [|q ps].
  - by apply split_no_dot.
  - change (join (js ".") (p :: q :: ps))
      with (p ++ chr "." :: join (js ".") (q :: ps)).
    rewrite split_app_dot, IH by done. done.
Qed.

Lemma join_not_empty sep c p ps : join sep ((c :: p) :: ps) ≠ [].
Proof. by destruct ps. Qed.

Lemma plainLabel_spec label :
  plainLabel label = true →
  existsb (fun c => c =? chr ".") (chr "_" :: label) = false
  ∧ ServiceType.stripUnderscore (trim (chr "_" :: label)) = label.
Proof.
  unfold plainLabel. intros [Hdot Hws]%andb_true_iff.
  apply negb_true_iff in Hdot, Hws. split.
  - cbn [existsb]. by rewrite Hdot.
  - by rewrite trim_underscore.
Qed.

(** C3 (amended).  [fromString (toString t)] gives back the triple [t]
    when its labels have no ['.'] and do not end in white space, its
    subtype, if any, is not [sub], and, without a subtype, neither its name
    nor its protocol is [sub]. *)
Theorem fromString_toString name protocol subtype :
  roundTrips name protocol subtype →
  ServiceType.fromString
    (ServiceType.toString (ServiceType.mk (Some name) (Some protocol) subtype))
  = Ok (ServiceType.mk (Some name) (Some protocol) subtype).
Proof.
  intros (Hn & Hp & Hs).
  apply plainLabel_spec in Hn as [Hn1 Hn2], Hp as [Hp1 Hp2].
  unfold ServiceType.fromString, ServiceType.toString.
  destruct subtype as [s|];
    cbn [ServiceType.subtype ServiceType.name ServiceType.protocol app].
  - destruct Hs as [[Hs1 Hs2]%plainLabel_spec Hsub].
    rewrite bool_decide_eq_false_2 by apply join_not_empty.
    rewrite split_join by (done || by repeat constructor).
    cbn [map]. rewrite Hs2, Hn2, Hp2.
    change (ServiceType.stripUnderscore (trim (js "_sub"))) with (js "sub").
    cbn [indexOf]. rewrite decide_False by done. rewrite decide_True by done.
    reflexivity.
  - destruct Hs as [Hnsub Hpsub].
    rewrite bool_decide_eq_false_2 by apply join_not_empty.
    rewrite split_join by (done || by repeat constructor).
    cbn [map]. rewrite Hn2, Hp2.
    cbn [indexOf]. rewrite !decide_False by done.
    reflexivity.
Qed.

(** C3, as worded, fails: the name [my.svc] is split at its dot. *)
Lemma roundTrip_counterexample : ¬ roundTrip_all_nonempty.
Proof.
  intros H. specialize (H (js "my.svc") (js "tcp") None).
  vm_compute in H. by discriminate H.
Qed.

Example fromString_dotted_name :
  ServiceType.fromString
    (ServiceType.toString
       (ServiceType.mk (Some (js "my.svc")) (Some (js "tcp")) None))
  = Ok (ServiceType.mk (Some (js "my")) (Some (js "svc")) None).
Proof. reflexivity. Qed.

Example fromString_name_sub :
  ServiceType.fromString
    (ServiceType.toString
       (ServiceType.mk (Some (js "sub")) (Some (js "tcp")) None))
  = Throw ServiceType.SubFirst.
Proof. reflexivity. Qed.

Example fromString_trailing_space :
  ServiceType.fromString
    (ServiceType.toString
       (ServiceType.mk (Some (js "http ")) (Some (js "tcp")) None))
  = Ok (ServiceType.mk (Some (js "http")) (Some (js "tcp")) None).
Proof. reflexivity. Qed.

Lemma fromString_toString_witness :
  roundTrips (js "http") (js "tcp") (Some (js "printer"))
  ∧ ServiceType.fromString (js "_printer._sub._http._tcp")
    = Ok (ServiceType.mk (Some (js "http")) (Some (js "tcp")) (Some (js "printer"))).
Proof.
  assert (H : roundTrips (js "http") (js "tcp") (Some (js "printer"))).
  { repeat split; try reflexivity. discriminate. }
  split; [exact H|].
  exact (fromString_toString (js "http") (js "tcp") (Some (js "printer")) H).
Defined.

(** ** TXT codec *)

Lemma decode_singleton item binary :
  decode item binary = {[ keyOf item := valueOf item binary ]}.
Proof.
  unfold decode, keyOf, valueOf.
  destruct (_ =? -1)%Z; by destruct binary.
Qed.

Lemma entriesOf_snoc items item binary :
  entriesOf (TxtMany (items ++ [item])) binary
  = <[keyOf item := valueOf item binary]> (entriesOf (TxtMany items) binary).
Proof. unfold entriesOf. cbn [flat]. by rewrite fold_left_app. Qed.

Lemma entriesOf_flat data binary :
  entriesOf data binary = entriesOf (TxtMany (flat data)) binary.
Proof. by destruct data. Qed.

Lemma entriesOf_lookup_None items binary key :
  entriesOf (TxtMany items) binary !! key = None ↔
  ∀ item, item ∈ items → keyOf item ≠ key.
Proof.
  induction items as [|item items IH] using rev_ind.
  - split; [by intros _ ? ?%elem_of_nil | done].
  - rewrite entriesOf_snoc, lookup_insert_None, IH. split.
    + intros [H1 H2] it [?| ->%list_elem_of_singleton]%elem_of_app; auto.
    + intros H. split.
      * intros it Hit. apply H, elem_of_app. by left.
      * apply H, elem_of_app. right. by apply list_elem_of_singleton.
Qed.

(** The entries have a key exactly when an item decodes to it. *)
Lemma entriesOf_lookup_is_Some items binary key :
  is_Some (entriesOf (TxtMany items) binary !! key) ↔
  ∃ item, item ∈ items ∧ keyOf item = key.
Proof.
  induction items as [|item items IH] using rev_ind.
  - split; [by intros [? ?] | by intros (? & ?%elem_of_nil & _)].
  - rewrite entriesOf_snoc, lookup_insert_is_Some', IH. split.
    + intros [Hk|(it & Hin & Hk)].
      * exists item. split; [|done]. apply elem_of_app. right. by left.
      * exists it. split; [|done]. apply elem_of_app. by left.
    + intros (it & [Hin| ->%list_elem_of_singleton]%elem_of_app & Hk); eauto.
Qed.

Lemma entriesOf_last before item after binary :
  (∀ later, later ∈ after → keyOf later ≠ keyOf item) →
  entriesOf (TxtMany (before ++ item :: after)) binary !! keyOf item
  = Some (valueOf item binary).
Proof.
  induction after as [|x after IH] using rev_ind; intros H.
  - rewrite entriesOf_snoc. apply lookup_insert_eq.
  - replace (before ++ item :: after ++ [x]) with ((before ++ item :: after) ++ [x])
      by by rewrite <- app_assoc.
    rewrite entriesOf_snoc, lookup_insert_ne.
    + apply IH. intros later Hl. apply H, elem_of_app. by left.
    + apply H, elem_of_app. right. by apply list_elem_of_singleton.
Qed.

(** *** The assignments of [decodeTXT] *)

Lemma decodeTXT_step_assign runtime binary result item :
  decodeTXT_step runtime binary result item
  = assign runtime result (keyOf item) (valueOf item binary).
Proof.
  unfold decodeTXT_step. by rewrite decode_singleton, map_to_list_singleton.
Qed.

(** Under [Object.prototype] a key other than [__proto__] is stored. *)
Lemma assign_object runtime m key value :
  key ≠ js "__proto__" →
  assign runtime (object m) key value = Ok (object (<[key := value]> m)).
Proof.
  intros Hkey. unfold assign, object. cbn [own prototype].
  rewrite bool_decide_eq_false_2 by done. by case_bool_decide.
Qed.

Lemma valueOf_string item : ∃ s, valueOf item false = ValString s.
Proof. unfold valueOf. destruct (_ =? _)%Z; eauto. Qed.

(** A string under the key [__proto__] is not stored. *)
Lemma assign_proto_string runtime result item :
  protoKey item = true →
  assign runtime result (keyOf item) (valueOf item false) = Ok result.
Proof.
  intros Hkey%bool_decide_eq_true. unfold assign.
  rewrite bool_decide_eq_true_2 by done.
  by destruct (valueOf_string item) as [s ->].
Qed.

Lemma protoKey_false item : protoKey item = false ↔ keyOf item ≠ js "__proto__".
Proof. apply bool_decide_eq_false. Qed.

(** Without the key [__proto__] every item is stored. *)
Lemma decodeTXT_loop_object runtime binary items m :
  Forall (fun item => protoKey item = false) items →
  decodeTXT_loop runtime binary items (object m)
  = Ok (object
          (fold_left
             (fun result item => <[keyOf item := valueOf item binary]> result)
             items m)).
Proof.
  intros H. revert m. induction H as [|item items Hitem _ IH]; intros m; [done|].
  cbn [decodeTXT_loop fold_left].
  rewrite decodeTXT_step_assign, assign_object by by apply protoKey_false.
  apply IH.
Qed.

Lemma hasProtoKey_false data :
  hasProtoKey data = false ↔ Forall (fun item => protoKey item = false) (flat data).
Proof.
  unfold hasProtoKey. induction (flat data) as [|item items IH]; cbn [existsb].
  - split; [by constructor|done].
  - rewrite orb_false_iff, Forall_cons, IH. done.
Qed.

Lemma decodeTXT_object runtime data binary :
  hasProtoKey data = false →
  decodeTXT runtime data binary = Ok (object (entriesOf data binary)).
Proof.
  intros H%hasProtoKey_false. unfold decodeTXT, entriesOf.
  by apply decodeTXT_loop_object.
Qed.

(** With [binary = false] the call returns, and the items under the key
    [__proto__] leave nothing. *)
Lemma decodeTXT_loop_string runtime items m :
  decodeTXT_loop runtime false items (object m)
  = Ok (object
          (fold_left
             (fun result item => <[keyOf item := valueOf item false]> result)
             (List.filter (fun item => negb (protoKey item)) items) m)).
Proof.
  revert m. induction items as [|item items IH]; intros m; [done|].
  cbn [decodeTXT_loop List.filter]. rewrite decodeTXT_step_assign.
  destruct (protoKey item) eqn:Hkey; cbn [negb].
  - rewrite assign_proto_string by done. apply IH.
  - rewrite assign_object by by apply protoKey_false. apply IH.
Qed.

Lemma decodeTXT_string runtime data :
  decodeTXT runtime data false = Ok (object (entriesOf (withoutProto data) false)).
Proof. unfold decodeTXT, entriesOf. apply decodeTXT_loop_string. Qed.

Lemma filter_proto_app before item after :
  protoKey item = false →
  List.filter (fun item => negb (protoKey item)) (before ++ item :: after)
  = List.filter (fun item => negb (protoKey item)) before
    ++ item :: List.filter (fun item => negb (protoKey item)) after.
Proof. intros H. rewrite List.filter_app. cbn [List.filter]. by rewrite H. Qed.

(** The key [__proto__] apart, the last item wins: when no later item of
    the list decodes to the key of [item], and this key is not
    [__proto__], the object returned binds the key to the value of [item].
    With [binary = true] no item of the list has the key [__proto__]. *)
Lemma decodeTXT_last_wins (runtime : Runtime) before item after binary :
  protoKey item = false →
  (binary = true → hasProtoKey (TxtMany (before ++ item :: after)) = false) →
  (∀ later, later ∈ after → keyOf later ≠ keyOf item) →
  ∃ result,
    decodeTXT runtime (TxtMany (before ++ item :: after)) binary = Ok result
    ∧ own result !! keyOf item = Some (valueOf item binary).
Proof.
  intros Hitem Hbinary Hlast. destruct binary.
  - eexists. split; [by apply decodeTXT_object, Hbinary|].
    cbn [object own]. by apply entriesOf_last.
  - eexists. split; [apply decodeTXT_string|].
    cbn [object own]. unfold withoutProto. cbn [flat].
    rewrite filter_proto_app by done. apply entriesOf_last.
    intros later [Hin _]%list_elem_of_In%filter_In. by apply Hlast, list_elem_of_In.
Qed.

Lemma decodeTXT_last_wins_witness :
  ∃ result,
    decodeTXT exampleRuntime
      (TxtMany [ItemString (js "a=1"); ItemString (js "__proto__=2");
                ItemBuffer (js "a=3"); ItemString (js "c")]) false
    = Ok result
    ∧ own result !! js "a" = Some (ValString (js "3")).
Proof.
  apply (decodeTXT_last_wins exampleRuntime
           [ItemString (js "a=1"); ItemString (js "__proto__=2")]
           (ItemBuffer (js "a=3")) [ItemString (js "c")] false).
  - reflexivity.
  - discriminate.
  - intros later ->%list_elem_of_singleton. discriminate.
Defined.

(** For the key [__proto__] it does not: of two items with this key
    neither gives the value, the object returned has no such key. *)
Lemma decodeTXT_last_wins_proto : ¬ last_wins_all_keys.
Proof.
  intros H.
  destruct (H exampleRuntime [ItemString (js "__proto__=1")]
              (ItemString (js "__proto__=2")) [] false)
    as (result & Hresult & Hlookup); [by intros ? ?%elem_of_nil|].
  vm_compute in Hresult. injection Hresult as <-.
  vm_compute in Hlookup. discriminate.
Qed.

(** C9 fails on the code for the key [__proto__].  The inner [decode]
    builds its one-entry object with a computed key and keeps the key; the
    assignment [result[key] = value] of the loop runs the setter of
    [Object.prototype] instead of storing it.  Of two items with this key
    the string view binds neither, the object returned is empty; the
    binary view is empty as well and has the Buffer of the last item for
    its prototype. *)
Theorem decodeTXT_proto_key (runtime : Runtime) :
  decode (ItemString (js "__proto__=2")) false
  = {[ js "__proto__" := ValString (js "2") ]}
  ∧ decodeTXT runtime
      (TxtMany [ItemString (js "__proto__=1"); ItemString (js "__proto__=2")])
      false
    = Ok (object ∅)
  ∧ decodeTXT runtime
      (TxtMany [ItemString (js "__proto__=1"); ItemString (js "__proto__=2")])
      true
    = Ok (mkObject ∅ (Some (js "2"))).
Proof. repeat split; reflexivity. Qed.

(** C5 fails on the code: an item that begins with ['='] and an empty item
    are kept, bound to the empty key.  The test on the number of entries of
    the decoded item never discards anything. *)
Theorem decodeTXT_keeps_empty_key runtime :
  decodeTXT runtime (TxtMany [ItemString (js "=x")]) false
  = Ok (object {[ js "" := ValString (js "x") ]})
  ∧ decodeTXT runtime (TxtMany [ItemBuffer []]) false
    = Ok (object {[ js "" := ValString (js "") ]})
  ∧ decodeTXT runtime (TxtOne (ItemString (js "=x"))) true
    = Ok (object {[ js "" := ValBuffer (js "x") ]}).
Proof. repeat split; reflexivity. Qed.

Lemma inRange_true lo hi b : lo <= b → b <= hi → inRange lo hi b = true.
Proof.
  intros. unfold inRange. apply andb_true_iff. split; by apply N.leb_le.
Qed.

Lemma inRange_false lo hi b : b < lo ∨ hi < b → inRange lo hi b = false.
Proof.
  intros. unfold inRange. apply andb_false_iff.
  rewrite N.leb_gt, N.leb_gt. tauto.
Qed.

Lemma ltb_true a b : a < b → (a <? b) = true.
Proof. apply N.ltb_lt. Qed.
Lemma ltb_false a b : b <= a → (a <? b) = false.
Proof. apply N.ltb_ge. Qed.

Lemma toString_utf8_1 c rest :
  c < 0x80 → toString_utf8 (c :: rest) = c :: toString_utf8 rest.
Proof. intros. cbn [toString_utf8]. by rewrite ltb_true. Qed.

Lemma toString_utf8_2 c rest :
  0x80 <= c → c < 0x800 →
  toString_utf8 (0xC0 + c / 64 :: 0x80 + c mod 64 :: rest)
  = c :: toString_utf8 rest.
Proof.
  intros. cbn [toString_utf8].
  rewrite ltb_false by lia.
  rewrite (inRange_true 0xC2 0xDF) by lia.
  rewrite (inRange_true 0x80 0xBF) by lia.
  f_equal. lia.
Qed.

Lemma toString_utf8_3 c rest :
  0x800 <= c → c < 0x10000 → ¬ (0xD800 <= c <= 0xDFFF) →
  toString_utf8 (0xE0 + c / 4096 :: 0x80 + (c / 64) mod 64 :: 0x80 + c mod 64 :: rest)
  = c :: toString_utf8 rest.
Proof.
  intros. cbn [toString_utf8].
  rewrite ltb_false by lia.
  rewrite (inRange_false 0xC2 0xDF) by lia.
  rewrite (inRange_true 0xE0 0xEF) by lia.
  replace (second3 _ _) with true.
  2:{ symmetry. unfold second3.
      destruct (N.eqb_spec (224 + c / 4096) 224), (N.eqb_spec (224 + c / 4096) 237);
        apply inRange_true; lia. }
  rewrite (inRange_true 0x80 0xBF) by lia.
  f_equal. lia.
Qed.

Lemma toString_utf8_4 c rest :
  0x10000 <= c → c < 0x110000 →
  toString_utf8 (0xF0 + c / 262144 :: 0x80 + (c / 4096) mod 64
                 :: 0x80 + (c / 64) mod 64 :: 0x80 + c mod 64 :: rest)
  = utf16_of_codepoint c ++ toString_utf8 rest.
Proof.
  intros. cbn [toString_utf8].
  rewrite ltb_false by lia.
  rewrite (inRange_false 0xC2 0xDF) by lia.
  rewrite (inRange_false 0xE0 0xEF) by lia.
  rewrite (inRange_true 0xF0 0xF4) by lia.
  replace (second4 _ _) with true.
  2:{ symmetry. unfold second4.
      destruct (N.eqb_spec (240 + c / 262144) 240), (N.eqb_spec (240 + c / 262144) 244);
        apply inRange_true; lia. }
  rewrite !(inRange_true 0x80 0xBF) by lia.
  f_equal. f_equal. lia.
Qed.

(** Decoding the UTF-8 form of a scalar value gives back its UTF-16 form. *)
Lemma toString_utf8_codepoint c rest :
  c < 0x110000 → ¬ (0xD800 <= c <= 0xDFFF) →
  toString_utf8 (utf8_of_codepoint c ++ rest)
  = utf16_of_codepoint c ++ toString_utf8 rest.
Proof.
  intros Hc Hs. unfold utf8_of_codepoint.
  destruct (N.ltb_spec c 0x80).
  { cbn [app]. rewrite toString_utf8_1 by done.
    unfold utf16_of_codepoint. by rewrite ltb_true by lia. }
  destruct (N.ltb_spec c 0x800).
  { cbn [app]. rewrite toString_utf8_2 by done.
    unfold utf16_of_codepoint. by rewrite ltb_true by lia. }
  destruct (N.ltb_spec c 0x10000).
  { cbn [app]. rewrite toString_utf8_3 by done.
    unfold utf16_of_codepoint. by rewrite ltb_true by lia. }
  cbn [app]. by apply toString_utf8_4.
Qed.

Lemma utf16_surrogatePair c d :
  isHighSurrogate c = true → isLowSurrogate d = true →
  surrogatePair c d < 0x110000
  ∧ ¬ (0xD800 <= surrogatePair c d <= 0xDFFF)
  ∧ utf16_of_codepoint (surrogatePair c d) = [c; d].
Proof.
  unfold isHighSurrogate, isLowSurrogate, surrogatePair, utf16_of_codepoint.
  intros. bools. split; [lia|]. split; [lia|].
  rewrite ltb_false by lia. f_equal; [lia|]. f_equal. lia.
Qed.

Lemma not_surrogate c :
  isHighSurrogate c = false → isLowSurrogate c = false →
  ¬ (0xD800 <= c <= 0xDFFF).
Proof.
  unfold isHighSurrogate, isLowSurrogate.
  rewrite !andb_false_iff, !N.leb_gt. lia.
Qed.

Lemma toString_utf8_Buffer_from_aux n s :
  (length s <= n)%nat → isWellFormed s = true →
  toString_utf8 (Buffer_from s) = s.
Proof.
  revert s. induction n as [|n IH]; intros s Hlen Hwf.
  { destruct s; [done | simpl in Hlen; lia]. }
  destruct s as [|c r]; [done|]. cbn [isWellFormed Buffer_from] in *.
  destruct (isHighSurrogate c) eqn:Hhi.
  - destruct r as [|d r']; [done|]. bools.
    match goal with H : isLowSurrogate d = true |- _ => rename H into Hlo end.
    rewrite Hlo.
    destruct (utf16_surrogatePair c d Hhi Hlo) as (H1 & H2 & H3).
    rewrite toString_utf8_codepoint, H3 by done. cbn [app].
    do 2 f_equal. apply IH; [simpl in Hlen; lia | done].
  - apply andb_true_iff in Hwf as [[Hlo Hc]%andb_true_iff Hwf].
    apply negb_true_iff in Hlo. apply N.ltb_lt in Hc. rewrite Hlo.
    rewrite toString_utf8_codepoint by (lia || by apply not_surrogate).
    unfold utf16_of_codepoint. rewrite ltb_true by done. cbn [app].
    f_equal. apply IH; [simpl in Hlen; lia | done].
Qed.

Lemma toString_utf8_Buffer_from s :
  isWellFormed s = true → toString_utf8 (Buffer_from s) = s.
Proof. by apply (toString_utf8_Buffer_from_aux (length s)). Qed.

Lemma isKeyChar_spec c :
  isKeyChar c = true → c < 0x80 ∧ c ≠ chr "=".
Proof.
  unfold isKeyChar. intros [?%N.ltb_lt ?%negb_true_iff]%andb_true_iff.
  split; [done|]. by apply N.eqb_neq.
Qed.

Lemma Buffer_from_key key rest :
  forallb isKeyChar key = true →
  Buffer_from (key ++ chr "=" :: rest) = key ++ chr "=" :: Buffer_from rest.
Proof.
  induction key as [|c key IH]; intros H.
  - reflexivity.
  - cbn [forallb] in H. apply andb_true_iff in H as [[Hc _]%isKeyChar_spec H].
    cbn [app Buffer_from]. unfold isHighSurrogate, isLowSurrogate.
    rewrite (proj2 (N.leb_gt 0xD800 c)), (proj2 (N.leb_gt 0xDC00 c)) by lia.
    cbn [andb]. unfold utf8_of_codepoint. rewrite ltb_true by done.
    cbn [app]. by rewrite IH.
Qed.

Lemma land_127 c : c < 0x80 → N.land c 0x7F = c.
Proof.
  intros. change 0x7F with (N.ones 7). rewrite N.land_ones.
  apply N.mod_small. done.
Qed.

Lemma toString_ascii_key key rest :
  forallb isKeyChar key = true →
  toString_ascii (key ++ chr "=" :: rest) = key ++ chr "=" :: toString_ascii rest.
Proof.
  intros H. unfold toString_ascii. rewrite map_app. cbn [map]. f_equal.
  induction key as [|c key IH]; [done|].
  cbn [forallb] in H. apply andb_true_iff in H as [[Hc _]%isKeyChar_spec H].
  cbn [map]. by rewrite land_127, IH.
Qed.

Lemma indexOf_key key rest :
  forallb isKeyChar key = true →
  indexOf (chr "=") (key ++ chr "=" :: rest) = Z.of_nat (length key).
Proof.
  induction key as [|c key IH]; intros H.
  - cbn [app indexOf]. by rewrite decide_True.
  - cbn [forallb] in H. apply andb_true_iff in H as [[_ Hc]%isKeyChar_spec H].
    cbn [app indexOf]. rewrite decide_False by done. rewrite IH by done.
    destruct (Z.eqb_spec (Z.of_nat (length key)) (-1)); [lia|].
    cbn [length]. lia.
Qed.

(** What [decode] makes of the encoding of one entry. *)
Lemma decode_encoded key value :
  forallb isKeyChar key = true → isWellFormed value = true →
  let item := ItemBuffer (Buffer_from (key ++ js "=" ++ value)) in
  keyOf item = key ∧ valueOf item false = ValString value.
Proof.
  intros Hk Hv item. subst item. unfold keyOf, valueOf. cbn [toBuffer].
  change (js "=" ++ value) with (chr "=" :: value).
  rewrite Buffer_from_key, toString_ascii_key, indexOf_key by done.
  destruct (Z.eqb_spec (Z.of_nat (length key)) (-1)); [lia|].
  rewrite Nat2Z.id. split.
  - by rewrite take_app_length.
  - replace (Z.to_nat (Z.of_nat (length key) + 1)) with (S (length key)) by lia.
    replace (key ++ chr "=" :: Buffer_from value)
      with ((key ++ [chr "="]) ++ Buffer_from value) by by rewrite <- app_assoc.
    rewrite drop_app_length'; [|rewrite length_app; simpl; lia].
    by rewrite toString_utf8_Buffer_from.
Qed.

Lemma encodeTXT_stringEntries_snoc entries key value :
  encodeTXT (stringEntries (entries ++ [(key, value)]))
  = encodeTXT (stringEntries entries) ++ [Buffer_from (key ++ js "=" ++ value)].
Proof.
  unfold encodeTXT, stringEntries. by rewrite fmap_app, List.map_app.
Qed.

Lemma entriesOf_encodeTXT_list entries :
  NoDup entries.*1 →
  (∀ key value, (key, value) ∈ entries → plainEntry key value) →
  entriesOf (TxtMany (ItemBuffer <$> encodeTXT (stringEntries entries))) false
  = list_to_map (prod_map id ValString <$> entries).
Proof.
  induction entries as [|[key value] entries IH] using rev_ind; intros Hnd Hok.
  - reflexivity.
  - rewrite fmap_app in Hnd. apply NoDup_app in Hnd as (Hnd & Hfresh & _).
    rewrite encodeTXT_stringEntries_snoc, !fmap_app.
    cbn [fmap list_fmap prod_map fst snd id].
    rewrite entriesOf_snoc.
    destruct (Hok key value) as (_ & _ & Hk & Hv).
    { apply elem_of_app. right. by apply list_elem_of_singleton. }
    destruct (decode_encoded key value Hk Hv) as [-> ->].
    rewrite IH; [|done|].
    + rewrite list_to_map_snoc; [done|].
      rewrite <- list_fmap_compose. intros Hin. eapply Hfresh.
      * erewrite list_fmap_ext; [exact Hin|]. by intros _ [] _.
      * by apply list_elem_of_singleton.
    + intros k v Hin. apply Hok, elem_of_app. by left.
Qed.

(** The encoding of plain entries has no item under [__proto__]. *)
Lemma encodeTXT_no_proto entries :
  (∀ key value, (key, value) ∈ entries → plainEntry key value) →
  hasProtoKey (TxtMany (ItemBuffer <$> encodeTXT (stringEntries entries)))
  = false.
Proof.
  intros Hok. apply hasProtoKey_false, Forall_forall. cbn [flat].
  intros item (buffer & -> & Hin)%list_elem_of_fmap.
  unfold encodeTXT, stringEntries in Hin.
  apply list_elem_of_In, in_map_iff in Hin as ([key input] & <- & Hin).
  apply list_elem_of_In, list_elem_of_fmap in Hin as ([k value] & [= -> ->] & Hin).
  destruct (Hok k value Hin) as (_ & Hproto & Hk & Hv).
  cbn [templateString].
  destruct (decode_encoded k value Hk Hv) as [Hkey _].
  apply protoKey_false. by rewrite Hkey.
Qed.

(** C4 (amended).  For a map [m] whose keys are non-empty strings of ASCII
    characters other than ['='], none of them [__proto__], and whose
    values are well-formed strings (no unpaired surrogate), decoding the
    encoding of [m], whatever the order in which its entries are
    enumerated, gives [m]. *)
Theorem decodeTXT_encodeTXT (runtime : Runtime) (m : gmap jstring jstring)
    entries :
  entries ≡ₚ map_to_list m →
  (∀ key value, m !! key = Some value → plainEntry key value) →
  decodeTXT runtime
    (TxtMany (ItemBuffer <$> encodeTXT (stringEntries entries))) false
  = Ok (object (ValString <$> m)).
Proof.
  intros Hperm Hok.
  assert (Hentries : ∀ key value, (key, value) ∈ entries → plainEntry key value).
  { intros key value Hin. apply Hok.
    rewrite Hperm in Hin. by apply elem_of_map_to_list. }
  rewrite decodeTXT_object by by apply encodeTXT_no_proto.
  do 2 f_equal. rewrite entriesOf_encodeTXT_list.
  - rewrite list_to_map_fmap. f_equal.
    transitivity (list_to_map (map_to_list m) : gmap jstring jstring);
      [|apply list_to_map_to_list].
    apply list_to_map_proper; [|done].
    rewrite Hperm. apply NoDup_fst_map_to_list.
  - rewrite Hperm. apply NoDup_fst_map_to_list.
  - done.
Qed.

(** C4, as worded, fails: the key U+00E9 has no ['='] and comes back as
    the two characters [C)], the bytes of its UTF-8 form with the high bit
    cleared. *)
Lemma roundTrip_all_keys_counterexample : ¬ roundTrip_all_keys.
Proof.
  intros H.
  specialize (H exampleRuntime {[ [0xE9] := js "x" ]} [([0xE9], js "x")]).
  rewrite map_to_list_singleton in H. specialize (H (reflexivity _)).
  assert (Hkey : ∀ key value : jstring,
             ({[ [0xE9] := js "x" ]} : gmap jstring jstring) !! key = Some value →
             chr "=" ∉ key).
  { intros key value [<- _]%lookup_singleton_Some.
    intros Hin%list_elem_of_singleton. discriminate Hin. }
  specialize (H Hkey).
  apply (f_equal (fun result =>
                    match result with
                    | Ok result => own result !! js "C)"
                    | Throw _ => None
                    end)) in H.
  vm_compute in H. discriminate H.
Qed.

Example decodeTXT_encodeTXT_non_ascii_key runtime :
  decodeTXT runtime
    (TxtMany (ItemBuffer <$> encodeTXT [([0xE9], TxtString (js "x"))])) false
  = Ok (object {[ js "C)" := ValString (js "x") ]}).
Proof. reflexivity. Qed.

(** The key U+00BD has the byte [0xBD] in its UTF-8 form, which reads as
    ['='] once its high bit is cleared. *)
Example decodeTXT_encodeTXT_key_one_half runtime :
  decodeTXT runtime
    (TxtMany (ItemBuffer <$> encodeTXT [([0xBD], TxtString (js "v"))])) false
  = Ok (object {[ js "B" := ValString (js "=v") ]}).
Proof. reflexivity. Qed.

(** An unpaired surrogate in a value comes back as U+FFFD. *)
Example decodeTXT_encodeTXT_lone_surrogate runtime :
  decodeTXT runtime
    (TxtMany (ItemBuffer <$> encodeTXT [(js "k", TxtString [0xD800])])) false
  = Ok (object {[ js "k" := ValString [0xFFFD] ]}).
Proof. reflexivity. Qed.

(** The key [__proto__] does not come back: the assignment runs the
    setter of [Object.prototype], which does nothing with a string. *)
Example decodeTXT_encodeTXT_proto runtime :
  decodeTXT runtime
    (TxtMany (ItemBuffer <$> encodeTXT [(js "__proto__", TxtString (js "x"))]))
    false
  = Ok (object ∅).
Proof. reflexivity. Qed.

Lemma decodeTXT_encodeTXT_witness :
  decodeTXT exampleRuntime
    (TxtMany (ItemBuffer <$>
                encodeTXT [(js "path", TxtString [0x2F; 0xE9; 0xD83D; 0xDE00])]))
    false
  = Ok (object {[ js "path" := ValString [0x2F; 0xE9; 0xD83D; 0xDE00] ]}).
Proof.
  pose proof (decodeTXT_encodeTXT exampleRuntime
                {[ js "path" := [0x2F; 0xE9; 0xD83D; 0xDE00] ]}
                [(js "path", [0x2F; 0xE9; 0xD83D; 0xDE00])]) as H.
  rewrite map_to_list_singleton, map_fmap_singleton in H.
  apply H; [reflexivity|].
  intros key value [<- <-]%lookup_singleton_Some.
  split; [discriminate | split; [discriminate | split; reflexivity]].
Defined.

(** ** The record set of a service *)

(** The minimal service of the specification (scenario S1), on a host
    without interfaces. *)
Example getRecords_minimal :
  match Service.new (demoOptions true) (js "host") with
  | Ok s => Service.getRecords s []
  | Throw _ => []
  end
  = [mkRecord RecordType.PTR (js "_http._tcp.local") 28800
          (DataString (js "Foo Bar._http._tcp.local"));
        mkRecord RecordType.SRV (js "Foo Bar._http._tcp.local") 28800
          (DataSrv (mkSrv (int 3000) (js "host") None None));
        mkRecord RecordType.TXT (js "Foo Bar._http._tcp.local") 28800
          (DataTxt (TxtMany []));
        mkRecord RecordType.PTR (js "_services._dns-sd._udp.local") 28800
          (DataString (js "_http._tcp.local"))].
Proof. reflexivity. Qed.

(** TXT data, subtypes, a TTL and two addresses (scenario S2). *)
Example getRecords_full :
  match
    Service.new
      (Service.mkOptions None (js "http") (Some [js "foo"; js "bar"])
         (js "Foo.Bar") None (int 3000)
         (Some [(js "foo", TxtString (js "bar"))])
         (Some 120%Z) None None (Some true))
      (js "host")
  with
  | Ok s =>
      Service.getRecords s
        [[Service.mkInfo (js "127.0.0.1") Service.IPv4 (js "00:00:00:00:00:00") true];
         [Service.mkInfo (js "10.0.0.7") Service.IPv4 (js "aa:bb:cc:dd:ee:ff") false;
          Service.mkInfo (js "fe80::1") Service.IPv6 (js "aa:bb:cc:dd:ee:ff") false]]
  | Throw _ => []
  end
  = [mkRecord RecordType.PTR (js "_http._tcp.local") 120
          (DataString (js "Foo-Bar._http._tcp.local"));
        mkRecord RecordType.SRV (js "Foo-Bar._http._tcp.local") 120
          (DataSrv (mkSrv (int 3000) (js "host") None None));
        mkRecord RecordType.TXT (js "Foo-Bar._http._tcp.local") 120
          (DataTxt (TxtMany [ItemBuffer [0x66; 0x6f; 0x6f; 0x3d; 0x62; 0x61; 0x72]]));
        mkRecord RecordType.PTR (js "_services._dns-sd._udp.local") 120
          (DataString (js "_http._tcp.local"));
        mkRecord RecordType.PTR (js "_foo._sub._http._tcp.local") 120
          (DataString (js "Foo-Bar._http._tcp.local"));
        mkRecord RecordType.PTR (js "_bar._sub._http._tcp.local") 120
          (DataString (js "Foo-Bar._http._tcp.local"));
        mkRecord RecordType.A (js "host") 120 (DataString (js "10.0.0.7"))].
Proof. reflexivity. Qed.

Example new_invalid_port :
  Service.new
    (Service.mkOptions None (js "http") None (js "BadPort") None (int 70000) None
       None None None None) (js "host")
  = Throw Service.InvalidPort.
Proof. reflexivity. Qed.

(** ** World invariants *)

Lemma removeListener_filter f l :
  NoDup l → removeListener f l = filter (fun g => g ≠ f) l.
Proof.
  induction l as [|g r IH]; [done|].
  intros [Hg Hr]%NoDup_cons. cbn [removeListener].
  destruct (decide (g = f)) as [->|Hne].
  - rewrite bool_decide_eq_false_2 by done.
    rewrite filter_cons_False by (by intros ?).
    clear IH. induction r as [|h r IH]; [done|].
    apply not_elem_of_cons in Hg as [? ?]. apply NoDup_cons in Hr as [? ?].
    rewrite filter_cons_True by done. f_equal. by apply IH.
  - rewrite filter_cons_True by done. f_equal. by apply IH.
Qed.

Lemma listenersOk_remove w q :
  listenersOk w → listenersOk (upd_responseListeners (removeListener q) w).
Proof.
  intros [Hnd Hlt]. unfold listenersOk. cbn.
  rewrite removeListener_filter by done. split.
  - by apply NoDup_filter.
  - intros x [_ Hx]%list_elem_of_filter. by apply Hlt.
Qed.

Lemma sound_insert w task :
  sound w → sound (upd_tasks (insert (nextId w) task) (upd_nextId S w)).
Proof.
  intros [Hf [Hnd Hlt]]. split; [|split]; cbn.
  - intros id Hid. rewrite lookup_insert_ne by lia. apply Hf. lia.
  - done.
  - intros q Hq%Hlt. lia.
Qed.

Lemma sound_setTimeout w task delay : sound w → sound (setTimeout task delay w).2.
Proof. apply sound_insert. Qed.

Lemma sound_respond w records callback :
  sound w → sound (mdns_respond records callback w).
Proof. apply sound_insert. Qed.

Lemma sound_query w name callback : sound w → sound (mdns_query name callback w).
Proof. apply sound_insert. Qed.

Lemma sound_delete w id : sound w → sound (upd_tasks (delete id) w).
Proof.
  intros [Hf Hl]. split; [|done]. cbn. intros id' Hid.
  apply lookup_delete_None. right. by apply Hf.
Qed.

Lemma sound_clearTimeout w timer : sound w → sound (clearTimeout timer w).
Proof. destruct timer; [apply sound_delete|done]. Qed.

Lemma sound_log w a : sound w → sound (log a w).
Proof. done. Qed.
Lemma sound_services w f : sound w → sound (upd_services f w).
Proof. done. Qed.
Lemma sound_startedServices w f : sound w → sound (upd_startedServices f w).
Proof. done. Qed.
Lemma sound_typeToRecords w f : sound w → sound (upd_typeToRecords f w).
Proof. done. Qed.
Lemma sound_microtasks w f : sound w → sound (upd_microtasks f w).
Proof. done. Qed.
Lemma sound_probes w f : sound w → sound (upd_probes f w).
Proof. done. Qed.

Lemma sound_fold {A} (f : World → A → World) l w :
  (∀ w x, sound w → sound (f w x)) → sound w → sound (fold_left f l w).
Proof. intros Hf. revert w. induction l; cbn; auto. Qed.

Create HintDb sound.
#[local] Hint Resolve sound_setTimeout sound_respond sound_query sound_delete
  sound_clearTimeout sound_log sound_services sound_startedServices
  sound_typeToRecords sound_microtasks sound_probes : sound.

Lemma sound_runFinally w k : sound w → sound (runFinally k w).
Proof. destruct k; done. Qed.
#[local] Hint Resolve sound_runFinally : sound.

Lemma sound_goodbye w services k : sound w → sound (goodbye services k w).
Proof. intros H. unfold goodbye. repeat case_match; eauto with sound. Qed.
#[local] Hint Resolve sound_goodbye : sound.

Lemma sound_goodbyeResponded w published k error :
  sound w → sound (goodbyeResponded published k error w).
Proof.
  intros H. unfold goodbyeResponded.
  apply sound_runFinally. case_match; [apply sound_log|];
    apply sound_fold; eauto with sound.
Qed.

Lemma sound_stop w service : sound w → sound (Service_stop service w).
Proof.
  intros H. unfold Service_stop, onServiceStop.
  repeat case_match; eauto with sound.
Qed.

Lemma sound_destroy w : sound w → sound (destroy w).
Proof. intros H. unfold destroy. apply sound_fold; eauto with sound. Qed.

Lemma sound_broadcast w service records delay :
  sound w → sound (broadcast service records delay w).
Proof. intros H. unfold broadcast. repeat case_match; eauto with sound. Qed.

Lemma sound_announce w service : sound w → sound (announce service w).
Proof. intros H. unfold announce. by apply sound_broadcast. Qed.

Lemma sound_announceResponded w service records delay error :
  sound w → sound (announceResponded service records delay error w).
Proof.
  intros H. unfold announceResponded. repeat case_match; eauto 6 with sound.
Qed.

Lemma sound_probe w service k : sound w → sound (probe service k w).
Proof.
  intros [Hf [Hnd Hlt]]. unfold probe. apply sound_setTimeout.
  split; [|split]; cbn.
  - intros id Hid. apply Hf. lia.
  - apply NoDup_app. split; [done|]. split; [|apply NoDup_singleton].
    intros q Hq%Hlt ->%list_elem_of_singleton. lia.
  - intros q [Hq%Hlt| ->%list_elem_of_singleton]%elem_of_app; lia.
Qed.

Lemma sound_send w p : sound w → sound (send p w).
Proof. intros H. unfold send. repeat case_match; eauto with sound. Qed.

Lemma sound_probeQueried w p error : sound w → sound (probeQueried p error w).
Proof.
  intros H. unfold probeQueried, set_session.
  repeat case_match; eauto with sound;
    match goal with
    | E : setTimeout ?t ?d ?w' = (_, ?w'') |- _ =>
        replace w'' with (setTimeout t d w').2 by (by rewrite E)
    end; eauto with sound.
Qed.

Lemma sound_done w p e : sound w → sound (done p e w).
Proof.
  intros H. unfold done, set_session.
  assert (sound (upd_responseListeners (removeListener p) w)).
  { destruct H as [? ?]. split; [done|]. by apply listenersOk_remove. }
  repeat case_match; eauto with sound.
Qed.

#[local] Hint Resolve sound_goodbyeResponded sound_stop sound_destroy
  sound_broadcast sound_announce sound_announceResponded sound_probe
  sound_send sound_probeQueried sound_done : sound.

Lemma sound_onresponse w p packet : sound w → sound (onresponse p packet w).
Proof. intros H. unfold onresponse. repeat case_match; eauto with sound. Qed.

Lemma sound_runResume w k e : sound w → sound (runResume k e w).
Proof.
  intros H. unfold runResume, autoResolveLoop, autoResolveEnd.
  repeat case_match; eauto 6 with sound.
Qed.

Lemma sound_start w service : sound w → sound (Service_start service w).
Proof.
  intros H. unfold Service_start, onServiceStart, autoResolveLoop, autoResolveEnd.
  repeat case_match; eauto 6 with sound.
Qed.

Lemma sound_makeService w options : sound w → sound (makeService options w).
Proof.
  intros [Hf [Hnd Hlt]]. unfold makeService. case_match; [|done].
  split; [|split]; cbn.
  - intros id Hid. apply Hf. lia.
  - done.
  - intros q Hq%Hlt. lia.
Qed.

Lemma sound_handle w e : sound w → sound (handle w e).
Proof.
  intros H. destruct e as [id error|packet|c]; cbn [handle].
  - destruct (tasks w !! id) as [t|]; [|done].
    destruct t; cbn [runTask]; eauto with sound.
  - apply sound_fold; [|done]. intros. by apply sound_onresponse.
  - destruct c; eauto using sound_makeService, sound_start with sound.
Qed.

(** [runResume] sets no microtask. *)
Lemma microtasks_runResume w k e : microtasks (runResume k e w) = microtasks w.
Proof.
  unfold runResume, autoResolveLoop, autoResolveEnd, announce, broadcast,
    Service_stop, onServiceStop, goodbye, probe.
  repeat case_match; try done;
    match goal with |- context [runFinally ?k _] => by destruct k end.
Qed.

Lemma quiescent_step w e : sound w → quiescent (step w e).
Proof.
  intros H%(sound_handle _ e). unfold step, runMicrotasks.
  set (w1 := upd_microtasks _ _).
  assert (H1 : microtasks w1 = [] ∧ sound w1) by done.
  clearbody w1. revert w1 H1.
  induction (microtasks (handle w e)) as [|[k x] l IH]; intros w1 [Hm Hs].
  - done.
  - cbn. apply IH. split.
    + by rewrite microtasks_runResume.
    + by apply sound_runResume.
Qed.

Lemma quiescent_init hostname ifaces : quiescent (init hostname ifaces).
Proof.
  split; [done|]. split; [done|]. split; [apply NoDup_nil_2|].
  by intros q ?%elem_of_nil.
Qed.

(** Every world that a registry reaches is quiescent. *)
Lemma quiescent_exec w events : quiescent w → quiescent (exec w events).
Proof.
  revert w. induction events as [|e events IH]; intros w H; [done|].
  cbn. apply IH, quiescent_step, H.
Qed.

(** ** Announcing and goodbye *)

Lemma step_quiet w e :
  microtasks (handle w e) = [] →
  step w e = upd_microtasks (fun _ => []) (handle w e).
Proof. intros H. unfold step, runMicrotasks. by rewrite H. Qed.

Lemma announce_responded w0 service pub w id records delay tr :
  quiescent w0 →
  announcing w0 service pub w id (AnnounceResponded service records delay) tr →
  (delay * REANNOUNCE_FACTOR < REANNOUNCE_MAX_MS)%Z →
  announcing w0 service true (step w (Complete id false)) (S id)
    (BroadcastTimeout service records (delay * REANNOUNCE_FACTOR))
    (tr ++ (if pub then [] else [Emit service up])
        ++ [SetTimeout (S id) (Ms (delay * REANNOUNCE_FACTOR))]).
Proof.
  intros [_ [Hfresh _]] [Ht Hn Hid Htr Hm (s & Hs & Hst & Hde & Hpu)] Hd.
  assert (Hh : handle w (Complete id false)
    = (setTimeout (BroadcastTimeout service records (delay * REANNOUNCE_FACTOR))
         (Ms (delay * REANNOUNCE_FACTOR))
         (let w := upd_tasks (delete id) w in
          if negb pub then
            log (Emit service up)
              (upd_services (alter (Service.set_published true) service) w)
          else w)).2).
  { unfold handle. rewrite Ht, lookup_insert_eq. cbn [runTask].
    unfold announceResponded. cbn [services upd_tasks].
    rewrite Hs, Hpu, Hde. apply Z.ltb_lt in Hd. rewrite Hd. done. }
  rewrite step_quiet; rewrite Hh; [|by destruct pub].
  split.
  - destruct pub; cbn; rewrite Ht, Hn;
      by rewrite delete_insert_id by (apply Hfresh; lia).
  - by destruct pub; cbn; rewrite Hn.
  - lia.
  - destruct pub; cbn; rewrite Htr, Hn, <- ?app_assoc; done.
  - by destruct pub.
  - destruct pub; cbn.
    + exists s. by rewrite Hs.
    + exists (Service.set_published true s). rewrite lookup_alter_eq, Hs. done.
Qed.

Lemma broadcast_timeout w0 service pub w id records delay tr :
  quiescent w0 →
  announcing w0 service pub w id (BroadcastTimeout service records delay) tr →
  announcing w0 service pub (step w (Complete id false)) (S id)
    (AnnounceResponded service records delay) (tr ++ [Respond records]).
Proof.
  intros [_ [Hfresh _]] [Ht Hn Hid Htr Hm (s & Hs & Hst & Hde & Hpu)].
  assert (Hh : handle w (Complete id false)
    = mdns_respond records (AnnounceResponded service records delay)
        (upd_tasks (delete id) w)).
  { unfold handle. rewrite Ht, lookup_insert_eq. cbn [runTask].
    unfold broadcast. cbn [services upd_tasks]. by rewrite Hs, Hst, Hde. }
  rewrite step_quiet; rewrite Hh; [|done].
  split; cbn.
  - rewrite Ht, Hn. by rewrite delete_insert_id by (apply Hfresh; lia).
  - by rewrite Hn.
  - lia.
  - by rewrite Htr, <- app_assoc.
  - done.
  - eauto.
Qed.

Lemma announce_responded_last w0 service pub w id records delay tr :
  quiescent w0 →
  announcing w0 service pub w id (AnnounceResponded service records delay) tr →
  (REANNOUNCE_MAX_MS ≤ delay * REANNOUNCE_FACTOR)%Z →
  let w' := step w (Complete id false) in
  tasks w' = tasks w0
  ∧ trace w' = trace w0 ++ tr ++ (if pub then [] else [Emit service up]).
Proof.
  intros [_ [Hfresh _]] [Ht Hn Hid Htr Hm (s & Hs & Hst & Hde & Hpu)] Hd w'.
  subst w'.
  assert (Hh : handle w (Complete id false)
    = (let w := upd_tasks (delete id) w in
       if negb pub then
         log (Emit service up)
           (upd_services (alter (Service.set_published true) service) w)
       else w)).
  { unfold handle. rewrite Ht, lookup_insert_eq. cbn [runTask].
    unfold announceResponded. cbn [services upd_tasks].
    rewrite Hs, Hpu, Hde. apply Z.ltb_ge in Hd. rewrite Hd. done. }
  rewrite step_quiet; rewrite Hh; [|by destruct pub].
  split.
  - destruct pub; cbn; rewrite Ht;
      by rewrite delete_insert_id by (apply Hfresh; lia).
  - destruct pub; cbn; rewrite Htr, <- ?app_assoc, ?app_nil_r; done.
Qed.

Lemma announce_first w service s :
  quiescent w →
  services w !! service = Some s →
  Service.started s = true → Service.destroyed s = false →
  let records := Service.getRecords s (networkInterfaces w) in
  announcing w service (Service.published s) (announce service w) (nextId w)
    (AnnounceResponded service records 1000) [Respond records].
Proof.
  intros [Hm [Hfresh _]] Hs Hst Hde records.
  unfold announce, broadcast, getRecords. cbn [services upd_typeToRecords].
  rewrite Hs, Hst, Hde. split; cbn; eauto.
Qed.

Lemma exec_cons w e es : exec w (e :: es) = exec (step w e) es.
Proof. done. Qed.

Lemma timeouts_app tr1 tr2 : timeouts (tr1 ++ tr2) = timeouts tr1 ++ timeouts tr2.
Proof. unfold timeouts. apply flat_map_app. Qed.

Lemma responses_app tr1 tr2 :
  responses (tr1 ++ tr2) = (responses tr1 + responses tr2)%nat.
Proof. unfold responses. by rewrite List.filter_app, length_app. Qed.

(** The run of the chain once the first transmission is under way. *)
Lemma announcing_run w0 service pub w1 id records :
  quiescent w0 →
  announcing w0 service pub w1 id (AnnounceResponded service records 1000)
    [Respond records] →
  let w' := exec w1 (completions id 15) in
  trace w' = trace w0 ++ announceTrace service id records pub
  ∧ tasks w' = tasks w0.
Proof.
  intros Hq H0 w'. subst w'. unfold completions. cbn [seq fmap list_fmap].
  rewrite !exec_cons.
  do 7 (apply (announce_responded _ _ _ _ _ _ _ _ Hq) in H0; [|done];
        apply (broadcast_timeout _ _ _ _ _ _ _ _ Hq) in H0).
  apply (announce_responded_last _ _ _ _ _ _ _ _ Hq) in H0; [|done].
  destruct H0 as [Ht Htr]. cbn [exec fold_left].
  split; [|done]. rewrite Htr. f_equal. unfold announceTrace.
  rewrite !Nat.add_succ_r, !Nat.add_0_r.
  destruct pub; cbn [app]; rewrite <- ?app_assoc; reflexivity.
Qed.

Lemma timeouts_announceTrace service id records pub :
  timeouts (announceTrace service id records pub)
  = [Ms 3000; Ms 9000; Ms 27000; Ms 81000; Ms 243000; Ms 729000; Ms 2187000].
Proof. by destruct pub. Qed.

Lemma responses_announceTrace service id records pub :
  responses (announceTrace service id records pub) = 8%nat.
Proof. by destruct pub. Qed.

(** C2 (amended).  [announce] on a service that is started and not
    destroyed transmits the record set at once; when the fifteen tasks of
    the chain then run in order, each transport callback without error and
    the service neither stopped nor destroyed in between, the record set
    is transmitted eight times
    in all, the waits set between two transmissions are 3000, 9000, 27000,
    81000, 243000, 729000 and 2187000 ms (each three times the previous
    one, the first three times 1000 ms), and nothing is left scheduled:
    the next delay, 6561000 ms, is not below 3600000 ms. *)
Theorem announce_backoff w service s :
  quiescent w →
  services w !! service = Some s →
  Service.started s = true → Service.destroyed s = false →
  let records := Service.getRecords s (networkInterfaces w) in
  let w' := exec (announce service w) (completions (nextId w) 15) in
  trace w' = trace w ++ announceTrace service (nextId w) records (Service.published s)
  ∧ timeouts (trace w')
    = timeouts (trace w)
      ++ [Ms 3000; Ms 9000; Ms 27000; Ms 81000; Ms 243000; Ms 729000; Ms 2187000]
  ∧ responses (trace w') = (responses (trace w) + 8)%nat
  ∧ tasks w' = tasks w.
Proof.
  intros Hq Hs Hst Hde records w'.
  destruct (announcing_run w service (Service.published s)
              (announce service w) (nextId w) records Hq
              (announce_first w service s Hq Hs Hst Hde)) as [Htr Ht].
  fold w' in Htr, Ht. rewrite Htr, timeouts_app, responses_app.
  by rewrite timeouts_announceTrace, responses_announceTrace.
Qed.

(** The same from [start()] on a service that does not probe. *)
Lemma start_backoff w service s :
  quiescent w →
  services w !! service = Some s →
  Service.started s = false → Service.destroyed s = false →
  Service.probe s = false →
  let w' := exec w (Invoke (Start service) :: completions (nextId w) 15) in
  timeouts (trace w')
  = timeouts (trace w)
    ++ [Ms 3000; Ms 9000; Ms 27000; Ms 81000; Ms 243000; Ms 729000; Ms 2187000]
  ∧ responses (trace w') = (responses (trace w) + 8)%nat
  ∧ tasks w' = tasks w.
Proof.
  intros Hq Hs Hst Hde Hpr w'. subst w'. rewrite exec_cons.
  set (w0 := upd_startedServices (fun l => l ++ [service])
               (upd_services (alter (Service.set_started true) service) w)).
  assert (Hq0 : quiescent w0) by exact Hq.
  assert (Hs0 : services w0 !! service = Some (Service.set_started true s)).
  { subst w0. cbn. by rewrite lookup_alter_eq, Hs. }
  assert (Hh : handle w (Invoke (Start service)) = announce service w0).
  { cbn [handle]. unfold Service_start. rewrite Hs, Hst. cbn [negb].
    unfold onServiceStart. fold w0. rewrite Hs0.
    cbn [Service.probe Service.set_started]. by rewrite Hpr. }
  pose proof (announce_first w0 service _ Hq0 Hs0 eq_refl Hde) as H0.
  cbn zeta in H0. rewrite <- Hh in H0.
  assert (H1 : announcing w0 service (Service.published s)
                 (step w (Invoke (Start service))) (nextId w)
                 (AnnounceResponded service
                    (Service.getRecords (Service.set_started true s)
                       (networkInterfaces w0)) 1000)
                 [Respond (Service.getRecords (Service.set_started true s)
                             (networkInterfaces w0))]).
  { rewrite step_quiet by apply H0. destruct H0. by split. }
  destruct (announcing_run _ _ _ _ _ _ Hq0 H1) as [Htr Ht].
  rewrite Htr, timeouts_app, responses_app.
  by rewrite timeouts_announceTrace, responses_announceTrace.
Qed.

Lemma quiescent_startedWorld : quiescent startedWorld.
Proof.
  split; [reflexivity|]. split; [|split].
  - intros id _. apply lookup_empty.
  - apply NoDup_nil_2.
  - by intros q ?%elem_of_nil.
Qed.

Lemma announce_backoff_witness :
  let w' := exec (announce 0%nat startedWorld) (completions 1 15) in
  timeouts (trace w')
  = [Ms 3000; Ms 9000; Ms 27000; Ms 81000; Ms 243000; Ms 729000; Ms 2187000]
  ∧ responses (trace w') = 8%nat
  ∧ tasks w' = ∅.
Proof.
  destruct (announce_backoff startedWorld 0%nat _ quiescent_startedWorld
              eq_refl eq_refl eq_refl) as (_ & H1 & H2 & H3).
  repeat split; assumption.
Defined.

(** C2, as worded, fails: the first wait is 3000 ms, not 1000 ms, and
    there are seven waits, not eight. *)
Lemma announce_waits_counterexample : ¬ announce_waits_from_1000.
Proof.
  intros H.
  specialize (H startedWorld 0%nat _ quiescent_startedWorld eq_refl eq_refl eq_refl).
  vm_compute in H. discriminate H.
Qed.

Example announce_first_wait :
  timeouts (trace (exec demoInit
                     [Invoke (MakeService (demoOptions false));
                      Invoke (Start 0%nat); Complete 1%nat false]))
  = [Ms 3000].
Proof. reflexivity. Qed.

Lemma stop_started w service s :
  services w !! service = Some s →
  Service.started s = true →
  handle w (Invoke (Stop service))
  = let w' := upd_services (alter (Service.set_started false) service) w in
    if Service.published s then
      mdns_respond (goodbyeRecords w service)
        (GoodbyeResponded [service] (FinallyStop service))
        (upd_typeToRecords (unregister (goodbyeRecords w service)) w')
    else runFinally (FinallyStop service) w'.
Proof.
  intros Hs Hst. cbn [handle]. unfold Service_stop. rewrite Hs, Hst.
  set (w' := upd_services _ w). cbn zeta.
  assert (Hp : isPublished w' service = Service.published s).
  { unfold isPublished. subst w'. cbn [services upd_services].
    by rewrite lookup_alter_eq, Hs. }
  assert (Hr : getRecords w' service = getRecords w service).
  { unfold getRecords. subst w'. cbn [services upd_services networkInterfaces].
    by rewrite lookup_alter_eq, Hs. }
  unfold onServiceStop, goodbye, goodbyeRecords.
  cbn [List.filter]. rewrite Hp.
  destruct (Service.published s); [|reflexivity].
  cbn [length Nat.eqb flat_map]. rewrite Hr.
  unfold getRecords. rewrite Hs. reflexivity.
Qed.

(** [stop()] on a service that is started does what is asked of it: when
    the service is not published, nothing is sent, no event is emitted and
    [published] stays false; when it is published, one goodbye packet is
    sent, and when the transport reports it sent, with or without error,
    ['down'] is emitted once, [published] becomes false and no task of the
    call is left. *)
Lemma stop_emits_down w service s :
  quiescent w →
  services w !! service = Some s →
  Service.started s = true →
  let w1 := step w (Invoke (Stop service)) in
  (Service.published s = false →
     trace w1 = trace w
     ∧ tasks w1 = tasks w
     ∧ Service.published <$> services w1 !! service = Some false)
  ∧ (Service.published s = true →
     trace w1 = trace w ++ [Respond (goodbyeRecords w service)]
     ∧ tasks w1
       = <[nextId w := GoodbyeResponded [service] (FinallyStop service)]> (tasks w)
     ∧ ∀ error,
         let w2 := step w1 (Complete (nextId w) error) in
         trace w2
         = trace w ++ [Respond (goodbyeRecords w service); Emit service down]
             ++ (if error then [Rejected] else [])
         ∧ emitted service down (trace w2) = S (emitted service down (trace w))
         ∧ Service.published <$> services w2 !! service = Some false
         ∧ tasks w2 = tasks w).
Proof.
  intros [Hm [Hfresh _]] Hs Hst w1.
  pose proof (stop_started w service s Hs Hst) as Hh. cbn zeta in Hh.
  assert (H1 : w1 = upd_microtasks (fun _ => []) (handle w (Invoke (Stop service)))).
  { subst w1. apply step_quiet. rewrite Hh. by destruct (Service.published s). }
  split; intros Hpu; rewrite Hpu in Hh; rewrite H1, Hh.
  - cbn. rewrite lookup_alter_eq, Hs. cbn. by rewrite Hpu.
  - split; [done|]. split; [done|]. intros error w2. subst w2.
    set (w1' := upd_microtasks _ _).
    assert (Hh2 : handle w1' (Complete (nextId w) error)
      = goodbyeResponded [service] (FinallyStop service) error
          (upd_tasks (delete (nextId w)) w1')).
    { unfold handle. subst w1'. cbn [tasks upd_microtasks mdns_respond log upd_tasks].
      by rewrite lookup_insert_eq. }
    rewrite step_quiet; rewrite Hh2; [|by destruct error].
    split; [|split; [|split]].
    + destruct error; cbn; by rewrite <- ?app_assoc.
    + unfold emitted. destruct error; cbn;
        rewrite !List.filter_app, !length_app; cbn;
        rewrite bool_decide_eq_true_2 by done; cbn; lia.
    + destruct error; cbn; rewrite !lookup_alter_eq, Hs; done.
    + destruct error; cbn; by rewrite delete_insert_id by (by apply Hfresh).
Qed.

Lemma stop_emits_down_witness :
  let w1 := step publishedWorld (Invoke (Stop 0%nat)) in
  let w2 := step w1 (Complete 3%nat false) in
  emitted 0%nat down (trace w2) = 1%nat
  ∧ Service.published <$> services w2 !! 0%nat = Some false.
Proof.
  destruct (stop_emits_down publishedWorld 0%nat _
              (quiescent_exec _ _ (quiescent_init _ _)) eq_refl eq_refl)
    as [_ H].
  destruct (H eq_refl) as (_ & _ & H2).
  destruct (H2 false) as (_ & Hd & Hp & _).
  split; [exact Hd | exact Hp].
Defined.

(** On a published service that is not started it does not.  In
    [racedWorld] [stop] returns at its guard, no goodbye is sent, ['down']
    is not emitted and [published] stays true. *)
Lemma stop_published_not_started : ¬ stop_published_emits_down.
Proof.
  intros H.
  destruct (H racedWorld 0%nat _
              (quiescent_exec _ _ (quiescent_init _ _)) eq_refl eq_refl false)
    as [Hd _].
  vm_compute in Hd. discriminate Hd.
Qed.

(** C8 fails on the code.  A service stopped before the transport has
    sent its first announcement is published by the callback of the
    announcement, which does not test [started] as [broadcast] does:
    ['up'] is emitted after [stop()], and in [racedWorld] the service is
    published and not started.  [stop()] then returns at its guard.  Once
    every task that is left has run, no ['down'] was emitted, [published]
    is still true, and the records of the service are still registered,
    as they are for the service that was never stopped. *)
Theorem stop_after_race :
  let w := exec racedWorld [Invoke (Stop 0%nat); Complete 2%nat false] in
  (Service.started <$> services racedWorld !! 0%nat) = Some false
  ∧ (Service.published <$> services racedWorld !! 0%nat) = Some true
  ∧ trace racedWorld
    = [Respond (getRecords publishedWorld 0%nat); Emit 0%nat up;
       SetTimeout 2%nat (Ms 3000)]
  ∧ emitted 0%nat down (trace w) = 0%nat
  ∧ (Service.published <$> services w !! 0%nat) = Some true
  ∧ typeToRecords w = typeToRecords publishedWorld
  ∧ tasks w = ∅.
Proof. do 6 (split; [vm_compute; reflexivity|]). vm_compute. reflexivity. Qed.

(** A service that is not started: [stop] does nothing. *)
Lemma stop_not_started w service s :
  microtasks w = [] →
  services w !! service = Some s →
  Service.started s = false →
  handle w (Invoke (Stop service)) = w.
Proof.
  intros Hm Hs Hst. cbn [handle]. unfold Service_stop. by rewrite Hs, Hst.
Qed.

(** ** Probing *)

Create HintDb probing.

Section ProbeInvariant.

(** The probe [p] of [service], fixed. *)
Variables (p service : nat).

Lemma probing_next b w :
  probing p service b w → probing p service b (upd_nextId S w).
Proof.
  intros (Hp & [Hnd Hlt] & Hps). split; [cbn; lia|]. split; [|done].
  split; [done|]. intros q Hq. cbn. apply Hlt in Hq. cbn in Hq. lia.
Qed.

Lemma probing_setTimeout b w task delay :
  probing p service b w → probing p service b (setTimeout task delay w).2.
Proof. apply probing_next. Qed.

Lemma probing_respond b w records callback :
  probing p service b w → probing p service b (mdns_respond records callback w).
Proof. apply probing_next. Qed.

Lemma probing_query b w name callback :
  probing p service b w → probing p service b (mdns_query name callback w).
Proof. apply probing_next. Qed.

Lemma probing_log b w a :
  probing p service b w → probing p service b (log a w).
Proof. done. Qed.

Lemma probing_services b w f :
  probing p service b w → probing p service b (upd_services f w).
Proof. done. Qed.

Lemma probing_startedServices b w f :
  probing p service b w → probing p service b (upd_startedServices f w).
Proof. done. Qed.

Lemma probing_typeToRecords b w f :
  probing p service b w → probing p service b (upd_typeToRecords f w).
Proof. done. Qed.

Lemma probing_tasks b w f :
  probing p service b w → probing p service b (upd_tasks f w).
Proof. done. Qed.

Lemma probing_microtasks b w f :
  probing p service b w → probing p service b (upd_microtasks f w).
Proof. done. Qed.

Lemma probing_fold {A} b (f : World → A → World) l w :
  (∀ w x, probing p service b w → probing p service b (f w x)) →
  probing p service b w → probing p service b (fold_left f l w).
Proof. intros Hf. revert w. induction l; cbn; auto. Qed.

#[local] Hint Resolve probing_setTimeout probing_respond probing_query
  probing_log probing_services probing_startedServices
  probing_typeToRecords probing_tasks probing_microtasks probing_next
  : probing.

Lemma probing_runFinally b w k :
  probing p service b w → probing p service b (runFinally k w).
Proof. destruct k; done. Qed.
#[local] Hint Resolve probing_runFinally : probing.

Lemma probing_goodbye b w services k :
  probing p service b w → probing p service b (goodbye services k w).
Proof.
  intros H. unfold goodbye. repeat case_match; eauto with probing.
Qed.
#[local] Hint Resolve probing_goodbye : probing.

Lemma probing_goodbyeResponded b w published k error :
  probing p service b w →
  probing p service b (goodbyeResponded published k error w).
Proof.
  intros H. unfold goodbyeResponded.
  apply probing_runFinally. case_match; [apply probing_log|];
    apply probing_fold; eauto with probing.
Qed.

Lemma probing_stop b w service' :
  probing p service b w → probing p service b (Service_stop service' w).
Proof.
  intros H. unfold Service_stop, onServiceStop.
  repeat case_match; eauto with probing.
Qed.

Lemma probing_unpublishAll b w :
  probing p service b w → probing p service b (unpublishAll w).
Proof. apply probing_goodbye. Qed.

Lemma probing_destroy b w :
  probing p service b w → probing p service b (destroy w).
Proof. intros H. unfold destroy. apply probing_fold; eauto with probing. Qed.

Lemma probing_broadcast b w service' records delay :
  probing p service b w →
  probing p service b (broadcast service' records delay w).
Proof. intros H. unfold broadcast. repeat case_match; eauto with probing. Qed.

Lemma probing_announce b w service' :
  probing p service b w → probing p service b (announce service' w).
Proof. intros H. unfold announce. apply probing_broadcast. done. Qed.

Lemma probing_announceResponded b w service' records delay error :
  probing p service b w →
  probing p service b (announceResponded service' records delay error w).
Proof.
  intros H. unfold announceResponded.
  repeat case_match; eauto 6 with probing.
Qed.

#[local] Hint Resolve probing_goodbyeResponded probing_stop
  probing_unpublishAll probing_destroy probing_broadcast probing_announce
  probing_announceResponded : probing.

(** A new probe leaves the older ones alone. *)
Lemma probing_probe b w service' k :
  probing p service b w → probing p service b (probe service' k w).
Proof.
  intros (Hp & [Hnd Hlt] & ps & Hps & Hsvc & Hsent & Hres).
  unfold probe. apply probing_setTimeout.
  split; [cbn; lia|]. split; [split|]; cbn.
  - apply NoDup_app. split; [done|]. split; [|apply NoDup_singleton].
    intros q Hq ->%list_elem_of_singleton. apply Hlt in Hq. lia.
  - intros q [Hq| ->%list_elem_of_singleton]%elem_of_app; [|lia].
    apply Hlt in Hq. lia.
  - exists ps. rewrite lookup_insert_ne by lia. repeat split; try done.
    intros [Hq| ->%list_elem_of_singleton]%elem_of_app; [auto|lia].
Qed.
#[local] Hint Resolve probing_probe : probing.

Lemma probing_send b w q :
  probing p service b w → probing p service b (send q w).
Proof. intros H. unfold send. repeat case_match; eauto with probing. Qed.

Lemma probing_done b w q e :
  probing p service b w → probing p service b (done q e w).
Proof.
  intros H. pose proof H as (Hp & Hl & ps & Hps & Hsvc & Hsent & Hres).
  unfold done. destruct (probes w !! q) as [qs|] eqn:Hq; [|done].
  assert (Hbase : probing p service b
            (clearTimeout (timer qs) (upd_responseListeners (removeListener q) w))
          ∧ (q = p → p ∉ responseListeners
               (clearTimeout (timer qs) (upd_responseListeners (removeListener q) w)))).
  { destruct Hl as [Hnd Hlt]. split.
    - assert (Hrm : probing p service b (upd_responseListeners (removeListener q) w)).
      { split; [done|]. split; [by apply listenersOk_remove|].
        exists ps. repeat split; try done. cbn.
        rewrite removeListener_filter by done.
        intros [_ ?]%list_elem_of_filter. auto. }
      unfold clearTimeout. case_match; eauto with probing.
    - intros ->. replace (responseListeners (clearTimeout _ _))
        with (removeListener p (responseListeners w))
        by (unfold clearTimeout; by case_match).
      rewrite removeListener_filter by done.
      by intros [? _]%list_elem_of_filter. }
  destruct Hbase as [Hbase Hgone].
  destruct (resolved qs) eqn:Hr; [done|].
  apply probing_microtasks. unfold set_session.
  destruct Hbase as (Hp' & Hl' & ps' & Hps' & Hsvc' & Hsent' & Hres').
  split; [done|]. split; [done|]. cbn.
  destruct (decide (q = p)) as [->|Hne].
  - rewrite lookup_insert_eq. eexists. repeat split; cbn.
    + assert (ps' = ps) as ->.
      { unfold clearTimeout in Hps'. case_match; cbn in Hps'; congruence. }
      assert (qs = ps) as -> by congruence. done.
    + assert (qs = ps) as -> by congruence. done.
    + intros Hin. exfalso. by apply Hgone.
  - rewrite lookup_insert_ne by done. eauto 10.
Qed.
#[local] Hint Resolve probing_send probing_done : probing.

Lemma probing_onresponse b w q packet :
  probing p service b w → probing p service b (onresponse q packet w).
Proof. intros H. unfold onresponse. repeat case_match; eauto with probing. Qed.

Lemma probing_probeQueried_other b w q error :
  q ≠ p →
  probing p service b w → probing p service b (probeQueried q error w).
Proof.
  intros Hne H. unfold probeQueried.
  set (w1 := if error then _ else w).
  assert (H1 : probing p service b w1) by (subst w1; case_match; eauto with probing).
  replace (probes (if error then log (ConsoleWarn ProbingError) w else w))
    with (probes w1) by done.
  destruct (probes w1 !! q) as [qs|] eqn:Hq; [|done].
  cbn [setTimeout]. unfold set_session.
  apply probing_setTimeout with (task := ProbeSend q) (delay := Ms 250) in H1.
  destruct H1 as (Hp & Hl & ps & Hps & Hrest).
  split; [done|]. split; [done|]. exists ps. cbn.
  rewrite lookup_insert_ne by done. done.
Qed.

Lemma probing_probeQueried_same b w error :
  probing p service b w → probing p service true (probeQueried p error w).
Proof.
  intros H. unfold probeQueried.
  set (w1 := if error then _ else w).
  assert (H1 : probing p service b w1) by (subst w1; case_match; eauto with probing).
  replace (probes (if error then log (ConsoleWarn ProbingError) w else w))
    with (probes w1) by done.
  apply probing_setTimeout with (task := ProbeSend p) (delay := Ms 250) in H1.
  destruct H1 as (Hp & Hl & ps & Hps & Hsvc & Hsent & Hres).
  cbn in Hps. rewrite Hps. cbn [setTimeout]. unfold set_session.
  split; [done|]. split; [done|]. cbn. rewrite lookup_insert_eq.
  eexists. repeat split; done.
Qed.

Lemma probing_autoResolveEnd b w service' attempt :
  probing p service b w → probing p service b (autoResolveEnd service' attempt w).
Proof.
  intros H. unfold autoResolveEnd. repeat case_match; eauto with probing.
Qed.
#[local] Hint Resolve probing_autoResolveEnd : probing.

Lemma probing_autoResolveLoop b w service' name suffix attempt :
  probing p service b w →
  probing p service b (autoResolveLoop service' name suffix attempt w).
Proof.
  intros H. unfold autoResolveLoop. repeat case_match; eauto with probing.
Qed.
#[local] Hint Resolve probing_autoResolveLoop : probing.

Lemma probing_runResume b w k e :
  probing p service b w → probing p service b (runResume k e w).
Proof.
  intros H. unfold runResume. repeat case_match; eauto with probing.
Qed.

Lemma probing_runMicrotasks b w :
  probing p service b w → probing p service b (runMicrotasks w).
Proof.
  intros H. unfold runMicrotasks. apply probing_fold; [|done].
  intros w' [k e]. apply probing_runResume.
Qed.

Lemma probing_onServiceStart b w service' :
  probing p service b w → probing p service b (onServiceStart service' w).
Proof.
  intros H. unfold onServiceStart. repeat case_match; eauto with probing.
Qed.

Lemma probing_start b w service' :
  probing p service b w → probing p service b (Service_start service' w).
Proof.
  intros H. unfold Service_start.
  repeat case_match; try done. by apply probing_onServiceStart.
Qed.

Lemma probing_makeService b w options :
  probing p service b w → probing p service b (makeService options w).
Proof. intros H. unfold makeService. case_match; eauto with probing. Qed.

Lemma probing_handle b w e :
  probing p service b w →
  probing p service (b || completesQuery p w e) (handle w e).
Proof.
  intros H. destruct e as [id error|packet|c]; cbn [handle completesQuery].
  - destruct (tasks w !! id) as [t|] eqn:Ht; [|by rewrite orb_false_r].
    destruct t; cbn [runTask]; rewrite ?orb_false_r; eauto with probing.
    case_bool_decide as Hq.
    + subst. rewrite orb_true_r.
      eapply probing_probeQueried_same. by apply probing_tasks.
    + rewrite orb_false_r. by apply probing_probeQueried_other.
  - rewrite orb_false_r. apply probing_fold; [|done].
    intros. by apply probing_onresponse.
  - rewrite orb_false_r. destruct c.
    + by apply probing_makeService.
    + by apply probing_start.
    + by apply probing_stop.
    + by apply probing_unpublishAll.
    + by apply probing_destroy.
Qed.

Lemma probing_step b w e :
  probing p service b w →
  probing p service (b || completesQuery p w e) (step w e).
Proof. intros H. by apply probing_runMicrotasks, probing_handle. Qed.

Lemma probing_exec b w events :
  probing p service b w →
  probing p service (b || probeSent p w events) (exec w events).
Proof.
  revert b w. induction events as [|e events IH]; intros b w H.
  - by rewrite orb_false_r.
  - cbn [probeSent exec fold_left]. rewrite orb_assoc.
    apply IH. by apply probing_step.
Qed.

End ProbeInvariant.

Lemma probing_new w service k :
  listenersOk w →
  probing (nextId w) service false (probe service k w).
Proof.
  intros [Hnd Hlt]. unfold probe. apply probing_setTimeout.
  split; [cbn; lia|]. split; [split|]; cbn.
  - apply NoDup_app. split; [done|]. split; [|apply NoDup_singleton].
    intros q Hq ->%list_elem_of_singleton. apply Hlt in Hq. lia.
  - intros q [Hq| ->%list_elem_of_singleton]%elem_of_app; [|lia].
    apply Hlt in Hq. lia.
  - rewrite lookup_insert_eq. eexists. repeat split; done.
Qed.

Create HintDb keeps.

Section KeepsSession.

(** The probe [p] and its session [ps], fixed. *)
Variables (p : nat) (ps : ProbeSession).

Lemma keeps_next w : keeps p ps w → keeps p ps (upd_nextId S w).
Proof. intros [? ?]. split; [cbn; lia|done]. Qed.

Lemma keeps_setTimeout w task delay :
  keeps p ps w → keeps p ps (setTimeout task delay w).2.
Proof. apply keeps_next. Qed.

Lemma keeps_respond w records callback :
  keeps p ps w → keeps p ps (mdns_respond records callback w).
Proof. apply keeps_next. Qed.

Lemma keeps_log w a : keeps p ps w → keeps p ps (log a w).
Proof. done. Qed.

Lemma keeps_services w f : keeps p ps w → keeps p ps (upd_services f w).
Proof. done. Qed.

Lemma keeps_typeToRecords w f :
  keeps p ps w → keeps p ps (upd_typeToRecords f w).
Proof. done. Qed.

Lemma keeps_tasks w f : keeps p ps w → keeps p ps (upd_tasks f w).
Proof. done. Qed.

Lemma keeps_listeners w f :
  keeps p ps w → keeps p ps (upd_responseListeners f w).
Proof. done. Qed.

Lemma keeps_fold {A} (f : World → A → World) l w :
  (∀ w x, x ∈ l → keeps p ps w → keeps p ps (f w x)) →
  keeps p ps w → keeps p ps (fold_left f l w).
Proof.
  revert w. induction l as [|x l IH]; intros w Hf H; [done|].
  cbn. apply IH.
  - intros w' y Hy. apply Hf. by right.
  - apply Hf; [by left|done].
Qed.

#[local] Hint Resolve keeps_next keeps_setTimeout keeps_respond keeps_log
  keeps_services keeps_typeToRecords keeps_tasks keeps_listeners : keeps.

Lemma keeps_runFinally w k : keeps p ps w → keeps p ps (runFinally k w).
Proof. destruct k; done. Qed.
#[local] Hint Resolve keeps_runFinally : keeps.

Lemma keeps_stop w service : keeps p ps w → keeps p ps (Service_stop service w).
Proof.
  intros H. unfold Service_stop, onServiceStop, goodbye.
  repeat case_match; eauto with keeps.
Qed.

Lemma keeps_announce w service : keeps p ps w → keeps p ps (announce service w).
Proof.
  intros H. unfold announce, broadcast. repeat case_match; eauto with keeps.
Qed.

Lemma keeps_probe w service k : keeps p ps w → keeps p ps (probe service k w).
Proof.
  intros [Hp Hps]. unfold probe. apply keeps_setTimeout.
  split; [cbn; lia|]. cbn. rewrite lookup_insert_ne by lia. done.
Qed.
#[local] Hint Resolve keeps_stop keeps_announce keeps_probe : keeps.

Lemma keeps_runResume w k e : keeps p ps w → keeps p ps (runResume k e w).
Proof.
  intros H. unfold runResume, autoResolveLoop, autoResolveEnd.
  repeat case_match; eauto with keeps.
Qed.

Lemma keeps_runMicrotasks w : keeps p ps w → keeps p ps (runMicrotasks w).
Proof.
  intros H. unfold runMicrotasks. apply keeps_fold; [|done].
  intros w' [k e] _. apply keeps_runResume.
Qed.

Lemma keeps_onresponse w q packet :
  q ≠ p → keeps p ps w → keeps p ps (onresponse q packet w).
Proof.
  intros Hne H. unfold onresponse, done, clearTimeout, set_session.
  repeat case_match; try done.
  all: destruct H as [Hp Hps]; split; [done|]; cbn;
    by rewrite ?lookup_insert_ne by done.
Qed.

End KeepsSession.

Lemma services_onresponse w q packet :
  services (onresponse q packet w) = services w.
Proof.
  unfold onresponse, done, clearTimeout, set_session. by repeat case_match.
Qed.

Lemma services_fold_onresponse l w packet :
  services (fold_left (fun w q => onresponse q packet w) l w) = services w.
Proof.
  revert w. induction l as [|q l IH]; intros w; [done|].
  cbn. by rewrite IH, services_onresponse.
Qed.

Lemma conflict_keeps p ps w :
  keeps p ps w → conflict p w = bool_decide (resolved ps = Some true).
Proof. intros [_ Hps]. unfold conflict. by rewrite Hps. Qed.

(** A response while the probe [p] listens: it resolves the probe to
    "exists" when a query of [p] has completed and a record is named like
    the service, and not otherwise. *)
Lemma response_conflict p service b w packet :
  probing p service b w →
  p ∈ responseListeners w →
  conflict p w = false
  ∧ conflict p (step w (Response packet)) = b && namesService w service packet.
Proof.
  intros (Hp & [Hnd Hlt] & ps & Hps & Hsvc & Hsent & Hres) Hin.
  specialize (Hres Hin).
  assert (Hk : keeps p ps w) by done.
  split; [rewrite (conflict_keeps p ps) by done; by rewrite Hres|].
  apply list_elem_of_split in Hin as (l1 & l2 & Hl).
  rewrite Hl in Hnd. apply NoDup_app in Hnd as (_ & Hl1 & [Hl2 _]%NoDup_cons).
  unfold step. cbn [handle]. rewrite Hl, fold_left_app. cbn [fold_left].
  set (f := fun w q => onresponse q packet w).
  set (wa := fold_left f l1 w).
  assert (Hka : keeps p ps wa).
  { apply keeps_fold; [|done]. intros w' q Hq. apply keeps_onresponse.
    intros ->. apply (Hl1 p Hq). by left. }
  assert (Hsa : services wa = services w) by apply services_fold_onresponse.
  assert (Hb : ∃ ps', keeps p ps' (f wa p)
     ∧ bool_decide (resolved ps' = Some true) = b && namesService w service packet).
  { subst f. cbn beta. unfold onresponse, namesService.
    destruct Hka as [Hpa Hpsa]. rewrite Hpsa, Hsent, Hsvc, Hsa.
    destruct b; cbn [negb andb].
    - destruct (services w !! service) as [s|]; [|by exists ps; rewrite Hres].
      unfold namesFqdn. rewrite existsb_app.
      destruct (_ || _).
      + unfold done. rewrite Hpsa, Hres. eexists. split.
        * split; [unfold clearTimeout; by case_match|].
          cbn. by rewrite lookup_insert_eq.
        * done.
      + exists ps. by rewrite Hres.
    - exists ps. by rewrite Hres. }
  destruct Hb as (ps' & Hkb & <-).
  apply conflict_keeps, keeps_runMicrotasks, keeps_fold; [|done].
  intros w' q Hq. apply keeps_onresponse. by intros ->.
Qed.

(** The same along a run, for any session that satisfies the invariant. *)
Lemma conflict_while_probing p service b w events packet :
  probing p service b w →
  let w' := exec w events in
  p ∈ responseListeners w' →
  conflict p w' = false
  ∧ conflict p (step w' (Response packet))
    = (b || probeSent p w events) && namesService w' service packet.
Proof.
  intros H w' Hin. apply (response_conflict p service); [|done].
  by apply probing_exec.
Qed.

(** C7.  Let [probe] start the session [p], let any events follow, and let
    a response arrive while the listener of [p] is registered.  The session
    is unresolved before the response.  After it, the session has resolved
    to a conflict exactly when the callback of a query of [p] has run (the
    first probe has been sent) and a record of the answers or additionals
    has a name equal to the fqdn of the service under [nameEquals]. *)
Theorem probe_conflict w0 service k events packet :
  listenersOk w0 →
  let p := nextId w0 in
  let w := exec (probe service k w0) events in
  p ∈ responseListeners w →
  conflict p w = false
  ∧ conflict p (step w (Response packet))
    = probeSent p (probe service k w0) events && namesService w service packet.
Proof.
  intros Hok p w Hin.
  apply (response_conflict p service); [|done].
  apply (probing_exec p service false). by apply probing_new.
Qed.

(** The same for the probe that [start()] begins on a service that
    probes. *)
Lemma probe_conflict_after_start w service s events packet :
  quiescent w →
  services w !! service = Some s →
  Service.started s = false → Service.probe s = true →
  let p := nextId w in
  let w1 := step w (Invoke (Start service)) in
  let w' := exec w1 events in
  p ∈ responseListeners w' →
  conflict p w' = false
  ∧ conflict p (step w' (Response packet))
    = probeSent p w1 events && namesService w' service packet.
Proof.
  intros [_ [_ Hok]] Hs Hst Hpr p w1 w' Hin.
  apply (response_conflict p service); [|done].
  apply (probing_exec p service false). subst w1. unfold step.
  apply probing_runMicrotasks. cbn [handle]. unfold Service_start.
  rewrite Hs, Hst. cbn [negb]. unfold onServiceStart.
  cbn [services upd_startedServices upd_services].
  rewrite lookup_alter_eq, Hs.
  cbn [fmap option_fmap option_map Service.probe Service.set_started
       Service.probeAutoResolve].
  rewrite Hpr. destruct (Service.probeAutoResolve s).
  - unfold autoResolveLoop. cbn [Nat.leb MAX_PROBE_AUTO_RESOLVE_ATTEMPTS].
    exact (probing_new (upd_startedServices _ (upd_services _ w)) service _ Hok).
  - exact (probing_new (upd_startedServices _ (upd_services _ w)) service _ Hok).
Qed.

Lemma probe_conflict_witness :
  let w :=
    exec (probe 0%nat (ResumeProbeOnce 0%nat) startedWorld)
         [Complete 2%nat false; Complete 3%nat false] in
  conflict 1%nat (step w (Response demoPacket)) = true.
Proof.
  intros w.
  destruct (probe_conflict startedWorld 0%nat (ResumeProbeOnce 0%nat)
              [Complete 2%nat false; Complete 3%nat false] demoPacket)
    as [_ H].
  - exact (proj2 (proj2 quiescent_startedWorld)).
  - vm_compute. constructor.
  - subst w. etransitivity; [exact H|]. vm_compute. reflexivity.
Defined.

(** The same response before the callback of the first query has run: the
    probe stays unresolved. *)
Example response_before_first_probe :
  let w :=
    exec (probe 0%nat (ResumeProbeOnce 0%nat) startedWorld)
         [Complete 2%nat false] in
  trace w = [SetTimeout 2 (RandomBelow 250); Query (js "Foo Bar._http._tcp.local")]
  ∧ namesService w 0%nat demoPacket = true
  ∧ conflict 1%nat (step w (Response demoPacket)) = false.
Proof. repeat split; reflexivity. Qed.

(** A conflict with automatic resolution renames the service and probes
    again. *)
Example conflict_renames :
  let w :=
    exec demoInit
      [Invoke (MakeService (demoOptions true)); Invoke (Start 0%nat);
       Complete 2%nat false; Complete 3%nat false; Response demoPacket] in
  (Service.name <$> services w !! 0%nat) = Some (js "Foo Bar (2)")
  ∧ (Service.fqdn <$> services w !! 0%nat)
    = Some (js "Foo Bar (2)._http._tcp.local")
  ∧ responseListeners w = [5%nat].
Proof. repeat split; reflexivity. Qed.

(** ** The browser *)

(** C10.  [start()] on a browser that is started, that is, whose
    [onresponse] is set, returns the world as it is: the listeners, the
    queries sent and the known services are the same.  So a second [start]
    after a first one changes nothing. *)
Theorem start_idempotent (w : Browser.World) services filter f listeners
    queries timers nextFunction :
  Browser.start
    (Browser.mkWorld services filter (Some f) listeners queries timers
                     nextFunction)
  = Browser.mkWorld services filter (Some f) listeners queries timers
                    nextFunction
  ∧ Browser.start (Browser.start w) = Browser.start w.
Proof.
  split; [reflexivity|]. unfold Browser.start.
  destruct (Browser.onresponse w) eqn:E.
  - by rewrite E.
  - reflexivity.
Qed.

(** The first [start] registers one listener and sends one query for each
    query name. *)
Example start_new_browser :
  let w :=
    Browser.start
      (Browser.new
         (Some (Browser.mkFilter (js "tcp") (js "http")
                  (Some [js "printer"; js "scanner"]) None None))
         [] 0) in
  Browser.responseListeners w = [0%nat]
  ∧ Browser.queries w
    = [(js "_printer._sub._http._tcp.local", RecordType.PTR);
       (js "_scanner._sub._http._tcp.local", RecordType.PTR)]
  ∧ Browser.start w = w.
Proof. repeat split; reflexivity. Qed.

(** After [stop], [start] goes through again. *)
Example start_after_stop :
  let w := Browser.start (Browser.stop (Browser.start (Browser.new None [] 0))) in
  Browser.responseListeners w = [1%nat]
  ∧ Browser.queries w
    = [(js "_services._dns-sd._udp.local", RecordType.PTR);
       (js "_services._dns-sd._udp.local", RecordType.PTR)].
Proof. repeat split; reflexivity. Qed.

(** ** Names up to ASCII case *)

Lemma toLowerCase_AZ_eq c d :
  toLowerCase_AZ c = toLowerCase_AZ d ↔ sameLetter c d = true.
Proof.
  unfold toLowerCase_AZ, sameLetter, isCapitalLetter.
  destruct (N.leb_spec 65 c), (N.leb_spec c 90), (N.leb_spec 65 d),
    (N.leb_spec d 90); cbn [andb orb];
    rewrite ?orb_false_r, ?orb_true_iff, ?N.eqb_eq; lia.
Qed.

Lemma replaceCapitalLetters_eq a b :
  replaceCapitalLetters a = replaceCapitalLetters b
  ↔ Forall2 (fun c d => sameLetter c d = true) a b.
Proof.
  unfold replaceCapitalLetters. revert b.
  induction a as [|c a IH]; intros [|d b]; cbn [map].
  - split; [constructor | done].
  - split; [done | inversion 1].
  - split; [done | inversion 1].
  - rewrite Forall2_cons, <- IH, <- toLowerCase_AZ_eq. split.
    + by intros [= -> ->].
    + by intros [-> ->].
Qed.

Lemma nameEquals_refl a : nameEquals a a = true.
Proof. unfold nameEquals. by apply bool_decide_eq_true. Qed.

Lemma nameEquals_sym a b : nameEquals a b = nameEquals b a.
Proof. unfold nameEquals. apply bool_decide_ext. split; by intros ->. Qed.

Lemma nameEquals_trans a b c :
  nameEquals a b = true → nameEquals b c = true → nameEquals a c = true.
Proof.
  unfold nameEquals. rewrite !bool_decide_eq_true. by intros -> ->.
Qed.

Lemma nameEquals_length a b : nameEquals a b = true → length a = length b.
Proof.
  unfold nameEquals, replaceCapitalLetters. rewrite bool_decide_eq_true.
  intros H. apply (f_equal length) in H. by rewrite !length_map in H.
Qed.

(** X1.  [nameEquals a b] holds exactly when [a] and [b] have the same
    length and agree position by position up to the case of the letters
    [A-Z]; no other character is folded. *)
Theorem nameEquals_sameLetter a b :
  nameEquals a b = true ↔ Forall2 (fun c d => sameLetter c d = true) a b.
Proof.
  unfold nameEquals. rewrite bool_decide_eq_true. apply replaceCapitalLetters_eq.
Qed.

(** ** TXT codec: keys and the two views *)

Lemma indexOf_spec {A} `{EqDecision A} (x : A) l :
  (indexOf x l = (-1)%Z ∧ x ∉ l)
  ∨ ∃ i, indexOf x l = Z.of_nat i ∧ l !! i = Some x ∧ x ∉ take i l.
Proof.
  induction l as [|y l IH]; cbn [indexOf].
  - left. split; [done | apply not_elem_of_nil].
  - destruct (decide (y = x)) as [->|Hne].
    + right. exists 0%nat. split; [done|]. split; [done | apply not_elem_of_nil].
    + destruct IH as [[-> Hnin]|(i & -> & Hi & Hnin)].
      * left. split; [done|]. by intros [?|?]%elem_of_cons.
      * right. exists (S i). destruct (Z.eqb_spec (Z.of_nat i) (-1)); [lia|].
        split; [lia|]. split; [done|]. cbn [take].
        by intros [?|?]%elem_of_cons.
Qed.

Lemma land_127_lt b : N.land b 0x7F < 0x80.
Proof.
  change 0x7F with (N.ones 7). rewrite N.land_ones.
  apply N.mod_lt. done.
Qed.

Lemma forallb_isKeyChar key :
  forallb isKeyChar key = true ↔ Forall (fun c => c < 0x80) key ∧ chr "=" ∉ key.
Proof.
  rewrite forallb_forall, Forall_forall. unfold isKeyChar. split.
  - intros H. split.
    + intros c Hc%list_elem_of_In. apply H in Hc. bools. done.
    + intros Hc%list_elem_of_In. apply H in Hc. bools. done.
  - intros [H1 H2] c Hc%list_elem_of_In. apply andb_true_iff. split.
    + apply N.ltb_lt. auto.
    + apply negb_true_iff, N.eqb_neq. by intros ->.
Qed.

Lemma keyOf_isKeyChar item : forallb isKeyChar (keyOf item) = true.
Proof.
  apply forallb_isKeyChar. unfold keyOf.
  assert (Hlt : Forall (fun c => c < 0x80) (toString_ascii (toBuffer item))).
  { unfold toString_ascii. apply Forall_forall.
    intros c (b & -> & _)%list_elem_of_fmap. apply land_127_lt. }
  destruct (indexOf_spec (chr "=") (toString_ascii (toBuffer item)))
    as [[-> Hnin]|(i & -> & _ & Hnin)].
  - done.
  - destruct (Z.eqb_spec (Z.of_nat i) (-1)); [lia|]. rewrite Nat2Z.id.
    split; [|done]. by apply Forall_take.
Qed.

(** An assignment adds at most its key. *)
Lemma assign_keys runtime result key value result' k :
  assign runtime result key value = Ok result' →
  is_Some (own result' !! k) → k = key ∨ is_Some (own result !! k).
Proof.
  unfold assign. intros H Hk.
  assert (Hstored : is_Some (<[key := value]> (own result) !! k) →
                    k = key ∨ is_Some (own result !! k)).
  { rewrite lookup_insert_is_Some'. intros [->|?]; auto. }
  repeat case_match; simplify_eq; cbn [own] in Hk; auto.
Qed.

Lemma decodeTXT_loop_keys runtime binary items result result' k :
  decodeTXT_loop runtime binary items result = Ok result' →
  is_Some (own result' !! k) →
  is_Some (own result !! k) ∨ ∃ item, item ∈ items ∧ keyOf item = k.
Proof.
  revert result. induction items as [|item items IH]; intros result.
  - cbn [decodeTXT_loop]. intros [= <-]. auto.
  - cbn [decodeTXT_loop]. rewrite decodeTXT_step_assign.
    destruct (assign _ _ _ _) as [next|] eqn:Hassign; [|done].
    intros Hloop Hk. destruct (IH _ Hloop Hk) as [Hnext|(it & Hin & Hit)].
    + destruct (assign_keys _ _ _ _ _ _ Hassign Hnext) as [->|?]; [|by left].
      right. exists item. split; [by left | done].
    + right. exists it. split; [by right | done].
Qed.

(** X2.  Every key of the object that [decodeTXT] returns is made of
    7-bit characters other than ['=']. *)
Theorem decodeTXT_keys (runtime : Runtime) data binary result key :
  decodeTXT runtime data binary = Ok result →
  is_Some (own result !! key) → forallb isKeyChar key = true.
Proof.
  unfold decodeTXT. intros Hloop Hkey.
  destruct (decodeTXT_loop_keys _ _ _ _ _ _ Hloop Hkey)
    as [[? Hempty]|(item & _ & <-)].
  - cbn [own] in Hempty. by rewrite lookup_empty in Hempty.
  - apply keyOf_isKeyChar.
Qed.

Lemma decodeTXT_keys_witness :
  is_Some (own (mkObject {[ js "C)" := ValBuffer (js "1") ]} None) !! js "C)")
  ∧ forallb isKeyChar (js "C)") = true.
Proof.
  assert (H : is_Some (own (mkObject {[ js "C)" := ValBuffer (js "1") ]} None)
                         !! js "C)")).
  { vm_compute. eauto. }
  split; [exact H|].
  refine (decodeTXT_keys exampleRuntime
            (TxtOne (ItemBuffer [0xC3; 0xA9; 0x3D; 0x31])) true _ _ _ H).
  reflexivity.
Defined.

Lemma valueOf_asString item :
  valueOf item false = asString (valueOf item true).
Proof. unfold valueOf. by destruct (_ =? -1)%Z. Qed.

Lemma entriesOf_asString data :
  entriesOf data false = asString <$> entriesOf data true.
Proof.
  rewrite !(entriesOf_flat data).
  induction (flat data) as [|item items IH] using rev_ind.
  - unfold entriesOf. cbn. by rewrite fmap_empty.
  - by rewrite !entriesOf_snoc, fmap_insert, IH, valueOf_asString.
Qed.

(** X3.  When no item has the key [__proto__], the two views of
    [decodeTXT] are plain objects with the same keys, and the string bound
    to a key is the UTF-8 decoding of the Buffer bound to it. *)
Theorem decodeTXT_string_of_binary (runtime : Runtime) data :
  hasProtoKey data = false →
  ∃ entries,
    decodeTXT runtime data true = Ok (object entries)
    ∧ decodeTXT runtime data false = Ok (object (asString <$> entries)).
Proof.
  intros Hdata. exists (entriesOf data true).
  rewrite !decodeTXT_object by done. by rewrite entriesOf_asString.
Qed.

Lemma decodeTXT_string_of_binary_witness :
  ∃ entries,
    decodeTXT exampleRuntime
      (TxtMany [ItemBuffer [0x6B; 0x3D; 0xC3; 0xA9]; ItemString (js "length=1")])
      true
    = Ok (object entries)
    ∧ decodeTXT exampleRuntime
        (TxtMany [ItemBuffer [0x6B; 0x3D; 0xC3; 0xA9]; ItemString (js "length=1")])
        false
      = Ok (object (asString <$> entries)).
Proof.
  apply (decodeTXT_string_of_binary exampleRuntime
           (TxtMany [ItemBuffer [0x6B; 0x3D; 0xC3; 0xA9];
                     ItemString (js "length=1")])).
  reflexivity.
Defined.

(** With the key [__proto__] the two views differ: the string view drops
    the item, the binary view makes its Buffer the prototype of the
    result, and what a later assignment does is up to the properties of
    the Buffer: [length] has a getter and no setter, the assignment
    throws. *)
Example decodeTXT_proto_views :
  decodeTXT exampleRuntime
    (TxtMany [ItemString (js "__proto__=x"); ItemString (js "length=1")]) false
  = Ok (object {[ js "length" := ValString (js "1") ]})
  ∧ decodeTXT exampleRuntime
      (TxtMany [ItemString (js "__proto__=x"); ItemString (js "k=1")]) true
    = Ok (mkObject {[ js "k" := ValBuffer (js "1") ]} (Some (js "x")))
  ∧ decodeTXT exampleRuntime
      (TxtMany [ItemString (js "__proto__=x"); ItemString (js "length=1")]) true
    = Throw TypeError.
Proof. repeat split; reflexivity. Qed.

Lemma decode_encoded_binary key value :
  forallb isKeyChar key = true →
  let item := ItemBuffer (Buffer_from (key ++ js "=" ++ value)) in
  keyOf item = key ∧ valueOf item true = ValBuffer (Buffer_from value).
Proof.
  intros Hk item. subst item. unfold keyOf, valueOf. cbn [toBuffer].
  change (js "=" ++ value) with (chr "=" :: value).
  rewrite Buffer_from_key, toString_ascii_key, indexOf_key by done.
  destruct (Z.eqb_spec (Z.of_nat (length key)) (-1)); [lia|].
  rewrite Nat2Z.id. split.
  - by rewrite take_app_length.
  - replace (Z.to_nat (Z.of_nat (length key) + 1)) with (S (length key)) by lia.
    replace (key ++ chr "=" :: Buffer_from value)
      with ((key ++ [chr "="]) ++ Buffer_from value) by by rewrite <- app_assoc.
    rewrite drop_app_length'; [done|]. rewrite length_app. simpl. lia.
Qed.

Lemma entriesOf_encodeTXT_binary (entries : list (jstring * TxtInput)) :
  NoDup entries.*1 →
  (∀ entry, entry ∈ entries → forallb isKeyChar entry.1 = true) →
  entriesOf (TxtMany (ItemBuffer <$> encodeTXT entries)) true
  = list_to_map (binaryEntry <$> entries).
Proof.
  induction entries as [|[key value] entries IH] using rev_ind; intros Hnd Hok.
  - reflexivity.
  - rewrite fmap_app in Hnd. apply NoDup_app in Hnd as (Hnd & Hfresh & _).
    unfold encodeTXT in *. rewrite List.map_app, !fmap_app.
    cbn [map fmap list_fmap]. rewrite entriesOf_snoc.
    destruct (decode_encoded_binary key (templateString value)) as [-> ->].
    { apply (Hok (key, value)), elem_of_app. right. by apply list_elem_of_singleton. }
    rewrite IH; [|done|].
    + change (binaryEntry (key, value))
        with (key, ValBuffer (Buffer_from (templateString value))).
      rewrite list_to_map_snoc; [done|].
      rewrite <- list_fmap_compose. intros Hin. eapply Hfresh.
      * erewrite list_fmap_ext; [exact Hin|]. by intros _ [] _.
      * by apply list_elem_of_singleton.
    + intros e Hin. apply Hok, elem_of_app. by left.
Qed.

Lemma encodeTXT_hasProtoKey (entries : list (jstring * TxtInput)) :
  (∀ entry, entry ∈ entries →
            forallb isKeyChar entry.1 = true ∧ entry.1 ≠ js "__proto__") →
  hasProtoKey (TxtMany (ItemBuffer <$> encodeTXT entries)) = false.
Proof.
  intros Hok. apply hasProtoKey_false, Forall_forall. cbn [flat].
  intros item (buffer & -> & Hin)%list_elem_of_fmap.
  unfold encodeTXT in Hin.
  apply list_elem_of_In, in_map_iff in Hin as ([key value] & <- & Hin).
  destruct (Hok (key, value)) as [Hkey Hproto]; [by apply list_elem_of_In|].
  destruct (decode_encoded_binary key (templateString value) Hkey) as [Hk _].
  apply protoKey_false. by rewrite Hk.
Qed.

(** X4.  Whatever the values of a map, strings, numbers, booleans or
    Buffers, when its keys are made of 7-bit characters other than ['=']
    and none is [__proto__], the binary view of the decoding of its
    encoding is a plain object that binds each key to the UTF-8 bytes of
    the text of its value. *)
Theorem decodeTXT_encodeTXT_binary (runtime : Runtime)
    (entries : list (jstring * TxtInput)) :
  NoDup entries.*1 →
  (∀ entry, entry ∈ entries →
            forallb isKeyChar entry.1 = true ∧ entry.1 ≠ js "__proto__") →
  decodeTXT runtime (TxtMany (ItemBuffer <$> encodeTXT entries)) true
  = Ok (object (list_to_map (binaryEntry <$> entries))).
Proof.
  intros Hnd Hok.
  rewrite decodeTXT_object by by apply encodeTXT_hasProtoKey.
  rewrite entriesOf_encodeTXT_binary; [done|done|].
  intros entry Hin. by apply Hok.
Qed.

Lemma decodeTXT_encodeTXT_binary_witness :
  decodeTXT exampleRuntime
    (TxtMany (ItemBuffer <$>
                encodeTXT [(js "on", TxtBoolean true);
                           (js "raw", TxtBuffer [0xFF]);
                           (js "n", TxtNumber (js "42"))])) true
  = Ok (object
          (list_to_map
             [(js "on", ValBuffer (js "true"));
              (js "raw", ValBuffer [0xEF; 0xBF; 0xBD]);
              (js "n", ValBuffer (js "42"))])).
Proof.
  apply (decodeTXT_encodeTXT_binary exampleRuntime
           [(js "on", TxtBoolean true); (js "raw", TxtBuffer [0xFF]);
            (js "n", TxtNumber (js "42"))]).
  - vm_compute. repeat constructor; set_solver.
  - intros e He.
    repeat (apply elem_of_cons in He as [->|He]; [by split|]).
    by apply elem_of_nil in He.
Defined.

(** ** Service types: what the parser gives *)

Lemma split_not_nil sep s : split sep s ≠ [].
Proof. destruct s as [|c r]; [done|]. cbn [split]. by repeat case_match. Qed.

Lemma split_labels s :
  Forall (fun p => includesDot p = false) (split (chr ".") s).
Proof.
  induction s as [|c r IH]; [by repeat constructor|]. cbn [split].
  destruct (N.eqb_spec c (chr ".")) as [->|Hc].
  - by constructor.
  - destruct (split (chr ".") r) as [|p ps] eqn:E; [by apply split_not_nil in E|].
    apply Forall_cons in IH as [Hp Hps]. constructor; [|done].
    cbn [includesDot existsb]. apply orb_false_iff. split; [|done].
    by apply N.eqb_neq.
Qed.

Lemma includesDot_trimStart s : includesDot s = false → includesDot (trimStart s) = false.
Proof.
  induction s as [|c r IH]; [done|]. cbn [trimStart].
  destruct (isWhiteSpace c); [|done].
  cbn [includesDot existsb]. intros [_ H]%orb_false_iff. by apply IH.
Qed.

Lemma trimEnd_cons c r :
  trimEnd (c :: r) = [] ∨ trimEnd (c :: r) = c :: trimEnd r.
Proof.
  cbn [trimEnd]. destruct (trimEnd r); [|by right].
  destruct (isWhiteSpace c); [by left | by right].
Qed.

Lemma includesDot_trimEnd s : includesDot s = false → includesDot (trimEnd s) = false.
Proof.
  induction s as [|c r IH]; [done|].
  cbn [includesDot existsb]. intros [Hc Hr]%orb_false_iff.
  destruct (trimEnd_cons c r) as [-> | ->]; [done|].
  cbn [includesDot existsb]. rewrite Hc. by apply IH.
Qed.

Lemma endsWithWhiteSpace_trimEnd s : endsWithWhiteSpace (trimEnd s) = false.
Proof.
  unfold endsWithWhiteSpace. induction s as [|c r IH]; [done|].
  cbn [trimEnd]. destruct (trimEnd r) as [|d r'] eqn:E.
  - destruct (isWhiteSpace c) eqn:Hc; [done|]. cbn. by rewrite Hc.
  - by rewrite last_cons_cons.
Qed.

Lemma plainLabel_part p :
  includesDot p = false → plainLabel (ServiceType.stripUnderscore (trim p)) = true.
Proof.
  intros Hp. unfold plainLabel.
  assert (H1 : includesDot (trim p) = false)
    by by apply includesDot_trimEnd, includesDot_trimStart.
  assert (H2 : endsWithWhiteSpace (trim p) = false)
    by apply endsWithWhiteSpace_trimEnd.
  unfold ServiceType.stripUnderscore, includesDot in *.
  destruct (startsWith _ _); [|by rewrite H1, H2].
  destruct (trim p) as [|c [|d r]]; [done..|].
  cbn [drop]. cbn [existsb] in H1.
  apply orb_false_iff in H1 as [_ H1].
  unfold endsWithWhiteSpace in *. rewrite last_cons_cons in H2.
  cbn [existsb]. by rewrite H1, H2.
Qed.

Lemma plainLabel_parts input :
  Forall (fun l => plainLabel l = true)
    (map ServiceType.stripUnderscore (map trim (split (chr ".") input))).
Proof.
  rewrite List.map_map. apply Forall_forall.
  intros l (p & -> & Hp)%list_elem_of_fmap. apply plainLabel_part.
  revert p Hp. apply Forall_forall, split_labels.
Qed.

Lemma at_index_Some {A} (l : list A) i x :
  at_index l i = Some x → x ∈ l.
Proof.
  unfold at_index. destruct (i <? 0)%Z; [done|]. apply list_elem_of_lookup_2.
Qed.

Lemma at_index_nat {A} (l : list A) (i : nat) :
  at_index l (Z.of_nat i) = l !! i.
Proof.
  unfold at_index. destruct (Z.ltb_spec (Z.of_nat i) 0); [lia|].
  by rewrite Nat2Z.id.
Qed.

(** X5.  A string without a dot is never a service type: [fromString]
    throws on it, the error telling whether the string is empty, is the
    marker [sub], or lacks a protocol. *)
Theorem fromString_single_label input :
  includesDot input = false →
  ServiceType.fromString input = Throw (singleLabelError input).
Proof.
  intros Hdot. unfold ServiceType.fromString, singleLabelError.
  case_bool_decide; [done|]. rewrite split_no_dot by done.
  cbn [map indexOf]. case_bool_decide as Hsub.
  - rewrite decide_True by done. done.
  - rewrite decide_False by done. done.
Qed.

Lemma fromString_single_label_witness :
  ServiceType.fromString (js "_http") = Throw ServiceType.MissingNameOrProtocol
  ∧ ServiceType.fromString (js " _sub ") = Throw ServiceType.SubFirst.
Proof.
  split.
  - exact (fromString_single_label (js "_http") eq_refl).
  - exact (fromString_single_label (js " _sub ") eq_refl).
Defined.

(** X6.  What [fromString] gives is a fixed point of printing and
    parsing: when [fromString input] is the type [st], [fromString
    (toString st)] is [st] again. *)
Theorem fromString_toString_fromString input st :
  ServiceType.fromString input = Ok st →
  ServiceType.fromString (ServiceType.toString st) = Ok st.
Proof.
  unfold ServiceType.fromString at 1. case_bool_decide; [done|].
  pose proof (plainLabel_parts input) as Hplain.
  set (parts := map ServiceType.stripUnderscore (map trim (split (chr ".") input)))
    in *.
  rewrite Forall_forall in Hplain.
  destruct (indexOf_spec (js "sub") parts) as [[-> Hnin]|(i & -> & Hi & Hnin)].
  - cbn [Z.eqb negb].
    destruct (at_index parts 0) as [n|] eqn:Hn; [|done].
    destruct (at_index parts 1) as [p|] eqn:Hp; [|done].
    intros [= <-]. apply at_index_Some in Hn, Hp.
    destruct (plainLabel_spec n (Hplain _ Hn)) as [Hn1 Hn2].
    destruct (plainLabel_spec p (Hplain _ Hp)) as [Hp1 Hp2].
    unfold ServiceType.fromString, ServiceType.toString.
    cbn [ServiceType.subtype ServiceType.name ServiceType.protocol app].
    rewrite bool_decide_eq_false_2 by apply join_not_empty.
    rewrite split_join by (done || by repeat constructor).
    cbn [map]. rewrite Hn2, Hp2. cbn [indexOf].
    rewrite !decide_False by (by intros ->). reflexivity.
  - destruct (Z.eqb_spec (Z.of_nat i) (-1)) as [?|_]; [lia|]. cbn [negb].
    destruct (Z.eqb_spec (Z.of_nat i) 0) as [|Hi0]; [done|].
    destruct i as [|i]; [done|].
    replace (Z.of_nat (S i) - 1)%Z with (Z.of_nat i) by lia.
    replace (Z.of_nat (S i) + 1)%Z with (Z.of_nat (S (S i))) by lia.
    replace (Z.of_nat (S i) + 2)%Z with (Z.of_nat (S (S (S i)))) by lia.
    rewrite !at_index_nat.
    destruct (parts !! S (S i)) as [n|] eqn:Hn; [|done].
    destruct (parts !! S (S (S i))) as [p|] eqn:Hp; [|done].
    destruct (parts !! i) as [s|] eqn:Hs.
    2:{ apply lookup_lt_Some in Hi. apply lookup_ge_None in Hs. lia. }
    intros [= <-].
    assert (Hsub : s ≠ js "sub").
    { intros ->. apply Hnin. apply list_elem_of_lookup. exists i.
      rewrite lookup_take_lt by lia. done. }
    apply list_elem_of_lookup_2 in Hn, Hp, Hs.
    destruct (plainLabel_spec n (Hplain _ Hn)) as [Hn1 Hn2].
    destruct (plainLabel_spec p (Hplain _ Hp)) as [Hp1 Hp2].
    destruct (plainLabel_spec s (Hplain _ Hs)) as [Hs1 Hs2].
    unfold ServiceType.fromString, ServiceType.toString.
    cbn [ServiceType.subtype ServiceType.name ServiceType.protocol app].
    rewrite bool_decide_eq_false_2 by apply join_not_empty.
    rewrite split_join by (done || by repeat constructor).
    cbn [map]. rewrite Hs2, Hn2, Hp2.
    change (ServiceType.stripUnderscore (trim (js "_sub"))) with (js "sub").
    cbn [indexOf]. rewrite decide_False by done. rewrite decide_True by done.
    reflexivity.
Qed.

Lemma fromString_toString_fromString_witness :
  ServiceType.fromString (js " printer . sub ._http.tcp.local")
  = Ok (ServiceType.mk (Some (js "http")) (Some (js "tcp")) (Some (js "printer")))
  ∧ ServiceType.fromString (js "_printer._sub._http._tcp")
    = Ok (ServiceType.mk (Some (js "http")) (Some (js "tcp")) (Some (js "printer"))).
Proof.
  split; [reflexivity|].
  exact (fromString_toString_fromString (js " printer . sub ._http.tcp.local")
           (ServiceType.mk (Some (js "http")) (Some (js "tcp"))
              (Some (js "printer"))) eq_refl).
Defined.

(** ** Responder table: what a registered record answers *)

Lemma head_split_no_dot name :
  includesDot name = false → head (split (chr ".") name) = Some name.
Proof. intros H. by rewrite split_no_dot. Qed.

(** X7.  After [register records], a record of [records] is found by
    [getRecordsOf] under its own type and name, whether the name has a dot
    or not: the table returns a record that the duplicate test of
    [register] takes for it, with its type, its name and data that
    [deepEqual] finds equal to its data. *)
Theorem register_getRecordsOf records (t : Table) r :
  r ∈ records →
  ∃ x, x ∈ getRecordsOf (register records t) (type r) (name r)
       ∧ isDuplicate x r = true.
Proof.
  intros Hin. destruct (register_hasDuplicate records t r Hin) as (x & Hx & Hdup).
  exists x. split; [|done]. unfold getRecordsOf.
  apply list_elem_of_In, filter_In. split; [by apply list_elem_of_In|].
  apply isDuplicate_triple in Hdup. injection Hdup as _ Hname _. rewrite Hname.
  destruct (includesDot (name r)) eqn:Hdot.
  - apply nameEquals_refl.
  - rewrite head_split_no_dot by done. apply nameEquals_refl.
Qed.

Lemma register_getRecordsOf_witness :
  ∃ x, x ∈ getRecordsOf
             (register [ptr "_http._tcp.local" "a._http._tcp.local";
                        ptr "printer" "b._http._tcp.local"] ∅)
             RecordType.PTR (js "printer")
       ∧ isDuplicate x (ptr "printer" "b._http._tcp.local") = true.
Proof.
  apply (register_getRecordsOf
           [ptr "_http._tcp.local" "a._http._tcp.local";
            ptr "printer" "b._http._tcp.local"] ∅
           (ptr "printer" "b._http._tcp.local")).
  apply elem_of_cons. right. apply elem_of_cons. by left.
Defined.

(** ** Responder table: the goodbye *)

Lemma unregister_withTtl0 records (t : Table) :
  unregister (withTtl0 <$> records) t = unregister records t.
Proof.
  revert t. induction records as [|r records IH]; intros t; [done|].
  cbn [fmap list_fmap]. unfold unregister in *. cbn [fold_left].
  change (unregister_step t (withTtl0 r)) with (unregister_step t r).
  apply IH.
Qed.

Lemma register_bucket_from records (t : Table) ty x :
  x ∈ default [] (register records t !! ty) →
  x ∈ default [] (t !! ty) ∨ (x ∈ records ∧ type x = ty).
Proof.
  induction records as [|r records IH] using rev_ind; [by left|].
  rewrite register_snoc. destruct (decide (type r = ty)) as [<-|Hne].
  - rewrite register_step_lookup. cbn [default].
    destruct (forallb _ _).
    + intros [Hx| ->%list_elem_of_singleton]%elem_of_app.
      * destruct (IH Hx) as [?|[? ?]]; [by left|]. right. split; [|done].
        apply elem_of_app. by left.
      * right. split; [|done]. apply elem_of_app. right. by left.
    + intros Hx. destruct (IH Hx) as [?|[? ?]]; [by left|]. right. split; [|done].
      apply elem_of_app. by left.
  - rewrite register_step_lookup_ne by done. intros Hx.
    destruct (IH Hx) as [?|[? ?]]; [by left|]. right. split; [|done].
    apply elem_of_app. by left.
Qed.

Lemma register_lookup_other records (t : Table) ty :
  (∀ r, r ∈ records → type r ≠ ty) → register records t !! ty = t !! ty.
Proof.
  induction records as [|r records IH] using rev_ind; [done|]. intros H.
  rewrite register_snoc, register_step_lookup_ne.
  - apply IH. intros r' Hr'. apply H, elem_of_app. by left.
  - apply H, elem_of_app. right. by left.
Qed.

Lemma unregister_lookup_other records (t : Table) ty :
  (∀ r, r ∈ records → type r ≠ ty) → unregister records t !! ty = t !! ty.
Proof.
  induction records as [|r records IH] using rev_ind; [done|]. intros H.
  rewrite unregister_snoc, unregister_step_lookup_ne.
  - apply IH. intros r' Hr'. apply H, elem_of_app. by left.
  - apply H, elem_of_app. right. by left.
Qed.

(** X8.  A table that holds only the records of [records] is empty after
    the goodbye for them: unregistering the records with their TTL set to 0
    removes every record and every bucket. *)
Theorem unregister_goodbye_register records :
  unregister (withTtl0 <$> records) (register records ∅) = (∅ : Table).
Proof.
  rewrite unregister_withTtl0. apply map_eq. intros ty. rewrite lookup_empty.
  destruct (decide (Exists (fun r => type r = ty) records))
    as [(r & Hr & <-)%Exists_exists|Hno].
  - pose proof (unregister_bucket records (register records ∅) (type r)) as Hb.
    pose proof (unregister_not_empty records (register records ∅) r Hr) as Hne.
    destruct (unregister records (register records ∅) !! type r) as [l|]; [|done].
    cbn [default] in Hb. destruct l as [|x l]; [done|].
    assert (Hx : x ∈ survivors (type r) records
                       (default [] (register records ∅ !! type r)))
      by (rewrite <- Hb; by left).
    unfold survivors in Hx. apply list_elem_of_filter in Hx as [Hname Hx].
    apply register_bucket_from in Hx as [Hx|[Hx Hty]].
    + rewrite lookup_empty in Hx. by apply elem_of_nil in Hx.
    + exfalso. apply Hname, elem_of_namesFor. by exists x.
  - rewrite unregister_lookup_other, register_lookup_other; [done|..];
      intros r Hr Hty; apply Hno, Exists_exists; by exists r.
Qed.

(** ** The record of a service *)

Lemma includesDot_app a b : includesDot (a ++ b) = includesDot a || includesDot b.
Proof. unfold includesDot. apply existsb_app. Qed.

Lemma includesDot_join_dash parts :
  Forall (fun p => includesDot p = false) parts →
  includesDot (join (js "-") parts) = false.
Proof.
  induction parts as [|p ps IH]; [done|]. intros [Hp Hps]%Forall_cons.
  destruct ps as [|q ps]; [done|].
  change (join (js "-") (p :: q :: ps))
    with (p ++ js "-" ++ join (js "-") (q :: ps)).
  rewrite !includesDot_app, Hp, IH by done. done.
Qed.

(** X9.  A service that [new Service] accepts has a port that is [NaN]
    or a number above 0 and at most 65535, whole or not, and an instance
    name without a dot, and this name is the first label of its fully
    qualified name. *)
Theorem new_name_first_label options hostname s :
  Service.new options hostname = Ok s →
  (Service.port s = NaN
   ∨ ∃ q, Service.port s = Finite q
          ∧ QArith_base.Qlt (QArith_base.inject_Z 0) (Qcanon.this q)
          ∧ QArith_base.Qle (Qcanon.this q) (QArith_base.inject_Z 65535))
  ∧ includesDot (Service.name s) = false
  ∧ head (split (chr ".") (Service.fqdn s)) = Some (Service.name s).
Proof.
  unfold Service.new. destruct (_ || _) eqn:Hport; [done|]. intros [= <-].
  cbn [Service.port Service.name Service.fqdn].
  apply orb_false_iff in Hport as [H1 H2].
  assert (Hname : includesDot (join (js "-") (split (chr ".") (Service.opt_name options)))
                  = false)
    by apply includesDot_join_dash, split_labels.
  split; [|split; [done|]].
  - destruct (Service.opt_port options) as [|negative|q]; [by left|..].
    + by destruct negative.
    + right. exists q. split; [done|].
      unfold Number_le, Number_lt, int in H1, H2.
      rewrite negb_involutive in H1. apply negb_false_iff in H2.
      cbn [Qcanon.this Qcanon.Q2Qc] in H1, H2. split.
      * apply QArith_base.Qnot_le_lt. intros Hle.
        assert (Htrue : QArith_base.Qle_bool (Qcanon.this q)
                          (Qreduction.Qred (QArith_base.inject_Z 0)) = true).
        { apply QArith_base.Qle_bool_iff.
          eapply QArith_base.Qle_trans; [exact Hle|].
          apply QArith_base.Qle_lteq. right. symmetry.
          apply Qreduction.Qred_correct. }
        congruence.
      * apply QArith_base.Qle_bool_iff in H2.
        eapply QArith_base.Qle_trans; [exact H2|].
        apply QArith_base.Qle_lteq. right. apply Qreduction.Qred_correct.
  - change (js "." ++ ?x) with (chr "." :: x).
    by rewrite split_app_dot.
Qed.

Lemma new_name_first_label_witness :
  ∃ s, Service.new
         (Service.mkOptions None (js "http") None (js "Foo.Bar") None (int 3000) None
            None None None None) (js "host") = Ok s
       ∧ Service.name s = js "Foo-Bar"
       ∧ head (split (chr ".") (Service.fqdn s)) = Some (Service.name s).
Proof.
  eexists. split; [reflexivity|]. split; [reflexivity|].
  eapply (new_name_first_label
            (Service.mkOptions None (js "http") None (js "Foo.Bar") None (int 3000)
               None None None None None) (js "host")).
  reflexivity.
Defined.

(** The guard of the constructor compares numbers: with [NaN] both
    comparisons are false, and a number such as 1/2 lies between the
    bounds.  Both ports are accepted. *)
Example new_port_NaN :
  match
    Service.new
      (Service.mkOptions None (js "http") None (js "Foo") None NaN None
         None None None None) (js "host")
  with
  | Ok s => Some (Service.port s)
  | Throw _ => None
  end
  = Some NaN.
Proof. reflexivity. Qed.

Example new_port_half :
  match
    Service.new
      (Service.mkOptions None (js "http") None (js "Foo") None
         (Finite (Qcanon.Q2Qc (QArith_base.Qmake 1 2))) None
         None None None None) (js "host")
  with
  | Ok s => Some (Service.port s)
  | Throw _ => None
  end
  = Some (Finite (Qcanon.Q2Qc (QArith_base.Qmake 1 2))).
Proof. reflexivity. Qed.

(** ** The course of a probe *)

Lemma alter_lookup_insert {A} (f : A → A) (m : gmap nat A) i x :
  m !! i = Some x → alter f i m = <[i := f x]> m.
Proof.
  intros H. apply map_eq. intros j. destruct (decide (i = j)) as [->|Hne].
  - by rewrite lookup_alter_eq, lookup_insert_eq, H.
  - by rewrite lookup_alter_ne, lookup_insert_ne.
Qed.

Lemma removeListener_last p l : p ∉ l → removeListener p (l ++ [p]) = l.
Proof.
  induction l as [|g r IH]; intros Hp; cbn [app removeListener].
  - rewrite decide_True by done. by rewrite bool_decide_eq_false_2 by set_solver.
  - apply not_elem_of_cons in Hp as [Hne Hp].
    rewrite decide_False by done. by rewrite IH.
Qed.

Lemma start_probing w service s :
  quiescent w →
  services w !! service = Some s →
  Service.started s = false → Service.probe s = true →
  probingRun w service (Service.set_started true s) (nextId w)
    (step w (Invoke (Start service))) (S (nextId w)) (ProbeSend (nextId w))
    (mkProbe service false 0 None None (startResume service s))
    [SetTimeout (S (nextId w)) (RandomBelow 250)].
Proof.
  intros [Hm _] Hs Hst Hpr.
  assert (Hh : handle w (Invoke (Start service))
    = probe service (startResume service s)
        (upd_startedServices (fun l => l ++ [service])
           (upd_services (alter (Service.set_started true) service) w))).
  { cbn [handle]. unfold Service_start. rewrite Hs, Hst. cbn [negb].
    unfold onServiceStart. cbn [services upd_startedServices upd_services].
    rewrite lookup_alter_eq, Hs. cbn [fmap option_fmap option_map].
    cbn [Service.probe Service.probeAutoResolve Service.set_started
         Service.name Service.fqdn].
    rewrite Hpr. unfold startResume.
    destruct (Service.probeAutoResolve s); [|done].
    unfold autoResolveLoop. done. }
  rewrite step_quiet; rewrite Hh; [|done].
  split; cbn; try done.
  - lia.
  - by apply alter_lookup_insert.
  - by rewrite lookup_insert_eq.
Qed.

Lemma probe_send_step w0 service s p w id ps tr :
  quiescent w0 →
  probingRun w0 service s p w id (ProbeSend p) ps tr →
  probe_service ps = service →
  Service.started s = true → Service.destroyed s = false →
  probingRun w0 service s p (step w (Complete id false)) (S id)
    (ProbeQueried p) ps (tr ++ [Query (Service.fqdn s)]).
Proof.
  intros [_ [Hfresh _]] [Ht Hn Hid Htr Hm Hs Hps Hl Hsl Htb Hif] Hsvc Hst Hde.
  assert (Hh : handle w (Complete id false)
    = mdns_query (Service.fqdn s) (ProbeQueried p) (upd_tasks (delete id) w)).
  { unfold handle. rewrite Ht, lookup_insert_eq. cbn [runTask].
    unfold send. cbn [probes services upd_tasks].
    rewrite Hps, Hsvc, Hs, lookup_insert_eq, Hst, Hde. done. }
  rewrite step_quiet; rewrite Hh; [|done].
  split; cbn; try done.
  - rewrite Ht, Hn. by rewrite delete_insert_id by (apply Hfresh; lia).
  - by rewrite Hn.
  - lia.
  - by rewrite Htr, <- app_assoc.
Qed.

Lemma probe_queried_step w0 service s p w id ps tr :
  quiescent w0 →
  probingRun w0 service s p w id (ProbeQueried p) ps tr →
  probingRun w0 service s p (step w (Complete id false)) (S id)
    (if (S (retries ps) <? 3)%nat then ProbeSend p else ProbeDone p)
    (mkProbe (probe_service ps) true (S (retries ps)) (Some (S id))
             (resolved ps) (resume ps))
    (tr ++ [SetTimeout (S id) (Ms 250)]).
Proof.
  intros [_ [Hfresh _]] [Ht Hn Hid Htr Hm Hs Hps Hl Hsl Htb Hif].
  assert (Hh : handle w (Complete id false)
    = set_session p
        (mkProbe (probe_service ps) true (S (retries ps)) (Some (nextId w))
                 (resolved ps) (resume ps))
        (setTimeout (if (S (retries ps) <? 3)%nat then ProbeSend p else ProbeDone p)
                    (Ms 250) (upd_tasks (delete id) w)).2).
  { unfold handle. rewrite Ht, lookup_insert_eq. cbn [runTask].
    unfold probeQueried. cbn [probes upd_tasks]. rewrite Hps. done. }
  rewrite step_quiet; rewrite Hh; [|done].
  split; cbn; try done.
  - rewrite Ht, Hn. by rewrite delete_insert_id by (apply Hfresh; lia).
  - by rewrite Hn.
  - lia.
  - by rewrite Htr, Hn, <- app_assoc.
  - by rewrite lookup_insert_eq, Hn.
Qed.

(** The world in which the code after [await this.probe(service)] runs
    once the probe [p] has resolved to [exists_]. *)
Lemma probe_resolve w0 service s p w id task ps tr exists_ :
  quiescent w0 →
  probingRun w0 service s p w id task ps tr →
  timer ps = Some id → resolved ps = None →
  ∃ w1,
    runMicrotasks (done p exists_ (upd_tasks (delete id) w))
    = runResume (resume ps) exists_ w1
    ∧ tasks w1 = tasks w0
    ∧ nextId w1 = S id
    ∧ trace w1 = trace w0 ++ tr
    ∧ microtasks w1 = []
    ∧ services w1 = <[service := s]> (services w0)
    ∧ responseListeners w1 = responseListeners w0
    ∧ startedServices w1 = startedServices w0 ++ [service]
    ∧ typeToRecords w1 = typeToRecords w0
    ∧ networkInterfaces w1 = networkInterfaces w0.
Proof.
  intros [_ [Hfresh [Hnd Hlt]]] [Ht Hn Hid Htr Hm Hs Hps Hl Hsl Htb Hif] Hti Hre.
  eexists. split.
  - unfold done. cbn [probes upd_tasks]. rewrite Hps, Hti, Hre.
    unfold runMicrotasks. cbn [microtasks upd_microtasks set_session upd_probes
      clearTimeout upd_tasks upd_responseListeners].
    rewrite Hm. cbn [app fold_left]. reflexivity.
  - cbn. rewrite Ht, Hl.
    rewrite delete_delete_eq, delete_insert_id by (apply Hfresh; lia).
    rewrite removeListener_last; [done|].
    intros Hp%Hlt. lia.
Qed.

Lemma probe_done_step w0 service s p w id ps tr :
  quiescent w0 →
  probingRun w0 service s p w id (ProbeDone p) ps tr →
  timer ps = Some id → resolved ps = None →
  (∀ w, runResume (resume ps) false w = announce service w) →
  Service.started s = true → Service.destroyed s = false →
  let records := Service.getRecords s (networkInterfaces w0) in
  let w' := step w (Complete id false) in
  trace w' = trace w0 ++ tr ++ [Respond records]
  ∧ tasks w' = <[S id := AnnounceResponded service records 1000]> (tasks w0)
  ∧ responseListeners w' = responseListeners w0
  ∧ services w' = <[service := s]> (services w0)
  ∧ typeToRecords w' = register records (typeToRecords w0).
Proof.
  intros Hq Hrun Hti Hre Hk Hst Hde records w'. subst w'.
  destruct (probe_resolve _ _ _ _ _ _ _ _ _ false Hq Hrun Hti Hre)
    as (w1 & Hstep & Ht1 & Hn1 & Htr1 & Hm1 & Hs1 & Hl1 & Hsl1 & Htb1 & Hif1).
  assert (Hh : step w (Complete id false) = announce service w1).
  { unfold step, handle. rewrite (pr_tasks _ _ _ _ _ _ _ _ _ Hrun), lookup_insert_eq.
    cbn [runTask]. by rewrite Hstep, Hk. }
  rewrite Hh. unfold announce, broadcast, getRecords.
  cbn [services upd_typeToRecords]. rewrite Hs1, lookup_insert_eq, Hst, Hde.
  cbn. rewrite Ht1, Hn1, Htr1, Hl1, Hs1, Htb1, Hif1, <- app_assoc. done.
Qed.

Lemma startResume_announces service s w :
  runResume (startResume service s) false w = announce service w.
Proof. unfold startResume. by destruct (Service.probeAutoResolve s). Qed.

(** X10.  [start()] on a service that probes, when no response arrives:
    after a random wait below 250 ms the fully qualified name is queried
    three times, 250 ms after one another, and 250 ms after the third
    query the records are registered and announced; the listener of the
    probe is removed. *)
Theorem probe_unanswered w service s :
  quiescent w →
  services w !! service = Some s →
  Service.started s = false → Service.destroyed s = false →
  Service.probe s = true →
  let p := nextId w in
  let records := Service.getRecords s (networkInterfaces w) in
  let w' := exec w (Invoke (Start service) :: completions (S p) 7) in
  trace w' = trace w ++ probeTrace (S p) (Service.fqdn s) ++ [Respond records]
  ∧ tasks w' = <[(p + 8)%nat := AnnounceResponded service records 1000]> (tasks w)
  ∧ responseListeners w' = responseListeners w
  ∧ typeToRecords w' = register records (typeToRecords w).
Proof.
  intros Hq Hs Hst Hde Hpr p records w'. subst w' p.
  unfold completions. cbn [seq fmap list_fmap]. rewrite !exec_cons.
  pose proof (start_probing w service s Hq Hs Hst Hpr) as H.
  do 3 (apply (probe_send_step _ _ _ _ _ _ _ _ Hq) in H; [|done..];
        apply (probe_queried_step _ _ _ _ _ _ _ _ Hq) in H).
  cbn [retries probe_service resolved resume Nat.ltb Nat.leb] in H.
  apply (probe_done_step _ _ _ _ _ _ _ _ Hq) in H;
    [|done|done|apply startResume_announces|done..].
  cbn [exec fold_left]. destruct H as (Htr & Ht & Hl & _ & Htb).
  rewrite Htr, Ht, Hl, Htb. unfold probeTrace.
  rewrite !Nat.add_succ_r, !Nat.add_0_r.
  cbn [app]. rewrite <- ?app_assoc. done.
Qed.

(** ** A probe that a response answers *)

Lemma done_resume w p ps exists_ :
  probes w !! p = Some ps → resolved ps = None → microtasks w = [] →
  runMicrotasks (done p exists_ w)
  = runResume (resume ps) exists_
      (upd_microtasks (fun _ => [])
         (set_session p
            (mkProbe (probe_service ps) (sent ps) (retries ps) (timer ps)
                     (Some exists_) (resume ps))
            (clearTimeout (timer ps)
               (upd_responseListeners (removeListener p) w)))).
Proof.
  intros Hps Hre Hm. unfold done. rewrite Hps, Hre. unfold runMicrotasks.
  destruct (timer ps);
    cbn [microtasks upd_microtasks set_session upd_probes clearTimeout
         upd_tasks upd_responseListeners];
    rewrite Hm; reflexivity.
Qed.

Lemma conflict_step w0 service s p w id task ps tr packet :
  quiescent w0 → responseListeners w0 = [] →
  probingRun w0 service s p w id task ps tr →
  probe_service ps = service → sent ps = true →
  timer ps = Some id → resolved ps = None →
  namesFqdn (Service.fqdn s) packet = true →
  ∃ w1, step w (Response packet) = runResume (resume ps) true w1
        ∧ afterProbe w0 service s w1 (S id) tr.
Proof.
  intros [_ [Hfresh _]] Hl0 [Ht Hn Hid Htr Hm Hs Hps Hl Hsl Htb Hif]
    Hsvc Hse Hti Hre Hnames.
  eexists. split.
  - unfold step. cbn [handle]. rewrite Hl, Hl0. cbn [app fold_left].
    unfold onresponse. rewrite Hps, Hse, Hsvc, Hs, lookup_insert_eq, Hnames.
    cbn [negb]. by apply done_resume.
  - rewrite Hti. split; cbn; try done.
    + rewrite Ht. by rewrite delete_insert_id by (apply Hfresh; lia).
    + lia.
    + rewrite Hl, Hl0. cbn [app removeListener].
      rewrite decide_True by done. by rewrite bool_decide_eq_false_2 by set_solver.
Qed.

Lemma stop_unpublished w service s :
  services w !! service = Some s →
  Service.started s = true → Service.published s = false →
  Service_stop service w
  = upd_startedServices (spliceFirst service)
      (upd_services (alter (Service.set_started false) service) w).
Proof.
  intros Hs Hst Hpu. unfold Service_stop. rewrite Hs, Hst.
  unfold onServiceStop, goodbye. cbn [List.filter].
  unfold isPublished. cbn [services upd_services].
  rewrite lookup_alter_eq, Hs. cbn [fmap option_fmap option_map].
  cbn [Service.published Service.set_started]. rewrite Hpu. done.
Qed.

Lemma probe_begin w0 service s w1 tr k :
  afterProbe w0 service s w1 (nextId w1) tr →
  probingRun w0 service s (nextId w1) (probe service k w1) (S (nextId w1))
    (ProbeSend (nextId w1)) (mkProbe service false 0 None None k)
    (tr ++ [SetTimeout (S (nextId w1)) (RandomBelow 250)]).
Proof.
  intros [Ht Hn Hid Htr Hm Hs Hl Hsl Htb Hif].
  split; cbn; try done.
  - by rewrite Ht.
  - lia.
  - by rewrite Htr, <- app_assoc.
  - by rewrite lookup_insert_eq.
  - by rewrite Hl.
Qed.

(** The first query of a probe has been answered by [packet]. *)
Lemma conflict_after_first_query w0 service s p w ps tr packet :
  quiescent w0 → responseListeners w0 = [] →
  probingRun w0 service s p w (S p) (ProbeSend p) ps tr →
  probe_service ps = service → resolved ps = None →
  Service.started s = true → Service.destroyed s = false →
  namesFqdn (Service.fqdn s) packet = true →
  ∃ w1,
    exec w [Complete (S p) false; Complete (S (S p)) false; Response packet]
    = runResume (resume ps) true w1
    ∧ afterProbe w0 service s w1 (p + 4)
        (tr ++ [Query (Service.fqdn s); SetTimeout (p + 3) (Ms 250)]).
Proof.
  intros Hq Hl0 H Hsvc Hre Hst Hde Hnames.
  apply (probe_send_step _ _ _ _ _ _ _ _ Hq) in H; [|done..].
  apply (probe_queried_step _ _ _ _ _ _ _ _ Hq) in H.
  destruct (conflict_step _ _ _ _ _ _ _ _ _ packet Hq Hl0 H)
    as (w1 & Hstep & Hw1); [done..|].
  exists w1. split; [exact Hstep|].
  replace (p + 4)%nat with (S (S (S (S p)))) by lia.
  replace (p + 3)%nat with (S (S (S p))) by lia.
  by rewrite <- app_assoc in Hw1.
Qed.

Lemma afterProbe_stop w0 service s w1 next tr :
  afterProbe w0 service s w1 next tr →
  Service.started s = true → Service.published s = false →
  let w' := Service_stop service w1 in
  trace w' = trace w0 ++ tr
  ∧ tasks w' = tasks w0
  ∧ microtasks w' = []
  ∧ responseListeners w' = responseListeners w0
  ∧ services w' = <[service := Service.set_started false s]> (services w0)
  ∧ startedServices w' = spliceFirst service (startedServices w0 ++ [service])
  ∧ typeToRecords w' = typeToRecords w0.
Proof.
  intros [Ht Hn Hid Htr Hm Hs Hl Hsl Htb Hif] Hst Hpu w'. subst w'.
  rewrite (stop_unpublished _ _ s) by (by rewrite ?Hs, ?lookup_insert_eq).
  cbn. rewrite Hs, Hsl.
  erewrite alter_lookup_insert by apply lookup_insert_eq.
  by rewrite insert_insert_eq.
Qed.

(** X11.  A service that probes without auto-resolve and whose first
    query is answered by a response naming it (up to ASCII case) is stopped:
    nothing is registered or announced, 'Service name is already in use on
    the network' is logged, and no task and no listener is left. *)
Theorem probe_once_conflict w service s packet :
  quiescent w → responseListeners w = [] →
  services w !! service = Some s →
  Service.started s = false → Service.destroyed s = false →
  Service.published s = false →
  Service.probe s = true → Service.probeAutoResolve s = false →
  namesFqdn (Service.fqdn s) packet = true →
  let p := nextId w in
  let w' :=
    exec w [Invoke (Start service); Complete (p + 1) false;
            Complete (p + 2) false; Response packet] in
  trace w'
  = trace w ++ [SetTimeout (p + 1) (RandomBelow 250); Query (Service.fqdn s);
                SetTimeout (p + 3) (Ms 250); ConsoleError NameInUse]
  ∧ tasks w' = tasks w
  ∧ responseListeners w' = []
  ∧ typeToRecords w' = typeToRecords w
  ∧ services w' = services w.
Proof.
  intros Hq Hl0 Hs Hst Hde Hpu Hpr Hau Hnames p w'. subst w' p.
  rewrite exec_cons.
  pose proof (start_probing w service s Hq Hs Hst Hpr) as H.
  replace (nextId w + 1)%nat with (S (nextId w)) by lia.
  replace (nextId w + 2)%nat with (S (S (nextId w))) by lia.
  destruct (conflict_after_first_query _ _ _ _ _ _ _ packet Hq Hl0 H)
    as (w1 & -> & Hw1); [done..|].
  cbn [resume]. unfold startResume. rewrite Hau. cbn [runResume].
  destruct (afterProbe_stop _ _ _ _ _ _ Hw1 eq_refl Hpu)
    as (Htr & Ht & _ & Hl & Hsv & _ & Htb).
  cbn. rewrite Htr, Ht, Hl, Hl0, Htb, Hsv. cbn [app].
  replace (S (S (S (nextId w)))) with (nextId w + 3)%nat by lia.
  rewrite <- app_assoc. repeat split; try done.
  apply insert_id. rewrite Hs. f_equal. destruct s. cbn in *. by subst.
Qed.

(** ** The auto-resolve loop *)

Lemma afterProbe_services w0 service s s' w1 next tr :
  afterProbe w0 service s w1 next tr →
  afterProbe w0 service s'
    (upd_services (alter (fun _ => s') service) w1) next tr.
Proof.
  intros [Ht Hn Hid Htr Hm Hs Hl Hsl Htb Hif]. split; cbn; try done.
  rewrite Hs. erewrite alter_lookup_insert by apply lookup_insert_eq.
  by rewrite insert_insert_eq.
Qed.

Lemma alter_ext_at {A} (f g : A → A) (m : gmap nat A) i :
  (∀ x, m !! i = Some x → f x = g x) → alter f i m = alter g i m.
Proof.
  intros H. apply map_eq. intros j. destruct (decide (i = j)) as [<-|Hne].
  - rewrite !lookup_alter_eq. destruct (m !! i) eqn:E; [|done]. cbn.
    f_equal. by apply H.
  - by rewrite !lookup_alter_ne.
Qed.

Lemma afterProbe_rename w0 service s w1 next tr n f :
  afterProbe w0 service s w1 next tr →
  upd_services (alter (Service.set_name_fqdn n f) service) w1
  = upd_services (alter (fun _ => Service.set_name_fqdn n f s) service) w1.
Proof.
  intros Hw1. unfold upd_services. f_equal. apply alter_ext_at.
  intros x. rewrite (ap_service _ _ _ _ _ _ Hw1), lookup_insert_eq.
  by intros [= <-].
Qed.

(** A conflict at an attempt before the last: the service is renamed and
    probed again. *)
Lemma autoResolve_next w0 service s w1 tr originalName fqdnSuffix attempt :
  afterProbe w0 service s w1 (nextId w1) tr →
  (attempt < MAX_PROBE_AUTO_RESOLVE_ATTEMPTS)%nat →
  probingRun w0 service (renamed s originalName fqdnSuffix (S attempt))
    (nextId w1)
    (runResume (ResumeAutoResolve service originalName fqdnSuffix attempt)
               true w1)
    (S (nextId w1)) (ProbeSend (nextId w1))
    (mkProbe service false 0 None None
       (ResumeAutoResolve service originalName fqdnSuffix (S attempt)))
    (tr ++ [SetTimeout (S (nextId w1)) (RandomBelow 250)]).
Proof.
  intros Hw1 Hlt. cbn [runResume negb]. unfold autoResolveLoop.
  destruct (Nat.leb_spec (S attempt) MAX_PROBE_AUTO_RESOLVE_ATTEMPTS); [|lia].
  rewrite (afterProbe_rename _ _ _ _ _ _ _ _ Hw1).
  apply (probe_begin w0 service _
           (upd_services (alter (fun _ => _) service) w1)).
  exact (afterProbe_services _ _ s _ _ _ _ Hw1).
Qed.

(** A conflict at the last attempt: the service is renamed once more and
    stopped. *)
Lemma autoResolve_last w0 service s w1 next tr originalName fqdnSuffix :
  afterProbe w0 service s w1 next tr →
  Service.started s = true → Service.published s = false →
  let w' :=
    runResume (ResumeAutoResolve service originalName fqdnSuffix
                 MAX_PROBE_AUTO_RESOLVE_ATTEMPTS) true w1 in
  trace w' = trace w0 ++ tr ++ [ConsoleError ConflictsUnresolved]
  ∧ tasks w' = tasks w0
  ∧ responseListeners w' = responseListeners w0
  ∧ services w'
    = <[service := Service.set_started false
                     (renamed s originalName fqdnSuffix
                        (S MAX_PROBE_AUTO_RESOLVE_ATTEMPTS))]> (services w0)
  ∧ typeToRecords w' = typeToRecords w0.
Proof.
  intros Hw1 Hst Hpu w'. subst w'. cbn [runResume negb].
  unfold autoResolveLoop, autoResolveEnd.
  destruct (Nat.leb_spec (S MAX_PROBE_AUTO_RESOLVE_ATTEMPTS)
              MAX_PROBE_AUTO_RESOLVE_ATTEMPTS) as [Hle|_].
  { unfold MAX_PROBE_AUTO_RESOLVE_ATTEMPTS in Hle. lia. }
  destruct (Nat.ltb_spec MAX_PROBE_AUTO_RESOLVE_ATTEMPTS
              (S MAX_PROBE_AUTO_RESOLVE_ATTEMPTS)) as [_|Hle]; [|lia].
  rewrite (afterProbe_rename _ _ _ _ _ _ _ _ Hw1).
  apply (afterProbe_services _ _ _
           (renamed s originalName fqdnSuffix (S MAX_PROBE_AUTO_RESOLVE_ATTEMPTS)))
    in Hw1.
  assert (Hw2 : afterProbe w0 service
                  (renamed s originalName fqdnSuffix
                     (S MAX_PROBE_AUTO_RESOLVE_ATTEMPTS))
                  (log (ConsoleError ConflictsUnresolved)
                     (upd_services (alter (fun _ => renamed s originalName fqdnSuffix
                          (S MAX_PROBE_AUTO_RESOLVE_ATTEMPTS)) service) w1))
                  next (tr ++ [ConsoleError ConflictsUnresolved])).
  { destruct Hw1 as [Ht Hn Hid Htr Hm Hs Hl Hsl Htb Hif]. split; try done.
    cbn in *. by rewrite Htr, <- app_assoc. }
  destruct (afterProbe_stop _ _ _ _ _ _ Hw2 Hst Hpu)
    as (Htr & Ht & _ & Hl & Hsv & _ & Htb).
  done.
Qed.

Lemma attemptService_fqdn s attempt :
  Service.fqdn (attemptService s attempt) = attemptFqdn s attempt.
Proof. unfold attemptService, attemptFqdn. by destruct (_ <=? _)%nat. Qed.

Lemma attemptService_destroyed s attempt :
  Service.destroyed (attemptService s attempt) = Service.destroyed s.
Proof. unfold attemptService. by destruct (_ <=? _)%nat. Qed.

Lemma attemptService_published s attempt :
  Service.published (attemptService s attempt) = Service.published s.
Proof. unfold attemptService. by destruct (_ <=? _)%nat. Qed.

Lemma renamed_attemptService b s attempt n f k :
  renamed (Service.set_started b (attemptService s attempt)) n f k
  = Service.set_started b (renamed s n f k).
Proof. unfold attemptService. by destruct (_ <=? _)%nat. Qed.

Lemma queried_app tr1 tr2 : queried (tr1 ++ tr2) = queried tr1 ++ queried tr2.
Proof. unfold queried. apply flat_map_app. Qed.

(** After [i] rounds, each answered by a conflicting response, the loop is
    at its attempt [i + 1], probing under the name of that attempt. *)
Lemma autoResolve_rounds w service s packets i :
  quiescent w → responseListeners w = [] →
  services w !! service = Some s →
  Service.started s = false → Service.destroyed s = false →
  Service.probe s = true → Service.probeAutoResolve s = true →
  (i < MAX_PROBE_AUTO_RESOLVE_ATTEMPTS)%nat →
  (∀ attempt, (1 ≤ attempt ≤ i)%nat →
     namesFqdn (attemptFqdn s attempt) (packets attempt) = true) →
  let p := (nextId w + 4 * i)%nat in
  ∃ tr,
    probingRun w service (Service.set_started true (attemptService s (S i))) p
      (exec w (Invoke (Start service)
               :: flat_map (conflictRound (nextId w) packets) (seq 0 i)))
      (S p) (ProbeSend p)
      (mkProbe service false 0 None None
         (ResumeAutoResolve service (Service.name s)
            (drop (length (Service.name s)) (Service.fqdn s)) (S i)))
      tr
    ∧ queried tr = attemptFqdn s <$> seq 1 i
    ∧ responses tr = 0%nat.
Proof.
  intros Hq Hl0 Hs Hst Hde Hpr Hau. induction i as [|i IH]; intros Hi Hnames p.
  - subst p. rewrite Nat.mul_0_r, Nat.add_0_r. cbn [seq flat_map].
    pose proof (start_probing w service s Hq Hs Hst Hpr) as H.
    unfold startResume in H. rewrite Hau in H.
    eexists. split; [exact H|]. done.
  - destruct IH as (tr & H & Hqu & Hre); [lia|intros a Ha; apply Hnames; lia|].
    rewrite (seq_S i 0), flat_map_app. cbn [flat_map Nat.add].
    rewrite app_nil_r, app_comm_cons. unfold exec at 1. rewrite fold_left_app.
    fold (exec w (Invoke (Start service)
                  :: flat_map (conflictRound (nextId w) packets) (seq 0 i))).
    set (w1 := exec w _) in *. unfold conflictRound.
    replace (nextId w + 4 * i + 1)%nat with (S (nextId w + 4 * i)) by lia.
    replace (nextId w + 4 * i + 2)%nat with (S (S (nextId w + 4 * i))) by lia.
    destruct (conflict_after_first_query _ _ _ _ _ _ _ (packets (S i)) Hq Hl0 H)
      as (w2 & Hexec & Hw2); [done|done|done| | |].
    { cbn [Service.destroyed Service.set_started].
      by rewrite attemptService_destroyed. }
    { cbn [Service.fqdn Service.set_started]. rewrite attemptService_fqdn.
      apply Hnames. lia. }
    unfold exec in Hexec. rewrite Hexec. cbn [resume].
    assert (Hn2 : nextId w2 = p) by (rewrite (ap_next _ _ _ _ _ _ Hw2); lia).
    rewrite <- Hn2 in *. eexists. split; [|split].
    + rewrite <- (ap_next _ _ _ _ _ _ Hw2) in Hw2.
      apply (autoResolve_next _ _ _ _ _ (Service.name s)
               (drop (length (Service.name s)) (Service.fqdn s)) (S i)) in Hw2;
        [|lia].
      rewrite renamed_attemptService in Hw2. exact Hw2.
    + rewrite !queried_app, Hqu. cbn [queried flat_map app].
      rewrite app_nil_r. cbn [Service.fqdn Service.set_started].
      rewrite attemptService_fqdn, seq_S, fmap_app. done.
    + rewrite !responses_app, Hre. done.
Qed.

Lemma exec_app w es1 es2 : exec w (es1 ++ es2) = exec (exec w es1) es2.
Proof. apply fold_left_app. Qed.

Lemma last_snoc_app {A} (l1 l2 : list A) x : last (l1 ++ l2 ++ [x]) = Some x.
Proof. by rewrite app_assoc, last_snoc. Qed.

Lemma set_started_renamed s n f k :
  Service.started s = false →
  Service.set_started false (Service.set_started true (renamed s n f k))
  = renamed s n f k.
Proof. destruct s. cbn. by intros ->. Qed.

(** X12.  The auto-resolve loop gives up after ten conflicts.  When each
    of the ten probes is answered after its first query by a response
    naming the service, the names queried are the service's own and then
    [name (2)] to [name (10)]; the service is then renamed [name (11)],
    'Failed to resolve name conflicts' is logged and the service is
    stopped: nothing was announced or registered, and no task and no
    listener is left. *)
Theorem autoResolve_gives_up w service s packets :
  quiescent w → responseListeners w = [] →
  services w !! service = Some s →
  Service.started s = false → Service.destroyed s = false →
  Service.published s = false →
  Service.probe s = true → Service.probeAutoResolve s = true →
  (∀ attempt, (1 ≤ attempt ≤ MAX_PROBE_AUTO_RESOLVE_ATTEMPTS)%nat →
     namesFqdn (attemptFqdn s attempt) (packets attempt) = true) →
  let w' :=
    exec w (Invoke (Start service)
            :: flat_map (conflictRound (nextId w) packets)
                 (seq 0 MAX_PROBE_AUTO_RESOLVE_ATTEMPTS)) in
  queried (trace w')
  = queried (trace w) ++ (attemptFqdn s <$> seq 1 MAX_PROBE_AUTO_RESOLVE_ATTEMPTS)
  ∧ responses (trace w') = responses (trace w)
  ∧ last (trace w') = Some (ConsoleError ConflictsUnresolved)
  ∧ services w'
    = <[service := attemptService s (S MAX_PROBE_AUTO_RESOLVE_ATTEMPTS)]> (services w)
  ∧ tasks w' = tasks w
  ∧ responseListeners w' = []
  ∧ typeToRecords w' = typeToRecords w.
Proof.
  intros Hq Hl0 Hs Hst Hde Hpu Hpr Hau Hnames w'. subst w'.
  destruct (autoResolve_rounds w service s packets 9 Hq Hl0 Hs Hst Hde Hpr Hau)
    as (tr & H & Hqu & Hre); [unfold MAX_PROBE_AUTO_RESOLVE_ATTEMPTS; lia| |].
  { intros a Ha. apply Hnames. unfold MAX_PROBE_AUTO_RESOLVE_ATTEMPTS. lia. }
  change MAX_PROBE_AUTO_RESOLVE_ATTEMPTS with 10%nat.
  rewrite (seq_S 9 0), flat_map_app. cbn [flat_map Nat.add].
  rewrite app_nil_r, app_comm_cons, exec_app.
  set (w1 := exec w _) in *. unfold conflictRound.
  replace (nextId w + 4 * 9 + 1)%nat with (S (nextId w + 4 * 9)) by lia.
  replace (nextId w + 4 * 9 + 2)%nat with (S (S (nextId w + 4 * 9))) by lia.
  destruct (conflict_after_first_query _ _ _ _ _ _ _ (packets 10%nat) Hq Hl0 H)
    as (w2 & -> & Hw2); [done|done|done| | |].
  { cbn [Service.destroyed Service.set_started].
    by rewrite attemptService_destroyed. }
  { cbn [Service.fqdn Service.set_started]. rewrite attemptService_fqdn.
    apply Hnames. unfold MAX_PROBE_AUTO_RESOLVE_ATTEMPTS. lia. }
  cbn [resume].
  destruct (autoResolve_last _ _ _ _ _ _ (Service.name s)
              (drop (length (Service.name s)) (Service.fqdn s)) Hw2)
    as (Htr & Ht & Hl & Hsv & Htb); [done| |].
  { cbn [Service.published Service.set_started].
    by rewrite attemptService_published. }
  change MAX_PROBE_AUTO_RESOLVE_ATTEMPTS with 10%nat in *.
  rewrite Htr, Ht, Hl, Hsv, Htb, Hl0. rewrite renamed_attemptService.
  rewrite !queried_app, !responses_app, Hqu, Hre.
  cbn [queried responses flat_map List.filter app length].
  cbn [Service.fqdn Service.set_started]. rewrite attemptService_fqdn.
  rewrite last_snoc_app, !app_nil_r, Nat.add_0_r.
  repeat split; try done.
  f_equal. unfold attemptService. cbn [Nat.leb].
  by apply set_started_renamed.
Qed.

Lemma autoResolve_announces service originalName fqdnSuffix attempt w :
  (attempt ≤ MAX_PROBE_AUTO_RESOLVE_ATTEMPTS)%nat →
  runResume (ResumeAutoResolve service originalName fqdnSuffix attempt) false w
  = announce service w.
Proof.
  intros H. cbn [runResume negb]. unfold autoResolveEnd.
  by destruct (Nat.ltb_spec MAX_PROBE_AUTO_RESOLVE_ATTEMPTS attempt); [lia|].
Qed.

(** X13.  One conflict, then none.  When the first query of a service
    that probes with auto-resolve is answered by a response naming it and
    the second probe is not answered, the service is renamed [name (2)],
    its new fully qualified name is queried three times, and the records
    registered and announced are those of the renamed service. *)
Theorem autoResolve_renames w service s packet :
  quiescent w → responseListeners w = [] →
  services w !! service = Some s →
  Service.started s = false → Service.destroyed s = false →
  Service.probe s = true → Service.probeAutoResolve s = true →
  namesFqdn (Service.fqdn s) packet = true →
  let p := nextId w in
  let s2 := Service.set_started true (attemptService s 2) in
  let records := Service.getRecords s2 (networkInterfaces w) in
  let w' :=
    exec w ([Invoke (Start service); Complete (p + 1) false;
             Complete (p + 2) false; Response packet]
            ++ completions (p + 5) 7) in
  Service.name s2 = Service.name s ++ js " (2)"
  ∧ services w' = <[service := s2]> (services w)
  ∧ queried (trace w')
    = queried (trace w)
      ++ [Service.fqdn s; Service.fqdn s2; Service.fqdn s2; Service.fqdn s2]
  ∧ responses (trace w') = S (responses (trace w))
  ∧ last (trace w') = Some (Respond records)
  ∧ responseListeners w' = []
  ∧ typeToRecords w' = register records (typeToRecords w).
Proof.
  intros Hq Hl0 Hs Hst Hde Hpr Hau Hnames p s2 records w'.
  split; [reflexivity|]. subst w'.
  destruct (autoResolve_rounds w service s (fun _ => packet) 1 Hq Hl0 Hs Hst Hde
              Hpr Hau) as (tr & H & Hqu & Hre).
  { unfold MAX_PROBE_AUTO_RESOLVE_ATTEMPTS. lia. }
  { intros attempt Ha. replace attempt with 1%nat by lia. exact Hnames. }
  rewrite exec_app.
  replace [Invoke (Start service); Complete (p + 1) false; Complete (p + 2) false;
           Response packet]
    with (Invoke (Start service)
          :: flat_map (conflictRound (nextId w) (fun _ => packet)) (seq 0 1)).
  2:{ cbn [seq flat_map conflictRound app]. subst p.
      by rewrite Nat.mul_0_r, Nat.add_0_r. }
  set (w1 := exec w _) in *.
  replace (p + 5)%nat with (S (nextId w + 4 * 1)) by (subst p; lia).
  unfold completions. cbn [seq fmap list_fmap]. rewrite !exec_cons.
  assert (Hst2 : Service.started s2 = true) by done.
  assert (Hde2 : Service.destroyed s2 = false) by done.
  fold s2 in H.
  do 3 (apply (probe_send_step _ _ _ _ _ _ _ _ Hq) in H; [|done..];
        apply (probe_queried_step _ _ _ _ _ _ _ _ Hq) in H).
  cbn [retries probe_service resolved resume Nat.ltb Nat.leb] in H.
  apply (probe_done_step _ _ _ _ _ _ _ _ Hq) in H;
    [|done|done| |done..].
  2:{ intros w2. apply autoResolve_announces.
      unfold MAX_PROBE_AUTO_RESOLVE_ATTEMPTS. lia. }
  cbn [exec fold_left]. destruct H as (Htr & Ht & Hl & Hsv & Htb).
  rewrite Htr, Hl, Hsv, Htb, Hl0.
  rewrite !queried_app, !responses_app, Hqu, Hre.
  rewrite last_snoc_app.
  cbn [queried responses flat_map List.filter app length seq fmap list_fmap].
  repeat split; try done. by rewrite Nat.add_comm.
Qed.

(** ** Starting and stopping *)

Lemma services_onServiceStart service w :
  services (onServiceStart service w) = services w
  ∧ microtasks (onServiceStart service w) = microtasks w.
Proof.
  unfold onServiceStart, autoResolveLoop, autoResolveEnd, announce, broadcast,
    probe.
  cbn [services microtasks upd_startedServices].
  repeat case_match; done.
Qed.

(** X14.  [start()] on a service already started does nothing: a second
    [start()] right after the first leaves the world as the first one left
    it, whether the service probes or not. *)
Theorem start_twice w service :
  microtasks w = [] →
  step (step w (Invoke (Start service))) (Invoke (Start service))
  = step w (Invoke (Start service)).
Proof.
  intros Hm.
  assert (H1 : ∃ w1, step w (Invoke (Start service))
                     = upd_microtasks (fun _ => []) w1
                     ∧ (services w1 !! service = None
                        ∨ ∃ s, services w1 !! service = Some s
                               ∧ Service.started s = true)).
  { destruct (services w !! service) as [s|] eqn:Hs.
    - destruct (Service.started s) eqn:Hst.
      + exists w. split; [|right; eauto].
        rewrite step_quiet; cbn [handle]; unfold Service_start;
          rewrite Hs, Hst; done.
      + pose (w0 := upd_services (alter (Service.set_started true) service) w).
        destruct (services_onServiceStart service w0) as [Hsv Hmi].
        exists (onServiceStart service w0). split.
        * rewrite step_quiet; cbn [handle]; unfold Service_start;
            rewrite Hs, Hst; cbn [negb]; [done|].
          fold w0. by rewrite Hmi.
        * right. rewrite Hsv. subst w0. cbn. rewrite lookup_alter_eq, Hs.
          cbn. eauto.
    - exists w. split; [|by left].
      rewrite step_quiet; cbn [handle]; unfold Service_start; rewrite Hs; done. }
  destruct H1 as (w1 & -> & Hsv).
  rewrite step_quiet; cbn [handle]; unfold Service_start;
    cbn [services upd_microtasks];
    destruct Hsv as [->|(s & -> & ->)]; done.
Qed.

Lemma start_twice_witness :
  let w := makeService (demoOptions true) demoInit in
  step (step w (Invoke (Start 0%nat))) (Invoke (Start 0%nat))
  = step w (Invoke (Start 0%nat)).
Proof. exact (start_twice (makeService (demoOptions true) demoInit) 0%nat eq_refl). Defined.

(** X15.  [stop()] during the first wait of a probe: when the timer fires
    the probe sends no query and sets no timer, so the probe never
    resolves; its listener stays on the transport. *)
Theorem stop_while_probing w service s :
  quiescent w →
  services w !! service = Some s →
  Service.started s = false → Service.published s = false →
  Service.probe s = true →
  let p := nextId w in
  let w' :=
    exec w [Invoke (Start service); Invoke (Stop service);
            Complete (p + 1) false] in
  trace w' = trace w ++ [SetTimeout (p + 1) (RandomBelow 250)]
  ∧ tasks w' = tasks w
  ∧ responseListeners w' = responseListeners w ++ [p]
  ∧ (resolved <$> probes w' !! p) = Some None
  ∧ services w' = services w.
Proof.
  intros Hq Hs Hst Hpu Hpr p w'. subst w' p. rewrite !exec_cons.
  destruct (start_probing w service s Hq Hs Hst Hpr)
    as [Ht Hn Hid Htr Hm Hsv Hps Hl Hsl Htb Hif].
  destruct Hq as [_ [Hfresh _]].
  set (w1 := step w (Invoke (Start service))) in *.
  assert (Hs1 : services w1 !! service = Some (Service.set_started true s))
    by by rewrite Hsv, lookup_insert_eq.
  assert (H2 : step w1 (Invoke (Stop service))
    = upd_microtasks (fun _ => [])
        (upd_startedServices (spliceFirst service)
           (upd_services (alter (Service.set_started false) service) w1))).
  { rewrite step_quiet; cbn [handle];
      rewrite (stop_unpublished _ _ _ Hs1) by done; done. }
  rewrite H2. set (w2 := upd_microtasks _ _).
  assert (Hh : handle w2 (Complete (nextId w + 1) false)
               = upd_tasks (delete (nextId w + 1)%nat) w2).
  { unfold handle. replace (nextId w + 1)%nat with (S (nextId w)) by lia.
    subst w2. cbn [tasks upd_microtasks upd_startedServices upd_services].
    rewrite Ht, lookup_insert_eq. cbn [runTask]. unfold send.
    cbn [probes services upd_tasks upd_microtasks upd_startedServices
         upd_services].
    rewrite Hps. cbn [probe_service]. rewrite lookup_alter_eq, Hs1. done. }
  rewrite step_quiet; rewrite Hh; [|done].
  cbn [exec fold_left]. subst w2. cbn.
  rewrite Htr, Ht, Hl, Hps, Hsv.
  replace (nextId w + 1)%nat with (S (nextId w)) by lia.
  rewrite delete_insert_id by (apply Hfresh; lia).
  repeat split; try done.
  erewrite alter_lookup_insert by apply lookup_insert_eq.
  rewrite insert_insert_eq. apply insert_id. rewrite Hs. f_equal.
  destruct s. cbn in *. by subst.
Qed.

(** ** destroy *)

Lemma destroy_fold_fields l w :
  let w' :=
    fold_left
      (fun w service =>
         upd_services (alter (Service.set_destroyed true) service) w) l w in
  tasks w' = tasks w ∧ trace w' = trace w ∧ microtasks w' = microtasks w
  ∧ probes w' = probes w.
Proof.
  revert w. induction l as [|a l IH]; intros w; [done|].
  cbn [fold_left]. by destruct (IH (upd_services
    (alter (Service.set_destroyed true) a) w)) as (-> & -> & -> & ->).
Qed.

Lemma destroy_fold_keeps l w service :
  (∀ s, services w !! service = Some s → Service.destroyed s = true) →
  ∀ s, services
         (fold_left
            (fun w service =>
               upd_services (alter (Service.set_destroyed true) service) w) l w)
         !! service = Some s →
       Service.destroyed s = true.
Proof.
  revert w. induction l as [|a l IH]; intros w H; [done|].
  cbn [fold_left]. apply IH. cbn [services upd_services]. intros s.
  destruct (decide (a = service)) as [->|Hne].
  - rewrite lookup_alter_eq. destruct (services w !! service); [|done].
    by intros [= <-].
  - rewrite lookup_alter_ne by done. apply H.
Qed.

Lemma destroy_destroyed w service s :
  service ∈ startedServices w →
  services (destroy w) !! service = Some s → Service.destroyed s = true.
Proof.
  unfold destroy. generalize (startedServices w) as l. intros l. revert w.
  induction l as [|a l IH]; intros w Hin; [by apply elem_of_nil in Hin|].
  cbn [fold_left]. apply elem_of_cons in Hin as [->|Hin].
  - apply destroy_fold_keeps. cbn [services upd_services]. intros s'.
    rewrite lookup_alter_eq. destruct (services w !! a); [|done].
    by intros [= <-].
  - by apply IH.
Qed.

(** X16.  After [destroy()] the timers that transmit are silent: a
    re-announcement timer of a service of [startedServices], or the timer
    of such a service that precedes a query of its probe, then only goes
    away when it fires. *)
Theorem destroy_silences w service t task :
  quiescent w →
  tasks w !! t = Some task →
  timerOf w task = Some service →
  service ∈ startedServices w →
  let w' := exec w [Invoke Destroy; Complete t false] in
  trace w' = trace w ∧ tasks w' = delete t (tasks w).
Proof.
  intros [Hm _] Ht Hti Hin w'. subst w'. rewrite !exec_cons.
  destruct (destroy_fold_fields (startedServices w) w) as (Ht1 & Htr1 & Hm1 & Hp1).
  fold (destroy w) in Ht1, Htr1, Hm1, Hp1.
  rewrite (step_quiet w) by (cbn [handle]; congruence). cbn [handle].
  set (w1 := upd_microtasks _ _).
  assert (Hdes : ∀ s, services w1 !! service = Some s → Service.destroyed s = true)
    by (intros s; by apply destroy_destroyed).
  assert (Hh : handle w1 (Complete t false) = upd_tasks (delete t) w1).
  { unfold handle. subst w1. cbn [tasks upd_microtasks]. rewrite Ht1, Ht.
    destruct task; try done; cbn [runTask timerOf] in *.
    - injection Hti as ->. unfold broadcast. cbn [services upd_tasks].
      destruct (services _ !! service) as [s|] eqn:Hs; [|done].
      rewrite (Hdes s eq_refl), orb_true_r. done.
    - unfold send. cbn [probes services upd_tasks upd_microtasks].
      rewrite Hp1. destruct (probes w !! p) as [ps|]; [|done].
      injection Hti as Hti. rewrite Hti.
      destruct (services _ !! service) as [s|] eqn:Hs; [|done].
      rewrite (Hdes s eq_refl), orb_true_r. done. }
  rewrite step_quiet; rewrite Hh; [|done]. cbn [exec fold_left].
  subst w1. cbn. by rewrite Htr1, Ht1.
Qed.

(** ** unpublishAll *)

Lemma goodbye_published w service s k :
  services w !! service = Some s → Service.published s = true →
  goodbye [service] k w
  = mdns_respond (goodbyeRecords w service) (GoodbyeResponded [service] k)
      (upd_typeToRecords (unregister (goodbyeRecords w service)) w).
Proof.
  intros Hs Hpu.
  assert (Hp : isPublished w service = true)
    by (unfold isPublished; by rewrite Hs).
  unfold goodbye. cbn [List.filter]. rewrite Hp. cbn [length Nat.eqb].
  fold (goodbyeRecords w service).
  assert (Hlen : (length (goodbyeRecords w service) =? 0)%nat = false).
  { unfold goodbyeRecords. cbn [flat_map]. unfold getRecords. rewrite Hs.
    unfold Service.getRecords. cbn [app map length]. done. }
  by rewrite Hlen.
Qed.

Lemma alter_alter_id {A} (m : gmap nat A) i (f g : A → A) x :
  m !! i = Some x → g (f x) = x → alter g i (alter f i m) = m.
Proof.
  intros Hx Hgf. apply map_eq. intros j. destruct (decide (i = j)) as [<-|Hne].
  - by rewrite !lookup_alter_eq, Hx; cbn; rewrite Hgf.
  - by rewrite !lookup_alter_ne.
Qed.

Lemma set_published_toggle s :
  Service.published s = true →
  Service.set_published true (Service.set_published false s) = s.
Proof. destruct s. cbn. by intros ->. Qed.

(** X17.  [unpublishAll()] says goodbye and empties [startedServices],
    but leaves the services started and their timers set: when the
    re-announcement timer of a service then fires, its records are
    transmitted again and the service is published and emits ['up'] once
    more, although its records are no longer registered. *)
Theorem unpublishAll_keeps_timers w service s t records delay :
  quiescent w →
  startedServices w = [service] →
  services w !! service = Some s →
  Service.started s = true → Service.published s = true →
  Service.destroyed s = false →
  tasks w !! t = Some (BroadcastTimeout service records delay) →
  let g := nextId w in
  let w' :=
    exec w [Invoke UnpublishAll; Complete g false; Complete t false;
            Complete (S g) false] in
  startedServices w' = []
  ∧ services w' = services w
  ∧ trace w'
    = trace w
      ++ [Respond (goodbyeRecords w service); Emit service down;
          Respond records; Emit service up]
      ++ (if (delay * REANNOUNCE_FACTOR <? REANNOUNCE_MAX_MS)%Z
          then [SetTimeout (S (S g)) (Ms (delay * REANNOUNCE_FACTOR))] else [])
  ∧ typeToRecords w' = unregister (goodbyeRecords w service) (typeToRecords w).
Proof.
  intros [Hm [Hfresh _]] Hsl Hs Hst Hpu Hde Ht g w'. subst w' g.
  assert (Htg : t ≠ nextId w).
  { intros ->. rewrite Hfresh in Ht by lia. done. }
  rewrite !exec_cons. cbn [exec fold_left].
  (* unpublishAll *)
  rewrite (step_quiet w);
    cbn [handle]; unfold unpublishAll; rewrite Hsl, (goodbye_published _ _ s) by done;
    [|done].
  set (w1 := upd_microtasks _ _).
  (* the goodbye has been sent *)
  assert (H1 : handle w1 (Complete (nextId w) false)
    = upd_startedServices (fun _ => [])
        (log (Emit service down)
           (upd_services (alter (Service.set_published false) service)
              (upd_tasks (delete (nextId w)) w1)))).
  { unfold handle. subst w1. cbn [tasks upd_microtasks mdns_respond log upd_tasks
      upd_nextId upd_typeToRecords nextId].
    rewrite lookup_insert_eq. done. }
  rewrite (step_quiet w1); rewrite H1; [|done].
  set (w2 := upd_microtasks _ _).
  (* the timer fires *)
  assert (H2 : handle w2 (Complete t false)
    = mdns_respond records (AnnounceResponded service records delay)
        (upd_tasks (delete t) w2)).
  { unfold handle. subst w2 w1. cbn [tasks upd_microtasks upd_startedServices log
      upd_services upd_tasks mdns_respond upd_nextId upd_typeToRecords nextId].
    rewrite delete_insert_id by (apply Hfresh; lia). rewrite Ht.
    cbn [runTask]. unfold broadcast.
    cbn [services upd_microtasks upd_startedServices log upd_services upd_tasks
         mdns_respond upd_nextId upd_typeToRecords].
    rewrite lookup_alter_eq, Hs. cbn [fmap option_fmap option_map].
    cbn [Service.started Service.destroyed Service.set_published].
    by rewrite Hst, Hde. }
  rewrite (step_quiet w2); rewrite H2; [|done].
  set (w3 := upd_microtasks _ _).
  (* the announcement has been sent *)
  assert (H3 : handle w3 (Complete (S (nextId w)) false)
    = let w4 :=
        log (Emit service up)
          (upd_services (alter (Service.set_published true) service)
             (upd_tasks (delete (S (nextId w))) w3)) in
      if (delay * REANNOUNCE_FACTOR <? REANNOUNCE_MAX_MS)%Z
      then (setTimeout
              (BroadcastTimeout service records (delay * REANNOUNCE_FACTOR))
              (Ms (delay * REANNOUNCE_FACTOR)) w4).2
      else w4).
  { unfold handle. subst w3 w2 w1. cbn [tasks upd_microtasks upd_startedServices
      log upd_services upd_tasks mdns_respond upd_nextId upd_typeToRecords nextId].
    rewrite lookup_insert_eq. cbn [runTask]. unfold announceResponded.
    cbn [services upd_microtasks upd_startedServices log upd_services upd_tasks
         mdns_respond upd_nextId upd_typeToRecords].
    rewrite lookup_alter_eq, Hs. cbn [fmap option_fmap option_map].
    cbn [Service.published Service.destroyed Service.set_published negb].
    rewrite Hde. cbn [negb]. rewrite andb_true_r. done. }
  rewrite (step_quiet w3); rewrite H3; [|by destruct (_ <? _)%Z].
  subst w3 w2 w1.
  destruct (delay * REANNOUNCE_FACTOR <? REANNOUNCE_MAX_MS)%Z; cbn;
    rewrite <- !app_assoc, app_nil_r || rewrite <- !app_assoc;
    (repeat split; try done);
    apply (alter_alter_id _ _ _ _ s Hs); by apply set_published_toggle.
Qed.

Lemma quiescent_demoWorld s : quiescent (demoWorld s).
Proof.
  split; [reflexivity|]. split; [|split].
  - intros id _. apply lookup_empty.
  - apply NoDup_nil_2.
  - by intros q ?%elem_of_nil.
Qed.

Lemma namesFqdn_srvPacket fqdn : namesFqdn fqdn (srvPacket fqdn) = true.
Proof. unfold namesFqdn, srvPacket. cbn. by rewrite nameEquals_refl. Qed.

Lemma probe_unanswered_witness :
  let w := demoWorld (demoService true true) in
  let w' := exec w (Invoke (Start 0%nat) :: completions 2 7) in
  queried (trace w')
  = [js "Foo Bar._http._tcp.local"; js "Foo Bar._http._tcp.local";
     js "Foo Bar._http._tcp.local"]
  ∧ timeouts (trace w') = [RandomBelow 250; Ms 250; Ms 250; Ms 250]
  ∧ responseListeners w' = [].
Proof.
  intros w w'.
  destruct (probe_unanswered w 0%nat (demoService true true)
              (quiescent_demoWorld _) eq_refl eq_refl eq_refl eq_refl)
    as (Htr & _ & Hl & _).
  change w' with (exec w (Invoke (Start 0%nat) :: completions (S (nextId w)) 7)).
  rewrite Htr, Hl. repeat split; vm_compute; reflexivity.
Defined.

Lemma probe_once_conflict_witness :
  let w := demoWorld (demoService true false) in
  let w' :=
    exec w [Invoke (Start 0%nat); Complete 2%nat false; Complete 3%nat false;
            Response (srvPacket (js "foo bar._HTTP._tcp.local"))] in
  last (trace w') = Some (ConsoleError NameInUse)
  ∧ responses (trace w') = 0%nat
  ∧ services w' = services w.
Proof.
  intros w w'.
  destruct (probe_once_conflict w 0%nat (demoService true false)
              (srvPacket (js "foo bar._HTTP._tcp.local"))
              (quiescent_demoWorld _) eq_refl eq_refl eq_refl eq_refl eq_refl
              eq_refl eq_refl eq_refl)
    as (Htr & _ & _ & _ & Hsv).
  change w'
    with (exec w [Invoke (Start 0%nat); Complete (nextId w + 1) false;
                  Complete (nextId w + 2) false;
                  Response (srvPacket (js "foo bar._HTTP._tcp.local"))]).
  rewrite Htr, Hsv. repeat split; vm_compute; reflexivity.
Defined.

Lemma autoResolve_gives_up_witness :
  let s := demoService true true in
  let w := demoWorld s in
  let w' :=
    exec w (Invoke (Start 0%nat)
            :: flat_map (conflictRound 1 (fun a => srvPacket (attemptFqdn s a)))
                 (seq 0 10)) in
  (Service.name <$> services w' !! 0%nat) = Some (js "Foo Bar (11)")
  ∧ (Service.started <$> services w' !! 0%nat) = Some false
  ∧ responses (trace w') = 0%nat
  ∧ last (queried (trace w')) = Some (js "Foo Bar (10)._http._tcp.local").
Proof.
  intros s w w'.
  destruct (autoResolve_gives_up w 0%nat s (fun a => srvPacket (attemptFqdn s a))
              (quiescent_demoWorld _) eq_refl eq_refl eq_refl eq_refl eq_refl
              eq_refl eq_refl (fun a _ => namesFqdn_srvPacket _))
    as (Hqu & Hre & _ & Hsv & _).
  change w'
    with (exec w (Invoke (Start 0%nat)
                  :: flat_map (conflictRound (nextId w)
                                 (fun a => srvPacket (attemptFqdn s a)))
                       (seq 0 MAX_PROBE_AUTO_RESOLVE_ATTEMPTS))).
  rewrite Hqu, Hre, Hsv, lookup_insert_eq. repeat split; vm_compute; reflexivity.
Defined.

Lemma autoResolve_renames_witness :
  let s := demoService true true in
  let w := demoWorld s in
  let w' :=
    exec w ([Invoke (Start 0%nat); Complete 2%nat false; Complete 3%nat false;
             Response (srvPacket (js "Foo Bar._http._tcp.local"))]
            ++ completions 6 7) in
  (Service.fqdn <$> services w' !! 0%nat)
  = Some (js "Foo Bar (2)._http._tcp.local")
  ∧ responses (trace w') = 1%nat.
Proof.
  intros s w w'.
  destruct (autoResolve_renames w 0%nat s
              (srvPacket (js "Foo Bar._http._tcp.local"))
              (quiescent_demoWorld _) eq_refl eq_refl eq_refl eq_refl eq_refl
              eq_refl eq_refl)
    as (_ & Hsv & _ & Hre & _).
  change w'
    with (exec w ([Invoke (Start 0%nat); Complete (nextId w + 1) false;
                   Complete (nextId w + 2) false;
                   Response (srvPacket (js "Foo Bar._http._tcp.local"))]
                  ++ completions (nextId w + 5) 7)).
  rewrite Hsv, Hre, lookup_insert_eq. repeat split; vm_compute; reflexivity.
Defined.

Lemma stop_while_probing_witness :
  let w := demoWorld (demoService true true) in
  let w' :=
    exec w [Invoke (Start 0%nat); Invoke (Stop 0%nat); Complete 2%nat false] in
  queried (trace w') = [] ∧ tasks w' = ∅ ∧ responseListeners w' = [1%nat].
Proof.
  intros w w'.
  destruct (stop_while_probing w 0%nat (demoService true true)
              (quiescent_demoWorld _) eq_refl eq_refl eq_refl eq_refl)
    as (Htr & Ht & Hl & _).
  change w'
    with (exec w [Invoke (Start 0%nat); Invoke (Stop 0%nat);
                  Complete (nextId w + 1) false]).
  rewrite Htr, Ht, Hl. repeat split; vm_compute; reflexivity.
Defined.

Lemma quiescent_publishedWorld : quiescent publishedWorld.
Proof. apply quiescent_exec, quiescent_init. Qed.

Lemma destroy_silences_witness :
  tasks publishedWorld !! 2%nat
  = Some (BroadcastTimeout 0 (Service.getRecords (demoService false true) []) 3000)
  ∧ trace (exec publishedWorld [Invoke Destroy; Complete 2%nat false])
    = trace publishedWorld.
Proof.
  split; [reflexivity|].
  refine (proj1 (destroy_silences publishedWorld 0%nat 2%nat
                   (BroadcastTimeout 0
                      (Service.getRecords (demoService false true) []) 3000)
                   quiescent_publishedWorld eq_refl eq_refl _)).
  apply list_elem_of_here.
Defined.

Lemma unpublishAll_keeps_timers_witness :
  let w' :=
    exec publishedWorld
      [Invoke UnpublishAll; Complete 3%nat false; Complete 2%nat false;
       Complete 4%nat false] in
  startedServices w' = []
  ∧ emitted 0%nat up (trace w') = 2%nat
  ∧ (Service.published <$> services w' !! 0%nat) = Some true
  ∧ typeToRecords w' = ∅.
Proof.
  intros w'.
  destruct (unpublishAll_keeps_timers publishedWorld 0%nat
              (Service.set_published true
                 (Service.set_started true (demoService false true)))
              2%nat (Service.getRecords (demoService false true) []) 3000
              quiescent_publishedWorld eq_refl eq_refl eq_refl eq_refl eq_refl
              eq_refl)
    as (Hsl & Hsv & Htr & Htb).
  change w'
    with (exec publishedWorld
            [Invoke UnpublishAll; Complete (nextId publishedWorld) false;
             Complete 2%nat false; Complete (S (nextId publishedWorld)) false]).
  rewrite Hsl, Hsv, Htr, Htb.
  repeat split; try (vm_compute; reflexivity).
Defined.

(** ** The responder: the Map and its key order *)

Lemma toTable_get m key : Responder.toTable m !! key = Responder.Map_get m key.
Proof.
  unfold Responder.toTable. induction m as [|[k v] m IH]; [done|].
  cbn [list_to_map foldr Responder.Map_get]. destruct (decide (k = key)) as [->|Hne].
  - by rewrite lookup_insert_eq.
  - by rewrite lookup_insert_ne.
Qed.

Lemma toTable_set m key value :
  Responder.toTable (Responder.Map_set key value m)
  = <[key := value]> (Responder.toTable m).
Proof.
  unfold Responder.toTable. induction m as [|[k v] m IH]; [done|].
  cbn [list_to_map foldr Responder.Map_set].
  destruct (decide (k = key)) as [->|Hne].
  - cbn [list_to_map foldr]. by rewrite insert_insert_eq.
  - cbn [list_to_map foldr]. rewrite IH. by apply insert_insert_ne.
Qed.

Lemma toTable_delete m key :
  Responder.toTable (Responder.Map_delete key m)
  = delete key (Responder.toTable m).
Proof.
  unfold Responder.toTable, Responder.Map_delete.
  induction m as [|[k v] m IH]; [cbn; by rewrite delete_empty|].
  cbn [list_to_map foldr]. destruct (decide (k = key)) as [->|Hne].
  - rewrite filter_cons_False by (cbn; auto). by rewrite delete_insert_eq.
  - rewrite filter_cons_True by done. cbn [list_to_map foldr].
    rewrite IH. by rewrite delete_insert_ne.
Qed.

Lemma toTable_register_step m r :
  Responder.toTable (Responder.register_step m r)
  = MDNSServer.register_step (Responder.toTable m) r.
Proof.
  unfold Responder.register_step, MDNSServer.register_step.
  by rewrite toTable_set, toTable_get.
Qed.

Lemma toTable_unregister_step m r :
  Responder.toTable (Responder.unregister_step m r)
  = MDNSServer.unregister_step (Responder.toTable m) r.
Proof.
  unfold Responder.unregister_step, MDNSServer.unregister_step.
  rewrite toTable_get. case_match; [apply toTable_set | apply toTable_delete].
Qed.

Lemma toTable_register records m :
  Responder.toTable (Responder.register records m)
  = MDNSServer.register records (Responder.toTable m).
Proof.
  revert m. induction records as [|r records IH]; intros m; [done|].
  cbn. unfold Responder.register, MDNSServer.register in IH.
  by rewrite IH, toTable_register_step.
Qed.

Lemma toTable_unregister records m :
  Responder.toTable (Responder.unregister records m)
  = MDNSServer.unregister records (Responder.toTable m).
Proof.
  revert m. induction records as [|r records IH]; intros m; [done|].
  cbn. unfold Responder.unregister, MDNSServer.unregister in IH.
  by rewrite IH, toTable_unregister_step.
Qed.

Lemma keys_set m key value :
  Responder.Map_keys (Responder.Map_set key value m)
  = if bool_decide (key ∈ Responder.Map_keys m) then Responder.Map_keys m
    else Responder.Map_keys m ++ [key].
Proof.
  unfold Responder.Map_keys. induction m as [|[k v] m IH].
  - cbn. by rewrite bool_decide_eq_false_2 by apply not_elem_of_nil.
  - cbn [Responder.Map_set]. destruct (decide (k = key)) as [->|Hne].
    + cbn. by rewrite bool_decide_eq_true_2 by left.
    + cbn [fmap list_fmap fst]. rewrite IH. case_bool_decide as Hin.
      * by rewrite bool_decide_eq_true_2 by (by right).
      * rewrite bool_decide_eq_false_2; [done|].
        by intros [?|?]%elem_of_cons.
Qed.

Lemma NoDup_keys_set m key value :
  NoDup (Responder.Map_keys m) →
  NoDup (Responder.Map_keys (Responder.Map_set key value m)).
Proof.
  intros H. rewrite keys_set. case_bool_decide as Hin; [done|].
  apply NoDup_app. split; [done|]. split; [|apply NoDup_singleton].
  by intros x Hx ->%list_elem_of_singleton.
Qed.

Lemma NoDup_keys_delete m key :
  NoDup (Responder.Map_keys m) →
  NoDup (Responder.Map_keys (Responder.Map_delete key m)).
Proof.
  unfold Responder.Map_keys, Responder.Map_delete. intros H.
  eapply sublist_NoDup; [exact H|]. apply fmap_sublist, sublist_filter.
Qed.

Lemma NoDup_keys_register records m :
  NoDup (Responder.Map_keys m) →
  NoDup (Responder.Map_keys (Responder.register records m)).
Proof.
  revert m. induction records as [|r records IH]; intros m H; [done|].
  cbn. apply IH. by apply NoDup_keys_set.
Qed.

Lemma NoDup_keys_unregister records m :
  NoDup (Responder.Map_keys m) →
  NoDup (Responder.Map_keys (Responder.unregister records m)).
Proof.
  revert m. induction records as [|r records IH]; intros m H; [done|].
  cbn. apply IH. unfold Responder.unregister_step.
  case_match; [by apply NoDup_keys_set | by apply NoDup_keys_delete].
Qed.

(** X18.  The Map of the responder, its key order forgotten, is the
    finite map on which [register] and [unregister] are studied: the two
    operations commute with [toTable], and they keep the keys of the Map
    distinct. *)
Theorem toTable_refines records m :
  Responder.toTable (Responder.register records m)
  = MDNSServer.register records (Responder.toTable m)
  ∧ Responder.toTable (Responder.unregister records m)
    = MDNSServer.unregister records (Responder.toTable m)
  ∧ (NoDup (Responder.Map_keys m) →
     NoDup (Responder.Map_keys (Responder.register records m))
     ∧ NoDup (Responder.Map_keys (Responder.unregister records m))).
Proof.
  split; [apply toTable_register|]. split; [apply toTable_unregister|].
  intros H. split; [by apply NoDup_keys_register | by apply NoDup_keys_unregister].
Qed.

Lemma toTable_refines_witness :
  Responder.Map_keys
    (Responder.register [ptr "b" "x"]
       (Responder.unregister [ptr "a" "x"]
          (Responder.register
             [ptr "a" "x";
              mkRecord RecordType.A (js "host") 120 (DataString (js "10.0.0.1"))]
             [])))
  = [RecordType.A; RecordType.PTR]
  ∧ NoDup [RecordType.A; RecordType.PTR].
Proof.
  split; [reflexivity|].
  apply (toTable_refines [ptr "b" "x"]
           [(RecordType.A,
             [mkRecord RecordType.A (js "host") 120 (DataString (js "10.0.0.1"))])]).
  apply NoDup_singleton.
Defined.

(** ** The responder: what a packet holds *)

Lemma built_toTable m : built m → reachable (Responder.toTable m).
Proof.
  induction 1.
  - apply reachable_new.
  - rewrite toTable_register. by constructor.
  - rewrite toTable_unregister. by constructor.
Qed.

Lemma getRecordsOf_toTable m type name :
  Responder.getRecordsOf m type name
  = MDNSServer.getRecordsOf (Responder.toTable m) type name.
Proof. unfold Responder.getRecordsOf, MDNSServer.getRecordsOf. by rewrite toTable_get. Qed.

Lemma elem_of_getRecordsOf (t : Table) type name r :
  r ∈ MDNSServer.getRecordsOf t type name
  ↔ r ∈ default [] (t !! type) ∧ matchesName name r = true.
Proof.
  unfold MDNSServer.getRecordsOf, matchesName.
  rewrite list_elem_of_In, filter_In, <- list_elem_of_In. done.
Qed.

Lemma getRecordsOf_typed m type name r :
  built m → r ∈ Responder.getRecordsOf m type name →
  MDNSServer.type r = type ∧ matchesName name r = true.
Proof.
  intros Hb. rewrite getRecordsOf_toTable.
  intros [Hin Hans]%elem_of_getRecordsOf. split; [|done].
  apply built_toTable, reachable_tableInv in Hb.
  destruct (tableInv_default _ type Hb) as [Hty _].
  rewrite Forall_forall in Hty. by apply Hty.
Qed.

Lemma respondTo_Some m question packet :
  Responder.respondTo m question = Some packet →
  Registry.answers packet = Responder.answersTo m question
  ∧ Registry.answers packet ≠ []
  ∧ Registry.additionals packet
    = match Responder.q_type question with
      | Responder.ANY => []
      | _ =>
          let additionals :=
            Responder.ptrAdditionals m (Responder.answersTo m question) in
          additionals
          ++ Responder.addressAdditionals m (Responder.srvTargets additionals)
      end.
Proof.
  unfold Responder.respondTo.
  destruct (Responder.answersTo m question) as [|a l] eqn:E; [done|].
  cbn [length Nat.eqb]. by intros [= <-].
Qed.

(** X19.  Every packet that [respond] sends answers one of the
    questions: it has at least one answer, every answer has the type asked
    for (any type for ['ANY']) and the name asked for, up to ASCII case; a
    packet for an ['ANY'] question has no additional record, and the
    additional records of the others are SRV, TXT, A and AAAA records. *)
Theorem respond_sound m questions packet :
  built m →
  packet ∈ Responder.respond m questions →
  ∃ question,
    question ∈ questions
    ∧ Registry.answers packet ≠ []
    ∧ Forall (fun r => ofQueryType (Responder.q_type question) r
                       ∧ matchesName (Responder.q_name question) r = true)
             (Registry.answers packet)
    ∧ (Responder.q_type question = Responder.ANY →
       Registry.additionals packet = [])
    ∧ Forall additionalType (Registry.additionals packet).
Proof.
  intros Hb. unfold Responder.respond.
  intros (question & Hq & Hp)%list_elem_of_omap. exists question.
  apply respondTo_Some in Hp as (Hans & Hne & Hadd).
  split; [done|]. split; [done|]. split; [|split].
  - rewrite Hans. unfold Responder.answersTo. apply Forall_forall. intros r.
    destruct (Responder.q_type question) as [|t|]; cbn [ofQueryType].
    + rewrite list_elem_of_In, in_flat_map.
      intros (ty & _ & Hr%list_elem_of_In).
      by apply (getRecordsOf_typed _ _ _ _ Hb) in Hr as [_ ?].
    + intros Hr. by apply (getRecordsOf_typed _ _ _ _ Hb) in Hr.
    + by intros ?%elem_of_nil.
  - intros E. by rewrite Hadd, E.
  - rewrite Hadd. destruct (Responder.q_type question); [constructor|..];
      cbn zeta; apply Forall_app; split; apply Forall_forall; intros r;
      unfold Responder.ptrAdditionals, Responder.addressAdditionals;
      rewrite list_elem_of_In, in_flat_map; intros (x & _ & Hr);
      unfold additionalType;
      repeat case_match; try (by apply in_nil in Hr);
      apply list_elem_of_In, elem_of_app in Hr as [Hr|Hr];
      apply (getRecordsOf_typed _ _ _ _ Hb) in Hr as [-> _]; auto.
Qed.

(** ** The responder of a service *)

Lemma toLowerCase_AZ_dot c : toLowerCase_AZ c = chr "." ↔ c = chr ".".
Proof.
  unfold toLowerCase_AZ, isCapitalLetter.
  change (chr ".") with 46.
  destruct (N.leb_spec 65 c), (N.leb_spec c 90); cbn [andb]; lia.
Qed.

Lemma includesDot_replaceCapitalLetters a :
  includesDot (replaceCapitalLetters a) = includesDot a.
Proof.
  unfold includesDot, replaceCapitalLetters.
  induction a as [|c a IH]; [done|]. cbn [map existsb]. rewrite IH. f_equal.
  destruct (N.eqb_spec (toLowerCase_AZ c) (chr ".")) as [H|H],
    (N.eqb_spec c (chr ".")) as [H'|H']; try done.
  - exfalso. apply H'. by apply toLowerCase_AZ_dot.
  - exfalso. apply H. by apply toLowerCase_AZ_dot.
Qed.

Lemma nameEquals_includesDot a b :
  nameEquals a b = true → includesDot a = includesDot b.
Proof.
  unfold nameEquals. rewrite bool_decide_eq_true. intros H.
  by rewrite <- (includesDot_replaceCapitalLetters a), H,
    includesDot_replaceCapitalLetters.
Qed.

(** A record is found under any name equal to its own up to case. *)
Lemma matchesName_nameEquals name r :
  nameEquals (MDNSServer.name r) name = true → matchesName name r = true.
Proof.
  intros H. unfold matchesName. destruct (includesDot name) eqn:Hdot; [done|].
  rewrite <- (nameEquals_includesDot _ _ H) in Hdot.
  by rewrite head_split_no_dot.
Qed.

Lemma elem_of_Set_from xs x : x ∈ Responder.Set_from xs ↔ x ∈ xs.
Proof.
  unfold Responder.Set_from.
  assert (H : ∀ acc, x ∈ fold_left
                (fun set x => if bool_decide (x ∈ set) then set else set ++ [x])
                xs acc ↔ x ∈ acc ∨ x ∈ xs).
  { induction xs as [|y xs IH]; intros acc; cbn [fold_left].
    - split; [by left | by intros [?|?%elem_of_nil]].
    - rewrite IH. case_bool_decide as Hy; set_solver. }
  rewrite H. split; [by intros [?%elem_of_nil|?] | by right].
Qed.

(** The records of a service all carry its TTL. *)
Lemma getRecords_ttl s ifaces r :
  r ∈ Service.getRecords s ifaces → ttl r = Service.ttl s.
Proof.
  unfold Service.getRecords. rewrite !elem_of_app.
  intros [[Hr|Hr]|Hr].
  - repeat (apply elem_of_cons in Hr as [->|Hr]; [done|]).
    by apply elem_of_nil in Hr.
  - by apply list_elem_of_fmap in Hr as (x & -> & _).
  - apply list_elem_of_In, in_flat_map in Hr as (iface & _ & Hr).
    apply in_flat_map in Hr as (addr & _ & Hr). unfold Service.addressRecords in Hr.
    repeat case_match; try (by apply in_nil in Hr);
      by apply list_elem_of_In, list_elem_of_singleton in Hr as ->.
Qed.

(** The data of a record of a service: the TXT record apart, a string or
    the data of the SRV record. *)
Lemma getRecords_data s ifaces r :
  r ∈ Service.getRecords s ifaces →
  r = Service.getRecordTXT s
  ∨ (∃ text, data r = DataString text) ∨ (∃ d, data r = DataSrv d).
Proof.
  unfold Service.getRecords. rewrite !elem_of_app.
  intros [[Hr|Hr]|Hr].
  - repeat (apply elem_of_cons in Hr as [->|Hr]; [cbn; eauto|]).
    by apply elem_of_nil in Hr.
  - apply list_elem_of_fmap in Hr as (x & -> & _). cbn. eauto.
  - apply list_elem_of_In, in_flat_map in Hr as (iface & _ & Hr).
    apply in_flat_map in Hr as (addr & _ & Hr). unfold Service.addressRecords in Hr.
    repeat case_match; try (by apply in_nil in Hr);
      apply list_elem_of_In, list_elem_of_singleton in Hr as ->; cbn; eauto.
Qed.

(** Two records of a service that [deepEqual] takes for equal have the
    same data. *)
Lemma getRecords_seen s ifaces x r :
  x ∈ Service.getRecords s ifaces → r ∈ Service.getRecords s ifaces →
  seen (data x) = seen (data r) → data x = data r.
Proof.
  intros Hx Hr.
  destruct (getRecords_data _ _ _ Hx) as [->|[[a Ha]|[a Ha]]],
    (getRecords_data _ _ _ Hr) as [->|[[b Hb]|[b Hb]]];
    rewrite ?Ha, ?Hb; cbn; congruence.
Qed.

(** The responder of a service holds each record of the service, in the
    bucket of its type. *)
Lemma responderOf_holds s ifaces r :
  r ∈ Service.getRecords s ifaces →
  r ∈ default [] (Responder.Map_get (responderOf s ifaces) (type r)).
Proof.
  intros Hr. unfold responderOf. rewrite <- toTable_get, toTable_register.
  destruct (register_hasDuplicate _ (Responder.toTable []) r Hr) as (x & Hx & Hdup).
  assert (Hxr : x ∈ Service.getRecords s ifaces).
  { apply register_bucket_from in Hx as [Hx|[Hx _]]; [|done].
    unfold Responder.toTable in Hx. cbn in Hx. rewrite lookup_empty in Hx.
    by apply elem_of_nil in Hx. }
  assert (Heq : x = r); [|by subst x].
  apply isDuplicate_triple in Hdup. injection Hdup as Hty Hna Hda.
  apply (getRecords_seen _ _ _ _ Hxr Hr) in Hda.
  apply getRecords_ttl in Hr, Hxr. clear Hx. destruct x, r. cbn in *. congruence.
Qed.

Lemma responderOf_getRecordsOf s ifaces r name :
  r ∈ Service.getRecords s ifaces →
  nameEquals (MDNSServer.name r) name = true →
  r ∈ Responder.getRecordsOf (responderOf s ifaces) (type r) name.
Proof.
  intros Hr Hname. rewrite getRecordsOf_toTable. apply elem_of_getRecordsOf.
  split; [|by apply matchesName_nameEquals].
  rewrite toTable_get. by apply responderOf_holds.
Qed.

Lemma getRecords_fixed s ifaces :
  Service.getRecordPTR s ∈ Service.getRecords s ifaces
  ∧ Service.getRecordSRV s ∈ Service.getRecords s ifaces
  ∧ Service.getRecordTXT s ∈ Service.getRecords s ifaces.
Proof.
  unfold Service.getRecords. rewrite !elem_of_app.
  repeat split; left; left; set_solver.
Qed.

Lemma addressRecords_host s addr r :
  r ∈ Service.addressRecords s addr →
  MDNSServer.name r = Service.host s
  ∧ (type r = RecordType.A ∨ type r = RecordType.AAAA).
Proof.
  unfold Service.addressRecords.
  repeat case_match; try (by intros ?%elem_of_nil);
    intros ->%list_elem_of_singleton; cbn; auto.
Qed.

Lemma Map_get_keys m key l :
  Responder.Map_get m key = Some l → key ∈ Responder.Map_keys m.
Proof.
  unfold Responder.Map_keys. induction m as [|[k v] m IH]; [done|].
  cbn [Responder.Map_get]. destruct (decide (k = key)) as [->|Hne].
  - intros _. by left.
  - intros H. right. by apply IH.
Qed.

(** X20.  A host that publishes one service answers the PTR question for
    the type of the service with the PTR record of the service, and adds
    its SRV record, its TXT record and the A and AAAA records of its host:
    a browser gets the whole service from one response. *)
Theorem respond_ptr_additionals s ifaces :
  ∃ packet,
    Responder.respond (responderOf s ifaces)
      [Responder.mkQuestion (Responder.OfType RecordType.PTR)
         (Service.type s ++ Service.TLD)]
    = [packet]
    ∧ Service.getRecordPTR s ∈ Registry.answers packet
    ∧ Service.getRecordSRV s ∈ Registry.additionals packet
    ∧ Service.getRecordTXT s ∈ Registry.additionals packet
    ∧ ∀ r, r ∈ flat_map (fun iface => flat_map (Service.addressRecords s) iface)
                 ifaces →
           r ∈ Registry.additionals packet.
Proof.
  destruct (getRecords_fixed s ifaces) as (Hptr & Hsrv & Htxt).
  set (m := responderOf s ifaces).
  set (question := Responder.mkQuestion _ _).
  assert (Hans : Service.getRecordPTR s ∈ Responder.answersTo m question).
  { apply (responderOf_getRecordsOf s ifaces _ _ Hptr), nameEquals_refl. }
  assert (Hsrv' : Service.getRecordSRV s
                  ∈ Responder.ptrAdditionals m (Responder.answersTo m question)).
  { unfold Responder.ptrAdditionals. apply list_elem_of_In, in_flat_map.
    exists (Service.getRecordPTR s). split; [by apply list_elem_of_In|].
    cbn [type data Service.getRecordPTR]. apply list_elem_of_In, elem_of_app. left.
    apply (responderOf_getRecordsOf s ifaces _ _ Hsrv), nameEquals_refl. }
  assert (Htxt' : Service.getRecordTXT s
                  ∈ Responder.ptrAdditionals m (Responder.answersTo m question)).
  { unfold Responder.ptrAdditionals. apply list_elem_of_In, in_flat_map.
    exists (Service.getRecordPTR s). split; [by apply list_elem_of_In|].
    cbn [type data Service.getRecordPTR]. apply list_elem_of_In, elem_of_app. right.
    apply (responderOf_getRecordsOf s ifaces _ _ Htxt), nameEquals_refl. }
  unfold Responder.respond. cbn [omap list_omap].
  destruct (Responder.respondTo m question) as [packet|] eqn:Hp.
  2:{ unfold Responder.respondTo in Hp.
      destruct (Responder.answersTo m question); [by apply elem_of_nil in Hans|done]. }
  apply respondTo_Some in Hp as (Ha & _ & Hadd). cbn [Responder.q_type question] in Hadd.
  exists packet. cbn [mbind option_bind]. split; [done|].
  rewrite Ha, Hadd. cbn zeta. rewrite !elem_of_app.
  split; [done|]. split; [by left|]. split; [by left|].
  intros r Hr. apply elem_of_app. right.
  assert (Hrec : r ∈ Service.getRecords s ifaces).
  { unfold Service.getRecords. apply elem_of_app. by right. }
  apply list_elem_of_In, in_flat_map in Hr as (iface & _ & Hr).
  apply in_flat_map in Hr as (addr & _ & Hr%list_elem_of_In).
  apply addressRecords_host in Hr as [Hname Hty].
  unfold Responder.addressAdditionals. apply list_elem_of_In, in_flat_map.
  exists (Service.host s). split.
  - apply list_elem_of_In, elem_of_Set_from, list_elem_of_In, in_flat_map.
    exists (Service.getRecordSRV s). split; [by apply list_elem_of_In|].
    cbn. by left.
  - apply list_elem_of_In, elem_of_app.
    destruct Hty as [Hty|Hty]; [left|right]; rewrite <- Hty;
      apply (responderOf_getRecordsOf s ifaces _ _ Hrec);
      rewrite Hname; apply nameEquals_refl.
Qed.

(** X21.  A host that publishes a service answers the probe of another
    host for a name equal to the service's, up to ASCII case: the packet it
    sends has no additional record and names the service, so that the
    prober takes it for a conflict. *)
Theorem respond_probe_conflict s ifaces fqdn :
  nameEquals fqdn (Service.fqdn s) = true →
  ∃ packet,
    Responder.respond (responderOf s ifaces) [probeQuestion fqdn] = [packet]
    ∧ Registry.additionals packet = []
    ∧ namesFqdn fqdn packet = true.
Proof.
  intros Hname. rewrite nameEquals_sym in Hname.
  destruct (getRecords_fixed s ifaces) as (_ & Hsrv & _).
  set (m := responderOf s ifaces).
  assert (Hans : Service.getRecordSRV s ∈ Responder.answersTo m (probeQuestion fqdn)).
  { unfold Responder.answersTo. cbn [Responder.q_type Responder.q_name probeQuestion].
    apply list_elem_of_In, in_flat_map. exists RecordType.SRV. split.
    - pose proof (responderOf_holds s ifaces _ Hsrv) as H.
      cbn [type Service.getRecordSRV] in H. fold m in H.
      destruct (Responder.Map_get m RecordType.SRV) as [l|] eqn:E;
        [|by apply elem_of_nil in H].
      by apply list_elem_of_In, (Map_get_keys _ _ l).
    - by apply list_elem_of_In, (responderOf_getRecordsOf s ifaces _ _ Hsrv). }
  unfold Responder.respond. cbn [omap list_omap].
  destruct (Responder.respondTo m (probeQuestion fqdn)) as [packet|] eqn:Hp.
  2:{ unfold Responder.respondTo in Hp.
      destruct (Responder.answersTo m _); [by apply elem_of_nil in Hans|done]. }
  apply respondTo_Some in Hp as (Ha & _ & Hadd).
  exists packet. cbn [mbind option_bind]. split; [done|]. split; [done|].
  unfold namesFqdn. apply orb_true_iff. left. apply existsb_exists.
  exists (Service.getRecordSRV s). split; [|done].
  rewrite Ha. by apply list_elem_of_In.
Qed.

(** ** Discovered services *)

Section fromResponse.
Variable runtime : Runtime.

Lemma sameCore_refl a : sameCore a a.
Proof. by repeat split. Qed.

Lemma sameCore_trans a b c : sameCore a b → sameCore b c → sameCore a c.
Proof. unfold sameCore. intuition congruence. Qed.

Lemma new_fields name fqdn host port referer ttl lastSeen service :
  DiscoveredService.new name fqdn host port referer ttl lastSeen = Ok service →
  DiscoveredService.name service = name
  ∧ DiscoveredService.fqdn service = fqdn
  ∧ DiscoveredService.host service = host
  ∧ DiscoveredService.port service = port
  ∧ DiscoveredService.ttl service = ttl
  ∧ DiscoveredService.lastSeen service = lastSeen
  ∧ ServiceType.fromString
      (join (js ".") (DiscoveredService.slice_1_m1 (split (chr ".") fqdn)))
    = Ok (ServiceType.mk (DiscoveredService.type service)
            (DiscoveredService.protocol service)
            (ServiceType.subtype
               match ServiceType.fromString
                       (join (js ".")
                          (DiscoveredService.slice_1_m1 (split (chr ".") fqdn)))
               with Ok st => st | Throw _ => ServiceType.mk None None None end)).
Proof.
  unfold DiscoveredService.new.
  destruct (ServiceType.fromString _) as [[n p st]|e]; [|done].
  by intros [= <-].
Qed.

Lemma set_txt_sameCore answerData service service' :
  DiscoveredService.set_txt runtime answerData service = Ok service' →
  sameCore service' service.
Proof.
  unfold DiscoveredService.set_txt. repeat case_match; try done.
  intros [= <-]. by repeat split.
Qed.

Lemma txtLoop_sameCore ptrData answers service service' :
  DiscoveredService.txtLoop runtime ptrData answers service = Ok service' →
  sameCore service' service.
Proof.
  revert service. induction answers as [|answer answers IH]; intros service.
  - intros [= <-]. apply sameCore_refl.
  - cbn [DiscoveredService.txtLoop].
    destruct (type answer), (data answer); try apply IH.
    destruct (nameEquals _ _); [|apply IH].
    destruct (DiscoveredService.set_txt _ _ _) as [next|] eqn:Hset; [|done].
    intros Hrest%IH. eapply sameCore_trans; [exact Hrest|].
    by apply set_txt_sameCore in Hset.
Qed.

Lemma addressLoop_sameCore answers service :
  sameCore (DiscoveredService.addressLoop answers service) service.
Proof.
  unfold DiscoveredService.addressLoop. revert service.
  induction answers as [|answer answers IH]; intros service;
    [apply sameCore_refl|].
  cbn [fold_left]. eapply sameCore_trans; [apply IH|].
  repeat case_match; try apply sameCore_refl; by repeat split.
Qed.

Lemma subtypesLoop_sameCore ptrData answers service service' :
  DiscoveredService.subtypesLoop ptrData answers service = Ok service' →
  sameCore service' service.
Proof.
  revert service. induction answers as [|answer answers IH]; intros service.
  - intros [= <-]. apply sameCore_refl.
  - cbn [DiscoveredService.subtypesLoop].
    repeat case_match; try done; intros Hrest%IH; try done;
      try (eapply sameCore_trans; [exact Hrest|]; by repeat split).
Qed.

Lemma srvLoop_fromSrv all ptrData ptrTtl referer now answers service0 service :
  (∀ a, a ∈ answers → a ∈ all) →
  (∀ s, service0 = Some s → fromSrv all ptrData ptrTtl now s) →
  DiscoveredService.srvLoop ptrData ptrTtl referer now answers service0
  = Ok (Some service) →
  fromSrv all ptrData ptrTtl now service.
Proof.
  revert service0. induction answers as [|answer answers IH];
    intros service0 Hall H0.
  - intros [= ->]. by apply H0.
  - assert (Hall' : ∀ a, a ∈ answers → a ∈ all)
      by (intros a Ha; apply Hall; by right).
    cbn [DiscoveredService.srvLoop].
    destruct (type answer) eqn:Hty; try (by apply IH).
    destruct (data answer) as [| |srv] eqn:Hda; try (by apply IH).
    destruct (nameEquals (name answer) ptrData) eqn:Hname; [|by apply IH].
    destruct (head (split (chr ".") (name answer))) as [n|] eqn:Hhead; [|done].
    destruct (DiscoveredService.new _ _ _ _ _ _ _) as [s|e] eqn:Hnew; [|done].
    apply IH; [done|]. intros s' [= <-].
    apply new_fields in Hnew as (Hn & Hf & _ & _ & Ht & Hl & _).
    exists answer. rewrite Hf, Hn, Ht, Hl. repeat split; try done.
    apply Hall. by left.
Qed.

Lemma fromPTR_discoveredFrom all ptr referer now service :
  ptr ∈ all → type ptr = RecordType.PTR →
  DiscoveredService.fromPTR runtime ptr all referer now = Ok (Some service) →
  discoveredFrom all now service.
Proof.
  intros Hin Hty. unfold DiscoveredService.fromPTR.
  destruct (data ptr) as [ptrData| |] eqn:Hda; try done.
  destruct (DiscoveredService.srvLoop _ _ _ _ _ _) as [[s|]|e] eqn:Hsrv; try done.
  apply (srvLoop_fromSrv all) in Hsrv; [|done..].
  destruct (DiscoveredService.txtLoop _ _ _ _) as [s0|e] eqn:Htxt; [|done].
  destruct (DiscoveredService.subtypesLoop _ _ _) as [s'|e] eqn:Hsub; [|done].
  intros [= <-].
  pose proof (addressLoop_sameCore all s') as H1.
  apply subtypesLoop_sameCore in Hsub as H2.
  apply txtLoop_sameCore in Htxt as H3.
  destruct (sameCore_trans _ _ _ H1 (sameCore_trans _ _ _ H2 H3))
    as (Hn & Hf & _ & _ & _ & Ht & Hl & _).
  destruct Hsrv as (srv & Hs1 & Hs2 & Hs3 & Hs4 & Hs5 & Hs6 & Hs7).
  exists ptr, srv, ptrData. rewrite Hn, Hf, Ht, Hl. by repeat split.
Qed.

Lemma ptrLoop_discoveredFrom all referer now rest services0 services :
  (∀ a, a ∈ rest → a ∈ all) →
  Forall (discoveredFrom all now) services0 →
  DiscoveredService.ptrLoop runtime all referer now rest services0 = Ok services →
  Forall (discoveredFrom all now) services.
Proof.
  revert services0. induction rest as [|ptr rest IH]; intros services0 Hall H0.
  - by intros [= <-].
  - assert (Hall' : ∀ a, a ∈ rest → a ∈ all)
      by (intros a Ha; apply Hall; by right).
    cbn [DiscoveredService.ptrLoop].
    destruct (type ptr) eqn:Hty; try (by apply IH).
    destruct (DiscoveredService.fromPTR runtime ptr all referer now)
      as [[s|]|e] eqn:Hptr; [|by apply IH|done].
    apply IH; [done|]. apply Forall_app. split; [done|].
    apply Forall_singleton. apply (fromPTR_discoveredFrom all ptr referer);
      [apply Hall; by left|done..].
Qed.

Lemma elem_of_validAnswers packet r :
  r ∈ DiscoveredService.validAnswers packet
  ↔ r ∈ answers packet ++ additionals packet ∧ (0 < ttl r)%Z.
Proof.
  unfold DiscoveredService.validAnswers.
  rewrite list_elem_of_In, filter_In, <- list_elem_of_In, Z.ltb_lt. done.
Qed.

(** X22.  Every service that [fromResponse] returns comes from a PTR
    record and an SRV record of the packet whose TTLs are positive, the SRV
    record named like the data of the PTR record up to ASCII case: its
    fully qualified name is the name of the SRV record, its name the first
    label of it, its TTL the positive TTL of the PTR record, and it is not
    expired at the time it is built. *)
Theorem fromResponse_fresh packet referer now services service :
  DiscoveredService.fromResponse runtime packet referer now = Ok services →
  service ∈ services →
  discoveredFrom (DiscoveredService.validAnswers packet) now service
  ∧ (∃ ttl, DiscoveredService.ttl service = Some ttl ∧ (0 < ttl)%Z)
  ∧ DiscoveredService.expired service now = false.
Proof.
  unfold DiscoveredService.fromResponse. intros H Hin.
  apply ptrLoop_discoveredFrom in H; [|done|constructor].
  rewrite Forall_forall in H. specialize (H _ Hin).
  split; [done|].
  destruct H as (ptr & srv & d & Hptr & _ & _ & _ & _ & _ & _ & _ & Httl & Hls).
  apply elem_of_validAnswers in Hptr as [_ Hpos].
  split; [eauto|]. unfold DiscoveredService.expired. rewrite Httl, Hls.
  apply Z.ltb_ge. lia.
Qed.

(** ** Discovered services: names that are not service names *)

Lemma fromString_no_dot_throws input :
  includesDot input = false → ∃ e, ServiceType.fromString input = Throw e.
Proof.
  intros Hdot. unfold ServiceType.fromString.
  case_bool_decide; [eauto|]. rewrite split_no_dot by done.
  cbn [map indexOf]. destruct (decide _); cbn; eauto.
Qed.

Lemma new_short_name name fqdn host port referer ttl lastSeen :
  (length (split (chr ".") fqdn) ≤ 3)%nat →
  ∃ e, DiscoveredService.new name fqdn host port referer ttl lastSeen = Throw e.
Proof.
  intros Hlen. unfold DiscoveredService.new.
  pose proof (split_labels fqdn) as Hlabels.
  destruct (fromString_no_dot_throws
              (join (js ".") (DiscoveredService.slice_1_m1 (split (chr ".") fqdn))))
    as [e ->]; [|eauto].
  unfold DiscoveredService.slice_1_m1.
  destruct (split (chr ".") fqdn) as [|a [|b [|c [|d l]]]]; cbn in *;
    try done; try lia.
  by apply Forall_cons in Hlabels as [_ [? _]%Forall_cons].
Qed.

Lemma srvLoop_throws ptrData ptrTtl referer now answers service srv srvData :
  srv ∈ answers →
  type srv = RecordType.SRV → data srv = DataSrv srvData →
  nameEquals (name srv) ptrData = true →
  (length (split (chr ".") (name srv)) ≤ 3)%nat →
  ∃ e, DiscoveredService.srvLoop ptrData ptrTtl referer now answers service
       = Throw e.
Proof.
  intros Hin Hty Hda Hname Hlen. revert service.
  induction answers as [|answer answers IH]; intros service;
    [by apply elem_of_nil in Hin|].
  cbn [DiscoveredService.srvLoop].
  apply elem_of_cons in Hin as [<-|Hin].
  - rewrite Hty, Hda, Hname.
    destruct (split (chr ".") (name srv)) as [|n l] eqn:Hsplit;
      [by apply split_not_nil in Hsplit|].
    cbn [head]. rewrite <- Hsplit in Hlen.
    destruct (new_short_name n (name srv) (target srvData) (port srvData)
                referer (Some ptrTtl) now Hlen) as [e ->].
    eauto.
  - specialize (IH Hin).
    destruct (split (chr ".") (name answer)) as [|n l] eqn:Hsplit;
      [by apply split_not_nil in Hsplit|].
    cbn [head]. repeat case_match; eauto.
Qed.

Lemma ptrLoop_throws all referer now rest services ptr ptrData :
  ptr ∈ rest →
  type ptr = RecordType.PTR → data ptr = DataString ptrData →
  (∀ service, ∃ e,
     DiscoveredService.srvLoop ptrData (ttl ptr) referer now all service
     = Throw e) →
  ∃ e, DiscoveredService.ptrLoop runtime all referer now rest services = Throw e.
Proof.
  intros Hin Hty Hda Hsrv. revert services.
  induction rest as [|p rest IH]; intros services;
    [by apply elem_of_nil in Hin|].
  cbn [DiscoveredService.ptrLoop].
  apply elem_of_cons in Hin as [<-|Hin].
  - rewrite Hty. unfold DiscoveredService.fromPTR. rewrite Hda.
    destruct (Hsrv None) as [e ->]. eauto.
  - specialize (IH Hin). repeat case_match; eauto.
Qed.

(** X23.  [fromResponse] throws on a packet in which a PTR record points
    to an SRV record whose name has fewer than four labels, both with a
    positive TTL: the constructor finds no service type between the first
    and the last label of the name, and the error of [ServiceType.fromString]
    leaves [fromResponse]. *)
Theorem fromResponse_throws packet referer now ptr srv ptrData srvData :
  ptr ∈ DiscoveredService.validAnswers packet →
  srv ∈ DiscoveredService.validAnswers packet →
  type ptr = RecordType.PTR → data ptr = DataString ptrData →
  type srv = RecordType.SRV → data srv = DataSrv srvData →
  nameEquals (name srv) ptrData = true →
  (length (split (chr ".") (name srv)) ≤ 3)%nat →
  ∃ e, DiscoveredService.fromResponse runtime packet referer now = Throw e.
Proof.
  intros Hptr Hsrv Hpt Hpd Hst Hsd Hname Hlen.
  unfold DiscoveredService.fromResponse.
  apply (ptrLoop_throws _ _ _ _ _ ptr ptrData); [done..|].
  intros service. by apply (srvLoop_throws _ _ _ _ _ _ srv srvData).
Qed.

End fromResponse.

Lemma respond_sound_witness :
  let s := demoService true true in
  let packet := mkPacket [Service.getRecordSRV s; Service.getRecordTXT s] [] in
  Responder.respond (responderOf s [])
    [probeQuestion (js "foo bar._http._tcp.local")] = [packet]
  ∧ ∃ question,
      question ∈ [probeQuestion (js "foo bar._http._tcp.local")]
      ∧ Registry.answers packet ≠ []
      ∧ Forall (fun r => ofQueryType (Responder.q_type question) r
                         ∧ matchesName (Responder.q_name question) r = true)
               (Registry.answers packet)
      ∧ (Responder.q_type question = Responder.ANY →
         Registry.additionals packet = [])
      ∧ Forall additionalType (Registry.additionals packet).
Proof.
  intros s packet. split; [vm_compute; reflexivity|].
  apply (respond_sound (responderOf s [])
           [probeQuestion (js "foo bar._http._tcp.local")] packet).
  - apply built_register, built_new.
  - vm_compute. left.
Defined.

Lemma respond_probe_conflict_witness :
  ∃ packet,
    Responder.respond (responderOf (demoService true true) [])
      [probeQuestion (js "foo bar._HTTP._tcp.LOCAL")] = [packet]
    ∧ Registry.additionals packet = []
    ∧ namesFqdn (js "foo bar._HTTP._tcp.LOCAL") packet = true.
Proof.
  apply (respond_probe_conflict (demoService true true) []
           (js "foo bar._HTTP._tcp.LOCAL")).
  vm_compute. reflexivity.
Defined.

Lemma fromResponse_fresh_witness :
  match
    DiscoveredService.fromResponse exampleRuntime demoAnnouncement demoReferer
      1000
  with
  | Ok [service] =>
      DiscoveredService.name service = js "Foo Bar"
      ∧ DiscoveredService.type service = Some (js "http")
      ∧ DiscoveredService.expired service 1000 = false
  | _ => False
  end.
Proof.
  destruct (DiscoveredService.fromResponse exampleRuntime demoAnnouncement
              demoReferer 1000)
    as [[|service [|]]|] eqn:H; try (vm_compute in H; discriminate H).
  split; [|split].
  - vm_compute in H. by injection H as <-.
  - vm_compute in H. by injection H as <-.
  - refine (proj2 (proj2 (fromResponse_fresh exampleRuntime demoAnnouncement
                            demoReferer 1000
                            [service] service H _))).
    left.
Defined.

Lemma fromResponse_throws_witness :
  DiscoveredService.fromResponse exampleRuntime shortNamePacket demoReferer 0
  = Throw (DiscoveredService.InvalidType ServiceType.EmptyInput)
  ∧ ∃ e, DiscoveredService.fromResponse exampleRuntime shortNamePacket
           demoReferer 0 = Throw e.
Proof.
  split; [vm_compute; reflexivity|].
  apply (fromResponse_throws exampleRuntime shortNamePacket demoReferer 0
           (ptr "_http._tcp.local" "host.local")
           (mkRecord RecordType.SRV (js "host.local") 120
              (DataSrv (mkSrv (int 80) (js "host.local") None None)))
           (js "host.local") (mkSrv (int 80) (js "host.local") None None)).
  - vm_compute. left.
  - vm_compute. right. left.
  - reflexivity.
  - reflexivity.
  - reflexivity.
  - reflexivity.
  - vm_compute. reflexivity.
  - vm_compute. lia.
Defined.

(** ** From the records of a service to the discovered service *)

Lemma startsWith_app needle rest :
  DiscoveredService.startsWith needle (needle ++ rest) = true.
Proof. induction needle as [|c n IH]; [done|]. cbn. by rewrite N.eqb_refl. Qed.

Lemma includes_app needle a b :
  DiscoveredService.includes needle (a ++ needle ++ b) = true.
Proof.
  induction a as [|c a IH].
  - cbn [app]. pose proof (startsWith_app needle b) as H.
    destruct (needle ++ b); cbn [DiscoveredService.includes]; by rewrite H.
  - cbn [app DiscoveredService.includes]. rewrite IH. apply orb_true_r.
Qed.

Lemma split_dotted labels last :
  Forall (fun l => includesDot l = false) labels → includesDot last = false →
  split (chr ".") (dotted labels last) = labels ++ [last].
Proof.
  intros Hl Hlast. induction Hl as [|l labels Hd _ IH]; cbn [dotted foldr app].
  - by apply split_no_dot.
  - fold (dotted labels last). by rewrite split_app_dot, IH.
Qed.

Lemma indexOf_not_in {A} `{EqDecision A} (x : A) l : x ∉ l → indexOf x l = (-1)%Z.
Proof.
  induction l as [|y l IH]; [done|]. intros [Hy Hl]%not_elem_of_cons.
  cbn [indexOf]. rewrite decide_False by done. by rewrite IH.
Qed.

Lemma underscore_dotless label :
  plainLabel label = true → includesDot (chr "_" :: label) = false.
Proof. by intros [? _]%plainLabel_spec. Qed.

Lemma underscore_parsed label :
  plainLabel label = true →
  ServiceType.stripUnderscore (trim (chr "_" :: label)) = label.
Proof. by intros [_ ?]%plainLabel_spec. Qed.

Lemma new_namedAs options hostname s :
  Service.new options hostname = Ok s → namedAs s (Service.opt_type options).
Proof.
  unfold Service.new. destruct (_ || _); [done|]. intros [= <-].
  unfold namedAs. cbn [Service.name Service.type Service.fqdn Service.protocol].
  split; [apply includesDot_join_dash, split_labels|]. split; [done|].
  unfold ServiceType.toString, Service.TLD, dotted.
  cbn [ServiceType.subtype ServiceType.name ServiceType.protocol app join foldr js].
  by rewrite <- !app_assoc.
Qed.

Section announced.
Variables (s : Service.t) (T : jstring).
Hypothesis Hs : namedAs s T.
Hypothesis Hplain : roundTrips T (Service.protocol s) None.
Variable runtime : Runtime.
Hypothesis Hproto : hasProtoKey (announcedTxt s) = false.

Lemma type_tld :
  Service.type s ++ Service.TLD
  = dotted [chr "_" :: T; chr "_" :: Service.protocol s] (js "local").
Proof.
  destruct Hs as (_ & -> & _). unfold dotted, Service.TLD. cbn [foldr app js].
  by rewrite <- !app_assoc.
Qed.

Lemma parts_fqdn :
  split (chr ".") (Service.fqdn s)
  = [Service.name s; chr "_" :: T; chr "_" :: Service.protocol s; js "local"].
Proof.
  destruct Hs as (Hname & _ & ->). destruct Hplain as (HT & HP & _).
  rewrite split_dotted; [done| |done].
  repeat constructor; [done|by apply underscore_dotless..].
Qed.

Lemma fromString_type :
  ServiceType.fromString (Service.type s)
  = Ok (ServiceType.mk (Some T) (Some (Service.protocol s)) None).
Proof.
  destruct Hs as (_ & Hty & _). destruct Hplain as (HT & HP & HTs & HPs).
  unfold ServiceType.fromString. rewrite Hty.
  rewrite bool_decide_eq_false_2 by done.
  rewrite split_dotted by
    (repeat constructor; by apply underscore_dotless).
  cbn [app map]. rewrite !underscore_parsed by done.
  rewrite indexOf_not_in by set_solver. done.
Qed.

Lemma new_discovered host port referer ttl lastSeen :
  DiscoveredService.new (Service.name s) (Service.fqdn s) host port referer ttl
    lastSeen
  = Ok (DiscoveredService.mk (Service.name s) (Service.fqdn s) host port referer
          ttl lastSeen (Some T) (Some (Service.protocol s)) [] [] None None
          None None).
Proof.
  unfold DiscoveredService.new. rewrite parts_fqdn.
  unfold DiscoveredService.slice_1_m1. cbn [length Nat.sub drop take].
  change (join _ _) with (dotted [chr "_" :: T] (chr "_" :: Service.protocol s)).
  destruct Hs as (_ & <- & _). by rewrite fromString_type.
Qed.

Lemma fqdn_type :
  Service.fqdn s = Service.name s ++ chr "." :: (Service.type s ++ Service.TLD).
Proof. rewrite type_tld. by destruct Hs as (_ & _ & ->). Qed.

Lemma fqdn_not_type : nameEquals (Service.fqdn s) (Service.type s ++ Service.TLD) = false.
Proof.
  apply not_true_is_false. intros H%nameEquals_length.
  rewrite fqdn_type, length_app in H. cbn [length] in H. lia.
Qed.

Lemma fromString_type_tld :
  ServiceType.fromString (Service.type s ++ Service.TLD)
  = Ok (ServiceType.mk (Some T) (Some (Service.protocol s)) None).
Proof.
  destruct Hplain as (HT & HP & HTs & HPs).
  unfold ServiceType.fromString. rewrite type_tld.
  rewrite bool_decide_eq_false_2 by done.
  rewrite split_dotted by
    (repeat constructor; by apply underscore_dotless).
  cbn [app map]. rewrite !underscore_parsed by done.
  change (ServiceType.stripUnderscore (trim (js "local"))) with (js "local").
  rewrite indexOf_not_in; [done|].
  intros [?|[?|[?|?%elem_of_nil]%elem_of_cons]%elem_of_cons]%elem_of_cons; done.
Qed.

Lemma subtype_name subtype :
  MDNSServer.name (Service.getRecordPTRSubtype s subtype)
  = dotted [chr "_" :: subtype; js "_sub"; chr "_" :: T;
            chr "_" :: Service.protocol s] (js "local").
Proof.
  cbn [MDNSServer.name Service.getRecordPTRSubtype].
  change (js "_" ++ ?x) with (chr "_" :: x).
  rewrite type_tld. unfold dotted. cbn [foldr app js].
  by rewrite <- ?app_assoc.
Qed.

Lemma fromString_subtype subtype :
  plainSubtype subtype →
  ServiceType.fromString (MDNSServer.name (Service.getRecordPTRSubtype s subtype))
  = Ok (ServiceType.mk (Some T) (Some (Service.protocol s)) (Some subtype)).
Proof.
  intros [Hsub Hne]. destruct Hplain as (HT & HP & _).
  unfold ServiceType.fromString. rewrite subtype_name.
  rewrite bool_decide_eq_false_2 by done.
  rewrite split_dotted by
    (repeat constructor; by (done || apply underscore_dotless)).
  cbn [app map]. rewrite !underscore_parsed by done.
  change (ServiceType.stripUnderscore (trim (js "_sub"))) with (js "sub").
  change (ServiceType.stripUnderscore (trim (js "local"))) with (js "local").
  cbn [indexOf]. rewrite decide_False by done. rewrite decide_True by done.
  done.
Qed.

Lemma subtype_includes subtype :
  DiscoveredService.includes (js "._sub")
    (MDNSServer.name (Service.getRecordPTRSubtype s subtype)) = true.
Proof.
  cbn [MDNSServer.name Service.getRecordPTRSubtype].
  change (js "._sub." ++ ?x) with (js "._sub" ++ chr "." :: x).
  rewrite (app_assoc (js "_")). apply includes_app.
Qed.

Lemma subtype_data subtype :
  data (Service.getRecordPTRSubtype s subtype) = DataString (Service.fqdn s).
Proof. by rewrite fqdn_type. Qed.

(** The loops of [fromPTR] pass over the records of another type. *)
Lemma srvLoop_skip ptrData ptrTtl referer now answers service :
  Forall (fun r => type r ≠ RecordType.SRV) answers →
  DiscoveredService.srvLoop ptrData ptrTtl referer now answers service
  = Ok service.
Proof.
  induction 1 as [|r answers Hr _ IH]; [done|].
  cbn [DiscoveredService.srvLoop]. by destruct (type r), (data r).
Qed.

Lemma txtLoop_skip ptrData answers service :
  Forall (fun r => type r ≠ RecordType.TXT) answers →
  DiscoveredService.txtLoop runtime ptrData answers service = Ok service.
Proof.
  induction 1 as [|r answers Hr _ IH]; [done|].
  cbn [DiscoveredService.txtLoop]. by destruct (type r), (data r).
Qed.

Lemma subtypesLoop_skip ptrData answers service :
  Forall (fun r => type r ≠ RecordType.PTR) answers →
  DiscoveredService.subtypesLoop ptrData answers service = Ok service.
Proof.
  induction 1 as [|r answers Hr _ IH]; [done|].
  cbn [DiscoveredService.subtypesLoop]. by destruct (type r), (data r).
Qed.

Lemma subtypesLoop_app ptrData l1 l2 service :
  DiscoveredService.subtypesLoop ptrData (l1 ++ l2) service
  = match DiscoveredService.subtypesLoop ptrData l1 service with
    | Ok service => DiscoveredService.subtypesLoop ptrData l2 service
    | Throw e => Throw e
    end.
Proof.
  revert service. induction l1 as [|r l1 IH]; intros service; [done|].
  cbn [app DiscoveredService.subtypesLoop].
  destruct (type r), (data r); try apply IH.
  destruct (_ && _); [|apply IH].
  destruct (ServiceType.fromString _); try done.
  destruct (ServiceType.subtype _); apply IH.
Qed.

Lemma addressLoop_skip answers service :
  Forall (fun r => type r ≠ RecordType.A ∧ type r ≠ RecordType.AAAA) answers →
  DiscoveredService.addressLoop answers service = service.
Proof.
  unfold DiscoveredService.addressLoop.
  induction 1 as [|r answers [Hr Hr'] _ IH]; [done|].
  cbn [fold_left]. by destruct (type r), (data r).
Qed.

Lemma addressLoop_app l1 l2 service :
  DiscoveredService.addressLoop (l1 ++ l2) service
  = DiscoveredService.addressLoop l2 (DiscoveredService.addressLoop l1 service).
Proof. apply fold_left_app. Qed.

Lemma addressLoop_addresses n f h p r t ls ty pr su ad tx bt rt tt answers :
  Forall (fun x => (type x = RecordType.A ∨ type x = RecordType.AAAA)
                   ∧ name x = h ∧ ∃ a, data x = DataString a) answers →
  DiscoveredService.addressLoop answers
    (DiscoveredService.mk n f h p r t ls ty pr su ad tx bt rt tt)
  = DiscoveredService.mk n f h p r t ls ty pr su
      (ad ++ if bool_decide (h = []) then [] else flat_map addressOf answers)
      tx bt rt tt.
Proof.
  intros H. revert ad. unfold DiscoveredService.addressLoop.
  induction H as [|x answers (Hty & Hname & a & Hda) _ IH]; intros ad.
  - cbn [fold_left flat_map]. by case_bool_decide; rewrite app_nil_r.
  - cbn [fold_left flat_map]. rewrite Hda, Hname. cbn [DiscoveredService.host].
    unfold addressOf at 1. rewrite Hda.
    case_bool_decide as Hh; cbn [negb andb].
    + by destruct Hty as [-> | ->]; rewrite IH.
    + rewrite nameEquals_refl.
      destruct Hty as [-> | ->]; unfold DiscoveredService.push_address;
        cbn [DiscoveredService.name DiscoveredService.fqdn DiscoveredService.host
        DiscoveredService.port DiscoveredService.referer DiscoveredService.ttl
        DiscoveredService.lastSeen DiscoveredService.type
        DiscoveredService.protocol DiscoveredService.subtypes
        DiscoveredService.addresses DiscoveredService.txt
        DiscoveredService.binaryTxt DiscoveredService.rawTxt
        DiscoveredService.ttlTimer];
        rewrite IH; by rewrite <- app_assoc.
Qed.

Lemma ptrLoop_app all referer now l1 l2 services :
  DiscoveredService.ptrLoop runtime all referer now (l1 ++ l2) services
  = match DiscoveredService.ptrLoop runtime all referer now l1 services with
    | Ok services => DiscoveredService.ptrLoop runtime all referer now l2 services
    | Throw e => Throw e
    end.
Proof.
  revert services. induction l1 as [|r l1 IH]; intros services; [done|].
  cbn [app DiscoveredService.ptrLoop].
  destruct (type r); try apply IH.
  destruct (DiscoveredService.fromPTR _ _ _ _ _) as [[service|]|]; try done;
    apply IH.
Qed.

Lemma ptrLoop_skip all referer now rest services :
  Forall (fun r => type r ≠ RecordType.PTR) rest →
  DiscoveredService.ptrLoop runtime all referer now rest services = Ok services.
Proof.
  revert services.
  induction rest as [|r rest IH]; intros services; [done|].
  intros [Hr Hrest]%Forall_cons. cbn [DiscoveredService.ptrLoop].
  destruct (type r); try done; by apply IH.
Qed.

Lemma addressRecords_spec addr x :
  x ∈ Service.addressRecords s addr →
  (type x = RecordType.A ∨ type x = RecordType.AAAA)
  ∧ name x = Service.host s ∧ ∃ a, data x = DataString a.
Proof.
  unfold Service.addressRecords.
  repeat case_match; try (by intros ?%elem_of_nil);
    intros ->%list_elem_of_singleton; cbn; eauto.
Qed.

Lemma addresses_spec ifaces :
  Forall (fun x => (type x = RecordType.A ∨ type x = RecordType.AAAA)
                   ∧ name x = Service.host s ∧ ∃ a, data x = DataString a)
    (flat_map (fun iface => flat_map (Service.addressRecords s) iface) ifaces).
Proof.
  apply Forall_forall. intros x (iface & _ & Hx)%list_elem_of_In%in_flat_map.
  apply in_flat_map in Hx as (addr & _ & Hx%list_elem_of_In).
  by apply addressRecords_spec in Hx.
Qed.

Lemma subtypesLoop_subtypes n f h p r t ls ty pr su ad tx bt rt tt subtypes :
  Forall plainSubtype subtypes →
  DiscoveredService.subtypesLoop (Service.fqdn s)
    (map (Service.getRecordPTRSubtype s) subtypes)
    (DiscoveredService.mk n f h p r t ls ty pr su ad tx bt rt tt)
  = Ok (DiscoveredService.mk n f h p r t ls ty pr (su ++ subtypes) ad tx bt rt tt).
Proof.
  intros H. revert su. induction H as [|subtype subtypes Hsub _ IH]; intros su.
  - cbn [map DiscoveredService.subtypesLoop]. by rewrite app_nil_r.
  - cbn [map DiscoveredService.subtypesLoop].
    rewrite subtype_data, nameEquals_refl, subtype_includes,
      fromString_subtype by done.
    cbn [type Service.getRecordPTRSubtype andb ServiceType.subtype].
    unfold DiscoveredService.push_subtype.
    cbn [DiscoveredService.name DiscoveredService.fqdn DiscoveredService.host
         DiscoveredService.port DiscoveredService.referer DiscoveredService.ttl
         DiscoveredService.lastSeen DiscoveredService.type
         DiscoveredService.protocol DiscoveredService.subtypes
         DiscoveredService.addresses DiscoveredService.txt
         DiscoveredService.binaryTxt DiscoveredService.rawTxt
         DiscoveredService.ttlTimer].
    rewrite IH. by rewrite <- app_assoc.
Qed.

Lemma subtypes_type subtypes :
  Forall (fun x => type x = RecordType.PTR)
    (map (Service.getRecordPTRSubtype s) subtypes).
Proof. apply Forall_forall. by intros x (subtype & -> & _)%list_elem_of_fmap. Qed.

Ltac subtype_types :=
  eapply Forall_impl; [apply subtypes_type|]; intros ? Hx; cbn beta;
  rewrite Hx; try split; done.

Ltac address_types :=
  eapply Forall_impl; [apply addresses_spec|]; intros ? ([Hx|Hx] & _);
  cbn beta; rewrite Hx; try split; done.

Ltac other_types :=
  first [ apply Forall_app; split; [subtype_types | address_types]
        | subtype_types | address_types ].

Lemma fromPTR_announced ptr ifaces referer now :
  data ptr = DataString (Service.fqdn s) → ttl ptr = Service.ttl s →
  Forall plainSubtype (Service.subtypes s) →
  DiscoveredService.fromPTR runtime ptr (Service.getRecords s ifaces) referer now
  = Ok (Some (discovered s T ifaces referer now)).
Proof.
  intros Hda Httl Hsubs. unfold DiscoveredService.fromPTR.
  rewrite Hda, Httl. unfold Service.getRecords. cbn zeta. cbn [app].
  cbn [DiscoveredService.srvLoop type data name Service.getRecordPTR
       Service.getRecordSRV Service.getRecordTXT
       Service.getRecordPTRServiceTypeEnumeration target port].
  rewrite nameEquals_refl, parts_fqdn. cbn [head]. rewrite new_discovered.
  rewrite srvLoop_skip by other_types.
  cbn [DiscoveredService.txtLoop type data name Service.getRecordPTR
       Service.getRecordSRV Service.getRecordTXT
       Service.getRecordPTRServiceTypeEnumeration].
  rewrite nameEquals_refl. unfold DiscoveredService.set_txt.
  change (TxtMany (map ItemBuffer (encodeTXT (Service.txt s))))
    with (announcedTxt s).
  rewrite !(decodeTXT_object runtime (announcedTxt s)) by exact Hproto.
  cbn [DiscoveredService.txtLoop type data name Service.getRecordPTR
       Service.getRecordSRV Service.getRecordTXT
       Service.getRecordPTRServiceTypeEnumeration].
  rewrite txtLoop_skip by other_types.
  cbn [DiscoveredService.name DiscoveredService.fqdn DiscoveredService.host
       DiscoveredService.port DiscoveredService.referer DiscoveredService.ttl
       DiscoveredService.lastSeen DiscoveredService.type
       DiscoveredService.protocol DiscoveredService.subtypes
       DiscoveredService.addresses DiscoveredService.txt
       DiscoveredService.binaryTxt DiscoveredService.rawTxt
       DiscoveredService.ttlTimer].
  cbn [DiscoveredService.subtypesLoop type data name Service.getRecordPTR
       Service.getRecordSRV Service.getRecordTXT
       Service.getRecordPTRServiceTypeEnumeration].
  rewrite nameEquals_refl, (nameEquals_sym _ (Service.fqdn s)), fqdn_not_type.
  cbn [andb]. rewrite fromString_type_tld. cbn [ServiceType.subtype].
  rewrite subtypesLoop_app, subtypesLoop_subtypes by done.
  rewrite subtypesLoop_skip by other_types.
  rewrite (Tauto.if_same (DiscoveredService.includes _ _)). cbn [app].
  unfold DiscoveredService.addressLoop at 1.
  cbn [fold_left type data name Service.getRecordPTR
       Service.getRecordSRV Service.getRecordTXT
       Service.getRecordPTRServiceTypeEnumeration].
  match goal with
  | |- context [fold_left ?f (?l1 ++ ?l2) ?d] =>
      change (fold_left f (l1 ++ l2) d)
        with (DiscoveredService.addressLoop (l1 ++ l2) d)
  end.
  rewrite addressLoop_app, (addressLoop_skip (map _ _)) by subtype_types.
  rewrite addressLoop_addresses by apply addresses_spec.
  done.
Qed.

Lemma getRecords_valid ifaces :
  (0 < Service.ttl s)%Z →
  DiscoveredService.validAnswers (mkPacket (Service.getRecords s ifaces) [])
  = Service.getRecords s ifaces.
Proof.
  intros Httl. unfold DiscoveredService.validAnswers.
  cbn [answers additionals]. rewrite app_nil_r.
  apply forallb_filter_id, forallb_forall.
  intros r Hr%list_elem_of_In%getRecords_ttl. rewrite Hr. by apply Z.ltb_lt.
Qed.

Lemma ptrLoop_subtypes ifaces referer now subtypes services :
  Forall plainSubtype (Service.subtypes s) →
  DiscoveredService.ptrLoop runtime (Service.getRecords s ifaces) referer now
    (map (Service.getRecordPTRSubtype s) subtypes) services
  = Ok (services
        ++ replicate (length subtypes) (discovered s T ifaces referer now)).
Proof.
  intros Hsubs. revert services.
  induction subtypes as [|subtype subtypes IH]; intros services.
  - cbn. by rewrite app_nil_r.
  - cbn [map DiscoveredService.ptrLoop length replicate].
    rewrite fromPTR_announced by (done || apply subtype_data).
    cbn [type Service.getRecordPTRSubtype]. rewrite IH.
    by rewrite <- app_assoc.
Qed.

Lemma fromPTR_enumeration ifaces referer now :
  DiscoveredService.fromPTR runtime (Service.getRecordPTRServiceTypeEnumeration s)
    (Service.getRecords s ifaces) referer now
  = Ok None.
Proof.
  unfold DiscoveredService.fromPTR.
  cbn [data Service.getRecordPTRServiceTypeEnumeration].
  unfold Service.getRecords. cbn zeta. cbn [app].
  cbn [DiscoveredService.srvLoop type data name Service.getRecordPTR
       Service.getRecordSRV Service.getRecordTXT
       Service.getRecordPTRServiceTypeEnumeration].
  rewrite fqdn_not_type. by rewrite srvLoop_skip by other_types.
Qed.

Lemma fromResponse_announced ifaces referer now :
  Forall plainSubtype (Service.subtypes s) →
  (0 < Service.ttl s)%Z →
  DiscoveredService.fromResponse runtime (mkPacket (Service.getRecords s ifaces) [])
    referer now
  = Ok (replicate (S (length (Service.subtypes s)))
          (discovered s T ifaces referer now)).
Proof.
  intros Hsubs Httl. unfold DiscoveredService.fromResponse. cbn zeta.
  rewrite getRecords_valid by done.
  pose proof (fromPTR_announced (Service.getRecordPTR s) ifaces referer now
                eq_refl eq_refl Hsubs) as Hptr.
  pose proof (fromPTR_enumeration ifaces referer now) as Henum.
  pose proof (ptrLoop_subtypes ifaces referer now) as Hloop.
  revert Hptr Henum Hloop.
  generalize (Service.getRecords s ifaces) at 1 2 3 4.
  intros all Hptr Henum Hloop.
  unfold Service.getRecords. cbn zeta. cbn [app].
  cbn [DiscoveredService.ptrLoop type Service.getRecordPTR
       Service.getRecordSRV Service.getRecordTXT
       Service.getRecordPTRServiceTypeEnumeration].
  rewrite Hptr, Henum, ptrLoop_app, Hloop by done.
  by rewrite ptrLoop_skip by address_types.
Qed.

End announced.

(** X24.  The records of a service, received in one packet, give the
    browser the service back: [fromResponse] returns, for the PTR record
    of the service and for each PTR record of a subtype, the same service,
    with the name, the host, the port and the time to live of the
    published one, its type and protocol, its subtypes, the addresses of
    its A and AAAA records and its TXT data, decoded.  The labels of the
    type have to be plain, the type and the protocol other than [sub], as
    every subtype, the time to live positive, and no item of the TXT data
    may have the key [__proto__]. *)
Theorem announcement_discovered (runtime : Runtime) options hostname ifaces s
    referer now :
  Service.new options hostname = Ok s →
  roundTrips (Service.opt_type options) (Service.protocol s) None →
  Forall plainSubtype (Service.subtypes s) →
  (0 < Service.ttl s)%Z →
  hasProtoKey (announcedTxt s) = false →
  DiscoveredService.fromResponse runtime
    (mkPacket (Service.getRecords s ifaces) []) referer now
  = Ok (replicate (S (length (Service.subtypes s)))
          (discovered s (Service.opt_type options) ifaces referer now)).
Proof.
  intros Hnew Hplain Hsubs Httl Hproto.
  apply fromResponse_announced; [by eapply new_namedAs|done..].
Qed.

(** ** The services of a browser *)

Lemma nameEquals_key s fqdn :
  nameEquals (DiscoveredService.fqdn s) fqdn = true
  ↔ nameKey s = replaceCapitalLetters fqdn.
Proof. unfold nameEquals, nameKey. apply bool_decide_eq_true. Qed.

Lemma nameEquals_key_false s fqdn :
  nameEquals (DiscoveredService.fqdn s) fqdn = false
  ↔ nameKey s ≠ replaceCapitalLetters fqdn.
Proof. unfold nameEquals, nameKey. apply bool_decide_eq_false. Qed.

Lemma findService_Some fqdn l before s after :
  Discovery.findService fqdn l = Some (before, s, after) →
  l = before ++ s :: after
  ∧ nameKey s = replaceCapitalLetters fqdn
  ∧ Forall (fun x => nameKey x ≠ replaceCapitalLetters fqdn) before.
Proof.
  revert before. induction l as [|x l IH]; intros before; [done|].
  cbn [Discovery.findService].
  destruct (nameEquals (DiscoveredService.fqdn x) fqdn) eqn:E.
  - intros [= <- <- <-]. by apply nameEquals_key in E.
  - destruct (Discovery.findService fqdn l) as [[[b f] a]|]; [|done].
    intros [= <- <- <-]. destruct (IH b eq_refl) as (-> & Hs & Hb).
    split; [done|]. split; [done|]. constructor; [|done].
    by apply nameEquals_key_false.
Qed.

Lemma findService_None fqdn l :
  Discovery.findService fqdn l = None →
  Forall (fun x => nameKey x ≠ replaceCapitalLetters fqdn) l.
Proof.
  induction l as [|x l IH]; [by constructor|]. cbn [Discovery.findService].
  destruct (nameEquals (DiscoveredService.fqdn x) fqdn) eqn:E; [done|].
  destruct (Discovery.findService fqdn l) as [[[b f] a]|]; [done|].
  intros _. constructor; [by apply nameEquals_key_false | by apply IH].
Qed.

Lemma findService_is_Some fqdn l s :
  s ∈ l → nameKey s = replaceCapitalLetters fqdn →
  is_Some (Discovery.findService fqdn l).
Proof.
  intros Hin Hs. destruct (Discovery.findService fqdn l) eqn:E; [done|].
  apply findService_None in E. rewrite Forall_forall in E.
  by destruct (E s Hin).
Qed.

Lemma tracked_snoc events e :
  tracked (events ++ [e]) = tracked_step (tracked events) e.
Proof. unfold tracked. by rewrite fold_left_app. Qed.

Lemma filter_ne_notin {A} (x : A) `{EqDecision A} (l : list A) :
  x ∉ l → filter (fun n => n ≠ x) l = l.
Proof.
  induction l as [|y l IH]; [done|]. intros [Hy Hl]%not_elem_of_cons.
  rewrite filter_cons_True by done. by rewrite IH.
Qed.

Lemma clearTimeout_lookup timer (timers : gmap nat DiscoveredService.t) t s :
  Discovery.clearTimeout timer timers !! t = Some s
  ↔ timers !! t = Some s ∧ timer ≠ Some t.
Proof.
  destruct timer as [u|]; cbn [Discovery.clearTimeout].
  - rewrite lookup_delete_Some. split; intros [? ?]; split; congruence.
  - split; [by intros ? | by intros [? _]].
Qed.

(** The names of the list without its first service named [fqdn]. *)
Lemma keys_remove before s after :
  NoDup (nameKey <$> before ++ s :: after) →
  filter (fun n => n ≠ nameKey s) (nameKey <$> before ++ s :: after)
  = nameKey <$> before ++ after.
Proof.
  rewrite !fmap_app, fmap_cons. intros (Hb & Hs & Ha)%NoDup_app.
  apply NoDup_cons in Ha as [Ha _].
  rewrite filter_app, filter_cons_False by (by intros ?).
  rewrite !filter_ne_notin; [done|done|].
  intros Hin. apply (Hs _ Hin). by left.
Qed.

Section kept.
Variable test : jstring → jstring → bool.
Variable runtime : Runtime.
Variable filter : option Browser.BrowserFilter.

Lemma removeService_kept fqdn w :
  wellKept test runtime filter w → wellKept test runtime filter (Discovery.removeService fqdn w).
Proof.
  intros [Hd Hm Ht Hn Htr]. unfold Discovery.removeService.
  destruct (Discovery.findService fqdn (Discovery.services w))
    as [[[before s] after]|] eqn:E; [|done].
  apply findService_Some in E as (Hl & Hs & Hbefore).
  rewrite Hl in Hd, Hm, Ht, Htr.
  split; cbn [Discovery.services Discovery.timers Discovery.emitted
              Discovery.nextTimer].
  - rewrite fmap_app in *. rewrite fmap_cons in Hd.
    apply NoDup_app in Hd as (H1 & H2 & H3). apply NoDup_cons in H3 as [H3 H4].
    apply NoDup_app. split; [done|]. split; [|done].
    intros x Hx Hx'. apply (H2 x Hx). by right.
  - apply Forall_app in Hm as [H1 [_ H2]%Forall_cons]. by apply Forall_app.
  - intros t s' [Hlook Hne]%clearTimeout_lookup.
    destruct (Ht _ _ Hlook) as [Hin Htt]. split; [|done].
    apply elem_of_app in Hin as [Hin|[->|Hin]%elem_of_cons];
      [apply elem_of_app; by left | congruence | apply elem_of_app; by right].
  - intros t s' [Hlook _]%clearTimeout_lookup. by eapply Hn.
  - rewrite tracked_snoc, Htr. cbn [tracked_step]. by apply keys_remove.
Qed.

Lemma addService_kept service w :
  wellKept test runtime filter w →
  Forall (fun s => nameKey s ≠ nameKey service) (Discovery.services w) →
  wellKept test runtime filter (Discovery.addService test runtime filter service w).
Proof.
  intros [Hd Hm Ht Hn Htr] Hnew. unfold Discovery.addService.
  destruct (Discovery.match_ test runtime filter service) eqn:Hmatch; cbn [negb];
    [|done].
  unfold Discovery.setupTTLTimer.
  destruct (DiscoveredService.ttl service) as [ttl|];
    split; cbn [Discovery.services Discovery.timers Discovery.emitted
                Discovery.nextTimer].
  - rewrite fmap_app. apply NoDup_app. split; [done|].
    split; [|apply NoDup_singleton].
    intros x (s & -> & Hs)%list_elem_of_fmap Hx%list_elem_of_singleton.
    rewrite Forall_forall in Hnew. by apply (Hnew s Hs).
  - apply Forall_app. split; [done|]. by constructor.
  - intros t s [[<- <-]|[Hne Hlook]]%lookup_insert_Some.
    + split; [|done]. apply elem_of_app. right. by left.
    + destruct (Ht _ _ Hlook). split; [|done]. apply elem_of_app. by left.
  - intros t s [[<- <-]|[Hne Hlook]]%lookup_insert_Some; [lia|].
    apply Hn in Hlook. lia.
  - by rewrite tracked_snoc, Htr, fmap_app.
  - rewrite fmap_app. apply NoDup_app. split; [done|].
    split; [|apply NoDup_singleton].
    intros x (s & -> & Hs)%list_elem_of_fmap Hx%list_elem_of_singleton.
    rewrite Forall_forall in Hnew. by apply (Hnew s Hs).
  - apply Forall_app. split; [done|]. by constructor.
  - intros t s Hlook. destruct (Ht _ _ Hlook). split; [|done].
    apply elem_of_app. by left.
  - done.
  - by rewrite tracked_snoc, Htr, fmap_app.
Qed.

(** The timers that the loop of [updateService] leaves pending. *)
Lemma cleared_lookup (named : DiscoveredService.t → bool) l
    (timers : gmap nat DiscoveredService.t) t s :
  fold_left
    (fun timers s =>
       if named s
       then Discovery.clearTimeout (DiscoveredService.ttlTimer s) timers
       else timers)
    l timers !! t = Some s
  ↔ timers !! t = Some s
    ∧ Forall (fun x => named x = true → DiscoveredService.ttlTimer x ≠ Some t) l.
Proof.
  revert timers. induction l as [|x l IH]; intros timers; cbn [fold_left].
  - split; [by intros ? | by intros [? _]].
  - rewrite IH, Forall_cons. destruct (named x).
    + rewrite clearTimeout_lookup. split.
      * intros [[? ?] ?]. auto.
      * intros (? & Hx & ?). auto.
    + split.
      * intros [? ?]. split; [done|]. by split.
      * by intros (? & _ & ?).
Qed.

Lemma keys_replace (named : DiscoveredService.t → bool) service l :
  Forall (fun s => named s = true → nameKey s = nameKey service) l →
  nameKey <$> map (fun s => if named s then service else s) l = nameKey <$> l.
Proof.
  induction 1 as [|s l Hs _ IH]; [done|]. cbn [map fmap list_fmap].
  f_equal; [|done]. destruct (named s); [|done]. symmetry. by apply Hs.
Qed.

Lemma updateService_kept service w :
  wellKept test runtime filter w →
  Exists (fun s => nameKey s = nameKey service) (Discovery.services w) →
  wellKept test runtime filter (Discovery.updateService test runtime filter service w).
Proof.
  intros Hw Hold. unfold Discovery.updateService.
  destruct (Discovery.match_ test runtime filter service) eqn:Hmatch; cbn [negb];
    [|by apply removeService_kept].
  destruct Hw as [Hd Hm Ht Hn Htr].
  set (named := fun s : DiscoveredService.t =>
                  nameEquals (DiscoveredService.fqdn s)
                             (DiscoveredService.fqdn service)).
  assert (Hnamed : ∀ s, named s = true ↔ nameKey s = nameKey service)
    by (intros s; apply nameEquals_key).
  assert (Hkeys : ∀ service',
            nameKey service' = nameKey service →
            nameKey <$> map (fun s => if named s then service' else s)
                            (Discovery.services w)
            = nameKey <$> Discovery.services w).
  { intros service' Hk. apply keys_replace, Forall_forall.
    intros s _ Hs%Hnamed. congruence. }
  assert (Hmatches : ∀ service',
            Discovery.match_ test runtime filter service' = true →
            Forall (fun s => Discovery.match_ test runtime filter s = true)
              (map (fun s => if named s then service' else s)
                   (Discovery.services w))).
  { intros service' Hs'. apply Forall_forall.
    intros x (s & <- & Hs)%list_elem_of_In%in_map_iff.
    destruct (named s); [done|].
    rewrite Forall_forall in Hm. by apply Hm, list_elem_of_In. }
  assert (Hstays : ∀ service' t s,
            fold_left
              (fun timers s =>
                 if named s
                 then Discovery.clearTimeout (DiscoveredService.ttlTimer s) timers
                 else timers)
              (Discovery.services w) (Discovery.timers w) !! t = Some s →
            s ∈ map (fun s => if named s then service' else s)
                    (Discovery.services w)
            ∧ DiscoveredService.ttlTimer s = Some t
            ∧ (t < Discovery.nextTimer w)%nat).
  { intros service' t s [Hlook Hall]%cleared_lookup.
    destruct (Ht _ _ Hlook) as [Hin Htt].
    split; [|split; [done|by eapply Hn]].
    rewrite Forall_forall in Hall.
    apply list_elem_of_In, in_map_iff. exists s.
    split; [|by apply list_elem_of_In]. cbn beta.
    destruct (named s) eqn:E; [|done]. by destruct (Hall s Hin E). }
  unfold Discovery.setupTTLTimer.
  cbn [Discovery.nextTimer Discovery.services Discovery.timers
       Discovery.emitted].
  destruct (DiscoveredService.ttl service) as [ttl|];
    split; cbn [Discovery.services Discovery.timers Discovery.emitted
                Discovery.nextTimer].
  - by rewrite Hkeys.
  - by apply Hmatches.
  - intros t s [[<- <-]|[Hne Hlook]]%lookup_insert_Some.
    + split; [|done]. apply Exists_exists in Hold as (x & Hx & Hk).
      apply list_elem_of_In, in_map_iff. exists x.
      split; [|by apply list_elem_of_In].
      cbn beta. pose proof (proj2 (Hnamed x) Hk) as Hnx. unfold named in Hnx.
      by rewrite Hnx.
    + by destruct (Hstays (DiscoveredService.set_ttlTimer
                             (Some (Discovery.nextTimer w)) service)
                     _ _ Hlook) as (? & ? & _).
  - intros t s [[<- <-]|[Hne Hlook]]%lookup_insert_Some; [lia|].
    destruct (Hstays service _ _ Hlook) as (_ & _ & ?). lia.
  - by rewrite tracked_snoc, Htr, Hkeys.
  - by rewrite Hkeys.
  - by apply Hmatches.
  - intros t s Hlook. by destruct (Hstays service _ _ Hlook) as (? & ? & _).
  - intros t s Hlook. by destruct (Hstays service _ _ Hlook) as (_ & _ & ?).
  - by rewrite tracked_snoc, Htr, Hkeys.
Qed.

Lemma named_existsb service l :
  existsb
    (fun s =>
       nameEquals (DiscoveredService.fqdn s) (DiscoveredService.fqdn service)) l
  = true
  ↔ Exists (fun s => nameKey s = nameKey service) l.
Proof.
  rewrite existsb_exists, Exists_exists. split.
  - intros (s & Hs%list_elem_of_In & Hk%nameEquals_key). eauto.
  - intros (s & Hs%list_elem_of_In & Hk%nameEquals_key). eauto.
Qed.

Lemma discover_kept w service :
  wellKept test runtime filter w →
  wellKept test runtime filter (Discovery.discover test runtime filter w service).
Proof.
  intros Hw. unfold Discovery.discover.
  destruct (existsb _ _) eqn:E.
  - apply updateService_kept; [done|]. by apply named_existsb.
  - apply addService_kept; [done|]. apply Forall_forall. intros s Hs Hk.
    apply not_true_iff_false in E. apply E, named_existsb, Exists_exists.
    eauto.
Qed.

Lemma goodbye_kept w answer :
  wellKept test runtime filter w → wellKept test runtime filter (Discovery.goodbye w answer).
Proof.
  intros Hw. unfold Discovery.goodbye.
  destruct (type answer), (data answer); try done.
  destruct (_ =? _)%Z; [|done]. by apply removeService_kept.
Qed.

Lemma fold_kept {A} (f : Discovery.World → A → Discovery.World) l w :
  (∀ w x, wellKept test runtime filter w → wellKept test runtime filter (f w x)) →
  wellKept test runtime filter w → wellKept test runtime filter (fold_left f l w).
Proof.
  intros Hf. revert w. induction l as [|x l IH]; intros w Hw; [done|].
  cbn [fold_left]. by apply IH, Hf.
Qed.

Lemma onresponse_kept packet rinfo now w w' :
  wellKept test runtime filter w →
  Discovery.onresponse test runtime filter packet rinfo now w = Ok w' →
  wellKept test runtime filter w'.
Proof.
  intros Hw. unfold Discovery.onresponse.
  destruct (DiscoveredService.fromResponse runtime packet rinfo now); [|done].
  intros [= <-]. apply fold_kept; [apply discover_kept|].
  apply fold_kept; [apply goodbye_kept|done].
Qed.

Lemma ontimeout_kept timer now w :
  wellKept test runtime filter w → wellKept test runtime filter (Discovery.ontimeout timer now w).
Proof.
  intros Hw. unfold Discovery.ontimeout.
  destruct (Discovery.timers w !! timer) as [service|] eqn:E; [|done].
  assert (Hdel : wellKept test runtime filter
                   (Discovery.mkWorld (Discovery.services w)
                      (delete timer (Discovery.timers w)) (Discovery.emitted w)
                      (Discovery.nextTimer w))).
  { destruct Hw as [Hd Hm Ht Hn Htr]. split; try done;
      cbn [Discovery.services Discovery.timers Discovery.nextTimer].
    - intros t s [_ Hlook]%lookup_delete_Some. by apply Ht.
    - intros t s [_ Hlook]%lookup_delete_Some. by eapply Hn. }
  destruct (DiscoveredService.expired service now); [|done].
  by apply removeService_kept.
Qed.

Lemma exec_kept inputs w w' :
  wellKept test runtime filter w →
  Discovery.exec test runtime filter w inputs = Ok w' → wellKept test runtime filter w'.
Proof.
  revert w. induction inputs as [|input inputs IH]; intros w Hw.
  - by intros [= <-].
  - cbn [Discovery.exec].
    destruct (Discovery.step test runtime filter w input) as [w1|] eqn:E; [|done].
    apply IH. destruct input as [packet rinfo now|timer now];
      cbn [Discovery.step] in E.
    + by eapply onresponse_kept.
    + injection E as <-. by apply ontimeout_kept.
Qed.

Lemma started_kept : wellKept test runtime filter Discovery.started.
Proof.
  split; cbn;
    first [ done | constructor
          | intros t s Hlook; by rewrite lookup_empty in Hlook ].
Qed.

End kept.

(** X25.  Whatever responses and timers a started browser has handled,
    its services have pairwise different names, up to ASCII case, each of
    them passes the filter, and their names are those that the events
    ['up'] and ['down'] emitted so far leave up, in the order of the
    list. *)
Theorem services_kept test runtime filter inputs w :
  Discovery.exec test runtime filter Discovery.started inputs = Ok w →
  NoDup (nameKey <$> Discovery.services w)
  ∧ Forall (fun s => Discovery.match_ test runtime filter s = true)
           (Discovery.services w)
  ∧ tracked (Discovery.emitted w) = nameKey <$> Discovery.services w.
Proof.
  intros Hrun.
  destruct (exec_kept test runtime filter inputs _ _ (started_kept test runtime filter) Hrun)
    as [Hd Hm _ _ Htr].
  done.
Qed.

Lemma stop_lookup l (timers : gmap nat DiscoveredService.t) t s :
  fold_left
    (fun timers service =>
       Discovery.clearTimeout (DiscoveredService.ttlTimer service) timers)
    l timers !! t = Some s
  ↔ timers !! t = Some s
    ∧ Forall (fun x => DiscoveredService.ttlTimer x ≠ Some t) l.
Proof.
  revert timers. induction l as [|x l IH]; intros timers; cbn [fold_left].
  - split; [by intros ? | by intros [? _]].
  - rewrite IH, Forall_cons, clearTimeout_lookup. split.
    + intros [[? ?] ?]. auto.
    + intros (? & ? & ?). auto.
Qed.

(** X26.  Every pending TTL timer of a started browser is the timer of
    a service of its list, so that [stop], which clears the timers of the
    listed services, leaves no timer pending; it empties the list and emits
    nothing. *)
Theorem stop_clears_timers test runtime filter inputs w :
  Discovery.exec test runtime filter Discovery.started inputs = Ok w →
  (∀ timer s, Discovery.timers w !! timer = Some s →
     s ∈ Discovery.services w ∧ DiscoveredService.ttlTimer s = Some timer)
  ∧ Discovery.timers (Discovery.stop w) = ∅
  ∧ Discovery.services (Discovery.stop w) = []
  ∧ Discovery.emitted (Discovery.stop w) = Discovery.emitted w.
Proof.
  intros Hrun.
  destruct (exec_kept test runtime filter inputs _ _ (started_kept test runtime filter) Hrun)
    as [_ _ Ht _ _].
  split; [done|]. split; [|done].
  apply map_empty. intros t. apply eq_None_not_Some. intros [s Hs].
  cbn [Discovery.stop Discovery.timers] in Hs.
  apply stop_lookup in Hs as [Hlook Hall].
  destruct (Ht _ _ Hlook) as [Hin Htt].
  rewrite Forall_forall in Hall. by destruct (Hall s Hin).
Qed.

(** ** The TTL timers *)

Lemma keys_inj l x y :
  NoDup (nameKey <$> l) → x ∈ l → y ∈ l → nameKey x = nameKey y → x = y.
Proof.
  induction l as [|z l IH]; [by intros _ ?%elem_of_nil|].
  rewrite fmap_cons. intros [Hz Hl]%NoDup_cons.
  intros [->|Hx]%elem_of_cons [->|Hy]%elem_of_cons Hk; [done|..].
  - destruct Hz. rewrite Hk. by apply list_elem_of_fmap_2.
  - destruct Hz. rewrite <- Hk. by apply list_elem_of_fmap_2.
  - by apply IH.
Qed.

Lemma services_remove before s after :
  NoDup (nameKey <$> before ++ s :: after) →
  filter (fun x => nameKey x ≠ nameKey s) (before ++ s :: after)
  = before ++ after.
Proof.
  intros Hd.
  assert (Hother : ∀ l : list DiscoveredService.t,
                     (∀ x, x ∈ l → x ∈ before ++ s :: after ∧ x ≠ s) →
                        filter (fun x => nameKey x ≠ nameKey s) l = l).
  { induction l as [|x l IH]; intros Hl; [done|].
    destruct (Hl x) as [Hx Hne]; [by left|].
    rewrite filter_cons_True.
    - rewrite IH; [done|]. intros y Hy. apply Hl. by right.
    - intros Hk. apply Hne. apply (keys_inj _ _ _ Hd Hx); [|done].
      apply elem_of_app. right. by left. }
  rewrite filter_app, filter_cons_False by (by intros ?).
  rewrite fmap_app, fmap_cons in Hd.
  apply NoDup_app in Hd as (Hb & Hs & Ha). apply NoDup_cons in Ha as [Hsa Ha].
  assert (Hnb : s ∉ before).
  { intros Hin. apply (Hs (nameKey s)); [by apply list_elem_of_fmap_2|by left]. }
  assert (Hna : s ∉ after).
  { intros Hin. apply Hsa. by apply list_elem_of_fmap_2. }
  rewrite !Hother; [done|..].
  - intros x Hx. split; [apply elem_of_app; right; by right|by intros ->].
  - intros x Hx. split; [apply elem_of_app; by left|by intros ->].
Qed.

(** [removeService] on the name of a listed service. *)
Lemma removeService_listed w s :
  NoDup (nameKey <$> Discovery.services w) → s ∈ Discovery.services w →
  Discovery.removeService (DiscoveredService.fqdn s) w
  = Discovery.mkWorld
      (filter (fun x => nameKey x ≠ nameKey s) (Discovery.services w))
      (Discovery.clearTimeout (DiscoveredService.ttlTimer s) (Discovery.timers w))
      (Discovery.emitted w ++ [Discovery.Down s]) (Discovery.nextTimer w).
Proof.
  intros Hd Hin. unfold Discovery.removeService.
  destruct (findService_is_Some (DiscoveredService.fqdn s) _ s Hin eq_refl)
    as [[[before s'] after] E].
  rewrite E. apply findService_Some in E as (Hl & Hs' & _).
  assert (s' = s) as ->.
  { apply (keys_inj _ _ _ Hd); [|done..].
    rewrite Hl. apply elem_of_app. right. by left. }
  rewrite Hl in Hd |- *. by rewrite services_remove.
Qed.

(** X27.  When the TTL timer of a service comes due and the service has
    expired, the service leaves the list, ['down'] is emitted with it and
    the timer is no longer pending; the other services and timers stay. *)
Theorem ttl_expiry test runtime filter inputs w timer s now :
  Discovery.exec test runtime filter Discovery.started inputs = Ok w →
  Discovery.timers w !! timer = Some s →
  DiscoveredService.expired s now = true →
  s ∈ Discovery.services w
  ∧ Discovery.ontimeout timer now w
    = Discovery.mkWorld
        (base.filter (fun x => nameKey x ≠ nameKey s) (Discovery.services w))
        (delete timer (Discovery.timers w))
        (Discovery.emitted w ++ [Discovery.Down s]) (Discovery.nextTimer w).
Proof.
  intros Hrun Hlook Hexp.
  destruct (exec_kept test runtime filter inputs _ _ (started_kept test runtime filter) Hrun)
    as [Hd _ Ht _ _].
  destruct (Ht _ _ Hlook) as [Hin Htt]. split; [done|].
  unfold Discovery.ontimeout. rewrite Hlook, Hexp.
  rewrite removeService_listed by done.
  cbn [Discovery.services Discovery.timers Discovery.emitted
       Discovery.nextTimer].
  rewrite Htt. cbn [Discovery.clearTimeout]. by rewrite delete_delete_eq.
Qed.

(** The service is listed and none of the pending timers is its own. *)
Lemma timerless_ontimeout test runtime filter s timer now w :
  wellKept test runtime filter w →
  s ∈ Discovery.services w →
  (∀ t, Discovery.timers w !! t ≠ Some s) →
  s ∈ Discovery.services (Discovery.ontimeout timer now w)
  ∧ ∀ t, Discovery.timers (Discovery.ontimeout timer now w) !! t ≠ Some s.
Proof.
  intros [Hd _ Ht _ _] Hin Hnone. unfold Discovery.ontimeout.
  destruct (Discovery.timers w !! timer) as [x|] eqn:Hx; [|done].
  destruct (Ht _ _ Hx) as [Hxin Hxt].
  assert (Hdel : ∀ t, delete timer (Discovery.timers w) !! t ≠ Some s).
  { intros t [_ Hs]%lookup_delete_Some. by apply (Hnone t). }
  destruct (DiscoveredService.expired x now); [|done].
  rewrite removeService_listed by done.
  cbn [Discovery.services Discovery.timers]. split.
  - apply list_elem_of_filter. split; [|done]. intros Hk.
    apply (Hnone timer). rewrite Hx. f_equal. by apply (keys_inj _ _ _ Hd).
  - intros t [Hs _]%clearTimeout_lookup. by apply (Hdel t).
Qed.

Lemma timerless_exec test runtime filter s timeouts w :
  Forall isTimeout timeouts →
  wellKept test runtime filter w →
  s ∈ Discovery.services w →
  (∀ t, Discovery.timers w !! t ≠ Some s) →
  ∃ w', Discovery.exec test runtime filter w timeouts = Ok w'
        ∧ s ∈ Discovery.services w'.
Proof.
  intros Hall. revert w.
  induction Hall as [|input timeouts Hin _ IH]; intros w Hw Hs Hnone.
  - by exists w.
  - destruct input as [|timer now]; [done|]. cbn [Discovery.exec Discovery.step].
    destruct (timerless_ontimeout test runtime filter s timer now w Hw Hs Hnone).
    apply IH; [by apply ontimeout_kept|done..].
Qed.

(** X28.  When the TTL timer of a service comes due and the service has
    not expired ([Date.now()] is not beyond [lastSeen + ttl * 1000]), the
    service stays in the list without a timer: whatever timers come due
    afterwards, at whatever time, it is still listed. *)
Theorem timer_before_expiry test runtime filter inputs w timer s now timeouts :
  Discovery.exec test runtime filter Discovery.started inputs = Ok w →
  Discovery.timers w !! timer = Some s →
  DiscoveredService.expired s now = false →
  Forall isTimeout timeouts →
  ∃ w', Discovery.exec test runtime filter w (Discovery.Timeout timer now :: timeouts)
        = Ok w'
        ∧ s ∈ Discovery.services w'.
Proof.
  intros Hrun Hlook Hexp Hall.
  pose proof (exec_kept test runtime filter inputs _ _ (started_kept test runtime filter) Hrun)
    as Hw.
  destruct (kept_timers _ _ _ _ Hw _ _ Hlook) as [Hin Htt].
  cbn [Discovery.exec Discovery.step].
  apply timerless_exec; [done|by apply ontimeout_kept|..];
    unfold Discovery.ontimeout; rewrite Hlook, Hexp;
    cbn [Discovery.services Discovery.timers]; [done|].
  intros t [Hne Hs]%lookup_delete_Some.
  destruct (kept_timers _ _ _ _ Hw _ _ Hs) as [_ Htt']. congruence.
Qed.

(** ** Goodbye packets *)

Lemma fromResponse_goodbye (runtime : Runtime) packet rinfo now :
  (∀ r, r ∈ answers packet ++ additionals packet → (ttl r ≤ 0)%Z) →
  DiscoveredService.fromResponse runtime packet rinfo now = Ok [].
Proof.
  intros Hall. unfold DiscoveredService.fromResponse. cbn zeta.
  replace (DiscoveredService.validAnswers packet) with (@nil MDNSRecord);
    [done|].
  symmetry. unfold DiscoveredService.validAnswers.
  induction (answers packet ++ additionals packet) as [|r l IH]; [done|].
  cbn [List.filter]. destruct (Z.ltb_spec 0 (ttl r)) as [Hr|_].
  - specialize (Hall r (list_elem_of_here _ _)). lia.
  - apply IH. intros x Hx. apply Hall. by right.
Qed.

Lemma filter_all {A} (P : A → Prop) `{∀ x, Decision (P x)} (l : list A) :
  Forall P l → base.filter P l = l.
Proof.
  induction 1 as [|x l Hx _ IH]; [done|].
  by rewrite filter_cons_True, IH.
Qed.

Section goodbye.
Variable test : jstring → jstring → bool.
Variable runtime : Runtime.
Variable filter : option Browser.BrowserFilter.

Lemma goodbye_step w r :
  wellKept test runtime filter w →
  Discovery.services (Discovery.goodbye w r)
  = base.filter (fun x => goodbyeFor x r = false) (Discovery.services w)
  ∧ (∃ downs,
       Discovery.emitted (Discovery.goodbye w r)
       = Discovery.emitted w ++ (Discovery.Down <$> downs)
       ∧ ∀ x, x ∈ downs ↔ x ∈ Discovery.services w ∧ goodbyeFor x r = true)
  ∧ ∀ t x, Discovery.timers (Discovery.goodbye w r) !! t = Some x →
           Discovery.timers w !! t = Some x ∧ goodbyeFor x r = false.
Proof.
  intros Hw.
  assert (Hsame : (∀ x, x ∈ Discovery.services w → goodbyeFor x r = false) →
            Discovery.goodbye w r = w →
            Discovery.services (Discovery.goodbye w r)
            = base.filter (fun x => goodbyeFor x r = false) (Discovery.services w)
            ∧ (∃ downs,
                 Discovery.emitted (Discovery.goodbye w r)
                 = Discovery.emitted w ++ (Discovery.Down <$> downs)
                 ∧ ∀ x, x ∈ downs
                        ↔ x ∈ Discovery.services w ∧ goodbyeFor x r = true)
            ∧ ∀ t x, Discovery.timers (Discovery.goodbye w r) !! t = Some x →
                     Discovery.timers w !! t = Some x ∧ goodbyeFor x r = false).
  { intros Hno ->. split; [|split].
    - symmetry. apply filter_all. by apply Forall_forall. 
    - exists []. cbn. rewrite app_nil_r. split; [done|]. intros x. split.
      + by intros ?%elem_of_nil.
      + intros [Hx Hg]. rewrite (Hno x Hx) in Hg. done.
    - intros t x Hx. split; [done|]. apply Hno. by apply (kept_timers _ _ _ _ Hw t). }
  unfold Discovery.goodbye, goodbyeFor in *.
  destruct (type r), (data r) as [fqdn| |]; try (by apply Hsame).
  destruct (Z.eqb_spec (ttl r) 0) as [Hz|Hz]; [|by apply Hsame].
  cbn [andb] in *. unfold Discovery.removeService in *.
  destruct (Discovery.findService fqdn (Discovery.services w))
    as [[[before s] after]|] eqn:E.
  2:{ apply Hsame; [|done]. apply findService_None in E.
      rewrite Forall_forall in E. intros x Hx.
      by apply nameEquals_key_false, E. }
  clear Hsame. destruct Hw as [Hd _ Ht _ _].
  apply findService_Some in E as (Hl & Hs & _).
  cbn [Discovery.services Discovery.timers Discovery.emitted].
  assert (Hiff : ∀ x, nameEquals (DiscoveredService.fqdn x) fqdn = false
                      ↔ nameKey x ≠ nameKey s).
  { intros x. rewrite Hs. apply nameEquals_key_false. }
  split; [|split].
  - rewrite (list_filter_iff _ (fun x => nameKey x ≠ nameKey s)) by done.
    rewrite Hl in Hd |- *. by rewrite services_remove.
  - exists [s]. split; [done|]. intros x. rewrite list_elem_of_singleton.
    split.
    + intros ->. split; [rewrite Hl; apply elem_of_app; right; by left|].
      by apply nameEquals_key.
    + intros [Hx Hk%nameEquals_key]. apply (keys_inj _ _ _ Hd); [done| |congruence].
      rewrite Hl. apply elem_of_app. right. by left.
  - intros t x [Hlook Hne]%clearTimeout_lookup. split; [done|].
    destruct (Ht _ _ Hlook) as [Hx Hxt]. apply Hiff. intros Hk.
    apply Hne. rewrite <- Hxt. f_equal. symmetry.
    apply (keys_inj _ _ _ Hd); [done| |done].
    rewrite Hl. apply elem_of_app. right. by left.
Qed.

Lemma goodbye_fold records w :
  wellKept test runtime filter w →
  Discovery.services (fold_left Discovery.goodbye records w)
  = base.filter (fun x => existsb (goodbyeFor x) records = false)
      (Discovery.services w)
  ∧ (∃ downs,
       Discovery.emitted (fold_left Discovery.goodbye records w)
       = Discovery.emitted w ++ (Discovery.Down <$> downs)
       ∧ ∀ x, x ∈ downs
              ↔ x ∈ Discovery.services w
                ∧ existsb (goodbyeFor x) records = true)
  ∧ ∀ t x, Discovery.timers (fold_left Discovery.goodbye records w) !! t
           = Some x →
           Discovery.timers w !! t = Some x
           ∧ existsb (goodbyeFor x) records = false.
Proof.
  revert w. induction records as [|r records IH]; intros w Hw.
  - cbn [fold_left existsb]. split; [|split].
    + symmetry. apply filter_all. by apply Forall_forall.
    + exists []. cbn. rewrite app_nil_r. split; [done|]. intros x.
      split; [by intros ?%elem_of_nil | by intros [_ ?]].
    + done.
  - cbn [fold_left existsb].
    destruct (goodbye_step w r Hw) as (Hs1 & (d1 & He1 & Hd1) & Ht1).
    destruct (IH _ (goodbye_kept test runtime filter w r Hw))
      as (Hs2 & (d2 & He2 & Hd2) & Ht2).
    split; [|split].
    + rewrite Hs2, Hs1, list_filter_filter. apply list_filter_iff.
      intros x. rewrite orb_false_iff. tauto.
    + exists (d1 ++ d2). rewrite He2, He1, fmap_app, app_assoc.
      split; [done|]. intros x.
      rewrite elem_of_app, Hd1, Hd2, Hs1, list_elem_of_filter, orb_true_iff.
      destruct (goodbyeFor x r); intuition congruence.
    + intros t x Hx. destruct (Ht2 _ _ Hx) as [Hx1 Hg2].
      destruct (Ht1 _ _ Hx1) as [Hx0 Hg1]. split; [done|].
      by rewrite Hg1, Hg2.
Qed.

End goodbye.

(** X29.  A packet with no record of positive time to live takes out of
    the list the services that one of its PTR records names with a time
    to live of 0, up to ASCII case, and no other; for each of them ['down']
    is emitted, and nothing else is; no timer of a service taken out stays
    pending. *)
Theorem goodbye_packet test runtime filter inputs w packet rinfo now :
  Discovery.exec test runtime filter Discovery.started inputs = Ok w →
  (∀ r, r ∈ answers packet ++ additionals packet → (ttl r ≤ 0)%Z) →
  ∃ w' downs,
    Discovery.onresponse test runtime filter packet rinfo now w = Ok w'
    ∧ Discovery.services w'
      = base.filter (fun x => saidGoodbye packet x = false)
          (Discovery.services w)
    ∧ Discovery.emitted w' = Discovery.emitted w ++ (Discovery.Down <$> downs)
    ∧ (∀ x, x ∈ downs ↔ x ∈ Discovery.services w ∧ saidGoodbye packet x = true)
    ∧ ∀ t x, Discovery.timers w' !! t = Some x →
             Discovery.timers w !! t = Some x ∧ saidGoodbye packet x = false.
Proof.
  intros Hrun Hall.
  pose proof (exec_kept test runtime filter inputs _ _ (started_kept test runtime filter) Hrun)
    as Hw.
  destruct (goodbye_fold test runtime filter (answers packet ++ additionals packet) w Hw)
    as (Hs & (downs & He & Hd) & Ht).
  eexists _, downs. unfold Discovery.onresponse.
  rewrite fromResponse_goodbye by done. cbn [fold_left]. done.
Qed.

(** ** From the registry to the browser *)

Lemma goodbye_positive records w :
  Forall (fun r => ttl r ≠ 0%Z) records →
  fold_left Discovery.goodbye records w = w.
Proof.
  induction 1 as [|r records Hr _ IH]; [done|]. cbn [fold_left].
  replace (Discovery.goodbye w r) with w; [done|].
  unfold Discovery.goodbye. destruct (type r), (data r); try done.
  by destruct (Z.eqb_spec (ttl r) 0).
Qed.

Lemma goodbye_empty records w :
  Discovery.services w = [] → fold_left Discovery.goodbye records w = w.
Proof.
  intros Hw. induction records as [|r records IH]; [done|]. cbn [fold_left].
  replace (Discovery.goodbye w r) with w; [done|].
  unfold Discovery.goodbye, Discovery.removeService. rewrite Hw.
  destruct (type r), (data r); try done. by destruct (_ =? _)%Z.
Qed.

Section seen.
Variable test : jstring → jstring → bool.
Variable runtime : Runtime.
Variables (s : Service.t) (T : jstring).
Variable ifaces : list (list Service.NetworkInterfaceInfo).
Variable referer : DiscoveredService.RemoteInfo.
Variable now : Z.

(** The browser hears again of the one service of its list. *)
Lemma discover_again i events :
  Discovery.discover test runtime None
    (Discovery.mkWorld [discoveredAt s T ifaces referer now i]
       {[ i := discoveredAt s T ifaces referer now i ]} events (S i))
    (discovered s T ifaces referer now)
  = Discovery.mkWorld [discoveredAt s T ifaces referer now (S i)]
      {[ S i := discoveredAt s T ifaces referer now (S i) ]}
      (events ++ [Discovery.Update (discoveredAt s T ifaces referer now (S i))])
      (S (S i)).
Proof.
  unfold Discovery.discover, Discovery.updateService.
  cbn [Discovery.services existsb Discovery.match_ negb].
  change (DiscoveredService.fqdn (discoveredAt s T ifaces referer now i))
    with (DiscoveredService.fqdn (discovered s T ifaces referer now)).
  rewrite nameEquals_refl. cbn [orb fold_left Discovery.timers].
  change (DiscoveredService.ttlTimer (discoveredAt s T ifaces referer now i))
    with (Some i).
  cbn [Discovery.clearTimeout]. rewrite delete_singleton_eq.
  unfold Discovery.setupTTLTimer.
  cbn [DiscoveredService.ttl discovered Discovery.nextTimer Discovery.services
       Discovery.timers Discovery.emitted map].
  change (DiscoveredService.fqdn (discoveredAt s T ifaces referer now i))
    with (DiscoveredService.fqdn (discovered s T ifaces referer now)).
  rewrite nameEquals_refl, insert_empty. done.
Qed.

Lemma discover_replicate j i events :
  fold_left (Discovery.discover test runtime None)
    (replicate j (discovered s T ifaces referer now))
    (Discovery.mkWorld [discoveredAt s T ifaces referer now i]
       {[ i := discoveredAt s T ifaces referer now i ]} events (S i))
  = Discovery.mkWorld [discoveredAt s T ifaces referer now (i + j)]
      {[ (i + j)%nat := discoveredAt s T ifaces referer now (i + j) ]}
      (events
       ++ ((fun timer =>
              Discovery.Update (discoveredAt s T ifaces referer now timer))
           <$> seq (S i) j))
      (S (i + j)).
Proof.
  revert i events. induction j as [|j IH]; intros i events.
  - cbn [replicate fold_left seq fmap list_fmap].
    by rewrite Nat.add_0_r, app_nil_r.
  - cbn [replicate fold_left seq fmap list_fmap].
    rewrite discover_again, IH, <- app_assoc.
    by replace (S i + j)%nat with (i + S j)%nat by lia.
Qed.

End seen.

(** X30.  A browser without a filter that receives the records of a
    service with [k] subtypes in one packet lists the service once, emits
    ['up'] once and then ['update'] [k] times, once for each further PTR
    record that names the service, and keeps one timer pending, the last
    one set.  When it then receives the same records with a time to live
    of 0, it empties its list, emits ['down'] once and has no timer left.
    The service is as in X24: plain labels, a positive time to live, no
    TXT item with the key [__proto__]. *)
Theorem announced_then_goodbye test (runtime : Runtime) options hostname ifaces
    s referer now later :
  Service.new options hostname = Ok s →
  roundTrips (Service.opt_type options) (Service.protocol s) None →
  Forall plainSubtype (Service.subtypes s) →
  (0 < Service.ttl s)%Z →
  hasProtoKey (announcedTxt s) = false →
  let d := discoveredAt s (Service.opt_type options) ifaces referer now in
  let k := length (Service.subtypes s) in
  ∃ w w',
    Discovery.step test runtime None Discovery.started
      (Discovery.Response (announcement s ifaces) referer now) = Ok w
    ∧ Discovery.services w = [d k]
    ∧ Discovery.emitted w
      = Discovery.Up (d 0%nat)
        :: ((fun timer => Discovery.Update (d timer)) <$> seq 1 k)
    ∧ Discovery.timers w = {[ k := d k ]}
    ∧ Discovery.step test runtime None w
        (Discovery.Response (farewell s ifaces) referer later) = Ok w'
    ∧ Discovery.services w' = []
    ∧ Discovery.emitted w' = Discovery.emitted w ++ [Discovery.Down (d k)]
    ∧ Discovery.timers w' = ∅.
Proof.
  intros Hnew Hplain Hsubs Httl Hproto d k.
  pose proof (new_namedAs _ _ _ Hnew) as Hs.
  set (events := Discovery.Up (d 0%nat)
                 :: ((fun timer => Discovery.Update (d timer)) <$> seq 1 k)).
  exists (Discovery.mkWorld [d k] {[ k := d k ]} events (S k)).
  exists (Discovery.mkWorld [] ∅ (events ++ [Discovery.Down (d k)]) (S k)).
  cbn [Discovery.services Discovery.timers Discovery.emitted].
  split; [|split; [done|split; [done|split; [done|split; [|done]]]]].
  - unfold Discovery.step, Discovery.onresponse, announcement.
    cbn [answers additionals]. rewrite app_nil_r.
    rewrite goodbye_positive.
    2:{ apply Forall_forall. intros r Hr%getRecords_ttl. lia. }
    rewrite (fromResponse_announced s _ Hs Hplain runtime Hproto ifaces referer
               now Hsubs Httl).
    cbn [replicate fold_left]. f_equal.
    unfold Discovery.discover at 2, Discovery.addService, Discovery.setupTTLTimer.
    cbn [Discovery.started Discovery.services existsb Discovery.match_ negb
         DiscoveredService.ttl discovered Discovery.nextTimer Discovery.timers
         Discovery.emitted app].
    rewrite insert_empty.
    exact (discover_replicate test runtime s _ ifaces referer now k 0 _).
  - unfold Discovery.step, Discovery.onresponse, farewell.
    cbn [answers additionals]. rewrite app_nil_r.
    rewrite fromResponse_goodbye.
    2:{ cbn [answers additionals]. rewrite app_nil_r.
        by intros r (x & -> & _)%list_elem_of_fmap. }
    cbn [fold_left]. f_equal. unfold Service.getRecords. cbn zeta.
    cbn [app fmap list_fmap].
    match goal with
    | |- fold_left _ (_ :: ?l) _ = _ => generalize l
    end.
    intros rest. cbn [fold_left]. unfold Discovery.goodbye at 2.
    cbn [type data ttl withTtl0 Service.getRecordPTR Z.eqb].
    unfold Discovery.removeService.
    cbn [Discovery.services Discovery.findService].
    change (DiscoveredService.fqdn (d k)) with (Service.fqdn s).
    rewrite nameEquals_refl.
    cbn [Discovery.timers Discovery.emitted Discovery.nextTimer app].
    change (DiscoveredService.ttlTimer (d k)) with (Some k).
    cbn [Discovery.clearTimeout]. rewrite delete_singleton_eq.
    by apply goodbye_empty.
Qed.

(** ** The printer of the examples *)

Lemma announcement_discovered_witness :
  DiscoveredService.fromResponse exampleRuntime
    (mkPacket (Service.getRecords printer printerIfaces) []) demoReferer 1000
  = Ok (replicate 3 (discovered printer (js "ipp") printerIfaces demoReferer 1000)).
Proof.
  apply (announcement_discovered exampleRuntime printerOptions (js "host"));
    [ reflexivity | by repeat split | by repeat constructor | done
    | reflexivity ].
Defined.

Lemma services_kept_witness :
  NoDup (nameKey <$> Discovery.services printerSeen)
  ∧ Forall (fun s => Discovery.match_ noRegExp exampleRuntime (Some printerFilter) s = true)
           (Discovery.services printerSeen)
  ∧ tracked (Discovery.emitted printerSeen)
    = nameKey <$> Discovery.services printerSeen.
Proof.
  apply (services_kept noRegExp exampleRuntime (Some printerFilter) printerHeard).
  vm_compute. reflexivity.
Defined.

Lemma stop_clears_timers_witness :
  Discovery.timers printerSeen !! 2%nat = Some (printerAt 2)
  ∧ Discovery.timers (Discovery.stop printerSeen) = ∅.
Proof.
  split; [reflexivity|].
  apply (stop_clears_timers noRegExp exampleRuntime (Some printerFilter) printerHeard).
  vm_compute. reflexivity.
Defined.

Lemma ttl_expiry_witness :
  Discovery.ontimeout 2 121001 printerSeen
  = Discovery.mkWorld [] ∅
      (Discovery.emitted printerSeen ++ [Discovery.Down (printerAt 2)]) 3.
Proof.
  destruct (ttl_expiry noRegExp exampleRuntime (Some printerFilter) printerHeard printerSeen
              2%nat (printerAt 2) 121001) as [_ ->];
    [vm_compute; reflexivity | reflexivity | reflexivity |].
  vm_compute. reflexivity.
Defined.

Lemma timer_before_expiry_witness :
  DiscoveredService.expired (printerAt 2) 121000 = false
  ∧ ∃ w', Discovery.exec noRegExp exampleRuntime (Some printerFilter) printerSeen
            [Discovery.Timeout 2 121000; Discovery.Timeout 2 200000;
             Discovery.Timeout 0 200000]
          = Ok w'
          ∧ printerAt 2 ∈ Discovery.services w'.
Proof.
  split; [reflexivity|].
  apply (timer_before_expiry noRegExp exampleRuntime (Some printerFilter) printerHeard);
    [vm_compute; reflexivity | reflexivity | reflexivity
    | by repeat constructor].
Defined.

Lemma goodbye_packet_witness :
  saidGoodbye (farewell printer printerIfaces) (printerAt 2) = true
  ∧ ∃ w' downs,
      Discovery.onresponse noRegExp exampleRuntime (Some printerFilter)
        (farewell printer printerIfaces) demoReferer 5000 printerSeen = Ok w'
      ∧ Discovery.services w'
        = base.filter
            (fun x => saidGoodbye (farewell printer printerIfaces) x = false)
            (Discovery.services printerSeen)
      ∧ Discovery.emitted w'
        = Discovery.emitted printerSeen ++ (Discovery.Down <$> downs)
      ∧ (∀ x, x ∈ downs
              ↔ x ∈ Discovery.services printerSeen
                ∧ saidGoodbye (farewell printer printerIfaces) x = true)
      ∧ ∀ t x, Discovery.timers w' !! t = Some x →
               Discovery.timers printerSeen !! t = Some x
               ∧ saidGoodbye (farewell printer printerIfaces) x = false.
Proof.
  split; [reflexivity|].
  apply (goodbye_packet noRegExp exampleRuntime (Some printerFilter) printerHeard).
  - vm_compute. reflexivity.
  - intros r Hr. unfold farewell in Hr. cbn [answers additionals] in Hr.
    rewrite app_nil_r in Hr. by apply list_elem_of_fmap in Hr as (x & -> & _).
Defined.

Lemma announced_then_goodbye_witness :
  ∃ w w',
    Discovery.step noRegExp exampleRuntime None Discovery.started
      (Discovery.Response (announcement printer printerIfaces) demoReferer 1000)
    = Ok w
    ∧ Discovery.services w = [printerAt 2]
    ∧ Discovery.emitted w
      = [Discovery.Up (printerAt 0); Discovery.Update (printerAt 1);
         Discovery.Update (printerAt 2)]
    ∧ Discovery.timers w = {[ 2%nat := printerAt 2 ]}
    ∧ Discovery.step noRegExp exampleRuntime None w
        (Discovery.Response (farewell printer printerIfaces) demoReferer 5000)
      = Ok w'
    ∧ Discovery.services w' = []
    ∧ Discovery.emitted w' = Discovery.emitted w ++ [Discovery.Down (printerAt 2)]
    ∧ Discovery.timers w' = ∅.
Proof.
  apply (announced_then_goodbye noRegExp exampleRuntime printerOptions
           (js "host") printerIfaces printer demoReferer 1000 5000);
    [ reflexivity | by repeat split | by repeat constructor | done
    | reflexivity ].
Defined.

(** The filter reads [service.txt[key]] through the prototype chain: the
    printer, whose TXT data have the one key [paper], passes a filter
    that asks for a key [constructor] matching a regular expression, and
    fails one that asks for a key it neither owns nor inherits. *)
Example match_inherited_key :
  Discovery.match_ (fun _ _ => true) exampleRuntime
    (Some (Browser.mkFilter (js "tcp") (js "ipp") None None
             (Some [(js "constructor", Browser.PRegExp (js "Object"))])))
    (printerAt 2)
  = true
  ∧ Discovery.match_ (fun _ _ => true) exampleRuntime
      (Some (Browser.mkFilter (js "tcp") (js "ipp") None None
               (Some [(js "colour", Browser.PRegExp (js "Object"))])))
      (printerAt 2)
    = false.
Proof. split; vm_compute; reflexivity. Qed.
